(** * Sendai bus map: schedule engine

    A shallow embedding of the position-inference and arrival-resolution
    code of the repository:

    - the Go server ([package main]): [timeToSec], [isServiceRunningToday],
      [calculateBusPosition], [calculateAllBusPositions],
      [calculateBusPositionsInBounds] and the handlers of [/api/buses],
      [/api/trips/:routeId/:tripId] and [/api/stops/:stopId/timetable];
    - the TypeScript client: [timeToSec], [isServiceRunningToday] and
      [calculateBusPos] of [utils.ts], and the arrival list of
      [BusPanel.tsx].

    Go's [int] is a 64-bit integer with wrap-around. Its [float64] and the
    fractional numbers of JavaScript are IEEE 754 binary64 values, computed
    with the executable specification of the Standard Library
    ([SpecFloat]). Go maps and JSON objects are finite maps. *)

From Stdlib Require Import ZArith Lia Bool List Ascii String.
From Stdlib Require Import Floats.SpecFloat.
From stdpp Require Import base option list gmap strings sorting.

Local Open Scope Z_scope.

(* ===================================================================== *)
(** ** Machine integers *)

(** Go's [int] on the 64-bit targets of the server: two's complement. *)
Module Int64.

Definition min_int : Z := - 2 ^ 63.
Definition max_int : Z := 2 ^ 63 - 1.

(** The value an arithmetic result wraps to. *)
Definition wrap (z : Z) : Z := (z + 2 ^ 63) mod 2 ^ 64 - 2 ^ 63.

Definition add (a b : Z) : Z := wrap (a + b).
Definition sub (a b : Z) : Z := wrap (a - b).
Definition mul (a b : Z) : Z := wrap (a * b).

(** Saturation, as [strconv] and [time.Duration] clamp out-of-range
    results. *)
Definition clamp (z : Z) : Z := Z.max min_int (Z.min max_int z).

End Int64.

(* ===================================================================== *)
(** ** binary64 *)

Module F64.

Definition prec : Z := 53.
Definition emax : Z := 1024.

Definition float : Type := spec_float.

(** Conversion of an integer ([float64(n)] in Go; the number a JSON
    integer denotes in JavaScript): round to nearest, ties to even. *)
Definition of_int (z : Z) : float := binary_normalize prec emax z 0 false.

Definition add : float -> float -> float := SFadd prec emax.
Definition mul : float -> float -> float := SFmul prec emax.
Definition div : float -> float -> float := SFdiv prec emax.

(** [x <= y], false when either side is NaN. *)
Definition leb : float -> float -> bool := SFleb.

(** The value of [math.Floor] / [Math.floor]: an integer, an infinity or
    NaN. *)
Inductive integral : Type :=
| INaN
| IInf (negative : bool)
| IFin (z : Z).

Definition floor (x : float) : integral :=
  match x with
  | S754_nan => INaN
  | S754_infinity s => IInf s
  | S754_zero _ => IFin 0
  | S754_finite s m e => IFin (Z.shiftl (cond_Zopp s (Zpos m)) e)
  end.

(** The linear map of both interpolators,
    [floor(a + c * (n / d))], every operation rounded to binary64. *)
Definition lerp (a c n d : Z) : integral :=
  floor (add (of_int a) (mul (of_int c) (div (of_int n) (of_int d)))).

End F64.

(* ===================================================================== *)
(** ** Strings *)

Module Str.

Definition colon : ascii := ":"%char.
Definition pipe : ascii := "|"%char.

Definition is_digit (c : ascii) : bool :=
  let n := N_of_ascii c in (48 <=? n)%N && (n <=? 57)%N.

Definition digit_val (c : ascii) : Z := Z.of_N (N_of_ascii c) - 48.

Fixpoint all_digits (s : string) : bool :=
  match s with
  | EmptyString => true
  | String c s' => is_digit c && all_digits s'
  end.

(** Value of a run of decimal digits, most significant first. *)
Fixpoint digits_val (acc : Z) (s : string) : Z :=
  match s with
  | EmptyString => acc
  | String c s' => digits_val (10 * acc + digit_val c) s'
  end.

(** [strings.Split(s, sep)] and [s.split(sep)] for a one-character
    separator: the fields between the separators, at least one. *)
Fixpoint split (sep : ascii) (s : string) : list string :=
  match s with
  | EmptyString => [EmptyString]
  | String c s' =>
      if Ascii.eqb c sep then EmptyString :: split sep s'
      else match split sep s' with
           | f :: fs => String c f :: fs
           | [] => [String c EmptyString]
           end
  end.

(** [strings.Join(l, sep)] and [l.join(sep)]. *)
Definition join (sep : ascii) (l : list string) : string :=
  String.concat (String sep EmptyString) l.

(** [s.slice(i, j)] for [0 <= i <= j]. *)
Definition slice (i j : nat) (s : string) : string :=
  String.substring i (j - i) s.

(** Byte-wise lexicographic order: the [<] and [<=] of Go strings and, on
    ASCII text, of JavaScript strings. *)
Definition ltb (a b : string) : bool := String.ltb a b.
Definition leb (a b : string) : bool := String.leb a b.

End Str.

(* ===================================================================== *)
(** ** Vocabulary of the rounding analysis

    The binary64 operations of [F64] are the executable ones of
    [SpecFloat]. Their results are described here on integers: a
    non-negative float is measured in units of [2^-K], and a rounding to
    nearest, ties to even, is read off the rank of a quotient. *)

Module Rounding.

(** Rank of the rational [P/Q] among the integers and the open intervals
    between them: [2k] for the integer [k], [2k+1] inside [(k, k+1)]. *)
Definition rk (P Q : Z) : Z := 2 * (P / Q) + (if P mod Q =? 0 then 0 else 1).

(** The rank of half a number, from the rank of the number. *)
Definition half (p : Z) : Z := 2 * (p / 4) + (if p mod 4 =? 0 then 0 else 1).

(** A shifted mantissa with its round and sticky bits, as a rank of
    quarters. *)
Definition enc (mrs : shr_record) : Z :=
  4 * shr_m mrs + (2 * Z.b2z (shr_r mrs) + Z.b2z (shr_s mrs)).

(** Rounding to nearest, ties to even, of a rank of quarters. *)
Definition rne (p : Z) : Z :=
  let M := p / 4 in
  let c := p mod 4 in
  if c <=? 1 then M
  else if c =? 2 then (if Z.even M then M else M + 1)
  else M + 1.

(** Value of a non-negative float in units of [2^-K]. *)
Definition scaled (K : Z) (x : spec_float) : Z :=
  match x with
  | S754_finite false m e => Zpos m * 2 ^ (e + K)
  | _ => 0
  end.

(** [X/Y], in units of [2^-K], rounded to [prec] digits when it lies in
    the binade [2^(g-1) .. 2^g]. *)
Definition RN (prec K g X Y : Z) : Z :=
  rne (rk (2 * X) (Y * 2 ^ (g - prec + K))) * 2 ^ (g - prec + K).

(** [X/Y], in units of [2^-K], lies in the binade [2^(g-1) .. 2^g]. *)
Definition is_mag (K g X Y : Z) : Prop :=
  2 ^ (g - 1 + K) * Y <= X < 2 ^ (g + K) * Y.

(** [x] is the correctly rounded value of [X/Y] (in units of [2^-K]),
    a positive normal number. *)
Definition rounds_to (prec K : Z) (x : spec_float) (X Y : Z) : Prop :=
  exists m e g,
    x = S754_finite false m e /\
    Zpos (digits2_pos m) = prec /\
    0 < Y /\ 0 < X /\
    0 <= g - prec + K /\
    is_mag K g X Y /\
    g - prec <= e <= g - prec + 1 /\
    scaled K x = RN prec K g X Y.

(** Positive floats of [prec] digits and of an exponent within [B]. *)
Definition tame_at (prec B : Z) (x : spec_float) : Prop :=
  exists m e, x = S754_finite false m e /\
              Zpos (digits2_pos m) = prec /\ - B <= e <= B.

(** Zero or such a float of binary64. *)
Definition good (B : Z) (x : spec_float) : Prop :=
  x = S754_zero false \/ tame_at 53 B x.

(** A positive normal number that is at least [2^-53]. *)
Definition small (K B : Z) (x : spec_float) : Prop :=
  tame_at 53 B x /\ 2 ^ (-53 + K) <= scaled K x.

Definition zero_or (S : spec_float -> Prop) (x : spec_float) : Prop :=
  x = S754_zero false \/ S x.

(** Such a number that is at most 1, and at most [c]. *)
Definition unit_small (K B : Z) (x : spec_float) : Prop :=
  small K B x /\ scaled K x <= 2 ^ K.
Definition small_le (K B c : Z) (x : spec_float) : Prop :=
  small K B x /\ scaled K x <= c * 2 ^ K.

(** Floats that are not above zero: NaN, the zeros, the negative ones. *)
Definition not_above_zero (x : spec_float) : Prop :=
  match x with
  | S754_zero _ | S754_nan | S754_finite true _ _ | S754_infinity true => True
  | _ => False
  end.

End Rounding.


(* ===================================================================== *)
(** ** The schedule snapshot

    The JSON files of [data/] as the Go structs declare them; the
    interfaces of [types.ts] have the same fields in lower case. The
    stops of a trip, the flags of a calendar entry and the exceptions are
    arrays in every file, and are lists here. The two arrays of a shape
    can be missing: the server answers with the zero [ShapeData] for a
    pattern without geometry. *)

(** A slice of the server that may be [nil]; on the wire and on the client
    an array that may be [null]. [encoding/json] writes the nil slice as
    [null] and the empty slice as [[]], and reads them back so. *)
Inductive array (A : Type) : Type :=
| null
| elements (l : list A).
Arguments null {A}.
Arguments elements {A} l.

(** What [len] and an index see of a slice: nothing in the nil one. *)
Definition items {A} (a : array A) : list A :=
  match a with
  | null => []
  | elements l => l
  end.

(** A coordinate [[lng, lat]]: an array of numbers, never [null]. *)
Abbreviation coord := (list F64.float).

Record StopInfo := {
  Name : string;
  Yomi : string;
  Lat : F64.float;
  Lng : F64.float;
  Platform : string
}.

Record TripStop := {
  Time : string;
  StopID : string
}.

Record TripInfo := {
  Headsign : string;
  ServiceID : string;
  OfficeID : string;
  Via : string;
  Stops : list TripStop
}.

(** The fields under their JSON names, as the client tests them. *)
Record ShapeData := {
  coordinates : array coord;
  stop_indices : array Z
}.

(** The fields as the server reads them, [shape.Coordinates] and
    [shape.StopIndices]. *)
Definition Coordinates (shape : ShapeData) : list coord :=
  items (coordinates shape).
Definition StopIndices (shape : ShapeData) : list Z :=
  items (stop_indices shape).

Record CalendarEntry := {
  Days : list string;
  Start : string;
  End_ : string
}.

Record CalendarDateException := {
  exServiceID : string;
  exDate : string;
  ExceptionType : string
}.

Record ExtraData := {
  Offices : gmap string string;
  CalendarDates : list CalendarDateException
}.

Record RouteInfo := {
  ShortName : string;
  Color : string
}.

(** The six tables loaded at start-up: the package-level caches of the
    server, the [AppData] of the client. *)
Record Snapshot := {
  stopsCache : gmap string StopInfo;
  timetablesCache : gmap string (gmap string TripInfo);
  shapesCache : gmap string ShapeData;
  calendarCache : gmap string CalendarEntry;
  extraCache : ExtraData;
  routesCache : gmap string RouteInfo
}.

(** Pattern key: the stop ids of a trip joined by ["|"]. *)
Definition patternKey (stops : list TripStop) : string :=
  Str.join Str.pipe (map StopID stops).

(** All [(route id, trip id, trip)] of the nested timetable, in the order
    a traversal of the two maps meets them. Go leaves the order of a
    [range] over a map open; what is proved of the loops holds for every
    order. *)
Definition allTrips (tt : gmap string (gmap string TripInfo))
  : list (string * string * TripInfo) :=
  '(rid, trips) ← map_to_list tt;
  '(tid, trip) ← map_to_list trips;
  [(rid, tid, trip)].

(* ===================================================================== *)
(** ** The host clock *)

(** [time.Weekday] / [Date.prototype.getDay]: Sunday is 0. *)
Inductive Weekday :=
| Sunday | Monday | Tuesday | Wednesday | Thursday | Friday | Saturday.

Definition weekday_int (d : Weekday) : nat :=
  match d with
  | Sunday => 0 | Monday => 1 | Tuesday => 2 | Wednesday => 3
  | Thursday => 4 | Friday => 5 | Saturday => 6
  end%nat.

(** One reading of the local clock: the date as [now.Format("20060102")]
    prints it, the day of the week and the time of day; and the time zone
    of the host, as the offset of local time from UTC in milliseconds
    that is in force at the local midnight beginning a day, the day given
    by its number (day 0 is 0001-01-01). *)
Record Clock := {
  today : string;
  weekday : Weekday;
  hour : Z;
  minute : Z;
  second : Z;
  zone : Z -> Z
}.

(** [(weekday + 6) % 7]: the GTFS order of the week, Monday 0 to
    Sunday 6. *)
Definition gtfsDayIdx (clk : Clock) : nat :=
  ((weekday_int (weekday clk) + 6) mod 7)%nat.

(** Whether entry [idx] of the weekly flags is ["1"]; [None] when the list
    is shorter. *)
Definition dayFlag (cal : CalendarEntry) (idx : nat) : option bool :=
  (fun d => String.eqb d "1") <$> Days cal !! idx.

(** Whether an exception is for this date and this service. *)
Definition exceptionFor (ymd serviceID : string) (e : CalendarDateException)
  : bool :=
  String.eqb (exDate e) ymd && String.eqb (exServiceID e) serviceID.

(* ===================================================================== *)
(** ** Civil dates *)

Module Civil.

Definition is_leap (y : Z) : bool :=
  ((y mod 4 =? 0) && negb (y mod 100 =? 0)) || (y mod 400 =? 0).

(** Days of month [m] (1..12) of year [y]. *)
Definition daysIn (m y : Z) : Z :=
  if m =? 2 then (if is_leap y then 29 else 28)
  else if (m =? 4) || (m =? 6) || (m =? 9) || (m =? 11) then 30
  else 31.

(** Days from 0001-01-01 to the first day of year [y] in the proleptic
    Gregorian calendar. *)
Definition daysBeforeYear (y : Z) : Z :=
  let p := y - 1 in 365 * p + p / 4 - p / 100 + p / 400.

Fixpoint daysBeforeMonthN (n : nat) (y : Z) : Z :=
  match n with
  | O => 0
  | S k => daysBeforeMonthN k y + daysIn (Z.of_nat (S k)) y
  end.

(** Days from the first day of the year to the first day of month [m]. *)
Definition daysBeforeMonth (m y : Z) : Z :=
  daysBeforeMonthN (Z.to_nat (m - 1)) y.

(** Day number of year [y], month [m] (1..12), day [d]; day 0 is
    0001-01-01. A day outside the month carries into its neighbours. *)
Definition dayNumber (y m d : Z) : Z :=
  daysBeforeYear y + daysBeforeMonth m y + (d - 1).

Definition valid (y m d : Z) : bool :=
  (1 <=? m) && (m <=? 12) && (1 <=? d) && (d <=? daysIn m y).

(** The day number of 1970-01-01, and the milliseconds of a day. *)
Definition epochDay : Z := 719162.
Definition msPerDay : Z := 86400000.

(** The three fields of an eight-digit date. *)
Definition fields (s : string) : Z * Z * Z :=
  (Str.digits_val 0 (Str.slice 0 4 s),
   Str.digits_val 0 (Str.slice 4 6 s),
   Str.digits_val 0 (Str.slice 6 8 s)).

(** A [YYYYMMDD] date of the calendar, from year 100 on. *)
Definition wfDate (s : string) : bool :=
  (String.length s =? 8)%nat && Str.all_digits s &&
  let '(y, m, d) := fields s in (100 <=? y) && valid y m d.

End Civil.

(* ===================================================================== *)
(** ** Well-formed schedule data

    The invariants the data model states: times are zero-padded
    [HH:MM:SS]; a shape has one index per stop of its pattern, the indices
    do not decrease, and each is a position of an array (a non-negative
    integer that binary64 holds exactly). *)

Definition wfTime (t : string) : bool :=
  match t with
  | String h1 (String h2 (String c1 (String m1 (String m2
      (String c2 (String s1 (String s2 EmptyString))))))) =>
      Str.is_digit h1 && Str.is_digit h2 && Ascii.eqb c1 Str.colon &&
      Str.is_digit m1 && Str.is_digit m2 && Ascii.eqb c2 Str.colon &&
      Str.is_digit s1 && Str.is_digit s2
  | _ => false
  end.

Definition wfTimes (stops : list TripStop) : bool :=
  forallb (fun st => wfTime (Time st)) stops.

Fixpoint nondecreasing (l : list Z) : bool :=
  match l with
  | a :: ((b :: _) as r) => (a <=? b) && nondecreasing r
  | _ => true
  end.

Fixpoint increasing (l : list Z) : bool :=
  match l with
  | a :: ((b :: _) as r) => (a <? b) && increasing r
  | _ => true
  end.

Definition wfShape (stops : list TripStop) (shape : ShapeData) : bool :=
  (length (StopIndices shape) =? length stops)%nat &&
  nondecreasing (StopIndices shape) &&
  forallb (fun i => (0 <=? i) && (i <? 2 ^ 53)) (StopIndices shape).

(** Every trip of the timetable has well-formed times and, when its
    pattern has a shape, a well-formed one. *)
Definition wfTrip (c : Snapshot) (trip : TripInfo) : Prop :=
  wfTimes (Stops trip) = true /\
  forall shape,
    shapesCache c !! patternKey (Stops trip) = Some shape ->
    wfShape (Stops trip) shape = true.

Definition wfSnapshot (c : Snapshot) : Prop :=
  forall rid trips tid trip,
    timetablesCache c !! rid = Some trips -> trips !! tid = Some trip ->
    wfTrip c trip.

(* ===================================================================== *)
(** ** The server ([main.go]) *)

Module Go.

(** A call either returns or panics (an index out of range). *)
Inductive outcome (A : Type) : Type :=
| Returns (a : A)
| Panics.
Arguments Returns {A} a.
Arguments Panics {A}.

Definition bind {A B} (o : outcome A) (k : A -> outcome B) : outcome B :=
  match o with
  | Returns a => k a
  | Panics => Panics
  end.

(** [s[i]] on a slice. *)
Definition index {A} (s : list A) (i : Z) : outcome A :=
  if i <? 0 then Panics
  else match s !! Z.to_nat i with
       | Some a => Returns a
       | None => Panics
       end.

(** [strconv.Atoi] with its error dropped: the value of an optionally
    signed run of decimal digits, clamped to [int]; 0 for any other
    text. *)
Definition Atoi (s : string) : Z :=
  let '(neg, body) :=
    match s with
    | String c r =>
        if Ascii.eqb c "-" then (true, r)
        else if Ascii.eqb c "+" then (false, r)
        else (false, s)
    | EmptyString => (false, s)
    end in
  match body with
  | EmptyString => 0
  | _ =>
      if Str.all_digits body then
        let v := Str.digits_val 0 body in
        Int64.clamp (if neg then - v else v)
      else 0
  end.

Definition timeToSec (t : string) : Z :=
  let parts := Str.split Str.colon t in
  if (length parts <? 2)%nat then 0
  else
    let hours := Atoi (nth 0 parts EmptyString) in
    let minutes := Atoi (nth 1 parts EmptyString) in
    let seconds :=
      if (3 <=? length parts)%nat then Atoi (nth 2 parts EmptyString)
      else 0 in
    Int64.add (Int64.add (Int64.mul hours 3600) (Int64.mul minutes 60))
      seconds.

(** [time.Parse("20060102", s)]: the day number of the date, or the error
    for anything but eight digits naming a day of the calendar. *)
Definition parseDate (s : string) : option Z :=
  if (String.length s =? 8)%nat && Str.all_digits s then
    let '(y, m, d) := Civil.fields s in
    if Civil.valid y m d then Some (Civil.dayNumber y m d) else None
  else None.

(** The time a failed [time.Parse] leaves behind is the zero [Time],
    0001-01-01. *)
Definition parsedOrZero (s : string) : Z := default 0 (parseDate s).

Definition nsPerDay : Z := 24 * 3600 * 10 ^ 9.

(** [endDate.Sub(startDate)] in nanoseconds, saturating. *)
Definition Sub (endDay startDay : Z) : Z :=
  Int64.clamp ((endDay - startDay) * nsPerDay).

(** [d.Hours() / 24 >= 20]. Both dates are midnights, so [d] is a whole
    number of days unless it saturated. *)
Definition atLeast20Days (d : Z) : bool := 20 * nsPerDay <=? d.

(** The exception loop: the first entry for the date and service
    decides. *)
Fixpoint exceptionLoop (ymd serviceID : string)
    (dates : list CalendarDateException) : option bool :=
  match dates with
  | [] => None
  | exception :: rest =>
      if exceptionFor ymd serviceID exception
      then Some (String.eqb (ExceptionType exception) "1")
      else exceptionLoop ymd serviceID rest
  end.

Definition isServiceRunningToday (c : Snapshot) (clk : Clock)
    (serviceID : string) : bool :=
  let ymd := today clk in
  match exceptionLoop ymd serviceID (CalendarDates (extraCache c)) with
  | Some running => running
  | None =>
      match calendarCache c !! serviceID with
      | None => false
      | Some cal =>
          let inRange :=
            if Str.leb (Start cal) ymd && Str.leb ymd (End_ cal)
            then dayFlag cal (gtfsDayIdx clk) else None in
          match inRange with
          | Some flag => flag
          | None =>
              let startDate := parsedOrZero (Start cal) in
              let endDate := parsedOrZero (End_ cal) in
              if atLeast20Days (Sub endDate startDate)
              then default false (dayFlag cal (gtfsDayIdx clk))
              else false
          end
      end
  end.

(** [int(x)] of an integral [float64]; outside [int] the conversion yields
    the smallest integer on the amd64 target. *)
Definition int_of (x : F64.integral) : Z :=
  match x with
  | F64.IFin z =>
      if (Int64.min_int <=? z) && (z <=? Int64.max_int) then z
      else Int64.min_int
  | _ => Int64.min_int
  end.

(** [float64(nowSec-s1) / float64(s2-s1)]. *)
Definition timeRatio (nowSec s1 s2 : Z) : F64.float :=
  F64.div (F64.of_int (Int64.sub nowSec s1)) (F64.of_int (Int64.sub s2 s1)).

(** The body of the loop of [calculateBusPosition] once the segment
    [i] is chosen: the index into [coords]. *)
Definition targetIndex (coords : list coord) (indices : list Z) (i : nat)
    (nowSec s1 s2 : Z) : outcome Z :=
  let timeRatio := timeRatio nowSec s1 s2 in
  bind (index indices (Z.of_nat i)) (fun a =>
  bind (index indices (Z.of_nat i + 1)) (fun b =>
  let targetIndex :=
    int_of (F64.floor (F64.add (F64.of_int a)
                         (F64.mul (F64.of_int (Int64.sub b a)) timeRatio))) in
  Returns (if Z.of_nat (length coords) <=? targetIndex
           then Z.of_nat (length coords) - 1 else targetIndex))).

(** The loop over consecutive stops, from stop [i] on: the first segment
    with [s1 <= nowSec < s2] and the index computed there; [None] when the
    loop runs out ([nil] is returned). *)
Fixpoint indexLoop (coords : list coord) (indices : list Z) (nowSec : Z)
    (i : nat) (stops : list TripStop) : outcome (option Z) :=
  match stops with
  | st1 :: ((st2 :: _) as rest) =>
      let s1 := timeToSec (Time st1) in
      let s2 := timeToSec (Time st2) in
      if (s1 <=? nowSec) && (nowSec <? s2)
      then bind (targetIndex coords indices i nowSec s1 s2)
             (fun k => Returns (Some k))
      else indexLoop coords indices nowSec (S i) rest
  | _ => Returns None
  end.

Definition calculateBusPosition (c : Snapshot) (trip : TripInfo)
    (nowSec : Z) (patternKey : string) : outcome (option coord) :=
  match shapesCache c !! patternKey with
  | None => Returns None
  | Some shape =>
      let coords := Coordinates shape in
      let indices := StopIndices shape in
      if (length coords =? 0)%nat || (length indices =? 0)%nat
      then Returns None
      else
        bind (indexLoop coords indices nowSec 0 (Stops trip)) (fun r =>
        match r with
        | None => Returns None
        | Some k => bind (index coords k) (fun p => Returns (Some p))
        end)
  end.

(** The index [calculateBusPosition] reads its result from; [None] where
    it returns [nil] without reading. *)
Definition backingIndex (c : Snapshot) (trip : TripInfo) (nowSec : Z)
    (patternKey : string) : outcome (option Z) :=
  match shapesCache c !! patternKey with
  | None => Returns None
  | Some shape =>
      if (length (Coordinates shape) =? 0)%nat
         || (length (StopIndices shape) =? 0)%nat
      then Returns None
      else indexLoop (Coordinates shape) (StopIndices shape) nowSec 0
             (Stops trip)
  end.

Module BusPosition.
Record t := {
  TripID : string;
  RouteID : string;
  RouteName : string;
  Headsign : string;
  Position : coord;
  Color : string
}.
End BusPosition.

(** [now.Hour()*3600 + now.Minute()*60 + now.Second()]. *)
Definition nowSec (clk : Clock) : Z :=
  Int64.add (Int64.add (Int64.mul (hour clk) 3600)
               (Int64.mul (minute clk) 60)) (second clk).

(** A map read gives the zero value for a missing key. *)
Definition zeroRouteInfo : RouteInfo :=
  {| ShortName := EmptyString; Color := EmptyString |}.
Definition zeroShapeData : ShapeData :=
  {| coordinates := null; stop_indices := null |}.

Definition mkBusPosition (c : Snapshot) (routeID tripID : string)
    (trip : TripInfo) (pos : coord) : BusPosition.t :=
  let routeInfo := default zeroRouteInfo (routesCache c !! routeID) in
  {| BusPosition.TripID := tripID;
     BusPosition.RouteID := routeID;
     BusPosition.RouteName := ShortName routeInfo;
     BusPosition.Headsign := Headsign trip;
     BusPosition.Position := pos;
     BusPosition.Color := Color routeInfo |}.

(** The position of a trip that passes the three filters of both
    locators: service running, two stops or more, [nowSec] within the
    first and last stop times. [None] when a filter rejects the trip or
    the interpolation gives [nil]. *)
Definition activePosition (c : Snapshot) (clk : Clock) (trip : TripInfo)
  : outcome (option coord) :=
  if negb (isServiceRunningToday c clk (ServiceID trip)) then Returns None
  else
    let stops := Stops trip in
    if (length stops <? 2)%nat then Returns None
    else
      let startSec := timeToSec (Time (nth 0 stops (Build_TripStop "" ""))) in
      let endSec :=
        timeToSec (Time (nth (length stops - 1) stops (Build_TripStop "" ""))) in
      if (startSec <=? nowSec clk) && (nowSec clk <=? endSec)
      then calculateBusPosition c trip (nowSec clk) (patternKey stops)
      else Returns None.

(** The two nested [range] loops with their [append]. *)
Fixpoint collect {A B} (f : A -> outcome (option B)) (l : list A)
  : outcome (list B) :=
  match l with
  | [] => Returns []
  | x :: l' =>
      bind (f x) (fun r =>
      bind (collect f l') (fun rest =>
      Returns (match r with Some b => b :: rest | None => rest end)))
  end.

Definition calculateAllBusPositions (c : Snapshot) (clk : Clock)
  : outcome (list BusPosition.t) :=
  collect (fun '(routeID, tripID, trip) =>
             bind (activePosition c clk trip) (fun pos =>
             Returns (mkBusPosition c routeID tripID trip <$> pos)))
    (allTrips (timetablesCache c)).

Record Bounds := {
  minLat : F64.float;
  maxLat : F64.float;
  minLng : F64.float;
  maxLng : F64.float
}.

(** [len(pos) >= 2] and the four comparisons on [pos[1]] and [pos[0]]. *)
Definition inBounds (b : Bounds) (pos : coord) : bool :=
  match pos with
  | lng :: lat :: _ =>
      F64.leb (minLat b) lat && F64.leb lat (maxLat b) &&
      F64.leb (minLng b) lng && F64.leb lng (maxLng b)
  | _ => false
  end.

Definition calculateBusPositionsInBounds (c : Snapshot) (clk : Clock)
    (b : Bounds) : outcome (list BusPosition.t) :=
  collect (fun '(routeID, tripID, trip) =>
             bind (activePosition c clk trip) (fun pos =>
             Returns (match pos with
                      | Some p =>
                          if inBounds b p
                          then Some (mkBusPosition c routeID tripID trip p)
                          else None
                      | None => None
                      end)))
    (allTrips (timetablesCache c)).

(** The handler of [/api/buses] once its query is parsed: with the four
    bounds the bounded locator, without them the full one. *)
Definition getActiveVehicles (c : Snapshot) (clk : Clock)
    (bounds : option Bounds) : outcome (list BusPosition.t) :=
  match bounds with
  | Some b => calculateBusPositionsInBounds c clk b
  | None => calculateAllBusPositions c clk
  end.

(** What a handler answers. *)
Inductive missing := RouteMissing | TripMissing | StopMissing.

Inductive response (A : Type) : Type :=
| StatusOK (body : A)
| StatusNotFound (what : missing).
Arguments StatusOK {A} body.
Arguments StatusNotFound {A} what.

Module TripDetailResponse.
Record t := {
  TripID : string;
  RouteID : string;
  RouteName : string;
  RouteColor : string;
  Trip : TripInfo;
  Stops : gmap string StopInfo;
  (** [*ShapeData]: [None] is the nil pointer, which encodes as [null]. *)
  Shape : option ShapeData;
  OfficeName : string
}.
End TripDetailResponse.

(** The stops a trip touches that the stop table knows. *)
Definition tripStops (c : Snapshot) (trip : TripInfo) : gmap string StopInfo :=
  foldl (fun acc ts =>
           match stopsCache c !! StopID ts with
           | Some stop => <[StopID ts := stop]> acc
           | None => acc
           end) ∅ (Stops trip).

(** The handler of [/api/trips/:routeId/:tripId]. *)
Definition getTripDetail (c : Snapshot) (routeID tripID : string)
  : response TripDetailResponse.t :=
  match timetablesCache c !! routeID with
  | None => StatusNotFound RouteMissing
  | Some routeTrips =>
      match routeTrips !! tripID with
      | None => StatusNotFound TripMissing
      | Some trip =>
          let shape :=
            default zeroShapeData
              (shapesCache c !! patternKey (Stops trip)) in
          let routeInfo := default zeroRouteInfo (routesCache c !! routeID) in
          let officeName :=
            default EmptyString (Offices (extraCache c) !! OfficeID trip) in
          StatusOK
            {| TripDetailResponse.TripID := tripID;
               TripDetailResponse.RouteID := routeID;
               TripDetailResponse.RouteName := ShortName routeInfo;
               TripDetailResponse.RouteColor := Color routeInfo;
               TripDetailResponse.Trip := trip;
               TripDetailResponse.Stops := tripStops c trip;
               TripDetailResponse.Shape := Some shape;
               TripDetailResponse.OfficeName := officeName |}
      end
  end.

Module StopTimetableResponse.
Record t := {
  StopID : string;
  StopName : string;
  Timetables : gmap string (gmap string TripInfo)
}.
End StopTimetableResponse.

(** The innermost loop: whether some stop of the trip is [stopID]. *)
Definition stopsAt (stopID : string) (trip : TripInfo) : bool :=
  existsb (fun ts => String.eqb (StopID ts) stopID) (Stops trip).

(** The loops that fill [filteredTimetables]. *)
Definition filterTimetables (c : Snapshot) (stopID : string)
  : gmap string (gmap string TripInfo) :=
  foldl (fun acc '(routeID, tripID, trip) =>
           if stopsAt stopID trip
           then <[routeID := <[tripID := trip]> (default ∅ (acc !! routeID))]> acc
           else acc)
    ∅ (allTrips (timetablesCache c)).

(** The handler of [/api/stops/:stopId/timetable]. *)
Definition getStopTimetable (c : Snapshot) (stopID : string)
  : response StopTimetableResponse.t :=
  match stopsCache c !! stopID with
  | None => StatusNotFound StopMissing
  | Some stop =>
      StatusOK
        {| StopTimetableResponse.StopID := stopID;
           StopTimetableResponse.StopName := Name stop;
           StopTimetableResponse.Timetables := filterTimetables c stopID |}
  end.

(** The test of [filterStopsByBounds] on one stop. *)
Definition stopInBounds (b : Bounds) (stop : StopInfo) : bool :=
  F64.leb (minLat b) (Lat stop) && F64.leb (Lat stop) (maxLat b) &&
  F64.leb (minLng b) (Lng stop) && F64.leb (Lng stop) (maxLng b).

Definition filterStopsByBounds (c : Snapshot) (b : Bounds)
  : gmap string StopInfo :=
  foldl (fun result '(stopID, stop) =>
           if stopInBounds b stop then <[stopID := stop]> result else result)
    ∅ (map_to_list (stopsCache c)).

(** What the handlers with a bounding box answer besides 200. *)
Inductive badRequest := BoundsMissing | BoundsNotNumbers | BoundsInverted.

Inductive reply (A : Type) : Type :=
| OK (body : A)
| BadRequest (why : badRequest).
Arguments OK {A} body.
Arguments BadRequest {A} why.

Module StopsSearchResponse.
Record t := {
  count : nat;
  stops : gmap string StopInfo
}.
End StopsSearchResponse.

Module BusesResponse.
Record t := {
  count : nat;
  buses : list BusPosition.t;
  timestamp : Z
}.
End BusesResponse.

(** [x > y], false when either side is NaN. *)
Definition gtb (x y : F64.float) : bool := SFltb y x.

Section Query.

(** [strconv.ParseFloat(s, 64)]: the number, or [None] for its error. *)
Variable ParseFloat : string -> option F64.float.

(** The four conversions of a handler and its test [err1 != nil || ...]. *)
Definition parseBounds (minLatStr maxLatStr minLngStr maxLngStr : string)
  : option Bounds :=
  match ParseFloat minLatStr, ParseFloat maxLatStr,
        ParseFloat minLngStr, ParseFloat maxLngStr with
  | Some minLat, Some maxLat, Some minLng, Some maxLng =>
      Some {| minLat := minLat; maxLat := maxLat;
              minLng := minLng; maxLng := maxLng |}
  | _, _, _, _ => None
  end.

(** The handler of [/api/stops/search]; a query parameter that is not
    given reads as the empty string. *)
Definition searchStops (c : Snapshot)
    (minLatStr maxLatStr minLngStr maxLngStr : string)
  : reply StopsSearchResponse.t :=
  if String.eqb minLatStr "" || String.eqb maxLatStr "" ||
     String.eqb minLngStr "" || String.eqb maxLngStr ""
  then BadRequest BoundsMissing
  else
    match parseBounds minLatStr maxLatStr minLngStr maxLngStr with
    | None => BadRequest BoundsNotNumbers
    | Some b =>
        if gtb (minLat b) (maxLat b) || gtb (minLng b) (maxLng b)
        then BadRequest BoundsInverted
        else
          let filteredStops := filterStopsByBounds c b in
          OK {| StopsSearchResponse.count := size filteredStops;
                StopsSearchResponse.stops := filteredStops |}
    end.

(** The handler of [/api/buses]; [unix] is the [time.Now().Unix()] of the
    answer. *)
Definition getBuses (c : Snapshot) (clk : Clock) (unix : Z)
    (minLatStr maxLatStr minLngStr maxLngStr : string)
  : outcome (reply BusesResponse.t) :=
  let answer (buses : list BusPosition.t) :=
    Returns (OK {| BusesResponse.count := length buses;
                   BusesResponse.buses := buses;
                   BusesResponse.timestamp := unix |}) in
  if negb (String.eqb minLatStr "") && negb (String.eqb maxLatStr "") &&
     negb (String.eqb minLngStr "") && negb (String.eqb maxLngStr "")
  then
    match parseBounds minLatStr maxLatStr minLngStr maxLngStr with
    | None => Returns (BadRequest BoundsNotNumbers)
    | Some b =>
        if gtb (minLat b) (maxLat b) || gtb (minLng b) (maxLng b)
        then Returns (BadRequest BoundsInverted)
        else bind (calculateBusPositionsInBounds c clk b) answer
    end
  else bind (calculateAllBusPositions c clk) answer.

End Query.

End Go.

(* ===================================================================== *)
(** ** The client ([utils.ts], [BusPanel.tsx])

    A JavaScript number that holds an integer is an integer here, [None]
    standing for NaN; its arithmetic is exact below [2^53]. The ratio and
    the linear map of the interpolator are binary64 operations. *)

Module TS.

(** [Number(s)] on a field of a time or a date, for the fields made of
    decimal digits: the value of the run of digits, 0 for the empty
    string. Every other text is [None] here. That is NaN for a text that
    [Number] does not read; the texts it reads besides (white space
    around the number, a sign, a fraction, an exponent, a radix prefix,
    [Infinity]) are outside this model, and what is proved of the
    client's parsing is stated for fields of digits. *)
Definition Number (s : string) : option Z :=
  if Str.all_digits s then Some (Str.digits_val 0 s) else None.

Definition timeToSec (t : string) : option Z :=
  match t with
  | EmptyString => Some 0
  | _ =>
      let parts := map Number (Str.split Str.colon t) in
      h ← mjoin (parts !! 0%nat);
      m ← mjoin (parts !! 1%nat);
      let s := default 0 (mjoin (parts !! 2%nat)) in
      Some (h * 3600 + m * 60 + s)
  end.

(** [MakeDay], then the day the time value falls on: months beyond the
    year and days beyond the month carry over. *)
Definition makeDay (year month date : Z) : Z :=
  Civil.dayNumber (year + month / 12) (month mod 12 + 1) date.

(** [new Date(year, monthIndex, day)], as the number of its day: a year
    from 0 to 99 means 1900 + year; a NaN argument gives an invalid
    date. *)
Definition newDate (year monthIndex day : option Z) : option Z :=
  y ← year; m ← monthIndex; d ← day;
  Some (makeDay (if (0 <=? y) && (y <=? 99) then 1900 + y else y) m d).

Definition dateOf (s : string) : option Z :=
  newDate (Number (Str.slice 0 4 s))
          ((fun m => m - 1) <$> Number (Str.slice 4 6 s))
          (Number (Str.slice 6 8 s)).

(** [date.getTime()] of the local midnight that begins the day of number
    [day]: the milliseconds from 1970-01-01T00:00:00Z to it, the offset of
    the zone at that midnight taken off. The dates of the calendar lie
    far inside the range of time values. *)
Definition getTime (zone : Z -> Z) (day : Z) : Z :=
  (day - Civil.epochDay) * Civil.msPerDay - zone day.

(** [(endDate.getTime() - startDate.getTime()) / (1000 * 60 * 60 * 24)], a
    binary64 quotient; [None] is the NaN of an invalid date. *)
Definition durationDays (zone : Z -> Z) (cal : CalendarEntry)
  : option F64.float :=
  s ← dateOf (Start cal); e ← dateOf (End_ cal);
  Some (F64.div (F64.of_int (getTime zone e - getTime zone s))
          (F64.of_int Civil.msPerDay)).

(** [cal.days[gtfsDayIdx] === "1"]. *)
Definition dayIs1 (cal : CalendarEntry) (idx : nat) : bool :=
  default false (dayFlag cal idx).

Definition isServiceRunningToday (serviceId : string)
    (calendarData : gmap string CalendarEntry) (extraData : ExtraData)
    (clk : Clock) : bool :=
  let ymd := today clk in
  match List.find (exceptionFor ymd serviceId) (CalendarDates extraData) with
  | Some exception => String.eqb (ExceptionType exception) "1"
  | None =>
      match calendarData !! serviceId with
      | None => false
      | Some cal =>
          if Str.leb (Start cal) ymd && Str.leb ymd (End_ cal)
          then dayIs1 cal (gtfsDayIdx clk)
          else
            match durationDays (zone clk) cal with
            | Some d =>
                if F64.leb (F64.of_int 20) d
                then dayIs1 cal (gtfsDayIdx clk) else false
            | None => false
            end
      end
  end.

(** What [calculateBusPos] evaluates to: [null], a coordinate, or the
    [undefined] of an array read outside the array. *)
Inductive value :=
| Null
| Undefined
| Coord (p : coord).

(** [Math.min(x, n)] for an integer [n]. *)
Definition min_integral (x : F64.integral) (n : Z) : F64.integral :=
  match x with
  | F64.INaN => F64.INaN
  | F64.IInf false => F64.IFin n
  | F64.IInf true => F64.IInf true
  | F64.IFin z => F64.IFin (Z.min z n)
  end.

(** [coords[k]]. *)
Definition at_integral (coords : list coord) (k : F64.integral) : value :=
  match k with
  | F64.IFin z =>
      if z <? 0 then Undefined
      else match coords !! Z.to_nat z with
           | Some p => Coord p
           | None => Undefined
           end
  | _ => Undefined
  end.

(** [(nowSec - s1) / (s2 - s1)]. *)
Definition timeRatio (nowSec s1 s2 : Z) : F64.float :=
  F64.div (F64.of_int (nowSec - s1)) (F64.of_int (s2 - s1)).

(** The index read in segment [i]:
    [Math.min(targetIndex, coords.length - 1)]. *)
Definition targetIndex (coords : list coord) (indices : list Z) (i : nat)
    (nowSec s1 s2 : Z) : F64.integral :=
  let timeRatio := timeRatio nowSec s1 s2 in
  let targetIndex :=
    match indices !! i, indices !! S i with
    | Some a, Some b =>
        F64.floor (F64.add (F64.of_int a) (F64.mul (F64.of_int (b - a)) timeRatio))
    | _, _ => F64.INaN
    end in
  min_integral targetIndex (Z.of_nat (length coords) - 1).

Fixpoint posLoop (coords : list coord) (indices : list Z) (nowSec : Z)
    (i : nat) (stops : list TripStop) : value :=
  match stops with
  | st1 :: ((st2 :: _) as rest) =>
      match timeToSec (Time st1), timeToSec (Time st2) with
      | Some s1, Some s2 =>
          if (s1 <=? nowSec) && (nowSec <? s2)
          then at_integral coords (targetIndex coords indices i nowSec s1 s2)
          else posLoop coords indices nowSec (S i) rest
      | _, _ => posLoop coords indices nowSec (S i) rest
      end
  | _ => Null
  end.

(** The guard returns [null] for a pattern without an entry and for an
    entry without one of its arrays; an empty array passes it. *)
Definition calculateBusPos (trip : TripInfo) (nowSec : Z)
    (shapesData : gmap string ShapeData) : value :=
  match shapesData !! patternKey (Stops trip) with
  | None => Null
  | Some shapeData =>
      match coordinates shapeData, stop_indices shapeData with
      | elements coords, elements indices =>
          posLoop coords indices nowSec 0 (Stops trip)
      | _, _ => Null
      end
  end.

(** The index [calculateBusPos] reads its result at; [None] where it
    returns [null] without reading. *)
Fixpoint indexLoop (coords : list coord) (indices : list Z) (nowSec : Z)
    (i : nat) (stops : list TripStop) : option F64.integral :=
  match stops with
  | st1 :: ((st2 :: _) as rest) =>
      match timeToSec (Time st1), timeToSec (Time st2) with
      | Some s1, Some s2 =>
          if (s1 <=? nowSec) && (nowSec <? s2)
          then Some (targetIndex coords indices i nowSec s1 s2)
          else indexLoop coords indices nowSec (S i) rest
      | _, _ => indexLoop coords indices nowSec (S i) rest
      end
  | _ => None
  end.

Definition backingIndex (trip : TripInfo) (nowSec : Z)
    (shapesData : gmap string ShapeData) : option F64.integral :=
  shapeData ← shapesData !! patternKey (Stops trip);
  match coordinates shapeData, stop_indices shapeData with
  | elements coords, elements indices =>
      indexLoop coords indices nowSec 0 (Stops trip)
  | _, _ => None
  end.

(** The caller's view of the result: a position or none. *)
Definition position (v : value) : option coord :=
  match v with
  | Coord p => Some p
  | _ => None
  end.

Record Arrival := {
  time : string;
  route_id : string;
  trip_id : string;
  headsign : string;
  via : string;
  platform : string;
  actual_stop_id : string;
  is_past : bool
}.

(** [targetIds.includes(id)]. *)
Definition includes (targetIds : list string) (id : string) : bool :=
  existsb (String.eqb id) targetIds.

(** The stop ids the panel aggregates: below zoom 16.5 every stop with the
    name of the selected one, otherwise the selected stop alone. *)
Definition targetIdsOf (data : Snapshot) (selectedStopId : string)
    (stop : StopInfo) (isGrouped : bool) : list string :=
  if isGrouped
  then List.filter (fun id =>
                      match stopsCache data !! id with
                      | Some s => String.eqb (Name s) (Name stop)
                      | None => false
                      end)
         (map fst (map_to_list (stopsCache data)))
  else [selectedStopId].

(** The object pushed for the stop-time [st] of a trip:
    [pole?.platform || ""] is the platform of a known stop and the empty
    string otherwise. *)
Definition arrival (data : Snapshot) (currentTime : string)
    (rid tid : string) (trip : TripInfo) (st : TripStop) : Arrival :=
  {| time := Time st;
     route_id := rid;
     trip_id := tid;
     headsign := Headsign trip;
     via := Via trip;
     platform :=
       match stopsCache data !! StopID st with
       | Some pole => Platform pole
       | None => EmptyString
       end;
     actual_stop_id := StopID st;
     is_past := Str.ltb (Time st) currentTime |}.

(** The body of the two [forEach]: the arrival a trip contributes, at the
    stop-time [trip.stops.find] returns. *)
Definition tripArrival (data : Snapshot) (clk : Clock) (currentTime : string)
    (targetIds : list string) (rid tid : string) (trip : TripInfo)
  : option Arrival :=
  if negb (isServiceRunningToday (ServiceID trip) (calendarCache data)
             (extraCache data) clk)
  then None
  else
    match List.find (fun s => includes targetIds (StopID s)) (Stops trip) with
    | Some st => Some (arrival data currentTime rid tid trip st)
    | None => None
    end.

(** [a.time.localeCompare(b.time) <= 0] on times of the one format
    [HH:MM:SS], digits and colons at the same places, where the collation
    order is the byte-wise order of the strings. On other strings the
    collation can order differently (["1:30:00"] before ["10:05:00"]), and
    what is proved of the order of the list is stated for times of that
    format. *)
Definition timeLe (a b : Arrival) : Prop := Str.leb (time a) (time b) = true.

#[local] Instance timeLe_dec a b : Decision (timeLe a b).
Proof. unfold timeLe. apply _. Defined.

(** [allArrivals] after [sort]. The two [Object.keys(...).forEach] visit
    the trips in the order of the keys, here the order in which the maps
    list their entries. *)
Definition allArrivals (data : Snapshot) (clk : Clock) (currentTime : string)
    (targetIds : list string) : list Arrival :=
  merge_sort timeLe
    (omap (fun '(rid, tid, trip) =>
             tripArrival data clk currentTime targetIds rid tid trip)
       (allTrips (timetablesCache data))).

(** The [map] over the sorted arrivals in [BusPanel.tsx] with its flag
    [firstFutureFound]: each arrival with whether it is marked as the
    next one. *)
Fixpoint markNext (firstFutureFound : bool) (arrivals : list Arrival)
  : list (Arrival * bool) :=
  match arrivals with
  | [] => []
  | bus :: rest =>
      if negb (is_past bus) && negb firstFutureFound
      then (bus, true) :: markNext true rest
      else (bus, false) :: markNext firstFutureFound rest
  end.

(** The state update of [loadTripDetail] in [App.tsx]: the answer of
    [/api/trips/:routeId/:tripId] merged into the data of the client. An
    object spread is a union in which the later entries win. *)
Definition mergeTripDetail (prev : Snapshot)
    (detail : Go.TripDetailResponse.t) : Snapshot :=
  let patternKey :=
    patternKey (Stops (Go.TripDetailResponse.Trip detail)) in
  let route_id := Go.TripDetailResponse.RouteID detail in
  {| stopsCache := Go.TripDetailResponse.Stops detail ∪ stopsCache prev;
     timetablesCache :=
       <[route_id :=
           <[Go.TripDetailResponse.TripID detail :=
               Go.TripDetailResponse.Trip detail]>
             (default ∅ (timetablesCache prev !! route_id))]>
         (timetablesCache prev);
     shapesCache :=
       match Go.TripDetailResponse.Shape detail with
       | Some shape => <[patternKey := shape]> (shapesCache prev)
       | None => shapesCache prev
       end;
     calendarCache := calendarCache prev;
     extraCache := extraCache prev;
     routesCache := routesCache prev |}.

(** The state update of [loadStopTimetable]: the timetables of the answer
    of [/api/stops/:stopId/timetable] spread over those of the client,
    route by route. *)
Definition mergeStopTimetable (prev : Snapshot)
    (timetableData : Go.StopTimetableResponse.t) : Snapshot :=
  {| stopsCache := stopsCache prev;
     timetablesCache :=
       Go.StopTimetableResponse.Timetables timetableData
       ∪ timetablesCache prev;
     shapesCache := shapesCache prev;
     calendarCache := calendarCache prev;
     extraCache := extraCache prev;
     routesCache := routesCache prev |}.

End TS.

(* ===================================================================== *)
(** ** The search history ([utils.ts])

    [localStorage] keeps the history as the JSON text of an array. What is
    modelled is the item under the key [bus_search_history]: nothing, a
    text that [JSON.parse] rejects, the text of a value that is not an
    array, or the text of an array, whose entries are strings (the stop
    ids) or other JSON values. A storage that refuses the access or the
    write is not modelled. *)

Module History.

Inductive entry (foreign : Type) : Type :=
| Id (s : string)
| Foreign (v : foreign).
Arguments Id {foreign} s.
Arguments Foreign {foreign} v.

Inductive item (foreign : Type) : Type :=
| Absent
| Unparsable
| NotArray
| Array (l : list (entry foreign)).
Arguments Absent {foreign}.
Arguments Unparsable {foreign}.
Arguments NotArray {foreign}.
Arguments Array {foreign} l.

(** What [getSearchHistory] returns: an array or another value. *)
Inductive value (foreign : Type) : Type :=
| Arr (l : list (entry foreign))
| Other.
Arguments Arr {foreign} l.
Arguments Other {foreign}.

(** A call returns with the new item or throws a [TypeError]. *)
Inductive result (foreign : Type) : Type :=
| Done (st : item foreign)
| TypeError.
Arguments Done {foreign} st.
Arguments TypeError {foreign}.

Section Store.

(** A JSON value that is not a string, and what [JSON.stringify] followed
    by [JSON.parse] makes of it. *)
Context {foreign : Type}.
Variable rewritten : foreign -> foreign.

(** [JSON.parse(localStorage.getItem(HISTORY_KEY) || "[]")] inside its
    [try], [[]] in the [catch]. *)
Definition getSearchHistory (st : item foreign) : value foreign :=
  match st with
  | Absent => Arr []
  | Unparsable => Arr []
  | NotArray => Other
  | Array l => Arr l
  end.

(** [id !== stopId]. *)
Definition differs (stopId : string) (e : entry foreign) : bool :=
  match e with
  | Id s => negb (String.eqb s stopId)
  | Foreign _ => true
  end.

(** [localStorage.setItem(HISTORY_KEY, JSON.stringify(history))]: the
    item then parses to the array written. *)
Definition setItem (history : list (entry foreign)) : item foreign :=
  Array (map (fun e => match e with
                       | Id s => Id s
                       | Foreign v => Foreign (rewritten v)
                       end) history).

Definition saveSearchHistory (stopId : string) (st : item foreign)
  : result foreign :=
  match getSearchHistory st with
  | Other => TypeError
  | Arr history =>
      let history := List.filter (differs stopId) history in
      let history := Id stopId :: history in
      Done (setItem (take 5 history))
  end.

Definition removeFromSearchHistory (stopId : string) (st : item foreign)
  : result foreign :=
  match getSearchHistory st with
  | Other => TypeError
  | Arr history =>
      let history := List.filter (differs stopId) history in
      Done (setItem history)
  end.

End Store.

End History.

(* ===================================================================== *)
(** ** The search box ([SearchBox.tsx])

    A JavaScript string is the list of its UTF-16 code units. *)

Module Search.

Abbreviation text := (list N).

Definition within (lo hi c : N) : bool := ((lo <=? c) && (c <=? hi))%N.

(** [str.replace(/[\u30A1-\u30F6]/g, ...)]: every katakana code unit
    from U+30A1 to U+30F6 is replaced by
    [String.fromCharCode(match.charCodeAt(0) - 0x60)]. *)
Definition katakanaToHiragana (str : text) : text :=
  map (fun c => if within 0x30A1 0x30F6 c then (c - 0x60)%N else c) str.

(** [/[\u4E00-\u9FAF\u3400-\u4DBF]/.test(char)] and
    [/[\u3040-\u309F\u30A0-\u30FF]/.test(char)]: some code unit of
    the string is in one of the ranges. *)
Definition isKanji (char : text) : bool :=
  existsb (fun c => within 0x4E00 0x9FAF c || within 0x3400 0x4DBF c) char.
Definition isKana (char : text) : bool :=
  existsb (fun c => within 0x3040 0x309F c || within 0x30A0 0x30FF c) char.

(** [for (const char of query)]: the code points of the string, a high
    surrogate followed by a low one being one of them. *)
Fixpoint codePoints (s : text) : list text :=
  match s with
  | [] => []
  | h :: rest =>
      match rest with
      | l :: rest' =>
          if within 0xD800 0xDBFF h && within 0xDC00 0xDFFF l
          then [h; l] :: codePoints rest'
          else [h] :: codePoints rest
      | [] => [[h]]
      end
  end.

Fixpoint startsWith (s prefix : text) : bool :=
  match prefix, s with
  | [], _ => true
  | p :: prefix', c :: s' => (p =? c)%N && startsWith s' prefix'
  | _ :: _, [] => false
  end.

(** The first position from [i] on at which [needle] occurs in the rest
    [s] of a string that starts at position [i]. *)
Fixpoint indexFrom (needle s : text) (i : nat) : option nat :=
  match s with
  | [] => if startsWith [] needle then Some i else None
  | _ :: s' =>
      if startsWith s needle then Some i else indexFrom needle s' (S i)
  end.

(** [s.indexOf(needle, position)], [None] for -1. *)
Definition indexOf (s needle : text) (position : nat) : option nat :=
  indexFrom needle (drop position s) (Nat.min position (length s)).

(** The loop of [flexibleMatch] over the characters left, at the
    positions reached in the name and in the reading. *)
Fixpoint matchFrom (name yomi : text) (namePos yomiPos : nat)
    (chars : list text) : bool :=
  match chars with
  | [] => true
  | char :: rest =>
      if isKanji char then
        match indexOf name char namePos with
        | None => false
        | Some pos => matchFrom name yomi (S pos) yomiPos rest
        end
      else if isKana char then
        match indexOf yomi (katakanaToHiragana char) yomiPos with
        | None => false
        | Some pos => matchFrom name yomi namePos (S pos) rest
        end
      else
        let nameMatch := indexOf name char namePos in
        let yomiMatch := indexOf yomi char yomiPos in
        match nameMatch, yomiMatch with
        | None, None => false
        | _, _ =>
            matchFrom name yomi
              (match nameMatch with Some p => S p | None => namePos end)
              (match yomiMatch with Some p => S p | None => yomiPos end)
              rest
        end
  end.

Definition flexibleMatch (name yomi query : text) : bool :=
  matchFrom name yomi 0 0 (codePoints query).

End Search.

(* ===================================================================== *)
(** ** The data preparation script

    The part of [start] that assigns to each stop of a pattern the index
    of the nearest coordinate of the generated line, and the part that
    replaces the line between two stops by a hand-made one. *)

Module Prep.

(** [p[i]] in arithmetic: the number, NaN for [undefined]. *)
Definition component (p : coord) (i : nat) : F64.float :=
  default S754_nan (p !! i).

Definition sub : F64.float -> F64.float -> F64.float :=
  SFsub F64.prec F64.emax.

Definition Infinity : F64.float := S754_infinity false.

Section Nearest.

(** [Math.pow(x, 2)], whose value the language leaves to the
    implementation. *)
Variable square : F64.float -> F64.float.

(** [Math.pow(p[0] - stop.lng, 2) + Math.pow(p[1] - stop.lat, 2)]. *)
Definition distance (p : coord) (stop : StopInfo) : F64.float :=
  F64.add (square (sub (component p 0) (Lng stop)))
          (square (sub (component p 1) (Lat stop))).

(** The inner [for] from position [i] over the coordinates left. *)
Fixpoint scan (stop : StopInfo) (rest : list coord) (i : nat)
    (closestDist : F64.float) (closestIdx : nat) : nat :=
  match rest with
  | [] => closestIdx
  | p :: rest' =>
      let d := distance p stop in
      if SFltb d closestDist
      then scan stop rest' (S i) d i
      else scan stop rest' (S i) closestDist closestIdx
  end.

(** The body of [stopCoords.forEach]: the index pushed for [stop]. *)
Definition closest (fullCoordinates : list coord) (stopIndices : list nat)
    (stop : StopInfo) : nat :=
  let searchStart := default 0%nat (last stopIndices) in
  scan stop (drop searchStart fullCoordinates) searchStart Infinity 0.

Definition assignStopIndices (fullCoordinates : list coord)
    (stopCoords : list StopInfo) : list nat :=
  foldl (fun stopIndices stop =>
           stopIndices ++ [closest fullCoordinates stopIndices stop])
    [] stopCoords.

(** [stopCoords]: the stops of the pattern that the stop table knows. *)
Definition knownStops (stopsJson : gmap string StopInfo)
    (stopIds : list string) : list StopInfo :=
  omap (fun id => stopsJson !! id) stopIds.

(** The entry written to [shapesJson] for a generated line. *)
Definition generatedShape (fullCoordinates : list coord)
    (stopCoords : list StopInfo) : ShapeData :=
  {| coordinates := elements fullCoordinates;
     stop_indices :=
       elements (map Z.of_nat (assignStopIndices fullCoordinates stopCoords)) |}.

End Nearest.

(** [a.slice(start, end)] on integers: a negative position counts from
    the end, and both are kept within the array. *)
Definition relative (len k : Z) : Z :=
  if k <? 0 then Z.max (len + k) 0 else Z.min k len.

Definition slice {A} (a : list A) (start end_ : Z) : list A :=
  let len := Z.of_nat (length a) in
  let from := relative len start in
  let to := relative len end_ in
  take (Z.to_nat (to - from)) (drop (Z.to_nat from) a).

(** [a.slice(start)]. *)
Definition sliceFrom {A} (a : list A) (start : Z) : list A :=
  slice a start (Z.of_nat (length a)).

(** [stopIds.indexOf(id)], [None] for -1. *)
Fixpoint indexOf (stopIds : list string) (id : string) : option nat :=
  match stopIds with
  | [] => None
  | x :: rest =>
      if String.eqb x id then Some 0%nat
      else S <$> indexOf rest id
  end.

(** The [for] that adds [diff] to the indices from [endIndex] on. *)
Definition shiftFrom (endIndex : nat) (diff : Z) (stop_indices : list Z)
  : list Z :=
  imap (fun i x => if (endIndex <=? i)%nat then x + diff else x) stop_indices.

(** The body of [Object.entries(segmentOverrides).forEach] for one entry,
    on the copy [current] of a shape whose indices are integers. An index
    read beyond [stop_indices] is [undefined]: as the end of a slice it
    means the end of the array, and [undefined + 1] as a start means the
    beginning. *)
Definition applyOverride (stopIds : list string) (current : ShapeData)
    (segKey : string) (newCoords : list coord) : ShapeData :=
  let ids := Str.split Str.pipe segKey in
  match indexOf stopIds (nth 0 ids EmptyString),
        ids !! 1%nat ≫= indexOf stopIds with
  | Some startIndex, Some endIndex =>
      if (startIndex <? endIndex)%nat then
        let startCoordIdx := StopIndices current !! startIndex in
        let endCoordIdx := StopIndices current !! endIndex in
        let head :=
          match startCoordIdx with
          | Some s => slice (Coordinates current) 0 s
          | None => Coordinates current
          end in
        let tail :=
          match endCoordIdx with
          | Some e => sliceFrom (Coordinates current) (e + 1)
          | None => Coordinates current
          end in
        match startCoordIdx, endCoordIdx with
        | Some s, Some e =>
            let diff := Z.of_nat (length newCoords) - (e - s + 1) in
            {| coordinates := elements (head ++ newCoords ++ tail);
               stop_indices :=
                 elements (shiftFrom endIndex diff (StopIndices current)) |}
        | _, _ =>
            {| coordinates := elements (head ++ newCoords ++ tail);
               stop_indices := stop_indices current |}
        end
      else current
  | _, _ => current
  end.

(** The overrides applied in the order of the entries. *)
Definition applyOverrides (patternKey : string) (shape : ShapeData)
    (segmentOverrides : list (string * list coord)) : ShapeData :=
  foldl (fun current '(segKey, newCoords) =>
           applyOverride (Str.split Str.pipe patternKey) current segKey
             newCoords)
    shape segmentOverrides.

End Prep.

(* ===================================================================== *)
(** ** Sample data

    The scenarios of the design notes: trip T of route R calls at stop A at
    08:00:00 (index 0) and at stop B at 08:10:00 (index 10) on a shape of
    11 coordinates; service S runs on weekdays of the first week of
    2024. *)

Module Sample.

Definition pt (x y : Z) : coord := [F64.of_int x; F64.of_int y].

Definition stops : list TripStop :=
  [ {| Time := "08:00:00"; StopID := "A" |};
    {| Time := "08:10:00"; StopID := "B" |} ].

Definition trip : TripInfo :=
  {| Headsign := "Station"; ServiceID := "S"; OfficeID := "O";
     Via := "Park"; Stops := stops |}.

Definition shape : ShapeData :=
  {| coordinates :=
       elements
         (map (fun i => pt (140 + i) 38) [0; 1; 2; 3; 4; 5; 6; 7; 8; 9; 10]);
     stop_indices := elements [0; 10] |}.

Definition cal : CalendarEntry :=
  {| Days := ["1"; "1"; "1"; "1"; "1"; "0"; "0"];
     Start := "20240101"; End_ := "20240105" |}.

Definition stopA : StopInfo :=
  {| Name := "Central"; Yomi := "central"; Lat := F64.of_int 38;
     Lng := F64.of_int 140; Platform := "1" |}.

Definition stopB : StopInfo :=
  {| Name := "Central"; Yomi := "central"; Lat := F64.of_int 38;
     Lng := F64.of_int 150; Platform := "2" |}.

Definition snapshot : Snapshot :=
  {| stopsCache := {[ "A" := stopA; "B" := stopB ]};
     timetablesCache := {[ "R" := {[ "T" := trip ]} ]};
     shapesCache := {[ "A|B" := shape ]};
     calendarCache := {[ "S" := cal ]};
     extraCache := {| Offices := {[ "O" := "Depot" ]}; CalendarDates := [] |};
     routesCache := {[ "R" := {| ShortName := "10"; Color := "00703c" |} ]} |}.

(** A zone that keeps the time of Greenwich, and one that is 5 hours
    behind it until the night of 10 March 2024 and 4 hours from then on. *)
Definition utc : Z -> Z := fun _ => 0.
Definition eastern : Z -> Z :=
  fun day =>
    if day <=? Civil.dayNumber 2024 3 10 then -18000000 else -14400000.

(** Wednesday 3 January 2024, 08:05:00. *)
Definition clock : Clock :=
  {| today := "20240103"; weekday := Wednesday;
     hour := 8; minute := 5; second := 0; zone := utc |}.

(** The same snapshot without any shape. *)
Definition unmapped : Snapshot :=
  {| stopsCache := stopsCache snapshot;
     timetablesCache := timetablesCache snapshot;
     shapesCache := ∅;
     calendarCache := calendarCache snapshot;
     extraCache := extraCache snapshot;
     routesCache := routesCache snapshot |}.

(** Trip T with the colons of its first time missing. *)
Definition untimed : TripInfo :=
  {| Headsign := "Station"; ServiceID := "S"; OfficeID := "O"; Via := "Park";
     Stops := [ {| Time := "0800"; StopID := "A" |};
                {| Time := "08:10:00"; StopID := "B" |} ] |}.

(** A service of every day whose start date names the 30th of February. *)
Definition february : CalendarEntry :=
  {| Days := ["1"; "1"; "1"; "1"; "1"; "1"; "1"];
     Start := "20240230"; End_ := "20240305" |}.

(** The snapshot with that calendar entry for service S. *)
Definition misdated : Snapshot :=
  {| stopsCache := stopsCache snapshot;
     timetablesCache := timetablesCache snapshot;
     shapesCache := shapesCache snapshot;
     calendarCache := {[ "S" := february ]};
     extraCache := extraCache snapshot;
     routesCache := routesCache snapshot |}.

(** Monday 1 April 2024, 08:05:00. *)
Definition april : Clock :=
  {| today := "20240401"; weekday := Monday;
     hour := 8; minute := 5; second := 0; zone := utc |}.

(** A service of every day from 1 March to 21 March 2024. *)
Definition march : CalendarEntry :=
  {| Days := ["1"; "1"; "1"; "1"; "1"; "1"; "1"];
     Start := "20240301"; End_ := "20240321" |}.

(** The snapshot with that calendar entry for service S. *)
Definition spring : Snapshot :=
  {| stopsCache := stopsCache snapshot;
     timetablesCache := timetablesCache snapshot;
     shapesCache := shapesCache snapshot;
     calendarCache := {[ "S" := march ]};
     extraCache := extraCache snapshot;
     routesCache := routesCache snapshot |}.

(** Monday 1 April 2024, 08:05:00, on a host of the second zone. *)
Definition newYork : Clock :=
  {| today := "20240401"; weekday := Monday;
     hour := 8; minute := 5; second := 0; zone := eastern |}.

(** Saturday 6 January 2024, 08:05:00: service S does not run. *)
Definition saturday : Clock :=
  {| today := "20240106"; weekday := Saturday;
     hour := 8; minute := 5; second := 0; zone := utc |}.

(** Trip V of route R calls at A at 00:00:00 and at C at 00:00:49. *)
Definition brief : TripInfo :=
  {| Headsign := "Station"; ServiceID := "S"; OfficeID := "O"; Via := "Park";
     Stops := [ {| Time := "00:00:00"; StopID := "A" |};
                {| Time := "00:00:49"; StopID := "C" |} ] |}.

(** A shape of 50 coordinates whose two stops have the indices 0 and
    49. *)
Definition fifty : ShapeData :=
  {| coordinates := elements (map (fun i => pt (140 + i) 38) (seqZ 0 50));
     stop_indices := elements [0; 49] |}.

(** The snapshot with trip V and its shape added. *)
Definition dense : Snapshot :=
  {| stopsCache := stopsCache snapshot;
     timetablesCache := {[ "R" := {[ "T" := trip; "V" := brief ]} ]};
     shapesCache := {[ "A|B" := shape; "A|C" := fifty ]};
     calendarCache := calendarCache snapshot;
     extraCache := extraCache snapshot;
     routesCache := routesCache snapshot |}.

(** Trip U of route R calls at A at 07:50:00, at B at 08:00:00 and at C
    at 08:10:00. *)
Definition long : TripInfo :=
  {| Headsign := "Station"; ServiceID := "S"; OfficeID := "O"; Via := "Park";
     Stops := [ {| Time := "07:50:00"; StopID := "A" |};
                {| Time := "08:00:00"; StopID := "B" |};
                {| Time := "08:10:00"; StopID := "C" |} ] |}.

(** A shape of 11 coordinates with indices for two stops. *)
Definition short : ShapeData :=
  {| coordinates := coordinates shape; stop_indices := elements [0; 5] |}.

(** The snapshot with trip U added, the shape of its pattern being the
    short one. *)
Definition frayed : Snapshot :=
  {| stopsCache := stopsCache snapshot;
     timetablesCache := {[ "R" := {[ "T" := trip; "U" := long ]} ]};
     shapesCache := {[ "A|B" := shape; "A|B|C" := short ]};
     calendarCache := calendarCache snapshot;
     extraCache := extraCache snapshot;
     routesCache := routesCache snapshot |}.

End Sample.

(* ===================================================================== *)
(** ** Vocabulary of the statements *)

(** The seconds a well-formed time denotes. *)
Definition secondsOf (t : string) : Z :=
  match t with
  | String h1 (String h2 (String _ (String m1 (String m2
      (String _ (String s1 (String s2 _))))))) =>
      (10 * Str.digit_val h1 + Str.digit_val h2) * 3600 +
      (10 * Str.digit_val m1 + Str.digit_val m2) * 60 +
      (10 * Str.digit_val s1 + Str.digit_val s2)
  | _ => 0
  end.

(** The stop times of a trip, in seconds. *)
Definition secondsOfStops (stops : list TripStop) : list Z :=
  map (fun st => secondsOf (Time st)) stops.

(** A field of a time that both copies read as the same number: decimal
    digits, at most twelve of them; the empty field reads as 0. *)
Definition plainField (s : string) : bool :=
  Str.all_digits s && (String.length s <=? 12)%nat.

(** A time that both copies read as the same number of seconds: the empty
    string, or two fields or more between colons of which the first three
    are plain. The times [HH:MM:SS] of the data model are of this kind,
    and so are ["8:00:00"] and ["08:00"]. *)
Definition plainTime (t : string) : bool :=
  match t with
  | EmptyString => true
  | _ =>
      match Str.split Str.colon t with
      | h :: m :: rest =>
          plainField h && plainField m &&
          match rest with
          | s :: _ => plainField s
          | [] => true
          end
      | _ => false
      end
  end.

Definition plainTimes (stops : list TripStop) : bool :=
  forallb (fun st => plainTime (Time st)) stops.

(** The stop times of a trip as the server reads them, in seconds. *)
Definition serverSeconds (stops : list TripStop) : list Z :=
  map (fun st => Go.timeToSec (Time st)) stops.

(** A trip the server interpolates without reading outside an array: its
    times are plain and the shape of its pattern, when it has one with
    both arrays filled, has an index for every stop, each a position of an
    array, in any order. *)
Definition coveredTrip (c : Snapshot) (trip : TripInfo) : Prop :=
  plainTimes (Stops trip) = true /\
  forall shape,
    shapesCache c !! patternKey (Stops trip) = Some shape ->
    Coordinates shape <> [] -> StopIndices shape <> [] ->
    (length (Stops trip) <= length (StopIndices shape))%nat /\
    Forall (fun i => 0 <= i < 2 ^ 53) (StopIndices shape).

(** The day number a well-formed date denotes. *)
Definition dayOf (s : string) : Z :=
  let '(y, m, d) := Civil.fields s in Civil.dayNumber y m d.

(** Eight decimal digits. *)
Definition isYMD (s : string) : bool :=
  (String.length s =? 8)%nat && Str.all_digits s.

(** The number a string of digits writes: [YYYYMMDD] for a date. *)
Definition ymd (s : string) : Z := Str.digits_val 0 s.

(** A time zone: its offsets from UTC are below a day. *)
Definition wfZone (zone : Z -> Z) : Prop :=
  forall day, - Civil.msPerDay < zone day < Civil.msPerDay.

(** The snapshot with another calendar table. *)
Definition withCalendar (c : Snapshot) (calendar : gmap string CalendarEntry)
  : Snapshot :=
  {| stopsCache := stopsCache c;
     timetablesCache := timetablesCache c;
     shapesCache := shapesCache c;
     calendarCache := calendar;
     extraCache := extraCache c;
     routesCache := routesCache c |}.

(** The snapshot with another calendar table and another bundle of offices
    and exceptions. *)
Definition withCalendarData (c : Snapshot)
    (calendar : gmap string CalendarEntry) (extra : ExtraData) : Snapshot :=
  {| stopsCache := stopsCache c;
     timetablesCache := timetablesCache c;
     shapesCache := shapesCache c;
     calendarCache := calendar;
     extraCache := extra;
     routesCache := routesCache c |}.

(** The first pair of consecutive stop times with [s1 <= now < s2], from
    position [i] on: its position and the two times. *)
Fixpoint activeSegment (now : Z) (i : nat) (secs : list Z)
  : option (nat * Z * Z) :=
  match secs with
  | s1 :: ((s2 :: _) as rest) =>
      if (s1 <=? now) && (now <? s2) then Some (i, s1, s2)
      else activeSegment now (S i) rest
  | _ => None
  end.

(** The same on the client, whose loop passes over a pair with a time
    that is not a number. *)
Fixpoint activeSegmentTS (now : Z) (i : nat) (secs : list (option Z))
  : option (nat * Z * Z) :=
  match secs with
  | o1 :: ((o2 :: _) as rest) =>
      match o1, o2 with
      | Some s1, Some s2 =>
          if (s1 <=? now) && (now <? s2) then Some (i, s1, s2)
          else activeSegmentTS now (S i) rest
      | _, _ => activeSegmentTS now (S i) rest
      end
  | _ => None
  end.

(** The trip [t] of route [r] in a nested timetable. *)
Definition tripAt (tt : gmap string (gmap string TripInfo)) (r t : string)
  : option TripInfo :=
  trips ← tt !! r; trips !! t.

(** [st] is the first stop-time of [stops] whose stop is one of
    [targetIds]. *)
Definition firstMatch (targetIds : list string) (stops : list TripStop)
    (st : TripStop) : Prop :=
  exists i,
    stops !! i = Some st /\ StopID st ∈ targetIds /\
    forall j st', (j < i)%nat -> stops !! j = Some st' -> StopID st' ∉ targetIds.

(** The trip an arrival belongs to. *)
Definition tripKey (a : TS.Arrival) : string * string :=
  (TS.route_id a, TS.trip_id a).

(** What a call that returned has returned; none for a panic. *)
Definition returned {A} (o : Go.outcome (option A)) : option A :=
  match o with
  | Go.Returns r => r
  | Go.Panics => None
  end.

(** The route and trip a vehicle position belongs to. *)
Definition vehicleKey (v : Go.BusPosition.t) : string * string :=
  (Go.BusPosition.RouteID v, Go.BusPosition.TripID v).

(** The interpolator as the design states it, in exact arithmetic. *)
Module Spec.

(** The consecutive pairs [(s_i, s_{i+1})]. *)
Definition pairs (secs : list Z) : list (Z * Z) := zip secs (tail secs).

(** "Find the pair where [s_i <= now < s_{i+1}]": its position. *)
Definition activePair (now : Z) (secs : list Z) : option (nat * (Z * Z)) :=
  list_find (fun p => fst p <= now < snd p) (pairs secs).

(** [floor(stopIndex_i + (stopIndex_{i+1} - stopIndex_i) * ratio)] with
    [ratio = (now - s_i) / (s_{i+1} - s_i)]: the floor of
    [a + c * n / d] for a positive [d] is [a + (c * n) / d] with the
    division of the integers. *)
Definition formula (a b now si sj : Z) : Z :=
  a + (b - a) * (now - si) / (sj - si).

(** The index of the coordinate: the formula for the pair found, clamped
    to the last valid coordinate index. *)
Definition targetIndex (secs : list Z) (now : Z) (shape : ShapeData)
  : option Z :=
  '(i, (si, sj)) ← activePair now secs;
  a ← StopIndices shape !! i;
  b ← StopIndices shape !! S i;
  Some (Z.min (formula a b now si sj)
          (Z.of_nat (length (Coordinates shape)) - 1)).

(** [Interpolate(trip, now, shape)]: none when the shape is absent or has
    empty coordinates or indices, or when [now] is in no interval;
    otherwise the coordinate at the target index. *)
Definition Interpolate (secs : list Z) (now : Z) (shape : option ShapeData)
  : option coord :=
  shape ← shape;
  if decide (Coordinates shape = [] \/ StopIndices shape = []) then None
  else
    k ← targetIndex secs now shape;
    if k <? 0 then None else Coordinates shape !! Z.to_nat k.

End Spec.

(** The same interpolator with the formula evaluated as both copies of
    the code evaluate it: every operation a binary64 one, rounded to
    nearest. *)
Module Rounded.

Definition targetIndex (secs : list Z) (now : Z) (shape : ShapeData)
  : option Z :=
  '(i, (si, sj)) ← Spec.activePair now secs;
  a ← StopIndices shape !! i;
  b ← StopIndices shape !! S i;
  match F64.lerp a (b - a) (now - si) (sj - si) with
  | F64.IFin t =>
      if t <? 0 then None
      else Some (Z.min t (Z.of_nat (length (Coordinates shape)) - 1))
  | _ => None
  end.

Definition Interpolate (secs : list Z) (now : Z) (shape : option ShapeData)
  : option coord :=
  shape ← shape;
  if decide (Coordinates shape = [] \/ StopIndices shape = []) then None
  else
    k ← targetIndex secs now shape;
    Coordinates shape !! Z.to_nat k.

End Rounded.

(** A time of the clock: [HH:MM:SS] with minutes and seconds below 60. *)
Definition wfClock (t : string) : bool :=
  wfTime t &&
  match t with
  | String _ (String _ (String _ (String m1 (String _
      (String _ (String s1 _)))))) =>
      (Str.digit_val m1 <? 6) && (Str.digit_val s1 <? 6)
  | _ => false
  end.

(** The stop ids [ids] saved to the search history one after the other,
    from the item [st] on. *)
Definition savedInTurn {foreign : Type} (rewritten : foreign -> foreign)
    (ids : list string) (st : History.item foreign) : History.result foreign :=
  foldl (fun r stopId =>
           match r with
           | History.Done st => History.saveSearchHistory rewritten stopId st
           | History.TypeError => History.TypeError
           end) (History.Done st) ids.

(** The strings among the entries of a stored history. *)
Definition idsOf {foreign : Type} (l : list (History.entry foreign))
  : list string :=
  omap (fun e => match e with
                 | History.Id s => Some s
                 | History.Foreign _ => None
                 end) l.

(* ===================================================================== *)
(** * Binary64 arithmetic

    The operations of [SpecFloat] on the inputs of the interpolator
    round correctly: the facts below follow the rounding of the integer
    conversions, the quotient, the product and the sum, and end in the
    bounds and the monotonicity of [F64.lerp]. *)

Module RoundingFacts.
Import Rounding.

(** *** Ranks and rounding to nearest even *)
Lemma divmod4 M k : 0 <= k < 4 -> (4 * M + k) / 4 = M /\ (4 * M + k) mod 4 = k.
Proof.
  intros Hk. split.
  - symmetry. apply Z.div_unique with k; lia.
  - symmetry. apply Z.mod_unique with M; lia.
Qed.

Lemma half_4 M k :
  0 <= k < 4 -> half (4 * M + k) = 2 * M + (if k =? 0 then 0 else 1).
Proof.
  intros Hk. unfold half. destruct (divmod4 M k Hk) as [-> ->]. reflexivity.
Qed.

Lemma enc_shr_1 mrs :
  0 <= shr_m mrs -> enc (shr_1 mrs) = half (enc mrs) /\ 0 <= shr_m (shr_1 mrs).
Proof.
  destruct mrs as [m r s]; simpl; intros Hm.
  unfold enc; cbn [shr_m shr_r shr_s].
  rewrite half_4 by (destruct r, s; simpl; lia).
  destruct m as [|p|p]; [| |lia].
  - destruct r, s; simpl; split; reflexivity || lia.
  - destruct p as [p|p|]; cbn [shr_m shr_r shr_s shr_1].
    + rewrite (Pos2Z.inj_xI p). destruct r, s; simpl; split; lia.
    + rewrite (Pos2Z.inj_xO p). destruct r, s; simpl; split; lia.
    + destruct r, s; simpl; split; reflexivity || lia.
Qed.

(** Halving a rank doubles the divisor. *)
Lemma half_rk P Q : 0 < Q -> half (rk P Q) = rk P (2 * Q).
Proof.
  intros HQ. unfold rk.
  pose proof (Z.div_mod P Q ltac:(lia)) as H1.
  pose proof (Z.mod_pos_bound P Q HQ) as H2.
  set (F := P / Q) in *. set (R := P mod Q) in *.
  pose proof (Z.div_mod F 2 ltac:(lia)) as H3.
  pose proof (Z.mod_pos_bound F 2 ltac:(lia)) as H4.
  set (G := F / 2) in *. set (b := F mod 2) in *.
  assert (Hd : P / (2 * Q) = G).
  { symmetry. apply Z.div_unique with (b * Q + R); nia. }
  assert (Hm : P mod (2 * Q) = b * Q + R).
  { symmetry. apply Z.mod_unique with G; nia. }
  rewrite Hd, Hm.
  replace (2 * F + (if R =? 0 then 0 else 1))
    with (4 * G + (2 * b + (if R =? 0 then 0 else 1))) by lia.
  rewrite half_4 by (destruct (R =? 0); lia).
  destruct (Z.eqb_spec R 0), (Z.eqb_spec (b * Q + R) 0),
    (Z.eqb_spec (2 * b + 0) 0), (Z.eqb_spec (2 * b + 1) 0); try lia; nia.
Qed.

(** The rank grows with the quotient. *)
Lemma rk_mono P1 Q1 P2 Q2 :
  0 < Q1 -> 0 < Q2 -> P1 * Q2 <= P2 * Q1 -> rk P1 Q1 <= rk P2 Q2.
Proof.
  intros H1 H2 H. unfold rk.
  pose proof (Z.div_mod P1 Q1 ltac:(lia)).
  pose proof (Z.mod_pos_bound P1 Q1 H1).
  pose proof (Z.div_mod P2 Q2 ltac:(lia)).
  pose proof (Z.mod_pos_bound P2 Q2 H2).
  set (F1 := P1 / Q1) in *. set (R1 := P1 mod Q1) in *.
  set (F2 := P2 / Q2) in *. set (R2 := P2 mod Q2) in *.
  assert (F1 <= F2).
  { destruct (Z_le_gt_dec F1 F2) as [|Hgt]; [assumption|exfalso].
    assert (Q1 * Q2 * (F2 + 1) <= Q1 * Q2 * F1)
      by (apply Z.mul_le_mono_nonneg_l; nia).
    nia. }
  destruct (Z.eqb_spec R1 0), (Z.eqb_spec R2 0); try lia.
  assert (F1 <> F2) by (intros ->; nia). lia.
Qed.

Lemma rk_scale k P Q : 0 < k -> 0 < Q -> rk (k * P) (k * Q) = rk P Q.
Proof.
  intros Hk HQ. unfold rk.
  rewrite Z.div_mul_cancel_l by lia.
  rewrite Zmult_mod_distr_l.
  destruct (Z.eqb_spec (P mod Q) 0), (Z.eqb_spec (k * (P mod Q)) 0); nia.
Qed.

(** Rounding to nearest even on ranks of quarters: monotone, within one
    of the truncation, exact on integers. *)
Lemma rne_mono p q : 0 <= p <= q -> rne p <= rne q.
Proof.
  intros H. unfold rne.
  pose proof (Z.div_mod p 4 ltac:(lia)).
  pose proof (Z.mod_pos_bound p 4 ltac:(lia)).
  pose proof (Z.div_mod q 4 ltac:(lia)).
  pose proof (Z.mod_pos_bound q 4 ltac:(lia)).
  set (M := p / 4) in *. set (c := p mod 4) in *.
  set (M' := q / 4) in *. set (c' := q mod 4) in *.
  assert (M < M' \/ (M = M' /\ c <= c')) as [Hlt | [-> Hc]] by lia.
  - destruct (c <=? 1), (c =? 2), (Z.even M), (c' <=? 1), (c' =? 2), (Z.even M'); lia.
  - destruct (Z.leb_spec c 1), (Z.eqb_spec c 2), (Z.leb_spec c' 1), (Z.eqb_spec c' 2),
      (Z.even M'); lia.
Qed.

Lemma rne_bounds p : p / 4 <= rne p <= p / 4 + 1.
Proof.
  unfold rne. destruct (p mod 4 <=? 1), (p mod 4 =? 2), (Z.even (p / 4)); lia.
Qed.

Lemma rne_exact M : rne (4 * M) = M.
Proof.
  unfold rne. replace (4 * M) with (4 * M + 0) by lia.
  destruct (divmod4 M 0 ltac:(lia)) as [-> ->]. reflexivity.
Qed.

Lemma shr_m_enc mrs : shr_m mrs = enc mrs / 4.
Proof.
  unfold enc. destruct mrs as [m r s]; cbn [shr_m shr_r shr_s].
  destruct (divmod4 m (2 * Z.b2z r + Z.b2z s)) as [-> _]; [|reflexivity].
  destruct r, s; simpl; lia.
Qed.

(** [round_nearest_even] of [SpecFloat] reads the same rank. *)
Lemma rne_enc mrs :
  round_nearest_even (shr_m mrs) (loc_of_shr_record mrs) = rne (enc mrs).
Proof.
  unfold enc, rne. destruct mrs as [m r s]; cbn [shr_m shr_r shr_s].
  destruct (divmod4 m (2 * Z.b2z r + Z.b2z s)) as [-> ->].
  { destruct r, s; simpl; lia. }
  destruct r, s; reflexivity.
Qed.

Lemma enc_of_loc_nonneg m l : 0 <= m -> 0 <= shr_m (shr_record_of_loc m l).
Proof. destruct l as [|[]]; simpl; auto. Qed.

Lemma enc_exact m : enc (shr_record_of_loc m loc_Exact) = 4 * m.
Proof. unfold enc; simpl. lia. Qed.

Lemma rk_div4 P Q : 0 < Q -> rk P Q / 4 = P / (2 * Q).
Proof.
  intros HQ. unfold rk.
  rewrite (Z.mul_comm 2 Q), <- Z.div_div by lia.
  pose proof (Z.div_mod (P / Q) 2 ltac:(lia)).
  pose proof (Z.mod_pos_bound (P / Q) 2 ltac:(lia)).
  symmetry. apply Z.div_unique with (2 * ((P / Q) mod 2) + (if P mod Q =? 0 then 0 else 1)).
  - destruct (P mod Q =? 0); lia.
  - lia.
Qed.

(** Shifting right by [n] bits divides the quotient a record stands for
    by [2^n]. *)
Lemma iter_pos_shr_1 n : forall mrs P Q,
  0 <= shr_m mrs -> 0 < Q -> enc mrs = rk P Q ->
  enc (SpecFloat.iter_pos shr_1 n mrs) = rk P (Q * 2 ^ Zpos n) /\
  0 <= shr_m (SpecFloat.iter_pos shr_1 n mrs).
Proof.
  induction n as [n IH|n IH|]; intros mrs P Q Hm HQ He; cbn [SpecFloat.iter_pos].
  - assert (Hp : 0 < 2 ^ Z.pos n) by (apply Z.pow_pos_nonneg; lia).
    destruct (enc_shr_1 mrs Hm) as [E1 M1].
    rewrite He, half_rk in E1 by assumption.
    destruct (IH _ P (2 * Q) M1 ltac:(lia) E1) as [E2 M2].
    destruct (IH _ P (2 * Q * 2 ^ Z.pos n) M2 ltac:(apply Z.mul_pos_pos; lia) E2) as [E3 M3].
    split; [|assumption]. rewrite E3. f_equal.
    replace (Z.pos n~1) with (Z.pos n + Z.pos n + 1) by lia.
    rewrite !Z.pow_add_r, Z.pow_1_r by lia. ring.
  - assert (Hp : 0 < 2 ^ Z.pos n) by (apply Z.pow_pos_nonneg; lia).
    destruct (IH _ _ _ Hm HQ He) as [E2 M2].
    destruct (IH _ P (Q * 2 ^ Z.pos n) M2 ltac:(apply Z.mul_pos_pos; lia) E2) as [E3 M3].
    split; [|assumption]. rewrite E3. f_equal.
    replace (Z.pos n~0) with (Z.pos n + Z.pos n) by lia.
    rewrite !Z.pow_add_r by lia. ring.
  - destruct (enc_shr_1 mrs Hm) as [E1 M1].
    rewrite He, half_rk in E1 by assumption.
    split; [|assumption]. rewrite E1. f_equal. rewrite Z.pow_1_r. ring.
Qed.

Lemma shr_rk mrs e n P Q :
  0 <= shr_m mrs -> 0 < Q -> 0 <= n -> enc mrs = rk P Q ->
  enc (fst (shr mrs e n)) = rk P (Q * 2 ^ n) /\
  0 <= shr_m (fst (shr mrs e n)) /\
  snd (shr mrs e n) = e + n.
Proof.
  intros Hm HQ Hn He. destruct n as [|n|n]; [| |lia]; cbn [shr fst snd].
  - rewrite Z.pow_0_r, Z.mul_1_r, Z.add_0_r. auto.
  - destruct (iter_pos_shr_1 n mrs P Q Hm HQ He). auto.
Qed.

(** *** Number of binary digits *)
Lemma digits2_pos_bounds m :
  2 ^ (Zpos (digits2_pos m) - 1) <= Zpos m < 2 ^ Zpos (digits2_pos m).
Proof.
  induction m as [m IH|m IH|]; cbn [digits2_pos].
  - rewrite Pos2Z.inj_succ, (Pos2Z.inj_xI m).
    generalize (Pos2Z.is_pos (digits2_pos m)).
    generalize dependent (Z.pos (digits2_pos m)). intros d IH Hd.
    replace (Z.succ d - 1) with d by lia.
    rewrite Z.pow_succ_r by lia.
    replace d with (Z.succ (d - 1)) at 1 by lia.
    rewrite Z.pow_succ_r by lia. lia.
  - rewrite Pos2Z.inj_succ, (Pos2Z.inj_xO m).
    generalize (Pos2Z.is_pos (digits2_pos m)).
    generalize dependent (Z.pos (digits2_pos m)). intros d IH Hd.
    replace (Z.succ d - 1) with d by lia.
    rewrite Z.pow_succ_r by lia.
    replace d with (Z.succ (d - 1)) at 1 by lia.
    rewrite Z.pow_succ_r by lia. lia.
  - simpl. lia.
Qed.

Lemma digits2_pos_unique m k :
  2 ^ (k - 1) <= Zpos m < 2 ^ k -> Zpos (digits2_pos m) = k.
Proof.
  intros [H1 H2]. pose proof (digits2_pos_bounds m) as [H3 H4].
  set (d := Zpos (digits2_pos m)) in *.
  assert (Hd : 0 < d) by (unfold d; lia).
  assert (Hk : 0 < k).
  { destruct (Z_lt_le_dec 0 k); [assumption|exfalso].
    destruct (Z.eq_dec k 0) as [->|]; [simpl in H2; lia|].
    rewrite (Z.pow_neg_r 2 k) in H2 by lia. lia. }
  destruct (Z.lt_trichotomy d k) as [Hlt | [Heq | Hgt]]; [exfalso|assumption|exfalso].
  - assert (2 ^ d <= 2 ^ (k - 1)) by (apply Z.pow_le_mono_r; lia). lia.
  - assert (2 ^ k <= 2 ^ (d - 1)) by (apply Z.pow_le_mono_r; lia). lia.
Qed.

Section Round.
Variables prec emax : Z.
Hypothesis Hprec : 0 < prec.

(** Rounding in the normal range: a mantissa of at least [prec] digits
    whose rounded value neither underflows nor overflows. [P/Q] is twice
    the rounded quantity in units of [2^e]. *)
Lemma binary_round_aux_normal s m e l P Q :
  0 < Q ->
  enc (shr_record_of_loc (Zpos m) l) = rk P Q ->
  let d := Zpos (digits2_pos m) in
  prec <= d ->
  emin prec emax <= d + e - prec ->
  d + e < emax ->
  exists m' e',
    binary_round_aux prec emax s (Zpos m) e l = S754_finite s m' e' /\
    Zpos (digits2_pos m') = prec /\
    d + e - prec <= e' <= d + e - prec + 1 /\
    Zpos m' * 2 ^ (e' - (d + e - prec)) = rne (rk P (Q * 2 ^ (d - prec))).
Proof.
  intros HQ He d Hd Hmin Hmax.
  unfold binary_round_aux.
  assert (Hfexp : fexp prec emax (Zdigits2 (Zpos m) + e) = d + e - prec).
  { unfold fexp. cbn [Zdigits2]. fold d. lia. }
  unfold shr_fexp at 1. rewrite Hfexp.
  replace (d + e - prec - e) with (d - prec) by lia.
  destruct (shr_rk (shr_record_of_loc (Zpos m) l) e (d - prec) P Q)
    as (E1 & M1 & X1); [apply enc_of_loc_nonneg; lia|assumption|lia|assumption|].
  destruct (shr _ e (d - prec)) as [mrs1 e1]. cbn [fst snd] in E1, M1, X1.
  rewrite rne_enc, E1. subst e1.
  set (M := rne (rk P (Q * 2 ^ (d - prec)))).
  (* the truncated mantissa has [prec] digits *)
  assert (Hp2 : 0 < 2 ^ (d - prec)) by (apply Z.pow_pos_nonneg; lia).
  assert (Hmt : rk P (Q * 2 ^ (d - prec)) / 4 = Zpos m / 2 ^ (d - prec)).
  { rewrite rk_div4 by (apply Z.mul_pos_pos; lia).
    replace (2 * (Q * 2 ^ (d - prec))) with (2 * Q * 2 ^ (d - prec)) by ring.
    rewrite <- Z.div_div by lia.
    rewrite <- rk_div4, <- He, <- shr_m_enc by assumption.
    destruct l as [|[]]; reflexivity. }
  pose proof (digits2_pos_bounds m) as [B1 B2]. fold d in B1, B2.
  assert (Hmt1 : 2 ^ (prec - 1) <= Zpos m / 2 ^ (d - prec)).
  { apply Z.div_le_lower_bound; [lia|].
    rewrite <- Z.pow_add_r by lia.
    replace (d - prec + (prec - 1)) with (d - 1) by lia. lia. }
  assert (Hmt2 : Zpos m / 2 ^ (d - prec) < 2 ^ prec).
  { apply Z.div_lt_upper_bound; [lia|].
    rewrite <- Z.pow_add_r by lia.
    replace (d - prec + prec) with d by lia. lia. }
  pose proof (rne_bounds (rk P (Q * 2 ^ (d - prec)))) as HM. fold M in HM.
  rewrite Hmt in HM.
  assert (Hpp : 0 < 2 ^ (prec - 1)) by (apply Z.pow_pos_nonneg; lia).
  assert (HMpos : 0 < M) by lia.
  destruct M as [|Mp|Mp] eqn:EM; [lia| |lia].
  assert (Hpow : 2 ^ prec = 2 * 2 ^ (prec - 1)).
  { replace prec with (Z.succ (prec - 1)) at 1 by lia.
    apply Z.pow_succ_r. lia. }
  destruct (Z_lt_le_dec (Zpos Mp) (2 ^ prec)) as [Hlt | Hge].
  - (* no carry *)
    assert (Hdg : Zpos (digits2_pos Mp) = prec)
      by (apply digits2_pos_unique; lia).
    unfold shr_fexp. cbn [Zdigits2]. rewrite Hdg.
    replace (fexp prec emax (prec + (e + (d - prec))) - (e + (d - prec))) with 0
      by (unfold fexp; lia).
    cbn [shr shr_record_of_loc shr_m].
    replace (e + (d - prec) <=? emax - prec) with true
      by (symmetry; apply Z.leb_le; lia).
    exists Mp, (e + (d - prec)). repeat split; try lia.
    replace (e + (d - prec) - (d + e - prec)) with 0 by lia.
    rewrite Z.pow_0_r. lia.
  - (* the mantissa rounded up to [2^prec] *)
    assert (HMp : Zpos Mp = 2 ^ prec) by lia.
    assert (Hdg : Zpos (digits2_pos Mp) = prec + 1).
    { apply digits2_pos_unique. replace (prec + 1 - 1) with prec by lia.
      rewrite HMp. split; [lia|]. rewrite Z.pow_add_r, Z.pow_1_r by lia. lia. }
    unfold shr_fexp. cbn [Zdigits2]. rewrite Hdg.
    replace (fexp prec emax (prec + 1 + (e + (d - prec))) - (e + (d - prec))) with 1
      by (unfold fexp; lia).
    destruct (shr_rk (shr_record_of_loc (Zpos Mp) loc_Exact) (e + (d - prec)) 1
                (4 * Zpos Mp) 2) as (E2 & M2 & X2);
      [simpl; lia|lia|lia| |].
    { rewrite enc_exact. unfold rk.
      replace (4 * Z.pos Mp) with (2 * Z.pos Mp * 2) by ring.
      rewrite Z.div_mul, Z.mod_mul by lia. simpl. lia. }
    destruct (shr _ (e + (d - prec)) 1) as [mrs2 e2]. cbn [fst snd] in E2, M2, X2.
    subst e2.
    assert (Hm2 : shr_m mrs2 = 2 ^ (prec - 1)).
    { rewrite shr_m_enc, E2, rk_div4 by lia.
      rewrite HMp, Hpow. replace (2 * (2 * 2 ^ 1)) with (4 * 2) by reflexivity.
      replace (4 * (2 * 2 ^ (prec - 1))) with (2 ^ (prec - 1) * (4 * 2)) by ring.
      apply Z.div_mul. lia. }
    rewrite Hm2.
    destruct (2 ^ (prec - 1)) as [|m2|m2] eqn:E2p; [lia| |lia].
    replace (e + (d - prec) + 1 <=? emax - prec) with true
      by (symmetry; apply Z.leb_le; lia).
    exists m2, (e + (d - prec) + 1). repeat split; try lia.
    + apply digits2_pos_unique. rewrite <- E2p.
      replace (prec - 1) with (prec - 1) by lia. lia.
    + replace (e + (d - prec) + 1 - (d + e - prec)) with 1 by lia.
      rewrite Z.pow_1_r. lia.
Qed.
End Round.

(** *** Values in units of [2^-K] *)
Lemma pow2_pos k : 0 <= k -> 0 < 2 ^ k.
Proof. intros. apply Z.pow_pos_nonneg; lia. Qed.

Lemma pow2_split a b : 0 <= a -> 0 <= b -> 2 ^ (a + b) = 2 ^ a * 2 ^ b.
Proof. intros. apply Z.pow_add_r; assumption. Qed.

Section Values.
Variables prec emax K : Z.
Hypothesis Hprec : 0 < prec.

Local Abbreviation scaled := (Rounding.scaled K).
Local Abbreviation V := (Rounding.scaled K).
Local Abbreviation RN := (Rounding.RN prec K).
Local Abbreviation is_mag := (Rounding.is_mag K).

(** The binade grows with the quotient. *)
Lemma is_mag_le g1 g2 X1 Y1 X2 Y2 :
  0 < Y1 -> 0 < Y2 -> 0 <= g1 - 1 + K ->
  is_mag g1 X1 Y1 -> is_mag g2 X2 Y2 -> X1 * Y2 <= X2 * Y1 -> g1 <= g2.
Proof.
  intros HY1 HY2 Hg [A1 A2] [B1 B2] H.
  destruct (Z_le_gt_dec g1 g2) as [|Hgt]; [assumption|exfalso].
  assert (Hp : 2 ^ (g2 + K) <= 2 ^ (g1 - 1 + K)) by (apply Z.pow_le_mono_r; lia).
  assert (0 < 2 ^ (g1 - 1 + K)) by (apply pow2_pos; lia).
  assert (X2 * Y1 < 2 ^ (g2 + K) * Y2 * Y1) by (apply Z.mul_lt_mono_pos_r; lia).
  assert (2 ^ (g1 - 1 + K) * Y1 * Y2 <= X1 * Y2) by (apply Z.mul_le_mono_nonneg_r; lia).
  assert (2 ^ (g2 + K) * Y2 * Y1 <= 2 ^ (g1 - 1 + K) * Y1 * Y2).
  { replace (2 ^ (g2 + K) * Y2 * Y1) with (2 ^ (g2 + K) * (Y1 * Y2)) by ring.
    replace (2 ^ (g1 - 1 + K) * Y1 * Y2) with (2 ^ (g1 - 1 + K) * (Y1 * Y2)) by ring.
    apply Z.mul_le_mono_nonneg_r; [nia|assumption]. }
  lia.
Qed.

Lemma RN_quot g X Y :
  0 < Y -> 0 <= g - prec + K ->
  rk (2 * X) (Y * 2 ^ (g - prec + K)) / 4 = X / (Y * 2 ^ (g - prec + K)).
Proof.
  intros HY Hg. pose proof (pow2_pos _ Hg).
  rewrite rk_div4 by (apply Z.mul_pos_pos; lia).
  apply Z.div_mul_cancel_l; [|lia].
  apply Z.neq_mul_0; lia.
Qed.

(** A rounded value stays in the closure of its binade. *)
Lemma RN_upper g X Y :
  0 < Y -> 0 <= g - prec + K -> is_mag g X Y -> RN g X Y <= 2 ^ (g + K).
Proof.
  intros HY Hg [_ A2]. unfold RN.
  pose proof (rne_bounds (rk (2 * X) (Y * 2 ^ (g - prec + K)))) as [_ Hb].
  rewrite RN_quot in Hb by assumption.
  set (S := 2 ^ (g - prec + K)) in *. assert (HS : 0 < S) by (apply pow2_pos; lia).
  assert (Hpw : 2 ^ (g + K) = 2 ^ prec * S).
  { unfold S. rewrite <- pow2_split by lia. f_equal. lia. }
  assert (X / (Y * S) < 2 ^ prec).
  { apply Z.div_lt_upper_bound; [nia|]. rewrite Hpw in A2. lia. }
  rewrite Hpw. apply Z.mul_le_mono_nonneg_r; lia.
Qed.

Lemma RN_lower g X Y :
  0 < Y -> 0 <= g - prec + K -> is_mag g X Y -> 2 ^ (g - 1 + K) <= RN g X Y.
Proof.
  intros HY Hg [A1 _]. unfold RN.
  pose proof (rne_bounds (rk (2 * X) (Y * 2 ^ (g - prec + K)))) as [Hb _].
  rewrite RN_quot in Hb by assumption.
  set (S := 2 ^ (g - prec + K)) in *. assert (HS : 0 < S) by (apply pow2_pos; lia).
  assert (Hpw : 2 ^ (g - 1 + K) = 2 ^ (prec - 1) * S).
  { unfold S. rewrite <- pow2_split by lia. f_equal. lia. }
  assert (2 ^ (prec - 1) <= X / (Y * S)).
  { apply Z.div_le_lower_bound; [nia|]. rewrite Hpw in A1. lia. }
  rewrite Hpw. apply Z.mul_le_mono_nonneg_r; lia.
Qed.

(** Rounding is monotone, also across binades. *)
Lemma RN_mono g1 g2 X1 Y1 X2 Y2 :
  0 < Y1 -> 0 < Y2 -> 0 <= g1 - prec + K -> 0 <= X1 ->
  is_mag g1 X1 Y1 -> is_mag g2 X2 Y2 -> X1 * Y2 <= X2 * Y1 ->
  RN g1 X1 Y1 <= RN g2 X2 Y2.
Proof.
  intros HY1 HY2 Hg HX M1 M2 H.
  assert (Hle : g1 <= g2) by (apply (is_mag_le g1 g2 X1 Y1 X2 Y2); auto; lia).
  destruct (Z.eq_dec g1 g2) as [<-|Hne].
  - unfold RN.
    set (S := 2 ^ (g1 - prec + K)). assert (HS : 0 < S) by (apply pow2_pos; lia).
    apply Z.mul_le_mono_nonneg_r; [lia|].
    apply rne_mono. split.
    + unfold rk. assert (0 <= 2 * X1 / (Y1 * S)) by (apply Z.div_pos; nia).
      destruct (_ =? 0); lia.
    + apply rk_mono; [nia|nia|].
      replace (2 * X1 * (Y2 * S)) with (2 * S * (X1 * Y2)) by ring.
      replace (2 * X2 * (Y1 * S)) with (2 * S * (X2 * Y1)) by ring.
      apply Z.mul_le_mono_nonneg_l; lia.
  - pose proof (RN_upper g1 X1 Y1 HY1 Hg M1).
    pose proof (RN_lower g2 X2 Y2 HY2 ltac:(lia) M2).
    assert (2 ^ (g1 + K) <= 2 ^ (g2 - 1 + K)) by (apply Z.pow_le_mono_r; lia).
    lia.
Qed.

(** A quotient that has [prec] digits rounds to itself. *)
Lemma RN_exact g X Y M0 :
  0 < Y -> 0 <= g - prec + K ->
  X = M0 * 2 ^ (g - prec + K) * Y ->
  RN g X Y = M0 * 2 ^ (g - prec + K).
Proof.
  intros HY Hg ->. unfold RN.
  set (S := 2 ^ (g - prec + K)). assert (HS : 0 < S) by (apply pow2_pos; lia).
  f_equal. unfold rk.
  replace (2 * (M0 * S * Y)) with (2 * M0 * (Y * S)) by ring.
  rewrite Z.div_mul, Z.mod_mul by nia. simpl.
  replace (2 * (2 * M0) + 0) with (4 * M0) by ring. apply rne_exact.
Qed.

Local Abbreviation rounds := (Rounding.rounds_to prec K).

(** Correctly rounded values are ordered as the quotients they round. *)
Lemma rounds_mono x1 x2 X1 Y1 X2 Y2 :
  rounds x1 X1 Y1 -> rounds x2 X2 Y2 -> X1 * Y2 <= X2 * Y1 -> V x1 <= V x2.
Proof.
  intros (m1 & e1 & g1 & -> & D1 & HY1 & HX1 & G1 & M1 & E1 & V1)
         (m2 & e2 & g2 & -> & D2 & HY2 & HX2 & G2 & M2 & E2 & V2) H.
  rewrite V1, V2. apply RN_mono; auto; lia.
Qed.
End Values.

(** *** Alignment and division of mantissas *)
Lemma iter_xO m d : Zpos (Pos.iter xO m d) = Zpos m * 2 ^ Zpos d.
Proof.
  induction d as [|d IH] using Pos.peano_ind.
  - simpl. rewrite Z.pow_1_r. lia.
  - rewrite Pos.iter_succ, Pos2Z.inj_xO, IH, Pos2Z.inj_succ, Z.pow_succ_r by lia. ring.
Qed.

Lemma shl_align_spec m e e' :
  let r := shl_align m e e' in
  snd r = Z.min e e' /\ Zpos (fst r) = Zpos m * 2 ^ (e - Z.min e e').
Proof.
  unfold shl_align. destruct (e' - e) as [|d|d] eqn:Hd; cbn [fst snd].
  - replace (Z.min e e') with e by lia. rewrite Z.sub_diag. simpl. lia.
  - replace (Z.min e e') with e by lia. rewrite Z.sub_diag. simpl. lia.
  - replace (Z.min e e') with e' by lia. rewrite iter_xO.
    replace (e - e') with (Zpos d) by lia. lia.
Qed.

Lemma new_location_enc m2 m' :
  0 < m2 -> 0 <= m' ->
  enc (shr_record_of_loc (m' / m2) (new_location m2 (m' mod m2))) = rk (2 * m') m2.
Proof.
  intros H2 H'.
  pose proof (Z.div_mod m' m2 ltac:(lia)) as Hdm.
  pose proof (Z.mod_pos_bound m' m2 H2) as Hb.
  revert Hdm Hb. generalize (m' / m2) (m' mod m2). intros q r Hdm Hb.
  assert (Hrk : rk (2 * m') m2 =
                4 * q + (if 2 * r <? m2 then (if r =? 0 then 0 else 1)
                         else if 2 * r =? m2 then 2 else 3)).
  { unfold rk. destruct (Z.ltb_spec (2 * r) m2).
    - replace (2 * m' / m2) with (2 * q) by (apply Z.div_unique with (2 * r); lia).
      replace ((2 * m') mod m2) with (2 * r) by (apply Z.mod_unique with (2 * q); lia).
      destruct (Z.eqb_spec r 0), (Z.eqb_spec (2 * r) 0); lia.
    - replace (2 * m' / m2) with (2 * q + 1) by (apply Z.div_unique with (2 * r - m2); lia).
      replace ((2 * m') mod m2) with (2 * r - m2) by (apply Z.mod_unique with (2 * q + 1); lia).
      destruct (Z.eqb_spec (2 * r) m2), (Z.eqb_spec (2 * r - m2) 0); lia. }
  rewrite Hrk. unfold new_location, new_location_even, new_location_odd.
  destruct (Z.even m2) eqn:Hev.
  - destruct (Z.eqb_spec r 0) as [->|Hr].
    + unfold enc; cbn [shr_record_of_loc shr_m shr_r shr_s Z.b2z]; destruct (Z.ltb_spec (2 * 0) m2); lia.
    + destruct (Z.compare_spec (2 * r) m2); unfold enc; cbn [shr_record_of_loc shr_m shr_r shr_s Z.b2z];
        destruct (Z.ltb_spec (2 * r) m2), (Z.eqb_spec (2 * r) m2); lia.
  - assert (Hodd : 2 * r <> m2).
    { intros E. rewrite <- E, Z.even_mul in Hev. discriminate. }
    destruct (Z.eqb_spec r 0) as [->|Hr].
    + unfold enc; cbn [shr_record_of_loc shr_m shr_r shr_s Z.b2z]; destruct (Z.ltb_spec (2 * 0) m2); lia.
    + destruct (Z.compare_spec (2 * r + 1) m2); unfold enc; cbn [shr_record_of_loc shr_m shr_r shr_s Z.b2z];
        destruct (Z.ltb_spec (2 * r) m2), (Z.eqb_spec (2 * r) m2); lia.
Qed.

Lemma digits2_pos_ge m k : 2 ^ (k - 1) <= Zpos m -> k <= Zpos (digits2_pos m).
Proof.
  intros H. pose proof (digits2_pos_bounds m) as [_ B2].
  destruct (Z_le_gt_dec k (Zpos (digits2_pos m))) as [|Hgt]; [assumption|exfalso].
  assert (2 ^ Zpos (digits2_pos m) <= 2 ^ (k - 1)) by (apply Z.pow_le_mono_r; lia).
  lia.
Qed.

Lemma digits2_pos_le m k : 0 <= k -> Zpos m < 2 ^ k -> Zpos (digits2_pos m) <= k.
Proof.
  intros Hk H. pose proof (digits2_pos_bounds m) as [B1 _].
  destruct (Z_le_gt_dec (Zpos (digits2_pos m)) k) as [|Hgt]; [assumption|exfalso].
  assert (2 ^ k <= 2 ^ (Zpos (digits2_pos m) - 1)) by (apply Z.pow_le_mono_r; lia).
  lia.
Qed.

Lemma div_core_shift m s :
  0 < s ->
  match s with Z.pos _ => Z.shiftl m s | 0 => m | Z.neg _ => 0 end = m * 2 ^ s.
Proof. intros Hs. destruct s; try lia. apply Z.shiftl_mul_pow2. lia. Qed.

Section Ops.
Variables prec emax K : Z.
Hypothesis Hprec : 0 < prec.

Local Abbreviation rounds := (rounds_to prec K).
Local Abbreviation V := (scaled K).

(** *** The operations round correctly *)
Lemma round_aux_rounds m e l X Y :
  0 < Y -> 0 < X -> 0 <= e + K ->
  enc (shr_record_of_loc (Zpos m) l) = rk (2 * X) (Y * 2 ^ (e + K)) ->
  prec <= Zpos (digits2_pos m) ->
  emin prec emax <= Zpos (digits2_pos m) + e - prec ->
  Zpos (digits2_pos m) + e < emax ->
  rounds (binary_round_aux prec emax false (Zpos m) e l) X Y.
Proof.
  intros HY HX HeK Henc Hd Hmin Hmax.
  assert (HQ : 0 < Y * 2 ^ (e + K)) by (apply Z.mul_pos_pos; [lia|apply pow2_pos; lia]).
  destruct (binary_round_aux_normal prec emax Hprec false m e l _ _ HQ Henc Hd Hmin Hmax)
    as (m' & e' & -> & Hdg & He' & Hval).
  set (d := Zpos (digits2_pos m)) in *.
  exists m', e', (d + e). repeat split; try assumption; try lia.
  - (* lower magnitude bound *)
    pose proof (digits2_pos_bounds m) as [B1 _]. fold d in B1.
    assert (Hm : Zpos m = X / (Y * 2 ^ (e + K))).
    { transitivity (shr_m (shr_record_of_loc (Zpos m) l)); [destruct l as [|[]]; reflexivity|].
      rewrite shr_m_enc, Henc, rk_div4 by assumption.
      apply Z.div_mul_cancel_l; lia. }
    pose proof (Z.mul_div_le X _ HQ) as Hle. rewrite <- Hm in Hle.
    replace (d + e - 1 + K) with ((d - 1) + (e + K)) by lia.
    rewrite pow2_split by lia.
    assert (Y * 2 ^ (e + K) * 2 ^ (d - 1) <= Y * 2 ^ (e + K) * Z.pos m)
      by (apply Z.mul_le_mono_nonneg_l; lia).
    lia.
  - pose proof (digits2_pos_bounds m) as [_ B2]. fold d in B2.
    assert (Hm : Zpos m = X / (Y * 2 ^ (e + K))).
    { transitivity (shr_m (shr_record_of_loc (Zpos m) l)); [destruct l as [|[]]; reflexivity|].
      rewrite shr_m_enc, Henc, rk_div4 by assumption.
      apply Z.div_mul_cancel_l; lia. }
    pose proof (Z.mul_succ_div_gt X _ HQ) as Hlt. rewrite <- Hm in Hlt.
    replace (d + e + K) with (d + (e + K)) by lia.
    rewrite pow2_split by lia.
    assert (Y * 2 ^ (e + K) * Z.succ (Z.pos m) <= Y * 2 ^ (e + K) * 2 ^ d)
      by (apply Z.mul_le_mono_nonneg_l; lia).
    lia.
  - cbn [scaled]. unfold RN.
    replace (Y * 2 ^ (d + e - prec + K)) with (Y * 2 ^ (e + K) * 2 ^ (d - prec)).
    2:{ rewrite <- Z.mul_assoc, <- pow2_split by lia. do 2 f_equal. lia. }
    rewrite <- Hval.
    replace (e' + K) with ((e' - (d + e - prec)) + (d + e - prec + K)) by lia.
    rewrite pow2_split by lia. ring.
Qed.

Lemma rk_exact_int M c : 0 < c -> rk (2 * (M * c)) (1 * c) = 4 * M.
Proof.
  intros Hc. replace (2 * (M * c)) with (c * (2 * M)) by ring.
  rewrite (Z.mul_comm 1 c), rk_scale by lia.
  unfold rk. rewrite Z.div_1_r, Z.mod_1_r. simpl. ring.
Qed.

(** Normalising a finite value. *)
Lemma binary_round_rounds m e :
  let d := Zpos (digits2_pos m) in
  0 <= Z.min e (d + e - prec) + K ->
  emin prec emax <= d + e - prec ->
  d + e < emax ->
  rounds (binary_round prec emax false m e) (Zpos m * 2 ^ (e + K)) 1.
Proof.
  intros d HK Hmin Hmax. unfold binary_round.
  assert (Hfexp : fexp prec emax (Zpos (digits2_pos m) + e) = d + e - prec).
  { unfold fexp. fold d. lia. }
  rewrite Hfexp.
  pose proof (shl_align_spec m e (d + e - prec)) as [Hez Hmz].
  destruct (shl_align m e (d + e - prec)) as [mz ez]. cbn [fst snd] in Hez, Hmz.
  pose proof (digits2_pos_bounds m) as [B1 B2]. fold d in B1, B2.
  assert (Hpk : 0 < 2 ^ (e - ez)) by (apply pow2_pos; lia).
  assert (Hdz : Zpos (digits2_pos mz) = d + (e - ez)).
  { apply digits2_pos_unique. rewrite Hmz, <- Hez.
    replace (d + (e - ez) - 1) with ((d - 1) + (e - ez)) by lia.
    rewrite !pow2_split by lia. nia. }
  assert (HX : Zpos m * 2 ^ (e + K) = Zpos mz * 2 ^ (ez + K)).
  { rewrite Hmz, <- Hez. replace (e + K) with ((e - ez) + (ez + K)) by lia.
    rewrite pow2_split by lia. ring. }
  assert (0 < 2 ^ (ez + K)) by (apply pow2_pos; lia).
  apply round_aux_rounds; try lia.
  - rewrite enc_exact, HX. symmetry. apply rk_exact_int. lia.
Qed.

(** The conversion of a positive integer of at most [prec] bits is
    exact. *)
Lemma of_int_rounds z :
  prec - 1 <= K -> emin prec emax <= 1 - prec -> prec < emax ->
  0 < z < 2 ^ prec ->
  rounds (binary_normalize prec emax z 0 false) (z * 2 ^ K) 1.
Proof.
  intros HK Hmin Hmax Hz. destruct z as [|p|p]; [lia| |lia].
  cbn [binary_normalize].
  pose proof (digits2_pos_le p prec ltac:(lia) ltac:(lia)).
  pose proof (Pos2Z.is_pos (digits2_pos p)).
  replace (2 ^ K) with (2 ^ (0 + K)) by (f_equal; lia).
  apply binary_round_rounds; lia.
Qed.

(** Floats of a bounded exponent range. *)
Variable B : Z.
Hypothesis HB : 0 <= B.
Hypothesis HBK : 2 * B + 2 * prec <= K.
Hypothesis HBmin : emin prec emax <= - (2 * B + 2 * prec).
Hypothesis HBmax : 2 * B + 2 * prec + 2 <= emax.

Local Abbreviation tame := (tame_at prec B).

Lemma tame_V_pos x : tame x -> 0 < V x.
Proof.
  intros (m & e & -> & _ & He). cbn [scaled].
  apply Z.mul_pos_pos; [lia|apply pow2_pos; lia].
Qed.

(** Product, quotient and sum of positive floats of a bounded exponent
    range. *)
Lemma mul_rounds x1 x2 :
  tame x1 -> tame x2 -> rounds (SFmul prec emax x1 x2) (V x1 * V x2) (2 ^ K).
Proof.
  intros (m1 & e1 & -> & D1 & E1) (m2 & e2 & -> & D2 & E2).
  cbn [SFmul xorb scaled].
  pose proof (digits2_pos_bounds m1) as [A1 A2]. rewrite D1 in A1, A2.
  pose proof (digits2_pos_bounds m2) as [C1 C2]. rewrite D2 in C1, C2.
  assert (Hp : 0 < 2 ^ (prec - 1)) by (apply pow2_pos; lia).
  assert (Hd1 : prec <= Zpos (digits2_pos (m1 * m2))).
  { apply digits2_pos_ge. rewrite Pos2Z.inj_mul. nia. }
  assert (Hd2 : Zpos (digits2_pos (m1 * m2)) <= 2 * prec).
  { apply digits2_pos_le; [lia|]. rewrite Pos2Z.inj_mul.
    replace (2 * prec) with (prec + prec) by lia. rewrite pow2_split by lia. nia. }
  assert (Hk : 0 < 2 ^ K) by (apply pow2_pos; lia).
  assert (0 < 2 ^ (e1 + K)) by (apply pow2_pos; lia).
  assert (0 < 2 ^ (e2 + K)) by (apply pow2_pos; lia).
  assert (0 < Z.pos m1 * 2 ^ (e1 + K) * (Z.pos m2 * 2 ^ (e2 + K)))
    by (apply Z.mul_pos_pos; apply Z.mul_pos_pos; lia).
  apply round_aux_rounds; try lia.
  rewrite enc_exact. rewrite <- pow2_split by lia.
  replace (Z.pos m1 * 2 ^ (e1 + K) * (Z.pos m2 * 2 ^ (e2 + K)))
    with (Zpos (m1 * m2) * 2 ^ (K + (e1 + e2 + K))).
  2:{ rewrite Pos2Z.inj_mul.
      replace (K + (e1 + e2 + K)) with ((e1 + K) + (e2 + K)) by lia.
      rewrite pow2_split by lia. ring. }
  rewrite <- (Z.mul_1_l (2 ^ (K + (e1 + e2 + K)))) at 2.
  symmetry. apply rk_exact_int. apply pow2_pos. lia.
Qed.

Lemma div_rounds x1 x2 :
  tame x1 -> tame x2 -> rounds (SFdiv prec emax x1 x2) (V x1 * 2 ^ K) (V x2).
Proof.
  intros (m1 & e1 & -> & D1 & E1) (m2 & e2 & -> & D2 & E2).
  cbn [SFdiv xorb scaled]. unfold SFdiv_core_binary. cbn [Zdigits2].
  rewrite D1, D2.
  replace (Z.min (fexp prec emax (prec + e1 - (prec + e2))) (e1 - e2))
    with (e1 - e2 - prec) by (unfold fexp; lia).
  replace (e1 - e2 - (e1 - e2 - prec)) with prec by lia.
  rewrite div_core_shift by lia.
  pose proof (digits2_pos_bounds m1) as [A1 A2]. rewrite D1 in A1, A2.
  pose proof (digits2_pos_bounds m2) as [C1 C2]. rewrite D2 in C1, C2.
  assert (Hp : 0 < 2 ^ (prec - 1)) by (apply pow2_pos; lia).
  assert (Hpw : 2 ^ prec = 2 * 2 ^ (prec - 1)).
  { replace prec with (Z.succ (prec - 1)) at 1 by lia. apply Z.pow_succ_r. lia. }
  set (m' := Zpos m1 * 2 ^ prec).
  assert (Hq : Z.div_eucl m' (Zpos m2) = (m' / Zpos m2, m' mod Zpos m2)).
  { unfold Z.div, Z.modulo. destruct (Z.div_eucl m' (Zpos m2)); reflexivity. }
  rewrite Hq.
  assert (Hq1 : 2 ^ (prec - 1) <= m' / Zpos m2).
  { apply Z.div_le_lower_bound; [lia|]. unfold m'. nia. }
  assert (Hq2 : m' / Zpos m2 < 2 ^ (prec + 1)).
  { apply Z.div_lt_upper_bound; [lia|]. unfold m'.
    rewrite pow2_split, Z.pow_1_r by lia. nia. }
  destruct (m' / Zpos m2) as [|q|q] eqn:Eq; [lia| |lia].
  assert (Hd1 : prec <= Zpos (digits2_pos q)) by (apply digits2_pos_ge; lia).
  assert (Hd2 : Zpos (digits2_pos q) <= prec + 1) by (apply digits2_pos_le; lia).
  assert (0 < 2 ^ K) by (apply pow2_pos; lia).
  assert (0 < 2 ^ (e1 + K)) by (apply pow2_pos; lia).
  assert (0 < 2 ^ (e2 + K)) by (apply pow2_pos; lia).
  assert (0 < Z.pos m1 * 2 ^ (e1 + K) * 2 ^ K)
    by (apply Z.mul_pos_pos; [apply Z.mul_pos_pos|]; lia).
  assert (0 < Z.pos m2 * 2 ^ (e2 + K)) by (apply Z.mul_pos_pos; lia).
  apply round_aux_rounds; try lia.
  rewrite <- Eq, new_location_enc by (unfold m'; nia).
  set (c := 2 ^ (e1 + K + K - prec)).
  assert (Hc : 0 < c) by (apply pow2_pos; lia).
  replace (2 * (Z.pos m1 * 2 ^ (e1 + K) * 2 ^ K)) with (c * (2 * m')).
  2:{ unfold c, m'. rewrite <- Z.mul_assoc, <- (pow2_split (e1 + K)) by lia.
      replace (e1 + K + K) with ((e1 + K + K - prec) + prec) at 2 by lia.
      rewrite pow2_split by lia. ring. }
  replace (Z.pos m2 * 2 ^ (e2 + K) * 2 ^ (e1 - e2 - prec + K)) with (c * Zpos m2).
  2:{ unfold c. rewrite <- Z.mul_assoc, <- pow2_split by lia.
      replace (e2 + K + (e1 - e2 - prec + K)) with (e1 + K + K - prec) by lia. ring. }
  symmetry. apply rk_scale; lia.
Qed.

Lemma add_rounds x1 x2 :
  tame x1 -> tame x2 -> rounds (SFadd prec emax x1 x2) (V x1 + V x2) 1.
Proof.
  intros (m1 & e1 & -> & D1 & E1) (m2 & e2 & -> & D2 & E2).
  cbn [SFadd cond_Zopp scaled].
  pose proof (shl_align_spec m1 e1 (Z.min e1 e2)) as [_ S1].
  pose proof (shl_align_spec m2 e2 (Z.min e1 e2)) as [_ S2].
  cbn zeta in S1, S2.
  set (ez := Z.min e1 e2) in *.
  replace (Z.min e1 ez) with ez in S1 by lia.
  replace (Z.min e2 ez) with ez in S2 by lia.
  set (a1 := fst (shl_align m1 e1 ez)) in *.
  set (a2 := fst (shl_align m2 e2 ez)) in *.
  rewrite <- Pos2Z.inj_add. cbn [binary_normalize].
  pose proof (digits2_pos_bounds m1) as [A1 A2]. rewrite D1 in A1, A2.
  pose proof (digits2_pos_bounds m2) as [C1 C2]. rewrite D2 in C1, C2.
  assert (Hp : 0 < 2 ^ (prec - 1)) by (apply pow2_pos; lia).
  assert (H1 : 0 < 2 ^ (e1 - ez)) by (apply pow2_pos; lia).
  assert (H2 : 0 < 2 ^ (e2 - ez)) by (apply pow2_pos; lia).
  assert (Hd1 : prec <= Zpos (digits2_pos (a1 + a2))).
  { apply digits2_pos_ge. rewrite Pos2Z.inj_add, S1, S2. nia. }
  set (w := Z.max e1 e2 - ez).
  assert (Hd2 : Zpos (digits2_pos (a1 + a2)) <= prec + w + 1).
  { apply digits2_pos_le; [lia|]. rewrite Pos2Z.inj_add, S1, S2.
    assert (2 ^ (e1 - ez) <= 2 ^ w) by (apply Z.pow_le_mono_r; lia).
    assert (2 ^ (e2 - ez) <= 2 ^ w) by (apply Z.pow_le_mono_r; lia).
    replace (prec + w + 1) with (1 + (prec + w)) by lia.
    rewrite (pow2_split 1), (pow2_split prec), Z.pow_1_r by lia.
    assert (0 < 2 ^ w) by (apply pow2_pos; lia). nia. }
  replace (Z.pos m1 * 2 ^ (e1 + K) + Z.pos m2 * 2 ^ (e2 + K))
    with (Zpos (a1 + a2) * 2 ^ (ez + K)).
  2:{ rewrite Pos2Z.inj_add, S1, S2.
      replace (e1 + K) with ((e1 - ez) + (ez + K)) by lia.
      replace (e2 + K) with ((e2 - ez) + (ez + K)) by lia.
      rewrite (pow2_split (e1 - ez)), (pow2_split (e2 - ez)) by lia. ring. }
  apply binary_round_rounds; lia.
Qed.

(** A rounded value of bounded magnitude has a bounded exponent. *)
Lemma rounds_tame x X Y lo hi :
  rounds x X Y ->
  2 ^ (lo + K) * Y <= X < 2 ^ (hi + K) * Y ->
  0 <= lo + K -> - B <= lo + 1 - prec -> hi - prec + 1 <= B ->
  tame x.
Proof.
  intros (m & e & g & -> & D & HY & HX & G & [M1 M2] & E & _) [L1 L2] Hlo HloB HhiB.
  exists m, e. repeat split; [assumption| |].
  - assert (lo < g).
    { destruct (Z_lt_le_dec lo g) as [|Hge]; [assumption|exfalso].
      assert (2 ^ (g + K) <= 2 ^ (lo + K)) by (apply Z.pow_le_mono_r; lia).
      assert (2 ^ (g + K) * Y <= 2 ^ (lo + K) * Y) by (apply Z.mul_le_mono_nonneg_r; lia).
      lia. }
    lia.
  - assert (g <= hi).
    { destruct (Z_le_gt_dec g hi) as [|Hgt]; [assumption|exfalso].
      assert (2 ^ (hi + K) <= 2 ^ (g - 1 + K)) by (apply Z.pow_le_mono_r; lia).
      assert (2 ^ (hi + K) * Y <= 2 ^ (g - 1 + K) * Y) by (apply Z.mul_le_mono_nonneg_r; lia).
      lia. }
    lia.
Qed.

(** A rounded value keeps the power-of-two bounds of its quotient. *)
Lemma rounds_V_bounds x X Y lo hi :
  rounds x X Y ->
  2 ^ (lo + K) * Y <= X -> X <= 2 ^ (hi + K) * Y ->
  0 <= lo + K - prec + 1 -> lo <= hi ->
  2 ^ (lo + K) <= V x <= 2 ^ (hi + K).
Proof.
  intros (m & e & g & -> & D & HY & HX & G & M & E & HV) L1 L2 Hlo Hlh.
  assert (A : V (S754_finite false m e) = RN prec K g X Y) by exact HV.
  rewrite A. split.
  - assert (Hm : is_mag K (lo + 1) (2 ^ (lo + K)) 1).
    { unfold is_mag. replace (lo + 1 - 1 + K) with (lo + K) by lia.
      replace (lo + 1 + K) with (Z.succ (lo + K)) by lia.
      rewrite Z.pow_succ_r by lia.
      assert (0 < 2 ^ (lo + K)) by (apply pow2_pos; lia). lia. }
    assert (0 < 2 ^ (lo + K)) by (apply pow2_pos; lia).
    assert (Hex : RN prec K (lo + 1) (2 ^ (lo + K)) 1 = 2 ^ (lo + K)).
    { rewrite (RN_exact prec K (lo + 1) (2 ^ (lo + K)) 1 (2 ^ (prec - 1)));
        [rewrite <- pow2_split by lia; f_equal; lia | lia | lia
        | rewrite Z.mul_1_r, <- pow2_split by lia; f_equal; lia]. }
    rewrite <- Hex at 1. apply RN_mono; try assumption; try lia.
  - assert (Hm : is_mag K (hi + 1) (2 ^ (hi + K)) 1).
    { unfold is_mag. replace (hi + 1 - 1 + K) with (hi + K) by lia.
      replace (hi + 1 + K) with (Z.succ (hi + K)) by lia.
      rewrite Z.pow_succ_r by lia.
      assert (0 < 2 ^ (hi + K)) by (apply pow2_pos; lia). lia. }
    assert (0 < 2 ^ (hi + K)) by (apply pow2_pos; lia).
    assert (Hex : RN prec K (hi + 1) (2 ^ (hi + K)) 1 = 2 ^ (hi + K)).
    { rewrite (RN_exact prec K (hi + 1) (2 ^ (hi + K)) 1 (2 ^ (prec - 1)));
        [rewrite <- pow2_split by lia; f_equal; lia | lia | lia
        | rewrite Z.mul_1_r, <- pow2_split by lia; f_equal; lia]. }
    rewrite <- Hex at 1. apply RN_mono; try assumption; try lia.
Qed.
End Ops.

Section Pipeline.
Variables K B : Z.
Hypothesis HB : 110 <= B.
Hypothesis HBK : 2 * B + 2 * 53 <= K.
Hypothesis HBmin : 2 * B + 2 * 53 <= 1074.
Hypothesis HBmax : 2 * B + 2 * 53 + 2 <= 1024.

Local Abbreviation tame := (tame_at 53 B).
Local Abbreviation rounds := (rounds_to 53 K).
Local Abbreviation V := (scaled K).

(** *** The linear map in binary64 *)
Lemma prec53_pos : 0 < 53.
Proof. reflexivity. Qed.
Lemma range_nonneg : 0 <= B.
Proof. lia. Qed.
Lemma emin_below_range : emin 53 1024 <= - (2 * B + 2 * 53).
Proof. unfold emin. lia. Qed.

Local Abbreviation good := (Rounding.good B).

(** The floor of a non-negative float is the quotient of its value. *)
Lemma floor_V x : good x -> F64.floor x = F64.IFin (V x / 2 ^ K).
Proof.
  intros [->|(m & e & -> & D & E)]; cbn [F64.floor scaled cond_Zopp].
  - rewrite Z.div_0_l; [reflexivity|]. apply Z.pow_nonzero; lia.
  - f_equal. destruct (Z_le_gt_dec 0 e).
    + rewrite Z.shiftl_mul_pow2 by lia. rewrite (pow2_split e K) by lia.
      rewrite Z.mul_assoc, Z.div_mul by (apply Z.pow_nonzero; lia). reflexivity.
    + rewrite Z.shiftl_div_pow2 by lia.
      assert (HK : 2 ^ K = 2 ^ (- e) * 2 ^ (e + K)).
      { rewrite <- pow2_split by lia. f_equal. lia. }
      rewrite HK.
      rewrite Z.div_mul_cancel_r; [reflexivity| |]; apply Z.pow_nonzero; lia.
Qed.

(** An integer below [2^53] converts exactly. *)
Lemma of_int_spec z :
  0 <= z < 2 ^ 53 -> good (F64.of_int z) /\ V (F64.of_int z) = z * 2 ^ K.
Proof.
  intros Hz. destruct (Z.eq_dec z 0) as [->|Hne].
  - split; [left; reflexivity|reflexivity].
  - assert (R : rounds (F64.of_int z) (z * 2 ^ K) 1).
    { unfold F64.of_int, F64.prec, F64.emax.
      apply of_int_rounds; try (unfold emin; lia). }
    assert (HK : 0 < 2 ^ K) by (apply pow2_pos; lia).
    split.
    + right. eapply rounds_tame with (lo := 0) (hi := 53); [| |exact R|..]; try lia.
      rewrite Z.add_0_l, pow2_split by lia. nia.
    + destruct R as (m & e & g & Hx & D & HY & HX & G & [M1 M2] & E & HV).
      rewrite HV. rewrite Z.mul_1_r in M1, M2.
      assert (Hg : g <= 53).
      { destruct (Z_le_gt_dec g 53) as [|Hgt]; [assumption|exfalso].
        assert (2 ^ (53 + K) <= 2 ^ (g - 1 + K)) by (apply Z.pow_le_mono_r; lia).
        rewrite pow2_split in H by lia. nia. }
      rewrite (RN_exact 53 K g (z * 2 ^ K) 1 (z * 2 ^ (53 - g))) by
        (try lia; rewrite Z.mul_1_r, <- Z.mul_assoc, <- pow2_split by lia;
         do 2 f_equal; lia).
      rewrite <- Z.mul_assoc, <- pow2_split by lia. do 2 f_equal. lia.
Qed.

Lemma of_int_tame z : 0 < z < 2 ^ 53 -> tame (F64.of_int z).
Proof.
  intros Hz. destruct (of_int_spec z ltac:(lia)) as [[E|T] HV]; [|assumption].
  rewrite E in HV. cbn in HV. assert (0 < 2 ^ K) by (apply pow2_pos; lia). nia.
Qed.

(** The ratio [n / d] of [0 < n < d]: correctly rounded, between
    [2^-53] and 1. *)
Lemma ratio_spec n d :
  0 < n < d -> d < 2 ^ 53 ->
  let r := F64.div (F64.of_int n) (F64.of_int d) in
  tame r /\ rounds r (n * 2 ^ K * 2 ^ K) (d * 2 ^ K) /\
  2 ^ (-53 + K) <= V r <= 2 ^ K.
Proof.
  intros Hn Hd r.
  pose proof (of_int_tame n ltac:(lia)) as Tn.
  pose proof (of_int_tame d ltac:(lia)) as Td.
  destruct (of_int_spec n ltac:(lia)) as [_ Vn].
  destruct (of_int_spec d ltac:(lia)) as [_ Vd].
  assert (HK : 0 < 2 ^ K) by (apply pow2_pos; lia).
  assert (R : rounds r (n * 2 ^ K * 2 ^ K) (d * 2 ^ K)).
  { rewrite <- Vn, <- Vd. unfold r, F64.div.
    eapply div_rounds with (B := B); eauto using prec53_pos, range_nonneg, emin_below_range; lia. }
  assert (L1 : 2 ^ (-53 + K) * (d * 2 ^ K) <= n * 2 ^ K * 2 ^ K).
  { replace (2 ^ (-53 + K) * (d * 2 ^ K)) with (d * 2 ^ (-53 + K) * 2 ^ K) by ring.
    apply Z.mul_le_mono_nonneg_r; [lia|].
    assert (d * 2 ^ (-53 + K) <= 2 ^ 53 * 2 ^ (-53 + K))
      by (apply Z.mul_le_mono_nonneg_r; [apply Z.pow_nonneg|]; lia).
    rewrite <- pow2_split in H by lia.
    replace (53 + (-53 + K)) with K in H by lia. nia. }
  assert (L2 : n * 2 ^ K * 2 ^ K <= 2 ^ (0 + K) * (d * 2 ^ K)).
  { rewrite Z.add_0_l. nia. }
  split; [|split; [exact R|]].
  - eapply rounds_tame with (lo := -53) (hi := 1); [| |exact R|..]; try lia.
    split; [exact L1|].
    assert (2 ^ (0 + K) < 2 ^ (1 + K)) by (apply Z.pow_lt_mono_r; lia). nia.
  - replace (2 ^ K) with (2 ^ (0 + K)) by (f_equal; lia).
    eapply rounds_V_bounds; [|exact R|..]; try lia.
Qed.

Lemma V_nonneg x : 0 <= V x.
Proof.
  destruct x as [| | |[] m e]; cbn; lia.
Qed.

Lemma of_int_rounds_53 z :
  0 < z < 2 ^ 53 -> rounds (F64.of_int z) (z * 2 ^ K) 1.
Proof.
  intros Hz. unfold F64.of_int, F64.prec, F64.emax.
  apply of_int_rounds; try (unfold emin; lia).
Qed.

Local Abbreviation small := (Rounding.small K B).

(** The product [c * ratio]: correctly rounded, at most [c]. *)
Lemma prod_spec c r :
  0 < c < 2 ^ 53 -> small r -> V r <= 2 ^ K ->
  let p := F64.mul (F64.of_int c) r in
  small p /\ rounds p (c * 2 ^ K * V r) (2 ^ K) /\ V p <= c * 2 ^ K.
Proof.
  intros Hc [Tr Lr] Ur p.
  pose proof (of_int_tame c ltac:(lia)) as Tc.
  destruct (of_int_spec c ltac:(lia)) as [_ Vc].
  assert (HK : 0 < 2 ^ K) by (apply pow2_pos; lia).
  assert (HK' : 0 < 2 ^ (-53 + K)) by (apply pow2_pos; lia).
  assert (R : rounds p (c * 2 ^ K * V r) (2 ^ K)).
  { rewrite <- Vc. unfold p, F64.mul.
    eapply mul_rounds with (B := B); eauto using prec53_pos, range_nonneg, emin_below_range; lia. }
  assert (L1 : 2 ^ (-53 + K) * 2 ^ K <= c * 2 ^ K * V r).
  { assert (2 ^ (-53 + K) * 2 ^ K <= V r * 2 ^ K)
      by (apply Z.mul_le_mono_nonneg_r; lia).
    assert (1 * (V r * 2 ^ K) <= c * (V r * 2 ^ K))
      by (apply Z.mul_le_mono_nonneg_r; nia).
    lia. }
  assert (L2 : c * 2 ^ K * V r <= 2 ^ (53 + K) * 2 ^ K).
  { rewrite (pow2_split 53 K) by lia.
    assert (c * 2 ^ K * V r <= c * 2 ^ K * 2 ^ K)
      by (apply Z.mul_le_mono_nonneg_l; nia).
    assert (c * (2 ^ K * 2 ^ K) <= 2 ^ 53 * (2 ^ K * 2 ^ K))
      by (apply Z.mul_le_mono_nonneg_r; nia).
    lia. }
  split; [split|split; [exact R|]].
  - eapply rounds_tame with (lo := -53) (hi := 54); [| |exact R|..]; try lia.
    split; [exact L1|].
    assert (2 ^ (53 + K) < 2 ^ (54 + K)) by (apply Z.pow_lt_mono_r; lia). nia.
  - eapply rounds_V_bounds with (lo := -53) (hi := 53); [|exact R|..]; try lia.
  - rewrite <- Vc.
    eapply rounds_mono; [|exact R|apply (of_int_rounds_53 c); lia|]; try lia. nia.
Qed.

(** The sum [a + product]: correctly rounded, between [a] and [a + c]. *)
Lemma sum_spec a c p :
  0 < a -> 0 <= c -> a + c < 2 ^ 53 -> small p -> V p <= c * 2 ^ K ->
  let q := F64.add (F64.of_int a) p in
  tame q /\ rounds q (a * 2 ^ K + V p) 1 /\
  a * 2 ^ K <= V q <= (a + c) * 2 ^ K.
Proof.
  intros Ha Hc Hac [Tp Lp] Up q.
  pose proof (of_int_tame a ltac:(lia)) as Ta.
  destruct (of_int_spec a ltac:(lia)) as [_ Va].
  destruct (of_int_spec (a + c) ltac:(lia)) as [_ Vac].
  assert (HK : 0 < 2 ^ K) by (apply pow2_pos; lia).
  assert (HK' : 0 < 2 ^ (-53 + K)) by (apply pow2_pos; lia).
  assert (R : rounds q (a * 2 ^ K + V p) 1).
  { rewrite <- Va. unfold q, F64.add.
    eapply add_rounds with (B := B); eauto using prec53_pos, range_nonneg, emin_below_range; lia. }
  split; [|split; [exact R|split]].
  - eapply rounds_tame with (lo := 0) (hi := 53); [| |exact R|..]; try lia.
    rewrite Z.add_0_l, (pow2_split 53 K) by lia. nia.
  - rewrite <- Va.
    eapply rounds_mono; [|apply (of_int_rounds_53 a); lia|exact R|]; try lia.
  - rewrite <- Vac.
    eapply rounds_mono; [|exact R|apply (of_int_rounds_53 (a + c)); lia|]; try lia.
Qed.

Local Abbreviation unit_small := (Rounding.unit_small K B).
Local Abbreviation small_le := (Rounding.small_le K B).

Lemma small_pos x : small x -> 0 < V x.
Proof.
  intros [_ H]. assert (0 < 2 ^ (-53 + K)) by (apply pow2_pos; lia). lia.
Qed.

Lemma of_int_0 : F64.of_int 0 = S754_zero false.
Proof. reflexivity. Qed.

Lemma of_int_finite z :
  0 < z < 2 ^ 53 -> exists m e, F64.of_int z = S754_finite false m e.
Proof.
  intros Hz. destruct (of_int_tame z Hz) as (m & e & E & _). eauto.
Qed.

(** The same three steps when the numerator, the span or the base index
    may be 0, and their monotonicity in the numerator. *)
Lemma ratio_cases n d :
  0 <= n < d -> d < 2 ^ 53 ->
  zero_or unit_small (F64.div (F64.of_int n) (F64.of_int d)).
Proof.
  intros Hn Hd. destruct (Z.eq_dec n 0) as [->|Hne].
  - left. destruct (of_int_finite d ltac:(lia)) as (m & e & ->). reflexivity.
  - right. destruct (ratio_spec n d ltac:(lia) Hd) as (T & _ & L & U).
    repeat split; assumption.
Qed.

Lemma ratio_mono n n' d :
  0 <= n <= n' -> n' < d -> d < 2 ^ 53 ->
  V (F64.div (F64.of_int n) (F64.of_int d)) <=
  V (F64.div (F64.of_int n') (F64.of_int d)).
Proof.
  intros Hn Hn' Hd. destruct (Z.eq_dec n 0) as [->|Hne].
  - destruct (of_int_finite d ltac:(lia)) as (m & e & ->).
    rewrite of_int_0. cbn [F64.div SFdiv xorb]. apply V_nonneg.
  - destruct (ratio_spec n d ltac:(lia) Hd) as (_ & R & _).
    destruct (ratio_spec n' d ltac:(lia) Hd) as (_ & R' & _).
    eapply rounds_mono; [|exact R|exact R'|]; try lia.
    assert (0 < 2 ^ K) by (apply pow2_pos; lia).
    apply Z.mul_le_mono_nonneg_r; [nia|].
    apply Z.mul_le_mono_nonneg_r; [lia|].
    apply Z.mul_le_mono_nonneg_r; lia.
Qed.

Lemma prod_cases c r :
  0 <= c < 2 ^ 53 -> zero_or unit_small r ->
  zero_or (small_le c) (F64.mul (F64.of_int c) r).
Proof.
  intros Hc [->|[Sr Ur]].
  - left. destruct (Z.eq_dec c 0) as [->|Hne]; [reflexivity|].
    destruct (of_int_finite c ltac:(lia)) as (m & e & ->). reflexivity.
  - destruct (Z.eq_dec c 0) as [->|Hne].
    + left. destruct Sr as [(m & e & -> & _) _]. reflexivity.
    + right. destruct (prod_spec c r ltac:(lia) Sr Ur) as (S & _ & U).
      split; assumption.
Qed.

Lemma prod_mono c r r' :
  0 <= c < 2 ^ 53 -> zero_or unit_small r -> zero_or unit_small r' ->
  V r <= V r' ->
  V (F64.mul (F64.of_int c) r) <= V (F64.mul (F64.of_int c) r').
Proof.
  intros Hc Hr Hr' Hle.
  destruct (Z.eq_dec c 0) as [->|Hne].
  - destruct Hr as [->|[[(m & e & -> & _) _] _]],
      Hr' as [->|[[(m' & e' & -> & _) _] _]]; cbn; lia.
  - destruct Hr as [->|[Sr Ur]].
    + destruct (of_int_finite c ltac:(lia)) as (m & e & ->).
      cbn [F64.mul SFmul xorb]. apply V_nonneg.
    + destruct Hr' as [->|[Sr' Ur']].
      * pose proof (small_pos r Sr). cbn in Hle. lia.
      * destruct (prod_spec c r ltac:(lia) Sr Ur) as (_ & R & _).
        destruct (prod_spec c r' ltac:(lia) Sr' Ur') as (_ & R' & _).
        eapply rounds_mono; [|exact R|exact R'|]; try lia.
        assert (0 < 2 ^ K) by (apply pow2_pos; lia).
        apply Z.mul_le_mono_nonneg_r; [lia|].
        apply Z.mul_le_mono_nonneg_l; [nia|assumption].
Qed.

Lemma sum_cases a c p :
  0 <= a -> 0 <= c -> a + c < 2 ^ 53 -> zero_or (small_le c) p ->
  let q := F64.add (F64.of_int a) p in
  good q /\ a * 2 ^ K <= V q <= (a + c) * 2 ^ K.
Proof.
  intros Ha Hc Hac Hp q. unfold q.
  assert (HK : 0 < 2 ^ K) by (apply pow2_pos; lia).
  destruct (Z.eq_dec a 0) as [->|Hne].
  - rewrite of_int_0. destruct Hp as [->|[[T L] U]].
    + split; [left; reflexivity|]. cbn. nia.
    + destruct T as (m & e & -> & D & E). cbn [F64.add SFadd].
      split; [right; exists m, e; auto|].
      pose proof (V_nonneg (S754_finite false m e)). lia.
  - destruct Hp as [->|[S U]].
    + destruct (of_int_spec a ltac:(lia)) as [G Va].
      destruct (of_int_finite a ltac:(lia)) as (m & e & E).
      rewrite E in *. cbn [F64.add SFadd].
      split; [assumption|]. rewrite Va. nia.
    + destruct (sum_spec a c p ltac:(lia) Hc Hac S U) as (T & _ & B1).
      split; [right; assumption|assumption].
Qed.

Lemma sum_mono a c p p' :
  0 <= a -> 0 <= c -> a + c < 2 ^ 53 ->
  zero_or (small_le c) p -> zero_or (small_le c) p' -> V p <= V p' ->
  V (F64.add (F64.of_int a) p) <= V (F64.add (F64.of_int a) p').
Proof.
  intros Ha Hc Hac Hp Hp' Hle.
  destruct (Z.eq_dec a 0) as [->|Hne].
  - rewrite of_int_0.
    destruct Hp as [->|[[(m & e & -> & _) _] _]],
      Hp' as [->|[[(m' & e' & -> & _) _] _]]; cbn [F64.add SFadd]; assumption.
  - destruct Hp as [->|[S U]].
    + destruct (sum_cases a c p' Ha Hc Hac Hp') as [_ [L _]].
      destruct (of_int_spec a ltac:(lia)) as [_ Va].
      destruct (of_int_finite a ltac:(lia)) as (m & e & E).
      rewrite E in *. cbn [F64.add SFadd] in *.
      destruct p' as [[]| | |]; cbn [F64.add SFadd] in *; lia.
    + destruct Hp' as [->|[S' U']].
      * pose proof (small_pos p (proj1 (conj S U))). cbn in Hle. lia.
      * destruct (sum_spec a c p ltac:(lia) Hc Hac S U) as (_ & R & _).
        destruct (sum_spec a c p' ltac:(lia) Hc Hac S' U') as (_ & R' & _).
        eapply rounds_mono; [|exact R|exact R'|]; try lia.
Qed.

(** The index is the floor of a float between [a] and [a + c]. *)
Lemma lerp_value a c n d :
  0 <= a -> 0 <= c -> a + c < 2 ^ 53 -> 0 <= n < d -> d < 2 ^ 53 ->
  exists q, good q /\ a * 2 ^ K <= V q <= (a + c) * 2 ^ K /\
            F64.lerp a c n d = F64.IFin (V q / 2 ^ K) /\
            q = F64.add (F64.of_int a)
                  (F64.mul (F64.of_int c) (F64.div (F64.of_int n) (F64.of_int d))).
Proof.
  intros Ha Hc Hac Hn Hd.
  pose proof (ratio_cases n d Hn Hd) as Hr.
  pose proof (prod_cases c _ ltac:(lia) Hr) as Hp.
  destruct (sum_cases a c _ Ha Hc Hac Hp) as [G Bq].
  eexists. split; [exact G|]. split; [exact Bq|]. split; [|reflexivity].
  apply floor_V. exact G.
Qed.
End Pipeline.

(** The interpolated index in exact terms: it lies between the two stop
    indices and grows with the elapsed time. *)
Lemma lerp_bounds a c n d :
  0 <= a -> 0 <= c -> a + c < 2 ^ 53 -> 0 <= n < d -> d < 2 ^ 53 ->
  exists z, F64.lerp a c n d = F64.IFin z /\ a <= z <= a + c.
Proof.
  intros Ha Hc Hac Hn Hd.
  destruct (lerp_value 426 160 ltac:(lia) ltac:(lia) ltac:(lia) ltac:(lia)
              a c n d Ha Hc Hac Hn Hd) as (q & G & [B1 B2] & E & _).
  eexists. split; [exact E|].
  assert (HK : 0 < 2 ^ 426) by (apply pow2_pos; lia).
  split.
  - apply Z.div_le_lower_bound; lia.
  - apply Z.div_le_upper_bound; lia.
Qed.

Lemma lerp_mono a c n n' d :
  0 <= a -> 0 <= c -> a + c < 2 ^ 53 -> 0 <= n <= n' -> n' < d -> d < 2 ^ 53 ->
  exists z z', F64.lerp a c n d = F64.IFin z /\ F64.lerp a c n' d = F64.IFin z' /\
               z <= z'.
Proof.
  intros Ha Hc Hac Hn Hn' Hd.
  destruct (lerp_value 426 160 ltac:(lia) ltac:(lia) ltac:(lia) ltac:(lia)
              a c n d Ha Hc Hac ltac:(lia) Hd) as (q & G & _ & E & Eq).
  destruct (lerp_value 426 160 ltac:(lia) ltac:(lia) ltac:(lia) ltac:(lia)
              a c n' d Ha Hc Hac ltac:(lia) Hd) as (q' & G' & _ & E' & Eq').
  do 2 eexists. split; [exact E|]. split; [exact E'|].
  apply Z.div_le_mono; [apply pow2_pos; lia|].
  subst q q'.
  eapply sum_mono with (B := 160) (c := c); try lia.
  - apply prod_cases; try lia. apply ratio_cases; lia.
  - apply prod_cases; try lia. apply ratio_cases; lia.
  - eapply prod_mono with (B := 160); try lia.
    + apply ratio_cases; lia.
    + apply ratio_cases; lia.
    + eapply ratio_mono with (B := 160); lia.
Qed.
End RoundingFacts.

(* ===================================================================== *)
(** * Properties *)

(** ** Machine integers *)

Lemma wrap_small z :
  Int64.min_int <= z <= Int64.max_int -> Int64.wrap z = z.
Proof.
  unfold Int64.wrap, Int64.min_int, Int64.max_int. intros H.
  rewrite Z.mod_small by lia. lia.
Qed.

Lemma wrap_range z : Int64.min_int <= Int64.wrap z <= Int64.max_int.
Proof.
  unfold Int64.wrap, Int64.min_int, Int64.max_int.
  pose proof (Z.mod_pos_bound (z + 2 ^ 63) (2 ^ 64) ltac:(lia)). lia.
Qed.

Lemma wrap_zero z : Int64.wrap z = 0 -> z mod 2 ^ 64 = 0.
Proof.
  unfold Int64.wrap. intros H.
  assert (E : (z + 2 ^ 63) mod 2 ^ 64 = 2 ^ 63) by lia.
  rewrite <- (Z.sub_0_r z).
  replace 0 with (2 ^ 63 - 2 ^ 63) at 1 by lia.
  replace (z - (2 ^ 63 - 2 ^ 63)) with ((z + 2 ^ 63) - 2 ^ 63) by lia.
  rewrite Zminus_mod, E. reflexivity.
Qed.

Lemma clamp_small z :
  Int64.min_int <= z <= Int64.max_int -> Int64.clamp z = z.
Proof. unfold Int64.clamp. lia. Qed.

(** ** Digits and times *)

Lemma is_digit_val c : Str.is_digit c = true -> 0 <= Str.digit_val c <= 9.
Proof.
  unfold Str.is_digit, Str.digit_val. intros H.
  apply andb_true_iff in H as [H1 H2].
  apply N.leb_le in H1, H2. lia.
Qed.

Lemma is_digit_not_sign c :
  Str.is_digit c = true ->
  Ascii.eqb c Str.colon = false /\ Ascii.eqb c "-" = false /\
  Ascii.eqb c "+" = false.
Proof.
  destruct c as [[] [] [] [] [] [] [] []]; intros H;
    try discriminate H; repeat split; reflexivity.
Qed.

Lemma atoi_two_digits a b :
  Str.is_digit a = true -> Str.is_digit b = true ->
  Go.Atoi (String a (String b EmptyString)) =
  10 * Str.digit_val a + Str.digit_val b.
Proof.
  intros Ha Hb.
  destruct (is_digit_not_sign a Ha) as (_ & Hm & Hp).
  pose proof (is_digit_val a Ha). pose proof (is_digit_val b Hb).
  unfold Go.Atoi. rewrite Hm, Hp.
  cbn [Str.all_digits Str.digits_val]. rewrite Ha, Hb. cbn [andb].
  apply clamp_small. unfold Int64.min_int, Int64.max_int. lia.
Qed.

Lemma number_two_digits a b :
  Str.is_digit a = true -> Str.is_digit b = true ->
  TS.Number (String a (String b EmptyString)) =
  Some (10 * Str.digit_val a + Str.digit_val b).
Proof.
  intros Ha Hb. unfold TS.Number.
  cbn [Str.all_digits Str.digits_val]. rewrite Ha, Hb. cbn [andb].
  f_equal; lia.
Qed.

Lemma wfTime_split t :
  wfTime t = true ->
  exists h1 h2 m1 m2 s1 s2,
    t = String h1 (String h2 (String Str.colon (String m1 (String m2
          (String Str.colon (String s1 (String s2 EmptyString))))))) /\
    Str.is_digit h1 = true /\ Str.is_digit h2 = true /\
    Str.is_digit m1 = true /\ Str.is_digit m2 = true /\
    Str.is_digit s1 = true /\ Str.is_digit s2 = true.
Proof.
  destruct t as [|h1 [|h2 [|c1 [|m1 [|m2 [|c2 [|s1 [|s2 [|? ?]]]]]]]]];
    try discriminate.
  cbn [wfTime]. intros H.
  apply andb_true_iff in H as [H Hs2]. apply andb_true_iff in H as [H Hs1].
  apply andb_true_iff in H as [H Hc2]. apply andb_true_iff in H as [H Hm2].
  apply andb_true_iff in H as [H Hm1]. apply andb_true_iff in H as [H Hc1].
  apply andb_true_iff in H as [Hh1 Hh2].
  apply Ascii.eqb_eq in Hc1, Hc2. subst c1 c2.
  exists h1, h2, m1, m2, s1, s2. repeat split; assumption.
Qed.

Lemma split_wfTime h1 h2 m1 m2 s1 s2 :
  Str.is_digit h1 = true -> Str.is_digit h2 = true ->
  Str.is_digit m1 = true -> Str.is_digit m2 = true ->
  Str.is_digit s1 = true -> Str.is_digit s2 = true ->
  Str.split Str.colon
    (String h1 (String h2 (String Str.colon (String m1 (String m2
       (String Str.colon (String s1 (String s2 EmptyString)))))))) =
  [String h1 (String h2 EmptyString); String m1 (String m2 EmptyString);
   String s1 (String s2 EmptyString)].
Proof.
  intros H1 H2 H3 H4 H5 H6.
  cbn [Str.split].
  rewrite (proj1 (is_digit_not_sign _ H1)), (proj1 (is_digit_not_sign _ H2)),
    (proj1 (is_digit_not_sign _ H3)), (proj1 (is_digit_not_sign _ H4)),
    (proj1 (is_digit_not_sign _ H5)), (proj1 (is_digit_not_sign _ H6)).
  reflexivity.
Qed.

(** On a well-formed time both parsers give the seconds it denotes, a
    small non-negative number. *)
Lemma timeToSec_wfTime t :
  wfTime t = true ->
  Go.timeToSec t = secondsOf t /\ TS.timeToSec t = Some (secondsOf t) /\
  0 <= secondsOf t < 2 ^ 19.
Proof.
  intros H. destruct (wfTime_split t H)
    as (h1 & h2 & m1 & m2 & s1 & s2 & -> & H1 & H2 & H3 & H4 & H5 & H6).
  pose proof (is_digit_val _ H1). pose proof (is_digit_val _ H2).
  pose proof (is_digit_val _ H3). pose proof (is_digit_val _ H4).
  pose proof (is_digit_val _ H5). pose proof (is_digit_val _ H6).
  cbn [secondsOf].
  split; [|split].
  - unfold Go.timeToSec. rewrite split_wfTime by assumption.
    cbn [length Nat.ltb Nat.leb nth].
    rewrite !atoi_two_digits by assumption.
    unfold Int64.add, Int64.mul.
    set (hh := 10 * Str.digit_val h1 + Str.digit_val h2) in *.
    set (mm := 10 * Str.digit_val m1 + Str.digit_val m2) in *.
    set (ss := 10 * Str.digit_val s1 + Str.digit_val s2) in *.
    assert (0 <= hh <= 99 /\ 0 <= mm <= 99 /\ 0 <= ss <= 99) as (? & ? & ?)
      by (unfold hh, mm, ss; lia).
    clearbody hh mm ss.
    rewrite (wrap_small (hh * 3600)), (wrap_small (mm * 60))
      by (unfold Int64.min_int, Int64.max_int; lia).
    rewrite (wrap_small (hh * 3600 + mm * 60))
      by (unfold Int64.min_int, Int64.max_int; lia).
    apply wrap_small. unfold Int64.min_int, Int64.max_int. lia.
  - unfold TS.timeToSec. rewrite split_wfTime by assumption.
    cbn [map lookup list_lookup].
    rewrite !number_two_digits by assumption. reflexivity.
  - change (2 ^ 19) with 524288. lia.
Qed.

Lemma wfTimes_elem stops st :
  wfTimes stops = true -> st ∈ stops -> wfTime (Time st) = true.
Proof.
  unfold wfTimes. rewrite forallb_forall. intros H Hin.
  apply H. apply list_elem_of_In. exact Hin.
Qed.

Lemma digits_val_acc s : forall acc,
  Str.digits_val acc s =
  acc * 10 ^ Z.of_nat (String.length s) + Str.digits_val 0 s.
Proof.
  induction s as [|c s IH]; intros acc; cbn [Str.digits_val String.length].
  - simpl. lia.
  - rewrite IH, (IH (10 * 0 + Str.digit_val c)).
    rewrite Nat2Z.inj_succ, Z.pow_succ_r by lia. ring.
Qed.

Lemma digits_val_bound s :
  Str.all_digits s = true ->
  0 <= Str.digits_val 0 s < 10 ^ Z.of_nat (String.length s).
Proof.
  induction s as [|c s IH]; cbn [Str.all_digits Str.digits_val String.length];
    intros H.
  - simpl. lia.
  - apply andb_true_iff in H as [Hc Hs]. specialize (IH Hs).
    pose proof (is_digit_val c Hc).
    rewrite digits_val_acc, Nat2Z.inj_succ, Z.pow_succ_r by lia. nia.
Qed.

(** Both copies read a plain field as the number its digits write. *)
Lemma plainField_value s :
  plainField s = true ->
  Go.Atoi s = Str.digits_val 0 s /\
  TS.Number s = Some (Str.digits_val 0 s) /\
  0 <= Str.digits_val 0 s < 10 ^ 12.
Proof.
  unfold plainField. intros H. apply andb_true_iff in H as [Hd Hl].
  apply Nat.leb_le in Hl.
  pose proof (digits_val_bound s Hd) as Hb.
  assert (H12 : 10 ^ Z.of_nat (String.length s) <= 10 ^ 12)
    by (apply Z.pow_le_mono_r; lia).
  split; [|split; [|lia]].
  - unfold Go.Atoi. destruct s as [|c r]; [reflexivity|].
    cbn [Str.all_digits] in Hd. apply andb_true_iff in Hd as [Hc Hr].
    destruct (is_digit_not_sign c Hc) as (_ & Hm & Hp).
    rewrite Hm, Hp. cbn [Str.all_digits]. rewrite Hc, Hr. cbn [andb].
    apply clamp_small. unfold Int64.min_int, Int64.max_int.
    change (10 ^ 12) with 1000000000000 in H12. lia.
  - unfold TS.Number. rewrite Hd. reflexivity.
Qed.

(** Both copies read a plain time as the same number of seconds, which
    binary64 holds exactly. *)
Lemma timeToSec_plain t :
  plainTime t = true ->
  TS.timeToSec t = Some (Go.timeToSec t) /\ 0 <= Go.timeToSec t < 2 ^ 52.
Proof.
  destruct t as [|c t']; [intros _; split; [reflexivity|cbn; lia]|].
  unfold plainTime, TS.timeToSec, Go.timeToSec.
  destruct (Str.split Str.colon (String c t')) as [|h [|m rest]];
    try discriminate.
  intros H. apply andb_true_iff in H as [H Hs]. apply andb_true_iff in H as [Hh Hm].
  destruct (plainField_value h Hh) as (Gh & Nh & Bh).
  destruct (plainField_value m Hm) as (Gm & Nm & Bm).
  cbn [length Nat.ltb Nat.leb nth map lookup list_lookup mjoin option_join
         mbind option_bind].
  rewrite Gh, Gm, Nh, Nm. cbn [mjoin option_join mbind option_bind].
  change (10 ^ 12) with 1000000000000 in *.
  change (2 ^ 52) with 4503599627370496.
  set (hv := Str.digits_val 0 h) in *. set (mv := Str.digits_val 0 m) in *.
  destruct rest as [|s rest].
  - cbn [length Nat.leb nth map lookup list_lookup mjoin option_join default
           from_option id].
    unfold Int64.add, Int64.mul.
    rewrite (wrap_small (hv * 3600)), (wrap_small (mv * 60))
      by (unfold Int64.min_int, Int64.max_int; lia).
    rewrite (wrap_small (hv * 3600 + mv * 60))
      by (unfold Int64.min_int, Int64.max_int; lia).
    rewrite Z.add_0_r.
    rewrite wrap_small by (unfold Int64.min_int, Int64.max_int; lia).
    split; [reflexivity|lia].
  - destruct (plainField_value s Hs) as (Gs & Ns & Bs).
    cbn [length Nat.leb nth map lookup list_lookup mjoin option_join].
    rewrite Gs, Ns. cbn [mjoin option_join default from_option id].
    set (sv := Str.digits_val 0 s) in *.
    unfold Int64.add, Int64.mul.
    rewrite (wrap_small (hv * 3600)), (wrap_small (mv * 60))
      by (unfold Int64.min_int, Int64.max_int; lia).
    rewrite (wrap_small (hv * 3600 + mv * 60))
      by (unfold Int64.min_int, Int64.max_int; lia).
    rewrite wrap_small by (unfold Int64.min_int, Int64.max_int; lia).
    split; [reflexivity|lia].
Qed.

(** The times of the data model are plain. *)
Lemma wfTime_plain t : wfTime t = true -> plainTime t = true.
Proof.
  intros H. destruct (wfTime_split t H)
    as (h1 & h2 & m1 & m2 & s1 & s2 & -> & H1 & H2 & H3 & H4 & H5 & H6).
  unfold plainTime. rewrite split_wfTime by assumption.
  unfold plainField. cbn [Str.all_digits String.length].
  rewrite H1, H2, H3, H4, H5, H6. reflexivity.
Qed.

Lemma wfTimes_plain stops : wfTimes stops = true -> plainTimes stops = true.
Proof.
  unfold wfTimes, plainTimes. rewrite !forallb_forall.
  intros H st Hin. apply wfTime_plain, H, Hin.
Qed.

Lemma plainTimes_elem stops st :
  plainTimes stops = true -> st ∈ stops -> plainTime (Time st) = true.
Proof.
  unfold plainTimes. rewrite forallb_forall. intros H Hin.
  apply H. apply list_elem_of_In. exact Hin.
Qed.

(** ** Dates *)

Lemma all_digits_substring s : forall n m,
  Str.all_digits s = true -> Str.all_digits (String.substring n m s) = true.
Proof.
  induction s as [|c s IH]; intros n m H.
  - destruct n, m; reflexivity.
  - cbn [Str.all_digits] in H. apply andb_true_iff in H as [Hc Hs].
    destruct n as [|n].
    + destruct m as [|m]; [reflexivity|]. cbn [String.substring Str.all_digits].
      rewrite Hc. apply IH. exact Hs.
    + cbn [String.substring]. apply IH. exact Hs.
Qed.

Lemma wfDate_parts s :
  Civil.wfDate s = true ->
  (String.length s =? 8)%nat = true /\ Str.all_digits s = true /\
  100 <= fst (fst (Civil.fields s)) /\
  Civil.valid (fst (fst (Civil.fields s))) (snd (fst (Civil.fields s)))
    (snd (Civil.fields s)) = true.
Proof.
  unfold Civil.wfDate. destruct (Civil.fields s) as [[y m] d]. cbn [fst snd].
  intros H. apply andb_true_iff in H as [H H3].
  apply andb_true_iff in H as [H1 H2].
  apply andb_true_iff in H3 as [H3 H4].
  apply Z.leb_le in H3. auto.
Qed.

(** Both date parsers read a well-formed date as its day number. *)
Lemma parse_wfDate s :
  Civil.wfDate s = true ->
  Go.parseDate s = Some (dayOf s) /\ TS.dateOf s = Some (dayOf s).
Proof.
  intros H. destruct (wfDate_parts s H) as (Hlen & Hdig & Hy & Hv).
  unfold dayOf. split.
  - unfold Go.parseDate. rewrite Hlen, Hdig. cbn [andb].
    destruct (Civil.fields s) as [[y m] d]. cbn [fst snd] in *.
    rewrite Hv. reflexivity.
  - unfold TS.dateOf, TS.Number, Str.slice.
    rewrite !all_digits_substring by assumption.
    unfold Civil.fields, Str.slice in *. cbn [fst snd] in *.
    set (y := Str.digits_val 0 (substring 0 (4 - 0) s)) in *.
    set (m := Str.digits_val 0 (substring 4 (6 - 4) s)) in *.
    set (d := Str.digits_val 0 (substring 6 (8 - 6) s)) in *.
    cbn [fmap option_fmap option_map TS.newDate mbind option_bind].
    replace ((0 <=? y) && (y <=? 99)) with false
      by (symmetry; apply andb_false_iff; right; apply Z.leb_gt; lia).
    unfold Civil.valid in Hv.
    apply andb_true_iff in Hv as [Hv _]. apply andb_true_iff in Hv as [Hv _].
    apply andb_true_iff in Hv as [Hm1 Hm2].
    apply Z.leb_le in Hm1, Hm2.
    unfold TS.makeDay.
    rewrite (Z.div_small (m - 1) 12), (Z.mod_small (m - 1) 12) by lia.
    do 2 f_equal; lia.
Qed.

Lemma clamp_ge_20_days k :
  Go.atLeast20Days (Go.Sub k 0) = (20 <=? k).
Proof.
  unfold Go.atLeast20Days, Go.Sub, Int64.clamp, Int64.min_int, Int64.max_int,
    Go.nsPerDay.
  rewrite Z.sub_0_r.
  destruct (Z.leb_spec 20 k); [apply Z.leb_le|apply Z.leb_gt]; lia.
Qed.

Lemma atLeast20Days_span e s :
  Go.atLeast20Days (Go.Sub e s) = (20 <=? e - s).
Proof.
  rewrite <- clamp_ge_20_days. unfold Go.Sub. rewrite Z.sub_0_r. reflexivity.
Qed.

(** ** The calendar resolver *)

Lemma exceptionLoop_find ymd serviceID dates :
  Go.exceptionLoop ymd serviceID dates =
  (fun e => String.eqb (ExceptionType e) "1") <$>
    List.find (exceptionFor ymd serviceID) dates.
Proof.
  induction dates as [|e dates IH]; [reflexivity|].
  cbn [Go.exceptionLoop List.find].
  destruct (exceptionFor ymd serviceID e); [reflexivity|exact IH].
Qed.

(** C2. When the exception list holds an entry for the service and the
    date, the resolver answers whether the type of the first such entry is
    ["1"], whatever the calendar table says: weekly flags and date range
    are not consulted. Both the server and the client copy do so. *)
Theorem exception_overrides_calendar (c : Snapshot) (clk : Clock)
    (serviceID : string) :
  (exists e, In e (CalendarDates (extraCache c)) /\
             exceptionFor (today clk) serviceID e = true) ->
  exists e,
    List.find (exceptionFor (today clk) serviceID)
      (CalendarDates (extraCache c)) = Some e /\
    In e (CalendarDates (extraCache c)) /\
    exDate e = today clk /\ exServiceID e = serviceID /\
    forall calendar,
      Go.isServiceRunningToday (withCalendar c calendar) clk serviceID =
        String.eqb (ExceptionType e) "1" /\
      TS.isServiceRunningToday serviceID calendar (extraCache c) clk =
        String.eqb (ExceptionType e) "1".
Proof.
  intros (e0 & Hin & Hfor).
  destruct (List.find (exceptionFor (today clk) serviceID)
              (CalendarDates (extraCache c))) as [e|] eqn:Hfind.
  - exists e. split; [reflexivity|].
    destruct (find_some _ _ Hfind) as [Hin' Hfor'].
    split; [exact Hin'|].
    unfold exceptionFor in Hfor'. apply andb_true_iff in Hfor' as [Hd Hs].
    apply String.eqb_eq in Hd, Hs.
    split; [exact Hd|]. split; [exact Hs|].
    intros calendar. split.
    + unfold Go.isServiceRunningToday. cbn [withCalendar extraCache].
      rewrite exceptionLoop_find, Hfind. reflexivity.
    + unfold TS.isServiceRunningToday. rewrite Hfind. reflexivity.
  - exfalso. pose proof (find_none _ _ Hfind e0 Hin) as Hn.
    rewrite Hfor in Hn. discriminate.
Qed.

Lemma exception_overrides_calendar_witness :
  let e := {| exServiceID := "S"; exDate := "20240106"; ExceptionType := "1" |} in
  let c := {| stopsCache := ∅; timetablesCache := ∅; shapesCache := ∅;
              calendarCache := ∅;
              extraCache := {| Offices := ∅; CalendarDates := [e] |};
              routesCache := ∅ |} in
  let clk := {| today := "20240106"; weekday := Saturday;
                hour := 8; minute := 0; second := 0; zone := fun _ => 0 |} in
  let calendar : gmap string CalendarEntry :=
    {[ "S" := {| Days := ["1"; "1"; "1"; "1"; "1"; "0"; "0"];
                 Start := "20240101"; End_ := "20241231" |} ]} in
  Go.isServiceRunningToday (withCalendar c calendar) clk "S" = true /\
  TS.isServiceRunningToday "S" calendar (extraCache c) clk = true.
Proof.
  intros e c clk calendar.
  destruct (exception_overrides_calendar c clk "S") as (e' & Hf & _ & _ & _ & H).
  - exists e. split; [left; reflexivity|reflexivity].
  - injection Hf as <-. exact (H calendar).
Defined.

(** ** The length of a calendar entry in days, on the client

    The quotient of a number of milliseconds by those of a day is compared
    with 20 as the comparison of the two integers. *)

Module DayLength.
Import Rounding.

(** Comparison of positive floats of 53 digits. *)
Lemma tame_compare B K x y :
  0 <= K - B ->
  tame_at 53 B x -> tame_at 53 B y ->
  SFcompare x y = Some (scaled K x ?= scaled K y).
Proof.
  intros HK (m1 & e1 & -> & D1 & E1) (m2 & e2 & -> & D2 & E2).
  cbn [SFcompare scaled].
  pose proof (RoundingFacts.digits2_pos_bounds m1) as [A1 A2]. rewrite D1 in A1, A2.
  pose proof (RoundingFacts.digits2_pos_bounds m2) as [C1 C2]. rewrite D2 in C1, C2.
  f_equal. symmetry.
  change (PosDef.Pos.compare_cont Eq m1 m2) with (Pos.compare m1 m2).
  destruct (Z.compare_spec e1 e2) as [->|Hlt|Hgt].
  - assert (0 < 2 ^ (e2 + K)) by (apply RoundingFacts.pow2_pos; lia).
    rewrite Pos2Z.inj_compare.
    destruct (Z.compare_spec (Zpos m1) (Zpos m2)) as [E|L|G].
    + apply Z.compare_eq_iff. rewrite E. reflexivity.
    + apply Z.compare_lt_iff. apply Z.mul_lt_mono_pos_r; assumption.
    + apply Z.compare_gt_iff. apply Z.mul_lt_mono_pos_r; assumption.
  - apply Z.compare_lt_iff.
    replace (e2 + K) with ((e2 - e1 - 1) + 1 + (e1 + K)) by lia.
    rewrite (RoundingFacts.pow2_split (e2 - e1 - 1 + 1) (e1 + K)),
      (RoundingFacts.pow2_split (e2 - e1 - 1) 1) by lia.
    assert (0 < 2 ^ (e1 + K)) by (apply RoundingFacts.pow2_pos; lia).
    assert (0 < 2 ^ (e2 - e1 - 1)) by (apply RoundingFacts.pow2_pos; lia).
    change (2 ^ 1) with 2. change (53 - 1) with 52 in *.
    change (2 ^ 53) with (2 * 2 ^ 52) in *.
    assert (Zpos m1 * 2 ^ (e1 + K) < 2 * 2 ^ 52 * 2 ^ (e1 + K)) by nia.
    assert (2 ^ 52 * (1 * 2 * 2 ^ (e1 + K)) <=
            Zpos m2 * (2 ^ (e2 - e1 - 1) * 2 * 2 ^ (e1 + K))).
    { apply Z.mul_le_mono_nonneg; try lia. nia. }
    lia.
  - apply Z.compare_gt_iff.
    replace (e1 + K) with ((e1 - e2 - 1) + 1 + (e2 + K)) by lia.
    rewrite (RoundingFacts.pow2_split (e1 - e2 - 1 + 1) (e2 + K)),
      (RoundingFacts.pow2_split (e1 - e2 - 1) 1) by lia.
    assert (0 < 2 ^ (e2 + K)) by (apply RoundingFacts.pow2_pos; lia).
    assert (0 < 2 ^ (e1 - e2 - 1)) by (apply RoundingFacts.pow2_pos; lia).
    change (2 ^ 1) with 2. change (53 - 1) with 52 in *.
    change (2 ^ 53) with (2 * 2 ^ 52) in *.
    assert (Zpos m2 * 2 ^ (e2 + K) < 2 * 2 ^ 52 * 2 ^ (e2 + K)) by nia.
    assert (2 ^ 52 * (1 * 2 * 2 ^ (e2 + K)) <=
            Zpos m1 * (2 ^ (e1 - e2 - 1) * 2 * 2 ^ (e2 + K))).
    { apply Z.mul_le_mono_nonneg; try lia. nia. }
    lia.
Qed.

Lemma div_by_day ms :
  0 < ms < 2 ^ 53 ->
  let q := F64.div (F64.of_int ms) (F64.of_int 86400000) in
  tame_at 53 160 q /\
  rounds_to 53 426 q (ms * 2 ^ 426 * 2 ^ 426) (86400000 * 2 ^ 426).
Proof.
  intros Hms q.
  assert (Hd : 0 < 86400000 < 2 ^ 53) by (split; [lia|reflexivity]).
  pose proof (RoundingFacts.of_int_tame 426 160 ltac:(lia) ltac:(lia) ms Hms) as Tn.
  pose proof (RoundingFacts.of_int_tame 426 160 ltac:(lia) ltac:(lia) _ Hd) as Td.
  destruct (RoundingFacts.of_int_spec 426 160 ltac:(lia) ltac:(lia) ms ltac:(lia))
    as [_ Vn].
  destruct (RoundingFacts.of_int_spec 426 160 ltac:(lia) ltac:(lia) 86400000
              ltac:(lia)) as [_ Vd].
  assert (R : rounds_to 53 426 q (ms * 2 ^ 426 * 2 ^ 426) (86400000 * 2 ^ 426)).
  { rewrite <- Vn, <- Vd. unfold q, F64.div.
    apply (RoundingFacts.div_rounds 53 1024 426 ltac:(lia) 160); try assumption;
      try (unfold emin; lia). }
  split; [|exact R].
  assert (HK : 0 < 2 ^ 426) by (apply RoundingFacts.pow2_pos; lia).
  eapply RoundingFacts.rounds_tame with (K := 426) (lo := -27) (hi := 27);
    [| |exact R| |lia|lia|lia]; try lia.
Qed.



Lemma round_aux_negative m e l :
  not_above_zero (binary_round_aux 53 1024 true m e l).
Proof.
  unfold binary_round_aux.
  destruct (shr_fexp _ _ _ _ _) as [mrs e'].
  destruct (shr_fexp _ _ _ _ _) as [mrs' e''].
  destruct (shr_m mrs') as [|p|p]; cbn; [exact I| |exact I].
  destruct (e'' <=? _); exact I.
Qed.

Lemma of_int_negative p : not_above_zero (F64.of_int (Zneg p)).
Proof.
  unfold F64.of_int. cbn [binary_normalize]. unfold binary_round.
  destruct (shl_align _ _ _) as [mz ez]. apply round_aux_negative.
Qed.

Lemma div_negative x m e :
  not_above_zero x -> not_above_zero (F64.div x (S754_finite false m e)).
Proof.
  unfold F64.div.
  destruct x as [s|[]| |[] mx ex]; cbn [not_above_zero SFdiv xorb];
    try tauto; intros _.
  destruct (SFdiv_core_binary _ _ _ _ _ _) as [[mq eq] lq].
  apply round_aux_negative.
Qed.

Lemma leb_not_above_zero m e x :
  not_above_zero x -> F64.leb (S754_finite false m e) x = false.
Proof.
  destruct x as [s|[]| |[] mx ex]; cbn; tauto.
Qed.

(** A quotient that is not positive is below 20. *)
Lemma not_positive_below_20 n :
  n <= 0 ->
  F64.leb (F64.of_int 20) (F64.div (F64.of_int n) (F64.of_int 86400000)) = false.
Proof.
  intros Hn. destruct n as [|p|p]; [reflexivity|lia|].
  change (F64.of_int 20) with (S754_finite false 5629499534213120 (-48)).
  change (F64.of_int 86400000) with (S754_finite false 5798205849600000 (-26)).
  apply leb_not_above_zero, div_negative, of_int_negative.
Qed.

Lemma days_at_least_20 ms :
  - 2 ^ 53 < ms < 2 ^ 53 ->
  F64.leb (F64.of_int 20) (F64.div (F64.of_int ms) (F64.of_int 86400000))
  = (1728000000 <=? ms).
Proof.
  intros Hms. destruct (Z.leb_spec 1 ms) as [Hpos|Hneg].
  2: { rewrite not_positive_below_20 by lia. symmetry. apply Z.leb_gt. lia. }
  destruct (div_by_day ms ltac:(lia)) as [T R].
  set (q := F64.div (F64.of_int ms) (F64.of_int 86400000)) in *.
  assert (T20 : tame_at 53 160 (F64.of_int 20))
    by (apply (RoundingFacts.of_int_tame 426 160); [lia|lia|split; [lia|reflexivity]]).
  unfold F64.leb, SFleb.
  rewrite (tame_compare 160 426 _ _ ltac:(lia) T20 T).
  destruct (Z.leb_spec 1728000000 ms) as [Hge|Hlt].
  - assert (R20 : rounds_to 53 426 (F64.of_int 20) (20 * 2 ^ 426) 1)
      by (apply RoundingFacts.of_int_rounds_53 with (B := 160); lia).
    pose proof (RoundingFacts.rounds_mono 53 426 ltac:(lia) _ _ _ _ _ _ R20 R) as M.
    assert (0 < 2 ^ 426) by (apply RoundingFacts.pow2_pos; lia).
    assert (Hle : scaled 426 (F64.of_int 20) <= scaled 426 q) by (apply M; nia).
    destruct (Z.compare_spec (scaled 426 (F64.of_int 20)) (scaled 426 q));
      [reflexivity|reflexivity|lia].
  - set (c := F64.div (F64.of_int 2684354559) (F64.of_int 134217728)).
    assert (Rc : rounds_to 53 426 c (2684354559 * 2 ^ 426 * 2 ^ 426)
                   (134217728 * 2 ^ 426)).
    { destruct (RoundingFacts.of_int_spec 426 160 ltac:(lia) ltac:(lia)
                  2684354559 ltac:(split; [lia|reflexivity])) as [_ Vn].
      destruct (RoundingFacts.of_int_spec 426 160 ltac:(lia) ltac:(lia)
                  134217728 ltac:(split; [lia|reflexivity])) as [_ Vd].
      rewrite <- Vn, <- Vd. unfold c, F64.div.
      apply (RoundingFacts.div_rounds 53 1024 426 ltac:(lia) 160);
        try (unfold emin; lia);
        apply (RoundingFacts.of_int_tame 426 160); lia. }
    pose proof (RoundingFacts.rounds_mono 53 426 ltac:(lia) _ _ _ _ _ _ R Rc) as M.
    assert (0 < 2 ^ 426) by (apply RoundingFacts.pow2_pos; lia).
    assert (Hle : scaled 426 q <= scaled 426 c).
    { apply M.
      assert (ms * 134217728 <= 2684354559 * 86400000) by lia.
      nia. }
    assert (Hc : scaled 426 c < scaled 426 (F64.of_int 20)) by (vm_compute; reflexivity).
    destruct (Z.compare_spec (scaled 426 (F64.of_int 20)) (scaled 426 q));
      [lia|lia|reflexivity].
Qed.

End DayLength.

(** ** Dates as numbers *)

Lemma compare_digits a : forall b,
  String.length a = String.length b ->
  Str.all_digits a = true -> Str.all_digits b = true ->
  String.compare a b = (ymd a ?= ymd b).
Proof.
  unfold ymd.
  induction a as [|c1 a IH]; intros [|c2 b] Hlen Ha Hb; try discriminate Hlen.
  - reflexivity.
  - cbn [Str.all_digits] in Ha, Hb.
    apply andb_true_iff in Ha as [Hc1 Ha]. apply andb_true_iff in Hb as [Hc2 Hb].
    cbn [String.length] in Hlen. injection Hlen as Hlen.
    specialize (IH b Hlen Ha Hb).
    pose proof (digits_val_bound a Ha) as Ba.
    pose proof (digits_val_bound b Hb) as Bb.
    pose proof (is_digit_val c1 Hc1). pose proof (is_digit_val c2 Hc2).
    cbn [String.compare Str.digits_val].
    rewrite (digits_val_acc a), (digits_val_acc b), <- Hlen.
    rewrite <- Hlen in Bb.
    assert (Hp : 0 < 10 ^ Z.of_nat (String.length a))
      by (apply Z.pow_pos_nonneg; lia).
    set (p := 10 ^ Z.of_nat (String.length a)) in *.
    unfold Ascii.compare. rewrite N2Z.inj_compare || rewrite <- N2Z.inj_compare.
    unfold Str.digit_val in *.
    set (x1 := Z.of_N (N_of_ascii c1)) in *.
    set (x2 := Z.of_N (N_of_ascii c2)) in *.
    clearbody p x1 x2.
    destruct (Z.compare_spec x1 x2) as [E|L|G].
    + rewrite IH, E. symmetry.
      destruct (Z.compare_spec (Str.digits_val 0 a) (Str.digits_val 0 b));
        [apply Z.compare_eq_iff|apply Z.compare_lt_iff|apply Z.compare_gt_iff];
        lia.
    + symmetry. apply Z.compare_lt_iff.
      assert ((10 * 0 + (x1 - 48)) * p + 1 * p <= (10 * 0 + (x2 - 48)) * p).
      { rewrite <- Z.mul_add_distr_r. apply Z.mul_le_mono_nonneg_r; lia. }
      lia.
    + symmetry. apply Z.compare_gt_iff.
      assert ((10 * 0 + (x2 - 48)) * p + 1 * p <= (10 * 0 + (x1 - 48)) * p).
      { rewrite <- Z.mul_add_distr_r. apply Z.mul_le_mono_nonneg_r; lia. }
      lia.
Qed.

(** On dates of eight digits the order of the strings is the order of the
    numbers. *)
Lemma leb_isYMD a b :
  isYMD a = true -> isYMD b = true -> Str.leb a b = (ymd a <=? ymd b).
Proof.
  unfold isYMD. intros Ha Hb.
  apply andb_true_iff in Ha as [La Da]. apply andb_true_iff in Hb as [Lb Db].
  apply Nat.eqb_eq in La, Lb.
  unfold Str.leb, String.leb, Z.leb.
  rewrite (compare_digits a b) by (congruence || assumption).
  reflexivity.
Qed.

Lemma wfDate_isYMD s : Civil.wfDate s = true -> isYMD s = true.
Proof.
  intros H. destruct (wfDate_parts s H) as (H1 & H2 & _).
  unfold isYMD. rewrite H1, H2. reflexivity.
Qed.

Lemma substring_length s : forall n m,
  (String.length (String.substring n m s) <= m)%nat.
Proof.
  induction s as [|c s IH]; intros n m.
  - destruct n, m; cbn; lia.
  - destruct n as [|n]; [destruct m as [|m]|]; cbn [String.substring String.length].
    + lia.
    + specialize (IH 0%nat m). lia.
    + apply IH.
Qed.

Lemma daysBeforeMonthN_bounds n y :
  0 <= Civil.daysBeforeMonthN n y <= 31 * Z.of_nat n.
Proof.
  induction n as [|n IH]; [cbn; lia|].
  cbn [Civil.daysBeforeMonthN].
  assert (28 <= Civil.daysIn (Z.of_nat (S n)) y <= 31).
  { unfold Civil.daysIn.
    destruct (_ =? 2); [destruct (Civil.is_leap y); lia|].
    destruct (_ || _); lia. }
  lia.
Qed.

(** The days of the calendar lie within ten thousand years. *)
Lemma dayOf_bounds s :
  Civil.wfDate s = true -> 0 <= dayOf s < 3660000.
Proof.
  intros H. destruct (wfDate_parts s H) as (Hlen & Hdig & Hy & Hv).
  unfold dayOf.
  assert (Hy4 : fst (fst (Civil.fields s)) < 10 ^ 4).
  { unfold Civil.fields, Str.slice. cbn [fst].
    pose proof (digits_val_bound (substring 0 (4 - 0) s)
                  (all_digits_substring s 0 (4 - 0) Hdig)) as [_ Hb].
    pose proof (substring_length s 0 (4 - 0)) as Hl.
    assert (10 ^ Z.of_nat (String.length (substring 0 (4 - 0) s)) <= 10 ^ 4)
      by (apply Z.pow_le_mono_r; lia).
    lia. }
  destruct (Civil.fields s) as [[y m] d]. cbn [fst snd] in *.
  unfold Civil.valid in Hv.
  apply andb_true_iff in Hv as [Hv Hd2]. apply andb_true_iff in Hv as [Hv Hd1].
  apply andb_true_iff in Hv as [Hm1 Hm2].
  apply Z.leb_le in Hm1, Hm2, Hd1, Hd2.
  assert (Hd31 : d <= 31).
  { revert Hd2. unfold Civil.daysIn.
    destruct (_ =? 2); [destruct (Civil.is_leap y); lia|].
    destruct (_ || _); lia. }
  unfold Civil.dayNumber, Civil.daysBeforeYear, Civil.daysBeforeMonth.
  pose proof (daysBeforeMonthN_bounds (Z.to_nat (m - 1)) y) as Hmb.
  change (10 ^ 4) with 10000 in Hy4.
  assert (0 <= (y - 1) / 4 <= 2500)
    by (split; [apply Z.div_pos; lia|apply Z.div_le_upper_bound; lia]).
  assert (0 <= (y - 1) / 400 <= 25)
    by (split; [apply Z.div_pos; lia|apply Z.div_le_upper_bound; lia]).
  assert ((y - 1) / 100 <= (y - 1) / 4) by (apply Z.div_le_compat_l; lia).
  assert (0 <= (y - 1) / 100) by (apply Z.div_pos; lia).
  lia.
Qed.

(** The client's comparison of the length of an entry with 20 days is
    that of the milliseconds between the two local midnights with those
    of 20 days. *)
Lemma durationDays_wfDate zone cal :
  Civil.wfDate (Start cal) = true -> Civil.wfDate (End_ cal) = true ->
  wfZone zone ->
  exists d,
    TS.durationDays zone cal = Some d /\
    F64.leb (F64.of_int 20) d =
      (20 * Civil.msPerDay <=?
         TS.getTime zone (dayOf (End_ cal)) - TS.getTime zone (dayOf (Start cal))).
Proof.
  intros Hs He Hz.
  destruct (parse_wfDate _ Hs) as [_ Ts]. destruct (parse_wfDate _ He) as [_ Te].
  unfold TS.durationDays. rewrite Ts, Te. cbn [mbind option_bind].
  eexists. split; [reflexivity|].
  pose proof (dayOf_bounds _ Hs). pose proof (dayOf_bounds _ He).
  pose proof (Hz (dayOf (Start cal))). pose proof (Hz (dayOf (End_ cal))).
  unfold TS.getTime, Civil.msPerDay, Civil.epochDay in *.
  apply DayLength.days_at_least_20.
  change (2 ^ 53) with 9007199254740992. lia.
Qed.


Lemma wfZone_utc : wfZone Sample.utc.
Proof. intros day. unfold Sample.utc, Civil.msPerDay. lia. Qed.

Lemma wfZone_eastern : wfZone Sample.eastern.
Proof.
  intros day. unfold Sample.eastern, Civil.msPerDay.
  destruct (day <=? _); lia.
Qed.



(** ** The interpolation loops *)

Lemma timeToSec_range t :
  Int64.min_int <= Go.timeToSec t <= Int64.max_int.
Proof.
  unfold Go.timeToSec. destruct (_ <? 2)%nat.
  - unfold Int64.min_int, Int64.max_int. lia.
  - apply wrap_range.
Qed.

(** The server loop stops at the first active segment and computes its
    index there. *)
Lemma indexLoop_segment coords indices now stops : forall i,
  Go.indexLoop coords indices now i stops =
  match activeSegment now i (map (fun st => Go.timeToSec (Time st)) stops) with
  | Some (j, s1, s2) =>
      Go.bind (Go.targetIndex coords indices j now s1 s2)
        (fun k => Go.Returns (Some k))
  | None => Go.Returns None
  end.
Proof.
  induction stops as [|st1 rest IH]; intros i; [reflexivity|].
  destruct rest as [|st2 rest]; [reflexivity|].
  cbn [Go.indexLoop map activeSegment].
  destruct ((Go.timeToSec (Time st1) <=? now) && (now <? Go.timeToSec (Time st2)));
    [reflexivity|].
  apply IH.
Qed.

Lemma posLoop_cons coords indices now i st1 st2 rest :
  TS.posLoop coords indices now i (st1 :: st2 :: rest) =
  match TS.timeToSec (Time st1), TS.timeToSec (Time st2) with
  | Some s1, Some s2 =>
      if (s1 <=? now) && (now <? s2)
      then TS.at_integral coords (TS.targetIndex coords indices i now s1 s2)
      else TS.posLoop coords indices now (S i) (st2 :: rest)
  | _, _ => TS.posLoop coords indices now (S i) (st2 :: rest)
  end.
Proof. reflexivity. Qed.

Lemma activeSegmentTS_cons now i o1 o2 rest :
  activeSegmentTS now i (o1 :: o2 :: rest) =
  match o1, o2 with
  | Some s1, Some s2 =>
      if (s1 <=? now) && (now <? s2) then Some (i, s1, s2)
      else activeSegmentTS now (S i) (o2 :: rest)
  | _, _ => activeSegmentTS now (S i) (o2 :: rest)
  end.
Proof. reflexivity. Qed.

Lemma posLoop_segment coords indices now stops : forall i,
  TS.posLoop coords indices now i stops =
  match activeSegmentTS now i (map (fun st => TS.timeToSec (Time st)) stops) with
  | Some (j, s1, s2) =>
      TS.at_integral coords (TS.targetIndex coords indices j now s1 s2)
  | None => TS.Null
  end.
Proof.
  induction stops as [|st1 rest IH]; intros i; [reflexivity|].
  destruct rest as [|st2 rest]; [reflexivity|].
  rewrite posLoop_cons. specialize (IH (S i)).
  change (map (fun st => TS.timeToSec (Time st)) (st1 :: st2 :: rest))
    with (TS.timeToSec (Time st1) :: TS.timeToSec (Time st2)
            :: map (fun st => TS.timeToSec (Time st)) rest).
  rewrite activeSegmentTS_cons.
  change (map (fun st => TS.timeToSec (Time st)) (st2 :: rest))
    with (TS.timeToSec (Time st2)
            :: map (fun st => TS.timeToSec (Time st)) rest) in IH.
  destruct (TS.timeToSec (Time st1)) as [s1|]; [|exact IH].
  revert IH. generalize (TS.posLoop coords indices now (S i) (st2 :: rest)).
  generalize (map (fun st => TS.timeToSec (Time st)) rest).
  destruct (TS.timeToSec (Time st2)) as [s2|]; intros l v IH; [|exact IH].
  destruct ((s1 <=? now) && (now <? s2)); [reflexivity|exact IH].
Qed.

Lemma indexLoopTS_segment coords indices now stops : forall i,
  TS.indexLoop coords indices now i stops =
  (fun '(j, s1, s2) => TS.targetIndex coords indices j now s1 s2) <$>
    activeSegmentTS now i (map (fun st => TS.timeToSec (Time st)) stops).
Proof.
  induction stops as [|st1 rest IH]; intros i; [reflexivity|].
  destruct rest as [|st2 rest]; [reflexivity|].
  specialize (IH (S i)).
  change (map (fun st => TS.timeToSec (Time st)) (st1 :: st2 :: rest))
    with (TS.timeToSec (Time st1) :: TS.timeToSec (Time st2)
            :: map (fun st => TS.timeToSec (Time st)) rest).
  rewrite activeSegmentTS_cons.
  change (map (fun st => TS.timeToSec (Time st)) (st2 :: rest))
    with (TS.timeToSec (Time st2)
            :: map (fun st => TS.timeToSec (Time st)) rest) in IH.
  change (TS.indexLoop coords indices now i (st1 :: st2 :: rest))
    with (match TS.timeToSec (Time st1), TS.timeToSec (Time st2) with
          | Some s1, Some s2 =>
              if (s1 <=? now) && (now <? s2)
              then Some (TS.targetIndex coords indices i now s1 s2)
              else TS.indexLoop coords indices now (S i) (st2 :: rest)
          | _, _ => TS.indexLoop coords indices now (S i) (st2 :: rest)
          end).
  destruct (TS.timeToSec (Time st1)) as [s1|]; [|exact IH].
  revert IH. generalize (TS.indexLoop coords indices now (S i) (st2 :: rest)).
  generalize (map (fun st => TS.timeToSec (Time st)) rest).
  destruct (TS.timeToSec (Time st2)) as [s2|]; intros l v IH; [|exact IH].
  destruct ((s1 <=? now) && (now <? s2)); [reflexivity|exact IH].
Qed.

Lemma activeSegment_bounds now secs : forall i j s1 s2,
  activeSegment now i secs = Some (j, s1, s2) ->
  (i <= j)%nat /\ secs !! (j - i)%nat = Some s1 /\
  secs !! S (j - i) = Some s2 /\ s1 <= now < s2.
Proof.
  induction secs as [|a rest IH]; intros i j s1 s2 H; [discriminate|].
  destruct rest as [|b rest]; [discriminate|].
  cbn [activeSegment] in H.
  destruct ((a <=? now) && (now <? b)) eqn:E.
  - injection H as <- <- <-.
    apply andb_true_iff in E as [E1 E2]. apply Z.leb_le in E1. apply Z.ltb_lt in E2.
    rewrite Nat.sub_diag. repeat split; try reflexivity; lia.
  - destruct (IH _ _ _ _ H) as (Hle & L1 & L2 & Hnow).
    replace (j - i)%nat with (S (j - S i)) by lia.
    split; [lia|]. split; [exact L1|]. split; [exact L2|exact Hnow].
Qed.

Lemma activeSegmentTS_bounds now secs : forall i j s1 s2,
  activeSegmentTS now i secs = Some (j, s1, s2) ->
  (i <= j)%nat /\ secs !! (j - i)%nat = Some (Some s1) /\
  secs !! S (j - i) = Some (Some s2) /\ s1 <= now < s2.
Proof.
  induction secs as [|a rest IH]; intros i j s1 s2 H; [discriminate|].
  destruct rest as [|b rest]; [discriminate|].
  cbn [activeSegmentTS] in H.
  assert (Hrec : activeSegmentTS now (S i) (b :: rest) = Some (j, s1, s2) ->
                 (i <= j)%nat /\ (a :: b :: rest) !! (j - i)%nat = Some (Some s1) /\
                 (a :: b :: rest) !! S (j - i) = Some (Some s2) /\ s1 <= now < s2).
  { intros H'. destruct (IH _ _ _ _ H') as (Hle & L1 & L2 & Hnow).
    replace (j - i)%nat with (S (j - S i)) by lia.
    split; [lia|]. split; [exact L1|]. split; [exact L2|exact Hnow]. }
  destruct a as [a|], b as [b|]; auto.
  destruct ((a <=? now) && (now <? b)) eqn:E; auto.
  injection H as <- <- <-.
  apply andb_true_iff in E as [E1 E2]. apply Z.leb_le in E1. apply Z.ltb_lt in E2.
  rewrite Nat.sub_diag. repeat split; try reflexivity; lia.
Qed.

Lemma of_int_positive z :
  0 < z < 2 ^ 53 -> exists m e, F64.of_int z = S754_finite false m e.
Proof.
  intros Hz. apply (RoundingFacts.of_int_finite 426 160); lia.
Qed.

Lemma sub_nonzero s1 s2 :
  Int64.min_int <= s1 <= Int64.max_int ->
  Int64.min_int <= s2 <= Int64.max_int ->
  s1 < s2 ->
  Int64.sub s2 s1 <> 0 /\
  (s2 - s1 <= Int64.max_int -> Int64.sub s2 s1 = s2 - s1).
Proof.
  unfold Int64.sub, Int64.min_int, Int64.max_int. intros H1 H2 Hlt. split.
  - intros E. apply wrap_zero in E. rewrite Z.mod_small in E; lia.
  - intros Hm. apply wrap_small. unfold Int64.min_int, Int64.max_int. lia.
Qed.


(** ** The nested timetable *)

Lemma elem_of_allTrips tt r t trip :
  (r, t, trip) ∈ allTrips tt <-> tripAt tt r t = Some trip.
Proof.
  unfold allTrips, tripAt. rewrite list_elem_of_bind. split.
  - intros ([r' trips] & Hin & Hr). apply elem_of_map_to_list in Hr.
    apply list_elem_of_bind in Hin as ([t' trip'] & Hin & Ht).
    apply elem_of_map_to_list in Ht.
    apply list_elem_of_singleton in Hin. injection Hin as -> -> ->.
    rewrite Hr. exact Ht.
  - intros H. destruct (tt !! r) as [trips|] eqn:Hr; [|discriminate].
    cbn in H. exists (r, trips). split.
    + apply list_elem_of_bind. exists (t, trip). split.
      * apply list_elem_of_singleton. reflexivity.
      * apply elem_of_map_to_list. exact H.
    + apply elem_of_map_to_list. exact Hr.
Qed.

Lemma allTrips_functional tt r t trip trip' :
  (r, t, trip) ∈ allTrips tt -> (r, t, trip') ∈ allTrips tt -> trip = trip'.
Proof.
  rewrite !elem_of_allTrips. congruence.
Qed.

Lemma NoDup_allTrips tt : NoDup (allTrips tt).
Proof.
  unfold allTrips. apply NoDup_bind.
  - intros [r1 m1] [r2 m2] [[r t] trip] H1 H2 Hy1 Hy2.
    apply elem_of_map_to_list in H1, H2.
    apply list_elem_of_bind in Hy1 as ([t1 trip1] & Hy1 & _).
    apply list_elem_of_bind in Hy2 as ([t2 trip2] & Hy2 & _).
    apply list_elem_of_singleton in Hy1, Hy2.
    injection Hy1 as -> -> ->. injection Hy2 as -> _ _.
    congruence.
  - intros [r m] _. apply NoDup_bind.
    + intros [t1 trip1] [t2 trip2] y _ _ Hy1 Hy2.
      apply list_elem_of_singleton in Hy1, Hy2. congruence.
    + intros [t trip] _. apply NoDup_singleton.
    + apply NoDup_map_to_list.
  - apply NoDup_map_to_list.
Qed.

(** ** Trip detail *)

(** C7. A known route and trip whose pattern key has no entry in the
    shape table: the handler answers 200, and the [shape] field of the
    body is the address of a local [ShapeData] holding the zero value the
    map read gave, never the nil pointer. The body therefore carries an
    object with empty coordinates and indices where a null was meant. *)
Theorem getTripDetail_shape_never_null (c : Snapshot) (routeID tripID : string)
    (trip : TripInfo) :
  tripAt (timetablesCache c) routeID tripID = Some trip ->
  shapesCache c !! patternKey (Stops trip) = None ->
  exists body,
    Go.getTripDetail c routeID tripID = Go.StatusOK body /\
    Go.TripDetailResponse.Trip body = trip /\
    Go.TripDetailResponse.Shape body = Some Go.zeroShapeData /\
    Go.TripDetailResponse.Shape body <> None.
Proof.
  unfold tripAt, Go.getTripDetail. intros Ht Hs.
  destruct (timetablesCache c !! routeID) as [trips|]; [|discriminate].
  cbn in Ht. rewrite Ht, Hs. eexists. split; [reflexivity|].
  cbn. split; [reflexivity|]. split; [reflexivity|discriminate].
Qed.

Lemma getTripDetail_shape_never_null_witness :
  exists body,
    Go.getTripDetail Sample.unmapped "R" "T" = Go.StatusOK body /\
    Go.TripDetailResponse.Trip body = Sample.trip /\
    Go.TripDetailResponse.Shape body = Some Go.zeroShapeData /\
    Go.TripDetailResponse.Shape body <> None.
Proof.
  apply (getTripDetail_shape_never_null Sample.unmapped "R" "T" Sample.trip).
  - vm_compute. reflexivity.
  - vm_compute. reflexivity.
Defined.

(** ** Stop timetable *)

Lemma stopsAt_spec stopID trip :
  Go.stopsAt stopID trip = true <->
  exists ts, ts ∈ Stops trip /\ StopID ts = stopID.
Proof.
  unfold Go.stopsAt. rewrite existsb_exists. split.
  - intros (ts & Hin & He). exists ts. split.
    + apply list_elem_of_In. exact Hin.
    + apply String.eqb_eq. exact He.
  - intros (ts & Hin & He). exists ts. split.
    + apply list_elem_of_In. exact Hin.
    + apply String.eqb_eq. exact He.
Qed.

Lemma tripAt_insert (acc : gmap string (gmap string TripInfo)) r0 t0 trip0 r t :
  tripAt (<[r0 := <[t0 := trip0]> (default ∅ (acc !! r0))]> acc) r t =
  if decide (r0 = r /\ t0 = t) then Some trip0 else tripAt acc r t.
Proof.
  unfold tripAt. destruct (decide (r0 = r)) as [->|Hr].
  - rewrite lookup_insert_eq. cbn.
    destruct (decide (t0 = t)) as [->|Ht].
    + rewrite lookup_insert_eq. rewrite decide_True by auto. reflexivity.
    + rewrite lookup_insert_ne by exact Ht.
      rewrite decide_False by (intros [_ ?]; contradiction).
      destruct (acc !! r); reflexivity.
  - rewrite lookup_insert_ne by exact Hr.
    rewrite decide_False by (intros [? _]; contradiction). reflexivity.
Qed.

Lemma filter_fold_spec stopID (l : list (string * string * TripInfo)) :
  (forall r t trip trip',
     (r, t, trip) ∈ l -> (r, t, trip') ∈ l -> trip = trip') ->
  forall r t trip,
    tripAt
      (foldl (fun acc '(routeID, tripID, trip) =>
                if Go.stopsAt stopID trip
                then <[routeID := <[tripID := trip]> (default ∅ (acc !! routeID))]> acc
                else acc) ∅ l) r t = Some trip <->
    (r, t, trip) ∈ l /\ Go.stopsAt stopID trip = true.
Proof.
  induction l as [|[[r0 t0] trip0] l IH] using rev_ind; intros Hfun r t trip.
  - cbn. unfold tripAt. rewrite lookup_empty. cbn. split; [discriminate|].
    intros [H _]. inversion H.
  - rewrite foldl_app. cbn [foldl].
    assert (Hfun' : forall r t trip trip',
               (r, t, trip) ∈ l -> (r, t, trip') ∈ l -> trip = trip').
    { intros ? ? ? ? H1 H2. eapply Hfun; apply elem_of_app; left; eassumption. }
    specialize (IH Hfun' r t trip).
    assert (Hlast : (r0, t0, trip0) ∈ l ++ [(r0, t0, trip0)]).
    { apply elem_of_app. right. apply list_elem_of_singleton. reflexivity. }
    destruct (Go.stopsAt stopID trip0) eqn:Hs.
    + rewrite tripAt_insert. destruct (decide (r0 = r /\ t0 = t)) as [[-> ->]|Hne].
      * split.
        -- intros [= ->]. split; [exact Hlast|exact Hs].
        -- intros [Hin _]. f_equal. eapply Hfun; eassumption.
      * rewrite IH. rewrite elem_of_app, list_elem_of_singleton. split.
        -- intros [Hin Hst]. split; [left; exact Hin|exact Hst].
        -- intros [[Hin|Heq] Hst]; [split; assumption|].
           injection Heq as -> -> ->. exfalso. apply Hne. split; reflexivity.
    + rewrite IH. rewrite elem_of_app, list_elem_of_singleton. split.
      * intros [Hin Hst]. split; [left; exact Hin|exact Hst].
      * intros [[Hin|Heq] Hst]; [split; assumption|].
        injection Heq as -> -> ->. congruence.
Qed.

Lemma filterTimetables_spec c stopID r t trip :
  tripAt (Go.filterTimetables c stopID) r t = Some trip <->
  tripAt (timetablesCache c) r t = Some trip /\
  exists ts, ts ∈ Stops trip /\ StopID ts = stopID.
Proof.
  unfold Go.filterTimetables. rewrite filter_fold_spec.
  - rewrite elem_of_allTrips, stopsAt_spec. reflexivity.
  - intros. eapply allTrips_functional; eassumption.
Qed.

(** C10. For a stop id of the stop table the handler answers 200 with
    the stop's id and name, and its timetable holds trip [t] of route [r]
    exactly when the schedule has that trip and one of its stops is the
    requested one. The calendar table and the exceptions play no part:
    the answer is the same under any other calendar data, so a trip is
    listed whether or not the resolver says its service runs today. The
    panel's aggregation does the filtering: it gives no arrival to a trip
    whose service the client-side resolver rejects. *)
Theorem stop_timetable_ignores_calendar (c : Snapshot) (stopID : string)
    (stop : StopInfo) :
  stopsCache c !! stopID = Some stop ->
  (exists body,
     Go.getStopTimetable c stopID = Go.StatusOK body /\
     Go.StopTimetableResponse.StopID body = stopID /\
     Go.StopTimetableResponse.StopName body = Name stop /\
     forall r t trip,
       tripAt (Go.StopTimetableResponse.Timetables body) r t = Some trip <->
       tripAt (timetablesCache c) r t = Some trip /\
       exists ts, ts ∈ Stops trip /\ StopID ts = stopID) /\
  (forall calendar extra,
     Go.getStopTimetable (withCalendarData c calendar extra) stopID =
     Go.getStopTimetable c stopID) /\
  (forall clk r t trip,
     tripAt (timetablesCache c) r t = Some trip ->
     (exists ts, ts ∈ Stops trip /\ StopID ts = stopID) ->
     Go.isServiceRunningToday c clk (ServiceID trip) = false ->
     tripAt (Go.filterTimetables c stopID) r t = Some trip) /\
  (forall clk currentTime targetIds r t trip,
     TS.isServiceRunningToday (ServiceID trip) (calendarCache c)
       (extraCache c) clk = false ->
     TS.tripArrival c clk currentTime targetIds r t trip = None).
Proof.
  intros Hstop. split; [|split; [|split]].
  - unfold Go.getStopTimetable. rewrite Hstop. eexists.
    split; [reflexivity|]. cbn. split; [reflexivity|]. split; [reflexivity|].
    intros r t trip. apply filterTimetables_spec.
  - intros calendar extra. reflexivity.
  - intros clk r t trip Ht Hs _. apply filterTimetables_spec. split; assumption.
  - intros clk currentTime targetIds r t trip Hrun.
    unfold TS.tripArrival. rewrite Hrun. reflexivity.
Qed.

Lemma stop_timetable_ignores_calendar_witness :
  Go.isServiceRunningToday Sample.snapshot Sample.saturday "S" = false /\
  tripAt (Go.filterTimetables Sample.snapshot "A") "R" "T" = Some Sample.trip /\
  TS.tripArrival Sample.snapshot Sample.saturday "08:05:00" ["A"] "R" "T"
    Sample.trip = None.
Proof.
  assert (Hidle : Go.isServiceRunningToday Sample.snapshot Sample.saturday "S"
                  = false) by (vm_compute; reflexivity).
  destruct (stop_timetable_ignores_calendar Sample.snapshot "A" Sample.stopA)
    as (_ & _ & Hlisted & Hfiltered).
  - vm_compute. reflexivity.
  - split; [exact Hidle|]. split.
    + apply (Hlisted Sample.saturday "R" "T" Sample.trip).
      * vm_compute. reflexivity.
      * exists {| Time := "08:00:00"; StopID := "A" |}.
        split; [left|reflexivity].
      * exact Hidle.
    + apply Hfiltered. vm_compute. reflexivity.
Defined.

(** ** Arrivals of a stop set *)

Lemma includes_spec targetIds id :
  TS.includes targetIds id = true <-> id ∈ targetIds.
Proof.
  unfold TS.includes. rewrite existsb_exists, list_elem_of_In. split.
  - intros (x & Hin & He). apply String.eqb_eq in He. subst x. exact Hin.
  - intros Hin. exists id. split; [exact Hin|apply String.eqb_refl].
Qed.

Lemma find_firstMatch targetIds stops st :
  List.find (fun s => TS.includes targetIds (StopID s)) stops = Some st <->
  firstMatch targetIds stops st.
Proof.
  unfold firstMatch. induction stops as [|s stops IH]; cbn [List.find].
  - split; [discriminate|]. intros (i & H & _). destruct i; discriminate.
  - destruct (TS.includes targetIds (StopID s)) eqn:E.
    + split.
      * intros [= ->]. exists 0%nat. split; [reflexivity|].
        split; [apply includes_spec; exact E|]. intros j st' Hj. lia.
      * intros ([|i] & Hi & Hin & Hfirst).
        -- cbn in Hi. exact Hi.
        -- exfalso. apply (Hfirst 0%nat s); [lia|reflexivity|].
           apply includes_spec. exact E.
    + rewrite IH. split.
      * intros (i & Hi & Hin & Hfirst). exists (S i).
        split; [exact Hi|]. split; [exact Hin|].
        intros [|j] st' Hj Hst'.
        -- cbn in Hst'. injection Hst' as <-. rewrite <- includes_spec, E.
           discriminate.
        -- apply (Hfirst j); [lia|exact Hst'].
      * intros ([|i] & Hi & Hin & Hfirst).
        -- cbn in Hi. injection Hi as ->. apply includes_spec in Hin. congruence.
        -- exists i. split; [exact Hi|]. split; [exact Hin|].
           intros j st' Hj Hst'. apply (Hfirst (S j)); [lia|exact Hst'].
Qed.

Lemma tripArrival_spec data clk currentTime targetIds rid tid trip a :
  TS.tripArrival data clk currentTime targetIds rid tid trip = Some a <->
  TS.isServiceRunningToday (ServiceID trip) (calendarCache data)
    (extraCache data) clk = true /\
  exists st, firstMatch targetIds (Stops trip) st /\
             a = TS.arrival data currentTime rid tid trip st.
Proof.
  unfold TS.tripArrival.
  destruct (TS.isServiceRunningToday _ _ _ _); cbn [negb].
  - destruct (List.find _ _) as [st|] eqn:E.
    + apply find_firstMatch in E. split.
      * intros [= <-]. split; [reflexivity|]. exists st. split; [exact E|reflexivity].
      * intros (_ & st' & E' & ->). apply find_firstMatch in E, E'.
        congruence.
    + split; [discriminate|]. intros (_ & st' & E' & _).
      apply find_firstMatch in E'. congruence.
  - split; [discriminate|]. intros [? _]. discriminate.
Qed.

Lemma compare_trans_le a : forall b c,
  String.leb a b = true -> String.leb b c = true -> String.leb a c = true.
Proof.
  unfold String.leb.
  induction a as [|x a IH]; intros [|y b] [|z c]; cbn [String.compare];
    try (intros; reflexivity); try (intros; discriminate).
  unfold Ascii.compare.
  destruct (N.compare_spec (N_of_ascii x) (N_of_ascii y)) as [E1|L1|G1];
    destruct (N.compare_spec (N_of_ascii y) (N_of_ascii z)) as [E2|L2|G2];
    destruct (N.compare_spec (N_of_ascii x) (N_of_ascii z)) as [E3|L3|G3];
    intros H1 H2; try reflexivity; try discriminate; try lia.
  exact (IH b c H1 H2).
Qed.

#[local] Instance timeLe_trans : Transitive TS.timeLe.
Proof.
  intros a b c. unfold TS.timeLe, Str.leb. apply compare_trans_le.
Qed.

#[local] Instance timeLe_total : Total TS.timeLe.
Proof.
  intros a b. unfold TS.timeLe, Str.leb. apply String.leb_total.
Qed.

Lemma NoDup_allTrips_keys tt : NoDup (fst <$> allTrips tt).
Proof.
  apply NoDup_fmap_2_strong; [|apply NoDup_allTrips].
  intros [[r t] trip] [[r' t'] trip'] H1 H2 E. cbn in E. injection E as <- <-.
  f_equal. eapply allTrips_functional; eassumption.
Qed.

Lemma NoDup_omap_keys {A K V} (key : A -> K) (f : K * V -> option A)
    (l : list (K * V)) :
  (forall k v a, f (k, v) = Some a -> key a = k) ->
  NoDup (fst <$> l) -> NoDup (key <$> omap f l).
Proof.
  intros Hkey. induction l as [|[k v] l IH]; intros Hnd.
  - constructor.
  - rewrite fmap_cons in Hnd. apply NoDup_cons in Hnd as [Hk Hnd]. cbn in Hk.
    assert (E0 : omap f ((k, v) :: l) =
                 match f (k, v) with
                 | Some a => a :: omap f l
                 | None => omap f l
                 end) by reflexivity.
    rewrite E0. clear E0.
    destruct (f (k, v)) as [a|] eqn:E; [|apply IH; exact Hnd].
    rewrite fmap_cons. apply NoDup_cons. split; [|apply IH; exact Hnd].
    rewrite (Hkey _ _ _ E). intros Hin. apply Hk.
    apply list_elem_of_fmap in Hin as (a' & Ea & Hin).
    apply list_elem_of_omap in Hin as ([k' v'] & Hin & E').
    rewrite (Hkey _ _ _ E') in Ea. subst k'.
    apply list_elem_of_fmap. exists (k, v'). split; [reflexivity|exact Hin].
Qed.

(** C5, as the code has it. The arrival list of a set of target stop
    ids holds exactly the arrivals of the trips whose service runs today
    and that call at a stop of the set, one arrival per such trip, taken
    at the first stop-time of the trip whose stop is in the set; later
    stop-times of the same trip in the set are not listed. No trip occurs
    twice. Each arrival carries the stop-time's time and stop id, the
    route id, the trip id, the trip's headsign and via text, the platform
    of that stop, and [is_past] equal to [time < currentTime]. On a
    timetable whose times are all written [HH:MM:SS], where the order of
    the sort is the order of the strings, the list is in ascending order
    of the time strings. *)
Theorem arrivals_first_match_per_trip (data : Snapshot) (clk : Clock)
    (currentTime : string) (targetIds : list string) :
  (forall a,
     a ∈ TS.allArrivals data clk currentTime targetIds <->
     exists rid tid trip st,
       tripAt (timetablesCache data) rid tid = Some trip /\
       TS.isServiceRunningToday (ServiceID trip) (calendarCache data)
         (extraCache data) clk = true /\
       firstMatch targetIds (Stops trip) st /\
       a = TS.arrival data currentTime rid tid trip st) /\
  NoDup (tripKey <$> TS.allArrivals data clk currentTime targetIds) /\
  (forall a,
     a ∈ TS.allArrivals data clk currentTime targetIds ->
     TS.actual_stop_id a ∈ targetIds /\
     TS.is_past a = Str.ltb (TS.time a) currentTime) /\
  ((forall rid tid trip,
      tripAt (timetablesCache data) rid tid = Some trip ->
      wfTimes (Stops trip) = true) ->
   StronglySorted (fun a b => Str.leb (TS.time a) (TS.time b) = true)
     (TS.allArrivals data clk currentTime targetIds)) /\
  (forall rid tid trip st,
     let a := TS.arrival data currentTime rid tid trip st in
     TS.time a = Time st /\ TS.route_id a = rid /\ TS.trip_id a = tid /\
     TS.headsign a = Headsign trip /\ TS.via a = Via trip /\
     TS.platform a =
       default EmptyString (Platform <$> stopsCache data !! StopID st) /\
     TS.actual_stop_id a = StopID st /\
     TS.is_past a = Str.ltb (Time st) currentTime).
Proof.
  assert (Hmem : forall a,
     a ∈ TS.allArrivals data clk currentTime targetIds <->
     exists rid tid trip st,
       tripAt (timetablesCache data) rid tid = Some trip /\
       TS.isServiceRunningToday (ServiceID trip) (calendarCache data)
         (extraCache data) clk = true /\
       firstMatch targetIds (Stops trip) st /\
       a = TS.arrival data currentTime rid tid trip st).
  { intros a. unfold TS.allArrivals. rewrite merge_sort_Permutation.
    rewrite list_elem_of_omap. split.
    - intros ([[rid tid] trip] & Hin & Ha).
      apply elem_of_allTrips in Hin.
      apply tripArrival_spec in Ha as (Hrun & st & Hst & ->).
      exists rid, tid, trip, st. auto.
    - intros (rid & tid & trip & st & Hin & Hrun & Hst & ->).
      exists (rid, tid, trip). split; [apply elem_of_allTrips; exact Hin|].
      apply tripArrival_spec. split; [exact Hrun|]. exists st. auto. }
  split; [exact Hmem|]. split; [|split; [|split]].
  4:{ intros rid tid trip st a. subst a. cbn.
      destruct (stopsCache data !! StopID st); repeat split; reflexivity. }
  - unfold TS.allArrivals. rewrite merge_sort_Permutation.
    apply (NoDup_omap_keys tripKey); [|apply NoDup_allTrips_keys].
    intros [rid tid] trip a Ha.
    apply tripArrival_spec in Ha as (_ & st & _ & ->). reflexivity.
  - intros a Ha. apply Hmem in Ha as (rid & tid & trip & st & _ & _ & Hst & ->).
    destruct Hst as (i & _ & Hin & _). split; [exact Hin|reflexivity].
  - intros _. apply (StronglySorted_merge_sort TS.timeLe).
Qed.

(** C5, as stated: one arrival per matching stop-time. Stops A and B
    share the name Central, so both are in the set aggregated for A; trip
    T runs on the day of the clock and calls at A at 08:00:00 and at B at
    08:10:00. Both stop-times match, and the list has the single arrival
    at A. *)
Lemma arrivals_skip_later_match :
  TS.isServiceRunningToday (ServiceID Sample.trip)
    (calendarCache Sample.snapshot) (extraCache Sample.snapshot)
    Sample.clock = true /\
  Forall (fun st =>
            StopID st ∈ TS.targetIdsOf Sample.snapshot "A" Sample.stopA true)
    (Stops Sample.trip) /\
  length (Stops Sample.trip) = 2%nat /\
  TS.allArrivals Sample.snapshot Sample.clock "08:05:00"
    (TS.targetIdsOf Sample.snapshot "A" Sample.stopA true) =
  [TS.arrival Sample.snapshot "08:05:00" "R" "T" Sample.trip
     {| Time := "08:00:00"; StopID := "A" |}].
Proof.
  split; [vm_compute; reflexivity|]. split; [|split; [reflexivity|]].
  - repeat constructor; apply includes_spec; vm_compute; reflexivity.
  - vm_compute. reflexivity.
Qed.

(** ** The linear map between two indices in either order

    With a second index below the first the product is negative and the
    sum is a difference; it stays between the two indices. *)

Module Lerp.
Import Rounding.

(** The rounding is the same on both sides of zero. *)
Lemma round_aux_opp prec emax m e l :
  binary_round_aux prec emax true m e l =
  SFopp (binary_round_aux prec emax false m e l).
Proof.
  unfold binary_round_aux.
  destruct (shr_fexp _ _ _ _ _) as [mrs e'].
  destruct (shr_fexp _ _ _ _ _) as [mrs' e''].
  destruct (shr_m mrs') as [|p|p]; [reflexivity| |reflexivity].
  destruct (e'' <=? _); reflexivity.
Qed.

Lemma of_int_opp c : 0 < c -> F64.of_int (- c) = SFopp (F64.of_int c).
Proof.
  intros Hc. destruct c as [|p|p]; try lia.
  unfold F64.of_int. change (- Z.pos p) with (Z.neg p).
  cbn [binary_normalize]. unfold binary_round.
  destruct (shl_align _ _ _) as [mz ez]. apply round_aux_opp.
Qed.

Lemma mul_opp x y :
  tame_at 53 160 x -> tame_at 53 160 y ->
  F64.mul (SFopp x) y = SFopp (F64.mul x y).
Proof.
  intros (m1 & e1 & -> & _) (m2 & e2 & -> & _).
  unfold F64.mul. cbn [SFopp SFmul xorb negb]. apply round_aux_opp.
Qed.

Section Sub.
Variables prec emax K B : Z.
Hypothesis Hprec : 0 < prec.
Hypothesis HB : 0 <= B.
Hypothesis HBK : 2 * B + 2 * prec <= K.
Hypothesis HBmin : emin prec emax <= - (2 * B + 2 * prec).
Hypothesis HBmax : 2 * B + 2 * prec + 2 <= emax.

Lemma sub_rounds x1 x2 :
  tame_at prec B x1 -> tame_at prec B x2 -> scaled K x2 < scaled K x1 ->
  rounds_to prec K (SFadd prec emax x1 (SFopp x2)) (scaled K x1 - scaled K x2) 1 /\
  2 ^ (- B + K) <= scaled K x1 - scaled K x2.
Proof.
  intros (m1 & e1 & -> & D1 & E1) (m2 & e2 & -> & D2 & E2) Hlt.
  cbn [SFopp negb SFadd cond_Zopp scaled] in *.
  pose proof (RoundingFacts.shl_align_spec m1 e1 (Z.min e1 e2)) as [_ S1].
  pose proof (RoundingFacts.shl_align_spec m2 e2 (Z.min e1 e2)) as [_ S2].
  cbn zeta in S1, S2.
  set (ez := Z.min e1 e2) in *.
  replace (Z.min e1 ez) with ez in S1 by lia.
  replace (Z.min e2 ez) with ez in S2 by lia.
  set (a1 := fst (shl_align m1 e1 ez)) in *.
  set (a2 := fst (shl_align m2 e2 ez)) in *.
  assert (H1 : 0 < 2 ^ (e1 - ez)) by (apply RoundingFacts.pow2_pos; lia).
  assert (H2 : 0 < 2 ^ (e2 - ez)) by (apply RoundingFacts.pow2_pos; lia).
  assert (Hz : 0 < 2 ^ (ez + K)) by (apply RoundingFacts.pow2_pos; lia).
  assert (V1 : Z.pos m1 * 2 ^ (e1 + K) = Zpos a1 * 2 ^ (ez + K)).
  { rewrite S1. replace (e1 + K) with ((e1 - ez) + (ez + K)) by lia.
    rewrite RoundingFacts.pow2_split by lia. ring. }
  assert (V2 : Z.pos m2 * 2 ^ (e2 + K) = Zpos a2 * 2 ^ (ez + K)).
  { rewrite S2. replace (e2 + K) with ((e2 - ez) + (ez + K)) by lia.
    rewrite RoundingFacts.pow2_split by lia. ring. }
  assert (Ha : (a2 < a1)%positive).
  { rewrite V1, V2 in Hlt. apply Pos2Z.pos_lt_pos. nia. }
  assert (Hsub : Z.pos a1 + - Z.pos a2 = Z.pos (a1 - a2))
    by (rewrite Pos2Z.inj_sub by exact Ha; lia).
  rewrite Hsub. cbn [binary_normalize].
  rewrite V1, V2.
  replace (Z.pos a1 * 2 ^ (ez + K) - Z.pos a2 * 2 ^ (ez + K))
    with (Zpos (a1 - a2) * 2 ^ (ez + K))
    by (rewrite Pos2Z.inj_sub by exact Ha; ring).
  pose proof (RoundingFacts.digits2_pos_bounds m1) as [A1 A2]. rewrite D1 in A1, A2.
  pose proof (RoundingFacts.digits2_pos_bounds (a1 - a2)) as [G1 G2].
  set (w := e1 - ez) in *.
  assert (Hd2 : Zpos (digits2_pos (a1 - a2)) <= prec + w).
  { apply RoundingFacts.digits2_pos_le; [lia|].
    rewrite Pos2Z.inj_sub by exact Ha. rewrite S1.
    rewrite RoundingFacts.pow2_split by lia. nia. }
  pose proof (Pos2Z.is_pos (digits2_pos (a1 - a2))).
  split; [apply RoundingFacts.binary_round_rounds; try assumption;
          unfold w in *; lia|].
  assert (2 ^ (- B + K) <= 2 ^ (ez + K)) by (apply Z.pow_le_mono_r; lia).
  pose proof (Pos2Z.is_pos (a1 - a2)). nia.
Qed.

Lemma sub_zero x1 x2 :
  tame_at prec B x1 -> tame_at prec B x2 -> scaled K x2 = scaled K x1 ->
  SFadd prec emax x1 (SFopp x2) = S754_zero false.
Proof.
  intros (m1 & e1 & -> & D1 & E1) (m2 & e2 & -> & D2 & E2) Heq.
  cbn [SFopp negb SFadd cond_Zopp scaled] in *.
  pose proof (RoundingFacts.shl_align_spec m1 e1 (Z.min e1 e2)) as [_ S1].
  pose proof (RoundingFacts.shl_align_spec m2 e2 (Z.min e1 e2)) as [_ S2].
  cbn zeta in S1, S2.
  set (ez := Z.min e1 e2) in *.
  replace (Z.min e1 ez) with ez in S1 by lia.
  replace (Z.min e2 ez) with ez in S2 by lia.
  set (a1 := fst (shl_align m1 e1 ez)) in *.
  set (a2 := fst (shl_align m2 e2 ez)) in *.
  assert (Hz : 0 < 2 ^ (ez + K)) by (apply RoundingFacts.pow2_pos; lia).
  assert (V1 : Z.pos m1 * 2 ^ (e1 + K) = Zpos a1 * 2 ^ (ez + K)).
  { rewrite S1. replace (e1 + K) with ((e1 - ez) + (ez + K)) by lia.
    rewrite RoundingFacts.pow2_split by lia. ring. }
  assert (V2 : Z.pos m2 * 2 ^ (e2 + K) = Zpos a2 * 2 ^ (ez + K)).
  { rewrite S2. replace (e2 + K) with ((e2 - ez) + (ez + K)) by lia.
    rewrite RoundingFacts.pow2_split by lia. ring. }
  assert (Ha : a1 = a2).
  { rewrite V1, V2 in Heq. apply Pos2Z.inj. nia. }
  rewrite Ha. rewrite Z.add_opp_diag_r. reflexivity.
Qed.
End Sub.


Lemma lerp_bounds_desc a b n d :
  0 <= b <= a -> a < 2 ^ 53 -> 0 <= n < d -> d < 2 ^ 53 ->
  exists z, F64.lerp a (b - a) n d = F64.IFin z /\ b <= z <= a.
Proof.
  intros Hba Ha Hn Hd.
  destruct (Z.eq_dec a b) as [<-|Hne].
  { rewrite Z.sub_diag.
    destruct (RoundingFacts.lerp_bounds a 0 n d) as (z & E & Hz); try lia.
    exists z. split; [exact E|lia]. }
  set (c := a - b). assert (Hc : 0 < c < 2 ^ 53) by (unfold c; lia).
  replace (b - a) with (- c) by (unfold c; lia).
  assert (HK : 0 < 2 ^ 530) by (apply RoundingFacts.pow2_pos; lia).
  pose proof (RoundingFacts.of_int_tame 530 160 ltac:(lia) ltac:(lia) a ltac:(lia)) as Ta.
  pose proof (RoundingFacts.of_int_tame 530 160 ltac:(lia) ltac:(lia) c Hc) as Tc.
  destruct (RoundingFacts.of_int_spec 530 160 ltac:(lia) ltac:(lia) a ltac:(lia))
    as [_ Va].
  unfold F64.lerp. rewrite (of_int_opp c) by lia.
  destruct (Z.eq_dec n 0) as [->|Hn0].
  - destruct (RoundingFacts.of_int_finite 530 160 ltac:(lia) ltac:(lia) d ltac:(lia))
      as (md & ed & ->).
    destruct Tc as (mc & ec & -> & _). destruct Ta as (ma & ea & Ea & Da & Ba).
    rewrite Ea in *.
    cbn [F64.of_int binary_normalize F64.div SFdiv xorb SFopp negb F64.mul SFmul
           F64.add SFadd].
    rewrite (RoundingFacts.floor_V 530 160 ltac:(lia) ltac:(lia))
      by (right; exists ma, ea; auto).
    rewrite Va, Z.div_mul by lia. exists a. split; [reflexivity|lia].
  - destruct (RoundingFacts.ratio_spec 530 160 ltac:(lia) ltac:(lia) ltac:(lia)
                ltac:(lia) n d ltac:(lia) Hd) as (Tr & _ & Lr & Ur).
    set (r := F64.div (F64.of_int n) (F64.of_int d)) in *.
    destruct (RoundingFacts.prod_spec 530 160 ltac:(lia) ltac:(lia) ltac:(lia)
                ltac:(lia) c r Hc (conj Tr Lr) Ur) as ([Tp Lp] & _ & Up).
    rewrite (mul_opp _ _ Tc Tr).
    set (p := F64.mul (F64.of_int c) r) in *.
    assert (Hle : scaled 530 p <= scaled 530 (F64.of_int a)) by (rewrite Va; nia).
    destruct (Z.eq_dec (scaled 530 p) (scaled 530 (F64.of_int a))) as [Heq|Hlt].
    + pose proof (sub_zero 53 1024 530 160 ltac:(lia) ltac:(lia) ltac:(lia)
                    ltac:(lia) _ _ Ta Tp Heq) as Hz.
      change (SFadd 53 1024 (F64.of_int a) (SFopp p))
        with (F64.add (F64.of_int a) (SFopp p)) in Hz.
      rewrite Hz. cbn [F64.floor].
      exists 0. split; [reflexivity|].
      rewrite Va in Heq. assert (c = a) by nia. unfold c in *. lia.
    + destruct (sub_rounds 53 1024 530 160 ltac:(lia) ltac:(lia) ltac:(lia)
                  ltac:(unfold emin; lia) ltac:(lia) _ _ Ta Tp ltac:(lia))
        as [R Lx].
      set (q := SFadd 53 1024 (F64.of_int a) (SFopp p)) in *.
      change (F64.add (F64.of_int a) (SFopp p)) with q.
      assert (Tq : tame_at 53 212 q).
      { eapply RoundingFacts.rounds_tame with (K := 530) (lo := -160) (hi := 53);
          [| |exact R| |lia|lia|lia]; try lia. }
      rewrite (RoundingFacts.floor_V 530 212 ltac:(lia) ltac:(lia)) by (right; exact Tq).
      eexists. split; [reflexivity|].
      assert (Hq1 : scaled 530 q <= a * 2 ^ 530).
      { rewrite <- Va. eapply RoundingFacts.rounds_mono;
          [|exact R|apply (RoundingFacts.of_int_rounds_53 530 160); lia|]; lia. }
      assert (Hq0 : b * 2 ^ 530 <= scaled 530 q).
      { destruct (Z.eq_dec b 0) as [->|Hb0].
        - pose proof (RoundingFacts.V_nonneg 530 q). lia.
        - destruct (RoundingFacts.of_int_spec 530 160 ltac:(lia) ltac:(lia) b
                      ltac:(lia)) as [_ Vb].
          rewrite <- Vb. eapply RoundingFacts.rounds_mono;
            [|apply (RoundingFacts.of_int_rounds_53 530 160); lia|exact R|];
            unfold c in *; lia. }
      split.
      * apply Z.div_le_lower_bound; lia.
      * apply Z.div_le_upper_bound; lia.
Qed.

(** The index lies between the two stop indices, whichever is the
    greater. *)
Lemma lerp_between a b n d :
  0 <= a < 2 ^ 53 -> 0 <= b < 2 ^ 53 -> 0 <= n < d -> d < 2 ^ 53 ->
  exists z, F64.lerp a (b - a) n d = F64.IFin z /\
            Z.min a b <= z <= Z.max a b.
Proof.
  intros Ha Hb Hn Hd. destruct (Z_le_gt_dec a b) as [Hab|Hab].
  - destruct (RoundingFacts.lerp_bounds a (b - a) n d) as (z & E & Hz);
      try lia.
    exists z. split; [exact E|lia].
  - destruct (lerp_bounds_desc a b n d) as (z & E & Hz); try lia.
    exists z. split; [exact E|lia].
Qed.

End Lerp.

(** ** The interpolator *)

Lemma go_seconds stops :
  wfTimes stops = true ->
  map (fun st => Go.timeToSec (Time st)) stops = secondsOfStops stops.
Proof.
  intros H. unfold secondsOfStops. apply map_ext_in. intros st Hin.
  apply timeToSec_wfTime. apply (wfTimes_elem stops); [exact H|].
  apply list_elem_of_In. exact Hin.
Qed.

Lemma ts_seconds stops :
  wfTimes stops = true ->
  map (fun st => TS.timeToSec (Time st)) stops = map Some (secondsOfStops stops).
Proof.
  intros H. unfold secondsOfStops. rewrite map_map. apply map_ext_in.
  intros st Hin. apply timeToSec_wfTime. apply (wfTimes_elem stops); [exact H|].
  apply list_elem_of_In. exact Hin.
Qed.

Lemma seconds_range stops i s :
  wfTimes stops = true -> secondsOfStops stops !! i = Some s -> 0 <= s < 2 ^ 19.
Proof.
  intros H L. unfold secondsOfStops in L. rewrite list_lookup_fmap in L.
  destruct (stops !! i) as [st|] eqn:E; [|discriminate].
  cbn in L. injection L as <-.
  apply timeToSec_wfTime. apply (wfTimes_elem stops); [exact H|].
  apply list_elem_of_lookup. exists i. exact E.
Qed.

Lemma activeSegment_cons now i s1 s2 rest :
  activeSegment now i (s1 :: s2 :: rest) =
  if (s1 <=? now) && (now <? s2) then Some (i, s1, s2)
  else activeSegment now (S i) (s2 :: rest).
Proof. reflexivity. Qed.

Lemma activeSegmentTS_some now secs : forall i,
  activeSegmentTS now i (map Some secs) = activeSegment now i secs.
Proof.
  induction secs as [|s1 rest IH]; intros i; [reflexivity|].
  destruct rest as [|s2 rest]; [reflexivity|].
  change (map Some (s1 :: s2 :: rest))
    with (Some s1 :: Some s2 :: map Some rest).
  rewrite activeSegmentTS_cons, activeSegment_cons.
  destruct ((s1 <=? now) && (now <? s2)); [reflexivity|].
  apply (IH (S i)).
Qed.

Lemma activePair_cons now s1 s2 rest :
  Spec.activePair now (s1 :: s2 :: rest) =
  if decide (s1 <= now < s2) then Some (0%nat, (s1, s2))
  else prod_map S id <$> Spec.activePair now (s2 :: rest).
Proof. reflexivity. Qed.

(** The segment the loops select is the pair the design looks for. *)
Lemma activePair_segment now secs : forall i,
  activeSegment now i secs =
  (fun '(j, (s1, s2)) => ((i + j)%nat, s1, s2)) <$> Spec.activePair now secs.
Proof.
  induction secs as [|s1 rest IH]; intros i; [reflexivity|].
  destruct rest as [|s2 rest]; [reflexivity|].
  rewrite activePair_cons, activeSegment_cons, (IH (S i)).
  destruct (decide (s1 <= now < s2)) as [Hin|Hout].
  - replace ((s1 <=? now) && (now <? s2)) with true
      by (symmetry; apply andb_true_iff; split;
          [apply Z.leb_le|apply Z.ltb_lt]; lia).
    cbn. rewrite Nat.add_0_r. reflexivity.
  - replace ((s1 <=? now) && (now <? s2)) with false.
    + destruct (Spec.activePair now (s2 :: rest)) as [[j [a b]]|];
        [|reflexivity].
      cbn. rewrite Nat.add_succ_r. reflexivity.
    + symmetry. apply andb_false_iff.
      destruct (Z.leb_spec s1 now); [|left; reflexivity].
      right. apply Z.ltb_ge. lia.
Qed.

Lemma activePair_bounds now secs i si sj :
  Spec.activePair now secs = Some (i, (si, sj)) ->
  secs !! i = Some si /\ secs !! S i = Some sj /\ si <= now < sj.
Proof.
  intros E. pose proof (activePair_segment now secs 0) as H.
  rewrite E in H. cbn in H.
  destruct (activeSegment_bounds _ _ _ _ _ _ H) as (_ & L1 & L2 & Hnow).
  rewrite Nat.sub_0_r in L1, L2. auto.
Qed.

Lemma nondecreasing_cons x l :
  nondecreasing (x :: l) = true ->
  nondecreasing l = true /\ forall y, head l = Some y -> x <= y.
Proof.
  destruct l as [|y l]; cbn [nondecreasing].
  - intros _. split; [reflexivity|]. intros y Hy. discriminate.
  - intros H. apply andb_true_iff in H as [H1 H2]. apply Z.leb_le in H1.
    split; [exact H2|]. intros y' [= <-]. exact H1.
Qed.

Lemma nondecreasing_lookup l :
  nondecreasing l = true ->
  forall i j a b, (i <= j)%nat -> l !! i = Some a -> l !! j = Some b -> a <= b.
Proof.
  induction l as [|x l IH]; intros H i j a b Hij Ha Hb; [discriminate|].
  apply nondecreasing_cons in H as [Hl Hx]. specialize (IH Hl).
  destruct i as [|i], j as [|j]; cbn in Ha, Hb.
  - injection Ha as <-. injection Hb as <-. lia.
  - injection Ha as <-. destruct l as [|y l]; [discriminate|].
    specialize (Hx y eq_refl).
    assert (y <= b) by (apply (IH 0%nat j); [lia|reflexivity|exact Hb]).
    lia.
  - lia.
  - apply (IH i j); [lia|exact Ha|exact Hb].
Qed.

Lemma increasing_nondecreasing l :
  increasing l = true -> nondecreasing l = true.
Proof.
  induction l as [|x l IH]; [reflexivity|].
  destruct l as [|y l]; [reflexivity|].
  cbn [increasing nondecreasing]. intros H.
  apply andb_true_iff in H as [H1 H2]. apply Z.ltb_lt in H1.
  apply andb_true_iff. split; [apply Z.leb_le; lia|apply IH; exact H2].
Qed.

Lemma wfShape_lookup stops shape i :
  wfShape stops shape = true -> (S i < length stops)%nat ->
  exists a b,
    StopIndices shape !! i = Some a /\ StopIndices shape !! S i = Some b /\
    0 <= a /\ a <= b /\ b < 2 ^ 53.
Proof.
  unfold wfShape. intros H Hi.
  apply andb_true_iff in H as [H Hall]. apply andb_true_iff in H as [Hlen Hmono].
  apply Nat.eqb_eq in Hlen. rewrite forallb_forall in Hall.
  destruct (lookup_lt_is_Some_2 (StopIndices shape) i ltac:(lia)) as [a Ha].
  destruct (lookup_lt_is_Some_2 (StopIndices shape) (S i) ltac:(lia)) as [b Hb].
  exists a, b. split; [exact Ha|]. split; [exact Hb|].
  assert (Hra : (0 <=? a) && (a <? 2 ^ 53) = true).
  { apply Hall. apply list_elem_of_In. apply list_elem_of_lookup. eauto. }
  assert (Hrb : (0 <=? b) && (b <? 2 ^ 53) = true).
  { apply Hall. apply list_elem_of_In. apply list_elem_of_lookup. eauto. }
  apply andb_true_iff in Hra as [Ha0 _]. apply andb_true_iff in Hrb as [_ Hb1].
  apply Z.leb_le in Ha0. apply Z.ltb_lt in Hb1.
  split; [exact Ha0|]. split; [|exact Hb1].
  apply (nondecreasing_lookup _ Hmono i (S i)); [lia|exact Ha|exact Hb].
Qed.

(** Inside a segment both copies compute the same index: the binary64
    value of the linear map, which lies between the indices of the two
    stops, clamped to the last coordinate. The server reads its two
    indices without a panic and its integer subtractions do not wrap. *)
Lemma targetIndex_lerp coords indices i now s1 s2 a b :
  indices !! i = Some a -> indices !! S i = Some b ->
  0 <= a -> a <= b -> b < 2 ^ 53 ->
  0 <= s1 -> s1 <= now < s2 -> s2 < 2 ^ 53 ->
  exists t,
    F64.lerp a (b - a) (now - s1) (s2 - s1) = F64.IFin t /\ a <= t <= b /\
    Go.targetIndex coords indices i now s1 s2 =
      Go.Returns (Z.min t (Z.of_nat (length coords) - 1)) /\
    TS.targetIndex coords indices i now s1 s2 =
      F64.IFin (Z.min t (Z.of_nat (length coords) - 1)).
Proof.
  intros Ha Hb Ha0 Hab Hb1 Hs1 Hnow Hs2.
  destruct (RoundingFacts.lerp_bounds a (b - a) (now - s1) (s2 - s1))
    as (t & Ht & Hbt); try lia.
  exists t. split; [exact Ht|]. split; [lia|]. split.
  - unfold Go.targetIndex, Go.timeRatio, Go.index.
    replace (Z.of_nat i <? 0) with false by (symmetry; apply Z.ltb_ge; lia).
    replace (Z.of_nat i + 1 <? 0) with false by (symmetry; apply Z.ltb_ge; lia).
    rewrite Nat2Z.id. replace (Z.to_nat (Z.of_nat i + 1)) with (S i) by lia.
    rewrite Ha, Hb. cbn [Go.bind]. unfold Int64.sub.
    rewrite (wrap_small (b - a)), (wrap_small (now - s1)),
      (wrap_small (s2 - s1)) by (unfold Int64.min_int, Int64.max_int; lia).
    change (F64.floor (F64.add (F64.of_int a)
              (F64.mul (F64.of_int (b - a))
                 (F64.div (F64.of_int (now - s1)) (F64.of_int (s2 - s1))))))
      with (F64.lerp a (b - a) (now - s1) (s2 - s1)).
    rewrite Ht. cbn [Go.int_of].
    replace ((Int64.min_int <=? t) && (t <=? Int64.max_int)) with true
      by (symmetry; apply andb_true_iff; unfold Int64.min_int, Int64.max_int;
          split; apply Z.leb_le; lia).
    f_equal. destruct (Z.leb_spec (Z.of_nat (length coords)) t); lia.
  - unfold TS.targetIndex, TS.timeRatio. rewrite Ha, Hb.
    change (F64.floor (F64.add (F64.of_int a)
              (F64.mul (F64.of_int (b - a))
                 (F64.div (F64.of_int (now - s1)) (F64.of_int (s2 - s1))))))
      with (F64.lerp a (b - a) (now - s1) (s2 - s1)).
    rewrite Ht. reflexivity.
Qed.

(** What the target index of the design is on a well-formed trip. *)
Lemma targetIndex_cases stops shape now :
  wfTimes stops = true -> wfShape stops shape = true ->
  match Spec.activePair now (secondsOfStops stops) with
  | None => Rounded.targetIndex (secondsOfStops stops) now shape = None
  | Some (i, (si, sj)) =>
      exists a b t,
        StopIndices shape !! i = Some a /\ StopIndices shape !! S i = Some b /\
        0 <= a /\ a <= b /\ b < 2 ^ 53 /\ 0 <= si /\ si <= now < sj /\
        sj < 2 ^ 53 /\
        F64.lerp a (b - a) (now - si) (sj - si) = F64.IFin t /\ a <= t <= b /\
        Rounded.targetIndex (secondsOfStops stops) now shape =
          Some (Z.min t (Z.of_nat (length (Coordinates shape)) - 1))
  end.
Proof.
  intros Ht Hs. unfold Rounded.targetIndex.
  destruct (Spec.activePair now (secondsOfStops stops)) as [[i [si sj]]|] eqn:E;
    [|reflexivity].
  destruct (activePair_bounds _ _ _ _ _ E) as (L1 & L2 & Hnow).
  pose proof (seconds_range _ _ _ Ht L1) as R1.
  pose proof (seconds_range _ _ _ Ht L2) as R2.
  assert (Hlen : (S i < length stops)%nat).
  { apply lookup_lt_Some in L2. unfold secondsOfStops in L2.
    rewrite length_map in L2. exact L2. }
  destruct (wfShape_lookup stops shape i Hs Hlen) as (a & b & Ha & Hb & Ha0 & Hab & Hb1).
  assert (Hsj : sj < 2 ^ 53).
  { assert (2 ^ 19 < 2 ^ 53) by (apply Z.pow_lt_mono_r; lia). lia. }
  destruct (targetIndex_lerp (Coordinates shape) (StopIndices shape) i now si sj a b)
    as (t & Hl & Hbt & _ & _); try assumption; try lia.
  exists a, b, t. repeat (split; [assumption || lia|]).
  cbn. rewrite Ha, Hb. cbn. rewrite Hl.
  replace (t <? 0) with false by (symmetry; apply Z.ltb_ge; lia).
  reflexivity.
Qed.

(** Both loops compute the target index of the design. *)
Lemma indexLoop_reference stops shape now :
  wfTimes stops = true -> wfShape stops shape = true ->
  Go.indexLoop (Coordinates shape) (StopIndices shape) now 0 stops =
    Go.Returns (Rounded.targetIndex (secondsOfStops stops) now shape) /\
  TS.indexLoop (Coordinates shape) (StopIndices shape) now 0 stops =
    F64.IFin <$> Rounded.targetIndex (secondsOfStops stops) now shape /\
  TS.posLoop (Coordinates shape) (StopIndices shape) now 0 stops =
    match Rounded.targetIndex (secondsOfStops stops) now shape with
    | Some k => TS.at_integral (Coordinates shape) (F64.IFin k)
    | None => TS.Null
    end.
Proof.
  intros Ht Hs.
  rewrite indexLoop_segment, posLoop_segment, indexLoopTS_segment.
  rewrite go_seconds, ts_seconds, activeSegmentTS_some by exact Ht.
  rewrite activePair_segment.
  pose proof (targetIndex_cases stops shape now Ht Hs) as Hc.
  destruct (Spec.activePair now (secondsOfStops stops)) as [[i [si sj]]|] eqn:E.
  - destruct Hc as (a & b & t & Ha & Hb & Ha0 & Hab & Hb1 & Hsi & Hnow & Hsj
                    & Hl & Hbt & Hk).
    destruct (targetIndex_lerp (Coordinates shape) (StopIndices shape) i now si sj a b)
      as (t' & Hl' & _ & Hgo & Hts); try assumption.
    assert (t' = t) by congruence. subst t'.
    rewrite Hk. cbn. rewrite Hgo, Hts. cbn. auto.
  - rewrite Hc. cbn. auto.
Qed.

(** *** Every shape, every order of the indices *)

Lemma plain_seconds stops :
  plainTimes stops = true ->
  map (fun st => TS.timeToSec (Time st)) stops = map Some (serverSeconds stops).
Proof.
  intros H. unfold serverSeconds. rewrite map_map. apply map_ext_in.
  intros st Hin. apply timeToSec_plain. apply (plainTimes_elem stops); [exact H|].
  apply list_elem_of_In. exact Hin.
Qed.

Lemma plain_seconds_range stops i s :
  plainTimes stops = true -> serverSeconds stops !! i = Some s ->
  0 <= s < 2 ^ 52.
Proof.
  intros H L. unfold serverSeconds in L. rewrite list_lookup_fmap in L.
  destruct (stops !! i) as [st|] eqn:E; [|discriminate].
  cbn in L. injection L as <-.
  apply timeToSec_plain. apply (plainTimes_elem stops); [exact H|].
  apply list_elem_of_lookup. exists i. exact E.
Qed.

Lemma wf_seconds stops :
  wfTimes stops = true -> serverSeconds stops = secondsOfStops stops.
Proof. exact (go_seconds stops). Qed.

(** Inside a segment, with the two indices positions of an array in
    either order, both copies compute the same index: the binary64 value
    of the linear map, between the two indices, clamped to the last
    coordinate. *)
Lemma targetIndex_between coords indices i now s1 s2 a b :
  indices !! i = Some a -> indices !! S i = Some b ->
  0 <= a < 2 ^ 53 -> 0 <= b < 2 ^ 53 ->
  0 <= s1 -> s1 <= now < s2 -> s2 < 2 ^ 53 ->
  exists t,
    F64.lerp a (b - a) (now - s1) (s2 - s1) = F64.IFin t /\
    Z.min a b <= t <= Z.max a b /\
    Go.targetIndex coords indices i now s1 s2 =
      Go.Returns (Z.min t (Z.of_nat (length coords) - 1)) /\
    TS.targetIndex coords indices i now s1 s2 =
      F64.IFin (Z.min t (Z.of_nat (length coords) - 1)).
Proof.
  intros Ha Hb Hra Hrb Hs1 Hnow Hs2.
  destruct (Lerp.lerp_between a b (now - s1) (s2 - s1))
    as (t & Ht & Hbt); try lia.
  exists t. split; [exact Ht|]. split; [exact Hbt|]. split.
  - unfold Go.targetIndex, Go.timeRatio, Go.index.
    replace (Z.of_nat i <? 0) with false by (symmetry; apply Z.ltb_ge; lia).
    replace (Z.of_nat i + 1 <? 0) with false by (symmetry; apply Z.ltb_ge; lia).
    rewrite Nat2Z.id. replace (Z.to_nat (Z.of_nat i + 1)) with (S i) by lia.
    rewrite Ha, Hb. cbn [Go.bind]. unfold Int64.sub.
    rewrite (wrap_small (b - a)), (wrap_small (now - s1)),
      (wrap_small (s2 - s1)) by (unfold Int64.min_int, Int64.max_int; lia).
    change (F64.floor (F64.add (F64.of_int a)
              (F64.mul (F64.of_int (b - a))
                 (F64.div (F64.of_int (now - s1)) (F64.of_int (s2 - s1))))))
      with (F64.lerp a (b - a) (now - s1) (s2 - s1)).
    rewrite Ht. cbn [Go.int_of].
    replace ((Int64.min_int <=? t) && (t <=? Int64.max_int)) with true
      by (symmetry; apply andb_true_iff; unfold Int64.min_int, Int64.max_int;
          split; apply Z.leb_le; lia).
    f_equal. destruct (Z.leb_spec (Z.of_nat (length coords)) t); lia.
  - unfold TS.targetIndex, TS.timeRatio. rewrite Ha, Hb.
    change (F64.floor (F64.add (F64.of_int a)
              (F64.mul (F64.of_int (b - a))
                 (F64.div (F64.of_int (now - s1)) (F64.of_int (s2 - s1))))))
      with (F64.lerp a (b - a) (now - s1) (s2 - s1)).
    rewrite Ht. reflexivity.
Qed.

(** Without one of the two indices the server panics and the client
    computes NaN. *)
Lemma targetIndex_missing coords indices i now s1 s2 :
  indices !! i = None \/ indices !! S i = None ->
  Go.targetIndex coords indices i now s1 s2 = Go.Panics /\
  TS.targetIndex coords indices i now s1 s2 = F64.INaN.
Proof.
  intros H. split.
  - unfold Go.targetIndex, Go.index.
    replace (Z.of_nat i <? 0) with false by (symmetry; apply Z.ltb_ge; lia).
    replace (Z.of_nat i + 1 <? 0) with false by (symmetry; apply Z.ltb_ge; lia).
    rewrite Nat2Z.id. replace (Z.to_nat (Z.of_nat i + 1)) with (S i) by lia.
    destruct H as [-> | ->]; [reflexivity|].
    destruct (indices !! i); reflexivity.
  - unfold TS.targetIndex.
    destruct H as [-> | ->]; [reflexivity|].
    destruct (indices !! i); reflexivity.
Qed.

(** The server's interpolator on a pattern with a shape: nil for an empty
    array and outside every interval, otherwise the coordinate at the
    index of the first interval that holds the time. *)
Lemma calculateBusPosition_cases c trip now shape :
  shapesCache c !! patternKey (Stops trip) = Some shape ->
  Go.calculateBusPosition c trip now (patternKey (Stops trip)) =
  if decide (Coordinates shape = [] \/ StopIndices shape = [])
  then Go.Returns None
  else
    match Spec.activePair now (serverSeconds (Stops trip)) with
    | None => Go.Returns None
    | Some (i, (si, sj)) =>
        Go.bind (Go.targetIndex (Coordinates shape) (StopIndices shape)
                   i now si sj)
          (fun k => Go.bind (Go.index (Coordinates shape) k)
                      (fun p => Go.Returns (Some p)))
    end.
Proof.
  intros Hs. unfold Go.calculateBusPosition. rewrite Hs.
  destruct (decide (Coordinates shape = [] \/ StopIndices shape = []))
    as [[E|E]|Hfull].
  - rewrite E. reflexivity.
  - rewrite E. cbn [length Nat.eqb]. rewrite orb_true_r. reflexivity.
  - replace ((length (Coordinates shape) =? 0)%nat
             || (length (StopIndices shape) =? 0)%nat) with false
      by (destruct (Coordinates shape), (StopIndices shape);
          try tauto; reflexivity).
    rewrite indexLoop_segment. fold (serverSeconds (Stops trip)).
    rewrite activePair_segment.
    destruct (Spec.activePair now (serverSeconds (Stops trip)))
      as [[i [si sj]]|]; [|reflexivity].
    cbn [fmap option_fmap option_map Nat.add].
    destruct (Go.targetIndex _ _ _ _ _ _) as [k|]; reflexivity.
Qed.

(** The client's interpolator on a pattern whose shape has both arrays,
    for plain times: null outside every interval, otherwise what the
    coordinate array holds at the index of the first interval that holds
    the time. *)
Lemma calculateBusPos_cases trip now shapes shape coords indices :
  plainTimes (Stops trip) = true ->
  shapes !! patternKey (Stops trip) = Some shape ->
  coordinates shape = elements coords ->
  stop_indices shape = elements indices ->
  TS.calculateBusPos trip now shapes =
  match Spec.activePair now (serverSeconds (Stops trip)) with
  | None => TS.Null
  | Some (i, (si, sj)) =>
      TS.at_integral coords (TS.targetIndex coords indices i now si sj)
  end.
Proof.
  intros Ht Hs Ec Ei. unfold TS.calculateBusPos. rewrite Hs, Ec, Ei.
  rewrite posLoop_segment, plain_seconds, activeSegmentTS_some by exact Ht.
  rewrite activePair_segment.
  destruct (Spec.activePair now (serverSeconds (Stops trip)))
    as [[i [si sj]]|]; reflexivity.
Qed.

(** The client's interpolator returns null without both arrays. *)
Lemma calculateBusPos_guard trip now shapes :
  match shapes !! patternKey (Stops trip) with
  | None => True
  | Some shape => coordinates shape = null \/ stop_indices shape = null
  end ->
  TS.calculateBusPos trip now shapes = TS.Null.
Proof.
  unfold TS.calculateBusPos.
  destruct (shapes !! patternKey (Stops trip)) as [shape|]; [|reflexivity].
  intros [-> | ->]; [reflexivity|].
  destruct (coordinates shape); reflexivity.
Qed.

(** An array read at an index computed from no number, or in an empty
    array, is undefined. *)
Lemma at_integral_nil k : TS.at_integral [] k = TS.Undefined.
Proof.
  destruct k as [| |z]; try reflexivity. cbn.
  destruct (z <? 0); [reflexivity|]. rewrite lookup_nil. reflexivity.
Qed.

Lemma targetIndex_range stops shape now k :
  wfTimes stops = true -> wfShape stops shape = true ->
  Rounded.targetIndex (secondsOfStops stops) now shape = Some k ->
  k <= Z.of_nat (length (Coordinates shape)) - 1 /\
  (Coordinates shape <> [] -> 0 <= k).
Proof.
  intros Ht Hs Hk. pose proof (targetIndex_cases stops shape now Ht Hs) as Hc.
  destruct (Spec.activePair now (secondsOfStops stops)) as [[i [si sj]]|];
    [|congruence].
  destruct Hc as (a & b & t & _ & _ & Ha0 & _ & _ & _ & _ & _ & _ & Hbt & Hk').
  rewrite Hk in Hk'. injection Hk' as ->.
  split; [lia|]. intros Hne.
  assert (0 < Z.of_nat (length (Coordinates shape))).
  { destruct (Coordinates shape); [contradiction|cbn [length]; lia]. }
  lia.
Qed.

Lemma index_in_range {A} (l : list A) k :
  0 <= k <= Z.of_nat (length l) - 1 ->
  exists p, l !! Z.to_nat k = Some p /\ Go.index l k = Go.Returns p.
Proof.
  intros Hk.
  destruct (lookup_lt_is_Some_2 l (Z.to_nat k) ltac:(lia)) as [p Hp].
  exists p. split; [exact Hp|]. unfold Go.index.
  replace (k <? 0) with false by (symmetry; apply Z.ltb_ge; lia).
  rewrite Hp. reflexivity.
Qed.

(** On a well-formed trip both interpolators return what the design's
    [Interpolate] returns, and the server's does so without a panic. *)
Lemma calculateBusPosition_reference c trip now :
  wfTrip c trip ->
  Go.calculateBusPosition c trip now (patternKey (Stops trip)) =
    Go.Returns (Rounded.Interpolate (secondsOfStops (Stops trip)) now
                  (shapesCache c !! patternKey (Stops trip))) /\
  TS.position (TS.calculateBusPos trip now (shapesCache c)) =
    Rounded.Interpolate (secondsOfStops (Stops trip)) now
      (shapesCache c !! patternKey (Stops trip)).
Proof.
  intros [Ht Hs]. unfold Go.calculateBusPosition, TS.calculateBusPos, Rounded.Interpolate.
  destruct (shapesCache c !! patternKey (Stops trip)) as [shape|];
    [|split; reflexivity].
  specialize (Hs shape eq_refl). cbn [mbind option_bind].
  destruct (indexLoop_reference (Stops trip) shape now Ht Hs) as (Hgo & _ & Hts).
  rewrite Hgo.
  pose proof (targetIndex_range (Stops trip) shape now) as Hr.
  pose proof (targetIndex_cases (Stops trip) shape now Ht Hs) as Hc.
  assert (Hpos :
    TS.position
      match coordinates shape, stop_indices shape with
      | elements coords, elements indices =>
          TS.posLoop coords indices now 0 (Stops trip)
      | _, _ => TS.Null
      end =
    if decide (Coordinates shape = [] \/ StopIndices shape = []) then None
    else TS.position (TS.posLoop (Coordinates shape) (StopIndices shape) now 0
                        (Stops trip))).
  { revert Hts Hc. unfold Rounded.targetIndex, Coordinates, StopIndices.
    destruct (coordinates shape) as [|coords], (stop_indices shape) as [|indices];
      cbn [items]; intros Hts Hc;
      try (rewrite decide_True by auto; reflexivity).
    destruct (decide (coords = [] \/ indices = [])) as [[->| ->]|];
      [| |reflexivity]; rewrite Hts.
    - destruct (_ ≫= _) as [k|]; [|reflexivity].
      cbn. destruct (k <? 0); [reflexivity|]. rewrite lookup_nil. reflexivity.
    - destruct (Spec.activePair now (secondsOfStops (Stops trip)))
        as [[i [si sj]]|]; [|reflexivity].
      destruct Hc as (a & b & t & Ha & _). rewrite lookup_nil in Ha.
      discriminate. }
  rewrite Hpos, Hts. clear Hpos.
  destruct (decide (Coordinates shape = [] \/ StopIndices shape = []))
    as [[Hempty|Hempty]|Hfull].
  - rewrite Hempty. cbn [length Nat.eqb orb]. split; reflexivity.
  - rewrite Hempty. cbn [length Nat.eqb]. rewrite orb_true_r.
    split; reflexivity.
  - assert (Hc1 : Coordinates shape <> []) by tauto.
    assert (Hc2 : StopIndices shape <> []) by tauto.
    replace ((length (Coordinates shape) =? 0)%nat
             || (length (StopIndices shape) =? 0)%nat) with false
      by (destruct (Coordinates shape), (StopIndices shape);
          try contradiction; reflexivity).
    cbn [Go.bind].
    destruct (Rounded.targetIndex (secondsOfStops (Stops trip)) now shape)
      as [k|] eqn:Ek; [|split; reflexivity].
    destruct (Hr k Ht Hs eq_refl) as [Hk1 Hk0]. specialize (Hk0 Hc1).
    destruct (index_in_range (Coordinates shape) k ltac:(lia)) as (p & Hp & Hi).
    rewrite Hi. cbn. rewrite Hp.
    replace (k <? 0) with false by (symmetry; apply Z.ltb_ge; lia).
    split; reflexivity.
Qed.

Lemma activePair_none now secs :
  (forall i si sj,
     secs !! i = Some si -> secs !! S i = Some sj -> ~ si <= now < sj) ->
  Spec.activePair now secs = None.
Proof.
  intros H. destruct (Spec.activePair now secs) as [[i [si sj]]|] eqn:E;
    [|reflexivity].
  destruct (activePair_bounds _ _ _ _ _ E) as (L1 & L2 & Hnow).
  exfalso. exact (H i si sj L1 L2 Hnow).
Qed.

Lemma activePair_first now secs i si sj :
  secs !! i = Some si -> secs !! S i = Some sj -> si <= now < sj ->
  (forall j sa sb, (j < i)%nat ->
     secs !! j = Some sa -> secs !! S j = Some sb -> ~ sa <= now < sb) ->
  Spec.activePair now secs = Some (i, (si, sj)).
Proof.
  intros L1 L2 Hnow Hfirst. unfold Spec.activePair, Spec.pairs.
  apply list_find_Some. split; [|split; [exact Hnow|]].
  - apply lookup_zip_with_Some. exists si, sj.
    split; [reflexivity|]. split; [exact L1|].
    rewrite lookup_tail. exact L2.
  - intros j [sa sb] Hj Hlt.
    apply lookup_zip_with_Some in Hj as (x & y & [= <- <-] & Hx & Hy).
    rewrite lookup_tail in Hy. exact (Hfirst j sa sb Hlt Hx Hy).
Qed.

Lemma activePair_outside now secs first lst :
  nondecreasing secs = true ->
  head secs = Some first -> last secs = Some lst ->
  now < first \/ lst <= now ->
  Spec.activePair now secs = None.
Proof.
  intros Hmono Hfirst Hlast Hout. apply activePair_none.
  intros i si sj L1 L2 Hnow.
  rewrite head_lookup in Hfirst. rewrite last_lookup in Hlast.
  assert (first <= si).
  { apply (nondecreasing_lookup _ Hmono 0%nat i); [lia|exact Hfirst|exact L1]. }
  assert (sj <= lst).
  { apply lookup_lt_Some in L2 as Hlen.
    apply (nondecreasing_lookup _ Hmono (S i) (pred (length secs)));
      [lia|exact L2|exact Hlast]. }
  lia.
Qed.

Lemma interpolate_no_pair secs now shape :
  Spec.activePair now secs = None -> Rounded.Interpolate secs now shape = None.
Proof.
  intros E. unfold Rounded.Interpolate, Rounded.targetIndex. rewrite E.
  destruct shape as [s|]; [|reflexivity]. cbn.
  destruct (decide _); reflexivity.
Qed.


Lemma wfTrip_sample : wfTrip Sample.snapshot Sample.trip.
Proof.
  split; [vm_compute; reflexivity|].
  intros shape H. vm_compute in H. injection H as <-.
  vm_compute. reflexivity.
Qed.



(** ** Monotonicity of the index *)

Lemma wfShape_nondecreasing stops shape :
  wfShape stops shape = true -> nondecreasing (StopIndices shape) = true.
Proof.
  unfold wfShape. intros H.
  apply andb_true_iff in H as [H _]. apply andb_true_iff in H as [_ H].
  exact H.
Qed.

Lemma activeSegment_in_window now secs : forall i first lst,
  head secs = Some first -> last secs = Some lst -> first <= now < lst ->
  is_Some (activeSegment now i secs).
Proof.
  induction secs as [|s1 rest IH]; intros i first lst Hfirst Hlast Hnow;
    [discriminate|].
  cbn in Hfirst. injection Hfirst as ->.
  destruct rest as [|s2 rest].
  - cbn in Hlast. injection Hlast as ->. lia.
  - rewrite activeSegment_cons.
    destruct ((first <=? now) && (now <? s2)) eqn:E; [eexists; reflexivity|].
    apply (IH (S i) s2 lst); [reflexivity|exact Hlast|].
    apply andb_false_iff in E as [E|E].
    + apply Z.leb_gt in E. lia.
    + apply Z.ltb_ge in E. lia.
Qed.

Lemma activePair_in_window now secs first lst :
  head secs = Some first -> last secs = Some lst -> first <= now < lst ->
  is_Some (Spec.activePair now secs).
Proof.
  intros Hfirst Hlast Hnow.
  destruct (activeSegment_in_window now secs 0 first lst Hfirst Hlast Hnow)
    as [x Hx].
  rewrite activePair_segment in Hx.
  destruct (Spec.activePair now secs); [eexists; reflexivity|discriminate].
Qed.

(** Between the first and the last stop time of a well-formed trip the
    design's target index exists. *)
Lemma targetIndex_in_window stops shape now first lst :
  wfTimes stops = true -> wfShape stops shape = true ->
  head (secondsOfStops stops) = Some first ->
  last (secondsOfStops stops) = Some lst ->
  first <= now < lst ->
  is_Some (Rounded.targetIndex (secondsOfStops stops) now shape).
Proof.
  intros Ht Hs Hfirst Hlast Hnow.
  pose proof (targetIndex_cases stops shape now Ht Hs) as Hc.
  destruct (activePair_in_window now _ first lst Hfirst Hlast Hnow)
    as [[i [si sj]] E].
  rewrite E in Hc. destruct Hc as (a & b & t & Hc).
  eexists. apply Hc.
Qed.

(** The target index never decreases as time passes: within a segment
    because the rounded linear map is monotone, across segments because
    it stays between the indices of the segment's two stops. *)
Lemma targetIndex_mono stops shape now now' k k' :
  wfTimes stops = true -> wfShape stops shape = true ->
  nondecreasing (secondsOfStops stops) = true ->
  now <= now' ->
  Rounded.targetIndex (secondsOfStops stops) now shape = Some k ->
  Rounded.targetIndex (secondsOfStops stops) now' shape = Some k' ->
  k <= k'.
Proof.
  intros Ht Hs Hmono Hle Hk Hk'.
  pose proof (wfShape_nondecreasing stops shape Hs) as Hidx.
  pose proof (targetIndex_cases stops shape now Ht Hs) as Hc.
  pose proof (targetIndex_cases stops shape now' Ht Hs) as Hc'.
  destruct (Spec.activePair now (secondsOfStops stops))
    as [[i [si sj]]|] eqn:E; [|congruence].
  destruct (Spec.activePair now' (secondsOfStops stops))
    as [[i' [si' sj']]|] eqn:E'; [|congruence].
  destruct Hc as (a & b & t & Ha & Hb & Ha0 & Hab & Hb1 & Hsi & Hnow & Hsj
                  & Hl & Hbt & Hk1).
  destruct Hc' as (a' & b' & t' & Ha' & Hb' & Ha0' & Hab' & Hb1' & Hsi' & Hnow'
                   & Hsj' & Hl' & Hbt' & Hk1').
  rewrite Hk in Hk1. injection Hk1 as ->.
  rewrite Hk' in Hk1'. injection Hk1' as ->.
  destruct (activePair_bounds _ _ _ _ _ E) as (L1 & L2 & _).
  destruct (activePair_bounds _ _ _ _ _ E') as (L1' & L2' & _).
  assert (Htt : t <= t'); [|lia].
  destruct (Nat.lt_trichotomy i i') as [Hlt|[Heq|Hgt]].
  - assert (b <= a'); [|lia].
    apply (nondecreasing_lookup _ Hidx (S i) i'); [lia|exact Hb|exact Ha'].
  - subst i'.
    assert (si' = si) by congruence. assert (sj' = sj) by congruence.
    assert (a' = a) by congruence. assert (b' = b) by congruence.
    subst si' sj' a' b'.
    destruct (RoundingFacts.lerp_mono a (b - a) (now - si) (now' - si) (sj - si))
      as (z & z' & Hz & Hz' & Hzz); try lia.
    congruence.
  - exfalso.
    assert (sj' <= si); [|lia].
    apply (nondecreasing_lookup _ Hmono (S i') i); [lia|exact L2'|exact L1].
Qed.

(** The two arrays of a shape as the client sees them: both present, or
    one of them missing. *)
Lemma arrays_view shape :
  (coordinates shape = elements (Coordinates shape) /\
   stop_indices shape = elements (StopIndices shape)) \/
  (coordinates shape = null /\ Coordinates shape = []) \/
  (stop_indices shape = null /\ StopIndices shape = []).
Proof.
  unfold Coordinates, StopIndices.
  destruct (coordinates shape), (stop_indices shape); cbn [items]; auto.
Qed.

(** The index the server reads is the design's target index. *)
Lemma backingIndex_reference c trip shape now :
  wfTimes (Stops trip) = true ->
  shapesCache c !! patternKey (Stops trip) = Some shape ->
  wfShape (Stops trip) shape = true -> Coordinates shape <> [] ->
  Go.backingIndex c trip now (patternKey (Stops trip)) =
    Go.Returns (Rounded.targetIndex (secondsOfStops (Stops trip)) now shape) /\
  TS.backingIndex trip now (shapesCache c) =
    F64.IFin <$> Rounded.targetIndex (secondsOfStops (Stops trip)) now shape.
Proof.
  intros Ht Hshape Hs Hne. unfold Go.backingIndex, TS.backingIndex.
  rewrite Hshape. cbn [mbind option_bind].
  destruct (indexLoop_reference (Stops trip) shape now Ht Hs) as (Hgo & Hts & _).
  assert (Hnone : StopIndices shape = [] ->
                  Rounded.targetIndex (secondsOfStops (Stops trip)) now shape
                  = None).
  { intros Ei.
    pose proof (targetIndex_cases (Stops trip) shape now Ht Hs) as Hc.
    destruct (Spec.activePair now (secondsOfStops (Stops trip)))
      as [[i [si sj]]|]; [|exact Hc].
    destruct Hc as (a & b & t & Ha & _). rewrite Ei in Ha.
    rewrite lookup_nil in Ha. discriminate. }
  split.
  - destruct (StopIndices shape) as [|x l] eqn:Ei.
    + destruct (Coordinates shape); [contradiction|]. cbn.
      rewrite Hnone by reflexivity. reflexivity.
    + destruct (Coordinates shape) eqn:Ec; [contradiction|].
      cbn [length Nat.eqb orb]. rewrite <- Ec, <- Ei in *. exact Hgo.
  - destruct (arrays_view shape) as [[Ec Ei]|[[Ec Ee]|[Ei Ee]]].
    + rewrite Ec, Ei. exact Hts.
    + contradiction.
    + rewrite Ei, (Hnone Ee). destruct (coordinates shape); reflexivity.
Qed.



(** ** The vehicle locator *)

Lemma collect_ext {A B} (f g : A -> Go.outcome (option B)) l :
  (forall x, f x = g x) -> Go.collect f l = Go.collect g l.
Proof.
  intros H. induction l as [|x l IH]; [reflexivity|].
  cbn [Go.collect]. rewrite H, IH. reflexivity.
Qed.

Lemma collect_returns {A B} (f : A -> Go.outcome (option B)) l :
  (forall x, x ∈ l -> exists r, f x = Go.Returns r) ->
  Go.collect f l = Go.Returns (omap (fun x => returned (f x)) l).
Proof.
  induction l as [|x l IH]; intros H; [reflexivity|].
  cbn [Go.collect]. rewrite IH by (intros y Hy; apply H; right; exact Hy).
  destruct (H x ltac:(left)) as [r Hr].
  assert (E0 : omap (fun x => returned (f x)) (x :: l) =
               match returned (f x) with
               | Some b => b :: omap (fun x => returned (f x)) l
               | None => omap (fun x => returned (f x)) l
               end) by reflexivity.
  rewrite E0, Hr. cbn. destruct r; reflexivity.
Qed.

(** The two locators are one loop, with or without the test on the
    bounds. *)
Lemma getActiveVehicles_collect c clk bounds :
  Go.getActiveVehicles c clk bounds =
  Go.collect
    (fun x : string * string * TripInfo =>
       Go.bind (Go.activePosition c clk (snd x)) (fun pos =>
       Go.Returns
         (match pos with
          | Some p =>
              if match bounds with
                 | Some b => Go.inBounds b p
                 | None => true
                 end
              then Some (Go.mkBusPosition c (fst (fst x)) (snd (fst x)) (snd x) p)
              else None
          | None => None
          end)))
    (allTrips (timetablesCache c)).
Proof.
  destruct bounds as [b|]; cbn [Go.getActiveVehicles];
    unfold Go.calculateBusPositionsInBounds, Go.calculateAllBusPositions;
    apply collect_ext; intros [[rid tid] trip]; cbn [fst snd];
    destruct (Go.activePosition c clk trip) as [[p|]|]; reflexivity.
Qed.

Lemma window_ends stops d :
  wfTimes stops = true -> (2 <= length stops)%nat ->
  head (secondsOfStops stops) = Some (Go.timeToSec (Time (nth 0 stops d))) /\
  last (secondsOfStops stops) =
    Some (Go.timeToSec (Time (nth (length stops - 1) stops d))).
Proof.
  intros Ht Hlen.
  assert (Hsec : forall i st, stops !! i = Some st ->
            secondsOfStops stops !! i = Some (Go.timeToSec (Time st))).
  { intros i st Hi. unfold secondsOfStops. rewrite list_lookup_fmap, Hi. cbn.
    f_equal. symmetry. apply timeToSec_wfTime.
    apply (wfTimes_elem stops); [exact Ht|].
    apply list_elem_of_lookup. eauto. }
  destruct (lookup_lt_is_Some_2 stops 0 ltac:(lia)) as [st0 H0].
  destruct (lookup_lt_is_Some_2 stops (length stops - 1) ltac:(lia)) as [stn Hn].
  rewrite head_lookup, last_lookup.
  rewrite !nth_lookup, H0, Hn. cbn [default from_option id].
  split; [apply Hsec; exact H0|].
  replace (pred (length (secondsOfStops stops))) with (length stops - 1)%nat
    by (unfold secondsOfStops; rewrite length_map; lia).
  apply Hsec. exact Hn.
Qed.

(** What a well-formed trip contributes. *)
Lemma activePosition_cases c clk trip :
  wfTrip c trip ->
  exists r,
    Go.activePosition c clk trip = Go.Returns r /\
    forall pos,
      r = Some pos <->
      Go.isServiceRunningToday c clk (ServiceID trip) = true /\
      (2 <= length (Stops trip))%nat /\
      (exists first lst,
         head (secondsOfStops (Stops trip)) = Some first /\
         last (secondsOfStops (Stops trip)) = Some lst /\
         first <= Go.nowSec clk <= lst) /\
      Go.calculateBusPosition c trip (Go.nowSec clk) (patternKey (Stops trip))
        = Go.Returns (Some pos).
Proof.
  intros Hwf. pose proof Hwf as [Ht _]. unfold Go.activePosition.
  destruct (Go.isServiceRunningToday c clk (ServiceID trip)); cbn [negb].
  2:{ exists None. split; [reflexivity|]. intros pos.
      split; [discriminate|]. intros [? _]. discriminate. }
  destruct (Nat.ltb_spec (length (Stops trip)) 2) as [Hshort|Hlen].
  { exists None. split; [reflexivity|]. intros pos.
    split; [discriminate|]. intros (_ & ? & _). lia. }
  destruct (window_ends (Stops trip) (Build_TripStop "" "") Ht Hlen)
    as [Hhead Hlast].
  set (startSec := Go.timeToSec (Time (nth 0 (Stops trip) (Build_TripStop "" "")))) in *.
  set (endSec := Go.timeToSec (Time (nth (length (Stops trip) - 1) (Stops trip)
                                       (Build_TripStop "" "")))) in *.
  cbv zeta.
  destruct ((startSec <=? Go.nowSec clk) && (Go.nowSec clk <=? endSec)) eqn:Ew.
  - apply andb_true_iff in Ew as [E1 E2]. apply Z.leb_le in E1, E2.
    destruct (calculateBusPosition_reference c trip (Go.nowSec clk) Hwf)
      as [Hgo _].
    eexists. split; [exact Hgo|]. intros pos. rewrite Hgo. split.
    + intros ->. split; [reflexivity|]. split; [exact Hlen|].
      split; [|reflexivity]. exists startSec, endSec. auto.
    + intros (_ & _ & _ & [= <-]). reflexivity.
  - exists None. split; [reflexivity|]. intros pos.
    split; [discriminate|]. intros (_ & _ & (first & lst & Hf & Hl & Hnow) & _).
    rewrite Hhead in Hf. rewrite Hlast in Hl.
    injection Hf as <-. injection Hl as <-.
    apply andb_false_iff in Ew as [E|E];
      [apply Z.leb_gt in E|apply Z.leb_gt in E]; lia.
Qed.

(** The loop panics when one of its calls does, and otherwise gathers
    what the calls return. *)
Lemma collect_cases {A B} (f : A -> Go.outcome (option B)) l :
  ((exists x, x ∈ l /\ f x = Go.Panics) /\ Go.collect f l = Go.Panics) \/
  ((forall x, x ∈ l -> exists r, f x = Go.Returns r) /\
   Go.collect f l = Go.Returns (omap (fun x => returned (f x)) l)).
Proof.
  induction l as [|x l IH].
  - right. split; [|reflexivity]. intros x Hx. inversion Hx.
  - cbn [Go.collect]. destruct (f x) as [r|] eqn:Ex.
    + destruct IH as [[(y & Hy & Ey) E]|[Hall E]].
      * left. split; [exists y; split; [right; exact Hy|exact Ey]|].
        rewrite E. reflexivity.
      * right. split.
        -- intros y Hy. apply elem_of_cons in Hy as [->|Hy]; [eauto|auto].
        -- rewrite E. cbn [Go.bind].
           assert (E0 : omap (fun x => returned (f x)) (x :: l) =
                        match returned (f x) with
                        | Some b => b :: omap (fun x => returned (f x)) l
                        | None => omap (fun x => returned (f x)) l
                        end) by reflexivity.
           rewrite E0, Ex. cbn. destruct r; reflexivity.
    + left. split; [exists x; split; [left|exact Ex]|reflexivity].
Qed.

(** The three filters of the locators: the trip runs today, has two
    stops or more, and the time of the clock is within its first and
    last stop times as the server reads them. A trip that passes is
    interpolated; any other contributes nothing. *)
Lemma activePosition_filters c clk trip :
  let passes :=
    Go.isServiceRunningToday c clk (ServiceID trip) = true /\
    (2 <= length (Stops trip))%nat /\
    exists first lst,
      head (Stops trip) = Some first /\ last (Stops trip) = Some lst /\
      Go.timeToSec (Time first) <= Go.nowSec clk <= Go.timeToSec (Time lst) in
  (passes /\
   Go.activePosition c clk trip =
     Go.calculateBusPosition c trip (Go.nowSec clk) (patternKey (Stops trip))) \/
  (~ passes /\ Go.activePosition c clk trip = Go.Returns None).
Proof.
  intros passes. subst passes. unfold Go.activePosition.
  destruct (Go.isServiceRunningToday c clk (ServiceID trip)); cbn [negb].
  2:{ right. split; [|reflexivity]. intros [? _]. discriminate. }
  destruct (Nat.ltb_spec (length (Stops trip)) 2) as [Hshort|Hlen].
  { right. split; [|reflexivity]. intros (_ & ? & _). lia. }
  destruct (lookup_lt_is_Some_2 (Stops trip) 0 ltac:(lia)) as [st0 H0].
  destruct (lookup_lt_is_Some_2 (Stops trip) (length (Stops trip) - 1)
              ltac:(lia)) as [stn Hn].
  rewrite !nth_lookup, H0, Hn. cbn [default from_option id]. cbv zeta.
  assert (Hhead : head (Stops trip) = Some st0)
    by (rewrite head_lookup; exact H0).
  assert (Hlast : last (Stops trip) = Some stn).
  { rewrite last_lookup.
    replace (pred (length (Stops trip))) with (length (Stops trip) - 1)%nat
      by lia.
    exact Hn. }
  destruct ((Go.timeToSec (Time st0) <=? Go.nowSec clk)
            && (Go.nowSec clk <=? Go.timeToSec (Time stn))) eqn:Ew.
  - left. apply andb_true_iff in Ew as [E1 E2]. apply Z.leb_le in E1, E2.
    split; [|reflexivity]. split; [reflexivity|]. split; [exact Hlen|].
    exists st0, stn. auto.
  - right. split; [|reflexivity].
    intros (_ & _ & first & lst & Hf & Hl & Hnow).
    rewrite Hhead in Hf. rewrite Hlast in Hl.
    injection Hf as <-. injection Hl as <-.
    apply andb_false_iff in Ew as [E|E]; apply Z.leb_gt in E; lia.
Qed.

(** A trip of plain times whose shape, when both arrays are filled, has
    an index for every stop, each a position of an array, is
    interpolated without a panic. *)
Lemma calculateBusPosition_returns c trip now :
  coveredTrip c trip ->
  exists r,
    Go.calculateBusPosition c trip now (patternKey (Stops trip))
    = Go.Returns r.
Proof.
  intros [Ht Hcov].
  destruct (shapesCache c !! patternKey (Stops trip)) as [shape|] eqn:Hs.
  2:{ unfold Go.calculateBusPosition. rewrite Hs. eauto. }
  rewrite (calculateBusPosition_cases c trip now shape Hs).
  destruct (decide _) as [|Hfull]; [eauto|].
  destruct (Hcov shape eq_refl) as [Hlen Hall]; [tauto|tauto|].
  destruct (Spec.activePair now (serverSeconds (Stops trip)))
    as [[i [si sj]]|] eqn:E; [|eauto].
  destruct (activePair_bounds _ _ _ _ _ E) as (L1 & L2 & Hnow).
  pose proof (plain_seconds_range _ _ _ Ht L1) as R1.
  pose proof (plain_seconds_range _ _ _ Ht L2) as R2.
  assert (Hi : (S i < length (StopIndices shape))%nat).
  { apply lookup_lt_Some in L2. unfold serverSeconds in L2.
    rewrite length_map in L2. lia. }
  destruct (lookup_lt_is_Some_2 (StopIndices shape) i ltac:(lia)) as [a Ha].
  destruct (lookup_lt_is_Some_2 (StopIndices shape) (S i) Hi) as [b Hb].
  rewrite Forall_forall in Hall.
  pose proof (Hall a ltac:(apply list_elem_of_lookup; eauto)) as Hra.
  pose proof (Hall b ltac:(apply list_elem_of_lookup; eauto)) as Hrb.
  assert (H52 : 2 ^ 52 < 2 ^ 53) by (apply Z.pow_lt_mono_r; lia).
  destruct (targetIndex_between (Coordinates shape) (StopIndices shape)
              i now si sj a b Ha Hb Hra Hrb)
    as (t & _ & Hbt & G & _); try lia.
  assert (Hlen0 : 0 < Z.of_nat (length (Coordinates shape))).
  { destruct (Coordinates shape); [tauto|cbn [length]; lia]. }
  destruct (index_in_range (Coordinates shape)
              (Z.min t (Z.of_nat (length (Coordinates shape)) - 1))
              ltac:(lia)) as (p & _ & Hidx).
  rewrite G. cbn [Go.bind]. rewrite Hidx. eauto.
Qed.

Lemma wfTrip_covered c trip : wfTrip c trip -> coveredTrip c trip.
Proof.
  intros [Ht Hs]. split; [apply wfTimes_plain; exact Ht|].
  intros shape Hshape _ _. specialize (Hs shape Hshape).
  unfold wfShape in Hs.
  apply andb_true_iff in Hs as [Hs Hall]. apply andb_true_iff in Hs as [Hlen _].
  apply Nat.eqb_eq in Hlen. split; [lia|].
  rewrite forallb_forall in Hall. apply Forall_forall. intros i Hi.
  apply list_elem_of_In in Hi. apply Hall in Hi.
  apply andb_true_iff in Hi as [H0 H1].
  apply Z.leb_le in H0. apply Z.ltb_lt in H1. lia.
Qed.


Lemma wfSnapshot_sample : wfSnapshot Sample.snapshot.
Proof.
  intros rid trips tid trip Hr Ht. cbn in Hr.
  apply lookup_singleton_Some in Hr as [<- <-].
  apply lookup_singleton_Some in Ht as [<- <-].
  exact wfTrip_sample.
Qed.


(** ** The two copies *)

(** The two resolvers differ at most in the fallback for a date outside
    the entry: with an exception for the date, without an entry, and for
    a date within the entry they answer alike whatever the dates of the
    entry are. *)
Lemma resolvers_agree_early c clk serviceID :
  (exists e, List.find (exceptionFor (today clk) serviceID)
               (CalendarDates (extraCache c)) = Some e) \/
  calendarCache c !! serviceID = None \/
  (exists cal, calendarCache c !! serviceID = Some cal /\
     Str.leb (Start cal) (today clk) && Str.leb (today clk) (End_ cal) = true) ->
  TS.isServiceRunningToday serviceID (calendarCache c) (extraCache c) clk =
  Go.isServiceRunningToday c clk serviceID.
Proof.
  unfold Go.isServiceRunningToday, TS.isServiceRunningToday.
  rewrite exceptionLoop_find.
  destruct (List.find _ _) as [e|]; [reflexivity|].
  cbn [fmap option_fmap option_map].
  intros [[e He]|[Hnone|(cal & Hcal & Hin)]]; [discriminate| |].
  - rewrite Hnone. reflexivity.
  - rewrite Hcal, Hin. unfold TS.dayIs1.
    destruct (dayFlag cal (gtfsDayIdx clk)) as [flag|]; [reflexivity|].
    cbn [default from_option id].
    destruct (Go.atLeast20Days _); reflexivity.
Qed.

(** In the fallback they answer alike when the dates of the entry are
    days of the calendar and 20 days or more between the two dates are
    20 days or more between their local midnights. *)
Lemma resolvers_agree_late c clk serviceID cal :
  calendarCache c !! serviceID = Some cal ->
  Civil.wfDate (Start cal) = true -> Civil.wfDate (End_ cal) = true ->
  wfZone (zone clk) ->
  (20 <= dayOf (End_ cal) - dayOf (Start cal) <->
   20 * Civil.msPerDay <=
     TS.getTime (zone clk) (dayOf (End_ cal))
     - TS.getTime (zone clk) (dayOf (Start cal))) ->
  TS.isServiceRunningToday serviceID (calendarCache c) (extraCache c) clk =
  Go.isServiceRunningToday c clk serviceID.
Proof.
  intros Hcal Hs He Hz Hiff.
  unfold Go.isServiceRunningToday, TS.isServiceRunningToday.
  rewrite exceptionLoop_find.
  destruct (List.find _ _) as [e|]; [reflexivity|].
  cbn [fmap option_fmap option_map]. rewrite Hcal.
  destruct (parse_wfDate _ Hs) as [Gs _].
  destruct (parse_wfDate _ He) as [Ge _].
  unfold Go.parsedOrZero. rewrite Gs, Ge. cbn [default from_option id].
  rewrite atLeast20Days_span.
  destruct (durationDays_wfDate (zone clk) cal Hs He Hz) as (d & Hd & Hleb).
  rewrite Hd, Hleb. unfold TS.dayIs1.
  replace (20 * Civil.msPerDay <=?
             TS.getTime (zone clk) (dayOf (End_ cal))
             - TS.getTime (zone clk) (dayOf (Start cal)))
    with (20 <=? dayOf (End_ cal) - dayOf (Start cal)).
  2:{ destruct (Z.leb_spec 20 (dayOf (End_ cal) - dayOf (Start cal))) as [H|H];
        symmetry; [apply Z.leb_le; apply Hiff; exact H|].
      apply Z.leb_gt. destruct (Z_lt_le_dec
        (TS.getTime (zone clk) (dayOf (End_ cal))
         - TS.getTime (zone clk) (dayOf (Start cal))) (20 * Civil.msPerDay))
        as [Hlt|Hge]; [exact Hlt|].
      apply Hiff in Hge. lia. }
  destruct (Str.leb (Start cal) (today clk) && Str.leb (today clk) (End_ cal));
    [|reflexivity].
  destruct (dayFlag cal (gtfsDayIdx clk)) as [flag|]; [reflexivity|].
  cbn [default from_option id]. destruct (20 <=? _); reflexivity.
Qed.

(** What the two interpolators give on one input, for plain times and
    indices that are positions of an array: nil and null; nil and
    undefined; a panic and undefined; or the same coordinate. *)
Lemma interpolators_cases c trip now :
  plainTimes (Stops trip) = true ->
  (forall shape,
     shapesCache c !! patternKey (Stops trip) = Some shape ->
     Forall (fun i => 0 <= i < 2 ^ 53) (StopIndices shape)) ->
  let go := Go.calculateBusPosition c trip now (patternKey (Stops trip)) in
  let ts := TS.calculateBusPos trip now (shapesCache c) in
  (go = Go.Returns None /\ ts = TS.Null) \/
  (go = Go.Returns None /\ ts = TS.Undefined /\
   exists shape,
     shapesCache c !! patternKey (Stops trip) = Some shape /\
     (coordinates shape = elements [] \/ stop_indices shape = elements [])) \/
  (go = Go.Panics /\ ts = TS.Undefined /\
   exists shape,
     shapesCache c !! patternKey (Stops trip) = Some shape /\
     (length (StopIndices shape) < length (Stops trip))%nat) \/
  (exists p, go = Go.Returns (Some p) /\ ts = TS.Coord p).
Proof.
  intros Ht Hrange go ts.
  destruct (shapesCache c !! patternKey (Stops trip)) as [shape|] eqn:Hs.
  2:{ left. split.
      - unfold go, Go.calculateBusPosition. rewrite Hs. reflexivity.
      - apply calculateBusPos_guard. rewrite Hs. exact I. }
  specialize (Hrange shape eq_refl).
  pose proof (calculateBusPosition_cases c trip now shape Hs) as Hgo.
  fold go in Hgo.
  destruct (arrays_view shape) as [[Ec Ei]|Hnull].
  2:{ left. split.
      - rewrite Hgo, decide_True by tauto. reflexivity.
      - apply calculateBusPos_guard. rewrite Hs. tauto. }
  pose proof (calculateBusPos_cases trip now _ shape _ _ Ht Hs Ec Ei) as Hts.
  fold ts in Hts.
  destruct (Spec.activePair now (serverSeconds (Stops trip)))
    as [[i [si sj]]|] eqn:E.
  2:{ left. split; [|exact Hts]. rewrite Hgo. destruct (decide _); reflexivity. }
  destruct (decide (Coordinates shape = [] \/ StopIndices shape = []))
    as [Hempty|Hfull].
  { right. left. split; [exact Hgo|]. split.
    - rewrite Hts. destruct Hempty as [-> | ->]; [apply at_integral_nil|].
      destruct (targetIndex_missing (Coordinates shape) [] i now si sj)
        as [_ ->]; [left; apply lookup_nil|reflexivity].
    - exists shape. split; [reflexivity|].
      destruct Hempty as [H|H]; [left; rewrite Ec, H|right; rewrite Ei, H];
        reflexivity. }
  destruct (activePair_bounds _ _ _ _ _ E) as (L1 & L2 & Hnow).
  pose proof (plain_seconds_range _ _ _ Ht L1) as R1.
  pose proof (plain_seconds_range _ _ _ Ht L2) as R2.
  destruct (StopIndices shape !! i) as [a|] eqn:Ha;
    [destruct (StopIndices shape !! S i) as [b|] eqn:Hb|].
  - right. right. right.
    rewrite Forall_forall in Hrange.
    pose proof (Hrange a ltac:(apply list_elem_of_lookup; eauto)) as Hra.
    pose proof (Hrange b ltac:(apply list_elem_of_lookup; eauto)) as Hrb.
    assert (H52 : 2 ^ 52 < 2 ^ 53) by (apply Z.pow_lt_mono_r; lia).
    destruct (targetIndex_between (Coordinates shape) (StopIndices shape)
                i now si sj a b Ha Hb Hra Hrb)
      as (t & _ & Hbt & G & T); try lia.
    assert (Hlen0 : 0 < Z.of_nat (length (Coordinates shape))).
    { destruct (Coordinates shape); [tauto|cbn [length]; lia]. }
    destruct (index_in_range (Coordinates shape)
                (Z.min t (Z.of_nat (length (Coordinates shape)) - 1))
                ltac:(lia)) as (p & Hp & Hidx).
    exists p. split.
    + rewrite Hgo, G. cbn [Go.bind]. rewrite Hidx. reflexivity.
    + rewrite Hts, T. cbn [TS.at_integral].
      replace (Z.min t (Z.of_nat (length (Coordinates shape)) - 1) <? 0)
        with false by (symmetry; apply Z.ltb_ge; lia).
      rewrite Hp. reflexivity.
  - right. right. left.
    destruct (targetIndex_missing (Coordinates shape) (StopIndices shape)
                i now si sj ltac:(right; exact Hb)) as [G T].
    rewrite Hgo, Hts, G, T. split; [reflexivity|]. split; [reflexivity|].
    exists shape. split; [reflexivity|].
    apply lookup_ge_None in Hb. apply lookup_lt_Some in L2.
    unfold serverSeconds in L2. rewrite length_map in L2. lia.
  - right. right. left.
    destruct (targetIndex_missing (Coordinates shape) (StopIndices shape)
                i now si sj ltac:(left; exact Ha)) as [G T].
    rewrite Hgo, Hts, G, T. split; [reflexivity|]. split; [reflexivity|].
    exists shape. split; [reflexivity|].
    apply lookup_ge_None in Ha. apply lookup_lt_Some in L2.
    unfold serverSeconds in L2. rewrite length_map in L2. lia.
Qed.




(* ===================================================================== *)
(** * Further properties of the server *)

(** ** Stops within bounds *)

Lemma fold_insert_filter {V} (P : V -> bool) (l : list (string * V)) :
  (forall k v v', (k, v) ∈ l -> (k, v') ∈ l -> v = v') ->
  forall k v,
    foldl (fun result '(k, v) => if P v then <[k := v]> result else result)
      (∅ : gmap string V) l !! k = Some v <->
    (k, v) ∈ l /\ P v = true.
Proof.
  induction l as [|[k0 v0] l IH] using rev_ind; intros Hfun k v.
  - cbn. rewrite lookup_empty. split; [discriminate|]. intros [H _]. inversion H.
  - rewrite foldl_app. cbn [foldl].
    assert (Hfun' : forall k v v', (k, v) ∈ l -> (k, v') ∈ l -> v = v').
    { intros ? ? ? H1 H2. eapply Hfun; apply elem_of_app; left; eassumption. }
    specialize (IH Hfun' k v).
    assert (Hlast : (k0, v0) ∈ l ++ [(k0, v0)]).
    { apply elem_of_app. right. apply list_elem_of_singleton. reflexivity. }
    rewrite elem_of_app, list_elem_of_singleton.
    destruct (P v0) eqn:HP.
    + destruct (decide (k0 = k)) as [->|Hne].
      * rewrite lookup_insert_eq. split.
        -- intros [= ->]. split; [right; reflexivity|exact HP].
        -- intros [Hin _]. f_equal. apply (Hfun k v0 v); [exact Hlast|].
           apply elem_of_app. rewrite list_elem_of_singleton. exact Hin.
      * rewrite lookup_insert_ne by exact Hne. rewrite IH. split.
        -- intros [Hin Hv]. split; [left; exact Hin|exact Hv].
        -- intros [[Hin|[= -> ->]] Hv]; [split; assumption|contradiction].
    + rewrite IH. split.
      * intros [Hin Hv]. split; [left; exact Hin|exact Hv].
      * intros [[Hin|[= -> ->]] Hv]; [split; assumption|congruence].
Qed.

Lemma filterStopsByBounds_lookup c b id stop :
  Go.filterStopsByBounds c b !! id = Some stop <->
  stopsCache c !! id = Some stop /\ Go.stopInBounds b stop = true.
Proof.
  unfold Go.filterStopsByBounds. rewrite fold_insert_filter.
  - rewrite elem_of_map_to_list. reflexivity.
  - intros k v v' H1 H2. apply elem_of_map_to_list in H1, H2. congruence.
Qed.

Lemma leb_nan_l x : F64.leb S754_nan x = false.
Proof. reflexivity. Qed.

Lemma leb_nan_r x : F64.leb x S754_nan = false.
Proof. destruct x; reflexivity. Qed.

Lemma filterStopsByBounds_inside c b id stop :
  Go.filterStopsByBounds c b !! id = Some stop <->
  stopsCache c !! id = Some stop /\
  F64.leb (Go.minLat b) (Lat stop) = true /\
  F64.leb (Lat stop) (Go.maxLat b) = true /\
  F64.leb (Go.minLng b) (Lng stop) = true /\
  F64.leb (Lng stop) (Go.maxLng b) = true.
Proof.
  rewrite filterStopsByBounds_lookup. unfold Go.stopInBounds.
  rewrite !andb_true_iff. tauto.
Qed.

Lemma filterStopsByBounds_nan c b :
  Go.minLat b = S754_nan \/ Go.maxLat b = S754_nan \/
  Go.minLng b = S754_nan \/ Go.maxLng b = S754_nan ->
  Go.filterStopsByBounds c b = ∅.
Proof.
  intros Hnan. apply map_eq. intros id. rewrite lookup_empty.
  destruct (Go.filterStopsByBounds c b !! id) as [stop|] eqn:E; [|reflexivity].
  apply filterStopsByBounds_inside in E as (_ & H1 & H2 & H3 & H4).
  destruct Hnan as [E|[E|[E|E]]]; rewrite E in *.
  - rewrite leb_nan_l in H1. discriminate.
  - rewrite leb_nan_r in H2. discriminate.
  - rewrite leb_nan_l in H3. discriminate.
  - rewrite leb_nan_r in H4. discriminate.
Qed.

(** X1. [filterStopsByBounds] returns exactly the stops of the table
    whose latitude lies in [minLat, maxLat] and whose longitude lies in
    [minLng, maxLng], both ends included, each with its own record: the
    result is a part of the stop table. A stop with a NaN coordinate is
    never returned, and with a NaN bound no stop at all. *)
Theorem filterStopsByBounds_exact (c : Snapshot) (b : Go.Bounds) :
  (forall id stop,
     Go.filterStopsByBounds c b !! id = Some stop <->
     stopsCache c !! id = Some stop /\
     F64.leb (Go.minLat b) (Lat stop) = true /\
     F64.leb (Lat stop) (Go.maxLat b) = true /\
     F64.leb (Go.minLng b) (Lng stop) = true /\
     F64.leb (Lng stop) (Go.maxLng b) = true) /\
  Go.filterStopsByBounds c b ⊆ stopsCache c /\
  (forall id stop,
     Go.filterStopsByBounds c b !! id = Some stop ->
     Lat stop <> S754_nan /\ Lng stop <> S754_nan) /\
  (Go.minLat b = S754_nan \/ Go.maxLat b = S754_nan \/
   Go.minLng b = S754_nan \/ Go.maxLng b = S754_nan ->
   Go.filterStopsByBounds c b = ∅).
Proof.
  split; [intros id stop; apply filterStopsByBounds_inside|].
  split; [|split].
  - apply map_subseteq_spec. intros id stop H.
    apply filterStopsByBounds_inside in H. apply H.
  - intros id stop H. apply filterStopsByBounds_inside in H as (_ & H1 & _ & H3 & _).
    split; intros E; rewrite E in *.
    + rewrite leb_nan_r in H1. discriminate.
    + rewrite leb_nan_r in H3. discriminate.
  - apply filterStopsByBounds_nan.
Qed.

(** X2. The handler of [/api/stops/search] answers 400 when one of the
    four parameters is missing, whatever the others hold, then when one
    is not a number, then when a minimum exceeds its maximum. Whenever it
    answers 200 the body holds exactly the stops of the table inside the
    box and [count] is their number. Bounds that parse to NaN pass the
    test of the order and are answered with no stop and a count of 0. *)
Theorem searchStops_answers (ParseFloat : string -> option F64.float)
    (c : Snapshot) (minLatStr maxLatStr minLngStr maxLngStr : string) :
  (minLatStr = "" \/ maxLatStr = "" \/ minLngStr = "" \/ maxLngStr = "" ->
   Go.searchStops ParseFloat c minLatStr maxLatStr minLngStr maxLngStr =
     Go.BadRequest Go.BoundsMissing) /\
  (forall body,
     Go.searchStops ParseFloat c minLatStr maxLatStr minLngStr maxLngStr =
       Go.OK body ->
     exists minLat maxLat minLng maxLng,
       ParseFloat minLatStr = Some minLat /\ ParseFloat maxLatStr = Some maxLat /\
       ParseFloat minLngStr = Some minLng /\ ParseFloat maxLngStr = Some maxLng /\
       Go.gtb minLat maxLat = false /\ Go.gtb minLng maxLng = false /\
       Go.StopsSearchResponse.count body =
         size (Go.StopsSearchResponse.stops body) /\
       forall id stop,
         Go.StopsSearchResponse.stops body !! id = Some stop <->
         stopsCache c !! id = Some stop /\
         F64.leb minLat (Lat stop) = true /\ F64.leb (Lat stop) maxLat = true /\
         F64.leb minLng (Lng stop) = true /\ F64.leb (Lng stop) maxLng = true) /\
  (minLatStr <> "" -> maxLatStr <> "" -> minLngStr <> "" -> maxLngStr <> "" ->
   forall b,
     Go.parseBounds ParseFloat minLatStr maxLatStr minLngStr maxLngStr = Some b ->
     Go.minLat b = S754_nan \/ Go.maxLat b = S754_nan \/
     Go.minLng b = S754_nan \/ Go.maxLng b = S754_nan ->
     Go.gtb (Go.minLat b) (Go.maxLat b) = false ->
     Go.gtb (Go.minLng b) (Go.maxLng b) = false ->
     Go.searchStops ParseFloat c minLatStr maxLatStr minLngStr maxLngStr =
       Go.OK {| Go.StopsSearchResponse.count := 0;
                Go.StopsSearchResponse.stops := ∅ |}).
Proof.
  split; [|split].
  - intros H. unfold Go.searchStops.
    replace (String.eqb minLatStr "" || String.eqb maxLatStr "" ||
             String.eqb minLngStr "" || String.eqb maxLngStr "") with true;
      [reflexivity|].
    symmetry. rewrite !orb_true_iff, !String.eqb_eq. tauto.
  - intros body. unfold Go.searchStops, Go.parseBounds.
    destruct (String.eqb minLatStr "" || String.eqb maxLatStr "" ||
              String.eqb minLngStr "" || String.eqb maxLngStr "");
      [discriminate|].
    destruct (ParseFloat minLatStr) as [minLat|]; [|discriminate].
    destruct (ParseFloat maxLatStr) as [maxLat|]; [|discriminate].
    destruct (ParseFloat minLngStr) as [minLng|]; [|discriminate].
    destruct (ParseFloat maxLngStr) as [maxLng|]; [|discriminate].
    cbn [Go.minLat Go.maxLat Go.minLng Go.maxLng].
    destruct (Go.gtb minLat maxLat) eqn:E1; [discriminate|].
    destruct (Go.gtb minLng maxLng) eqn:E2; [discriminate|].
    cbn [orb]. intros [= <-].
    exists minLat, maxLat, minLng, maxLng.
    do 4 (split; [reflexivity|]).
    split; [exact E1|]. split; [exact E2|]. split; [reflexivity|].
    cbn [Go.StopsSearchResponse.stops].
    intros id stop. apply (filterStopsByBounds_inside c).
  - intros N1 N2 N3 N4 b Hb Hnan G1 G2. unfold Go.searchStops.
    apply String.eqb_neq in N1, N2, N3, N4. rewrite N1, N2, N3, N4. cbn [orb].
    rewrite Hb, G1, G2. cbn [orb].
    rewrite (filterStopsByBounds_nan c b Hnan). reflexivity.
Qed.

(** ** Vehicles within bounds *)

Lemma collect_bounded {A} (f : A -> Go.outcome (option coord))
    (mk : A -> coord -> Go.BusPosition.t) (b : Go.Bounds) (l : list A) :
  (forall x p, Go.BusPosition.Position (mk x p) = p) ->
  Go.collect (fun x => Go.bind (f x) (fun pos =>
                Go.Returns (match pos with
                            | Some p => if Go.inBounds b p then Some (mk x p)
                                        else None
                            | None => None
                            end))) l =
  Go.bind (Go.collect (fun x => Go.bind (f x) (fun pos =>
                         Go.Returns (mk x <$> pos))) l)
    (fun all => Go.Returns
                  (List.filter (fun v => Go.inBounds b (Go.BusPosition.Position v))
                     all)).
Proof.
  intros Hmk. induction l as [|x l IH]; [reflexivity|].
  cbn [Go.collect]. rewrite IH. clear IH.
  set (rest := Go.collect (fun x => Go.bind (f x) (fun pos =>
                             Go.Returns (mk x <$> pos))) l).
  clearbody rest.
  destruct (f x) as [[p|]|]; cbn [Go.bind fmap option_fmap option_map].
  - destruct rest as [all|];
      destruct (Go.inBounds b p) eqn:E; cbn; rewrite ?Hmk, ?E; reflexivity.
  - destruct rest as [all|]; reflexivity.
  - reflexivity.
Qed.

Lemma bounded_is_filtered c clk b :
  Go.calculateBusPositionsInBounds c clk b =
  Go.bind (Go.calculateAllBusPositions c clk)
    (fun all => Go.Returns
                  (List.filter (fun v => Go.inBounds b (Go.BusPosition.Position v))
                     all)).
Proof.
  unfold Go.calculateBusPositionsInBounds, Go.calculateAllBusPositions.
  pose proof (collect_bounded
                (fun x : string * string * TripInfo =>
                   Go.activePosition c clk (snd x))
                (fun x p => Go.mkBusPosition c (fst (fst x)) (snd (fst x)) (snd x) p)
                b (allTrips (timetablesCache c)) (fun x p => eq_refl)) as H.
  etransitivity; [|etransitivity; [exact H|]].
  - apply collect_ext. intros [[rid tid] trip]. reflexivity.
  - f_equal. apply collect_ext. intros [[rid tid] trip]. reflexivity.
Qed.

Lemma sublist_List_filter {A} (P : A -> bool) (l : list A) :
  sublist (List.filter P l) l.
Proof.
  induction l as [|x l IH]; cbn [List.filter]; [constructor|].
  destruct (P x); [apply sublist_skip|apply sublist_cons]; exact IH.
Qed.

(** X3. The bounded locator does the work of the full one and keeps
    the positions inside the box: for one traversal of the timetable its
    result is the full result filtered by the test on latitude and
    longitude, in the same order, and it panics exactly when the full one
    does. *)
Theorem bounded_positions_are_filtered (c : Snapshot) (clk : Clock)
    (b : Go.Bounds) :
  Go.calculateBusPositionsInBounds c clk b =
    Go.bind (Go.calculateAllBusPositions c clk)
      (fun all => Go.Returns
         (List.filter (fun v => Go.inBounds b (Go.BusPosition.Position v)) all)) /\
  (forall all,
     Go.calculateAllBusPositions c clk = Go.Returns all ->
     exists inside,
       Go.calculateBusPositionsInBounds c clk b = Go.Returns inside /\
       sublist inside all /\
       forall v, v ∈ inside <->
                 v ∈ all /\ Go.inBounds b (Go.BusPosition.Position v) = true) /\
  (Go.calculateBusPositionsInBounds c clk b = Go.Panics <->
   Go.calculateAllBusPositions c clk = Go.Panics).
Proof.
  pose proof (bounded_is_filtered c clk b) as H.
  split; [exact H|]. split.
  - intros all Hall. rewrite Hall in H. cbn in H. eexists.
    split; [exact H|]. split.
    + apply sublist_List_filter.
    + intros v. rewrite list_elem_of_In, filter_In, <- list_elem_of_In.
      reflexivity.
  - rewrite H. destruct (Go.calculateAllBusPositions c clk); cbn.
    + split; discriminate.
    + split; reflexivity.
Qed.

Lemma locators_return c clk bounds :
  wfSnapshot c -> exists out, Go.getActiveVehicles c clk bounds = Go.Returns out.
Proof.
  intros Hwf. rewrite getActiveVehicles_collect. eexists.
  apply collect_returns. intros [[rid tid] trip] Hx.
  apply elem_of_allTrips in Hx. unfold tripAt in Hx.
  destruct (timetablesCache c !! rid) as [trips|] eqn:Er; [|discriminate].
  cbn in Hx.
  destruct (activePosition_cases c clk trip (Hwf rid trips tid trip Er Hx))
    as (r & Hr & _).
  cbn [snd]. rewrite Hr. eexists. reflexivity.
Qed.

(** X4. The handler of [/api/buses] uses the bounds only when all four
    are given: with one of them missing it answers with every running
    vehicle, whatever the other three hold, even text that is no number.
    With four numbers whose minima do not exceed the maxima it answers
    with the vehicles of the full list that are inside the box. An answer
    of 200 carries the time stamp and a [count] equal to the number of
    vehicles, and on well-formed schedule data the handler never
    panics. *)
Theorem getBuses_answers (ParseFloat : string -> option F64.float)
    (c : Snapshot) (clk : Clock) (unix : Z)
    (minLatStr maxLatStr minLngStr maxLngStr : string) :
  let answer buses :=
    Go.Returns (Go.OK {| Go.BusesResponse.count := length buses;
                         Go.BusesResponse.buses := buses;
                         Go.BusesResponse.timestamp := unix |}) in
  let handler :=
    Go.getBuses ParseFloat c clk unix minLatStr maxLatStr minLngStr maxLngStr in
  (minLatStr = "" \/ maxLatStr = "" \/ minLngStr = "" \/ maxLngStr = "" ->
   handler = Go.bind (Go.calculateAllBusPositions c clk) answer) /\
  (minLatStr <> "" -> maxLatStr <> "" -> minLngStr <> "" -> maxLngStr <> "" ->
   forall b,
     Go.parseBounds ParseFloat minLatStr maxLatStr minLngStr maxLngStr = Some b ->
     Go.gtb (Go.minLat b) (Go.maxLat b) = false ->
     Go.gtb (Go.minLng b) (Go.maxLng b) = false ->
     handler =
       Go.bind (Go.calculateAllBusPositions c clk) (fun all =>
         answer (List.filter
                   (fun v => Go.inBounds b (Go.BusPosition.Position v)) all))) /\
  (forall body,
     handler = Go.Returns (Go.OK body) ->
     Go.BusesResponse.count body = length (Go.BusesResponse.buses body) /\
     Go.BusesResponse.timestamp body = unix) /\
  (wfSnapshot c -> exists r, handler = Go.Returns r).
Proof.
  intros answer handler. subst handler.
  assert (Hempty : minLatStr = "" \/ maxLatStr = "" \/ minLngStr = "" \/ maxLngStr = "" ->
            negb (String.eqb minLatStr "") && negb (String.eqb maxLatStr "") &&
            negb (String.eqb minLngStr "") && negb (String.eqb maxLngStr "") = false).
  { intros H. apply not_true_is_false. intros E.
    rewrite !andb_true_iff, !negb_true_iff, !String.eqb_neq in E. tauto. }
  assert (Hgiven : minLatStr <> "" -> maxLatStr <> "" -> minLngStr <> "" ->
            maxLngStr <> "" ->
            negb (String.eqb minLatStr "") && negb (String.eqb maxLatStr "") &&
            negb (String.eqb minLngStr "") && negb (String.eqb maxLngStr "") = true).
  { intros. rewrite !andb_true_iff, !negb_true_iff, !String.eqb_neq. tauto. }
  split; [|split; [|split]].
  - intros H. unfold Go.getBuses. rewrite (Hempty H). reflexivity.
  - intros N1 N2 N3 N4 b Hb G1 G2. unfold Go.getBuses.
    rewrite (Hgiven N1 N2 N3 N4), Hb, G1, G2. cbn [orb].
    rewrite bounded_is_filtered.
    destruct (Go.calculateAllBusPositions c clk); reflexivity.
  - intros body. unfold Go.getBuses.
    destruct (negb (String.eqb minLatStr "") && _ && _ && _).
    + destruct (Go.parseBounds _ _ _ _ _) as [b|]; [|discriminate].
      destruct (_ || _); [discriminate|].
      destruct (Go.calculateBusPositionsInBounds c clk b); [|discriminate].
      cbn. intros [= <-]. split; reflexivity.
    + destruct (Go.calculateAllBusPositions c clk); [|discriminate].
      cbn. intros [= <-]. split; reflexivity.
  - intros Hwf. unfold Go.getBuses.
    destruct (negb (String.eqb minLatStr "") && _ && _ && _).
    + destruct (Go.parseBounds _ _ _ _ _) as [b|]; [|eexists; reflexivity].
      destruct (_ || _); [eexists; reflexivity|].
      destruct (locators_return c clk (Some b) Hwf) as [out Hout].
      cbn in Hout. rewrite Hout. eexists. reflexivity.
    + destruct (locators_return c clk None Hwf) as [out Hout].
      cbn in Hout. rewrite Hout. eexists. reflexivity.
Qed.

(** ** Trip detail *)

Lemma tripStops_lookup c trip id stop :
  Go.tripStops c trip !! id = Some stop <->
  (exists ts, ts ∈ Stops trip /\ StopID ts = id) /\
  stopsCache c !! id = Some stop.
Proof.
  unfold Go.tripStops.
  induction (Stops trip) as [|ts l IH] using rev_ind.
  - cbn. rewrite lookup_empty. split; [discriminate|].
    intros [(ts & H & _) _]. inversion H.
  - rewrite foldl_app. cbn [foldl].
    assert (Hex : (exists ts0, ts0 ∈ l ++ [ts] /\ StopID ts0 = id) <->
                  (exists ts0, ts0 ∈ l /\ StopID ts0 = id) \/ StopID ts = id).
    { split.
      - intros (ts0 & Hin & E). apply elem_of_app in Hin as [Hin|Hin].
        + left. eauto.
        + apply list_elem_of_singleton in Hin. subst ts0. right. exact E.
      - intros [(ts0 & Hin & E)|E].
        + exists ts0. split; [apply elem_of_app; left; exact Hin|exact E].
        + exists ts. split; [|exact E]. apply elem_of_app. right.
          apply list_elem_of_singleton. reflexivity. }
    rewrite Hex.
    destruct (stopsCache c !! StopID ts) as [s|] eqn:Es.
    + destruct (decide (StopID ts = id)) as [E|Hne].
      * rewrite E, lookup_insert_eq. rewrite E in Es. rewrite Es. split.
        -- intros [= ->]. split; [right; reflexivity|reflexivity].
        -- intros [_ H]. exact H.
      * rewrite lookup_insert_ne by exact Hne. rewrite IH. tauto.
    + rewrite IH. split.
      * intros [H1 H2]. split; [left; exact H1|exact H2].
      * intros [[H1|E] H2]; [split; assumption|].
        rewrite E in Es. congruence.
Qed.

(** X5. The handler of [/api/trips/:routeId/:tripId] answers 404
    exactly when the route is not in the timetable or has no such trip.
    Otherwise it answers 200 with the ids asked for, the trip, and the
    stops the trip calls at that the stop table knows, each under its id;
    a stop of the trip that the table does not know is left out. A route
    without an entry in the route table gets an empty name and color, an
    office without a name an empty office name. *)
Theorem getTripDetail_answers (c : Snapshot) (routeID tripID : string) :
  (timetablesCache c !! routeID = None ->
   Go.getTripDetail c routeID tripID = Go.StatusNotFound Go.RouteMissing) /\
  (forall trips,
     timetablesCache c !! routeID = Some trips -> trips !! tripID = None ->
     Go.getTripDetail c routeID tripID = Go.StatusNotFound Go.TripMissing) /\
  (forall trip,
     tripAt (timetablesCache c) routeID tripID = Some trip ->
     exists body,
       Go.getTripDetail c routeID tripID = Go.StatusOK body /\
       Go.TripDetailResponse.TripID body = tripID /\
       Go.TripDetailResponse.RouteID body = routeID /\
       Go.TripDetailResponse.Trip body = trip /\
       (forall id stop,
          Go.TripDetailResponse.Stops body !! id = Some stop <->
          (exists ts, ts ∈ Stops trip /\ StopID ts = id) /\
          stopsCache c !! id = Some stop) /\
       Go.TripDetailResponse.RouteName body =
         default EmptyString (ShortName <$> routesCache c !! routeID) /\
       Go.TripDetailResponse.RouteColor body =
         default EmptyString (Color <$> routesCache c !! routeID) /\
       Go.TripDetailResponse.OfficeName body =
         default EmptyString (Offices (extraCache c) !! OfficeID trip)).
Proof.
  unfold Go.getTripDetail, tripAt. split; [|split].
  - intros ->. reflexivity.
  - intros trips -> ->. reflexivity.
  - intros trip H.
    destruct (timetablesCache c !! routeID) as [trips|]; [|discriminate].
    cbn in H. rewrite H. eexists. split; [reflexivity|]. cbn.
    do 3 (split; [reflexivity|]).
    split; [intros id stop; apply tripStops_lookup|].
    destruct (routesCache c !! routeID); repeat split; reflexivity.
Qed.

Lemma getTripDetail_answers_witness :
  exists body,
    Go.getTripDetail Sample.snapshot "R" "T" = Go.StatusOK body /\
    Go.TripDetailResponse.Stops body = stopsCache Sample.snapshot /\
    Go.getTripDetail Sample.snapshot "R" "U" = Go.StatusNotFound Go.TripMissing.
Proof.
  destruct (getTripDetail_answers Sample.snapshot "R" "T") as (_ & _ & Hok).
  destruct (Hok Sample.trip) as (body & Hbody & _); [vm_compute; reflexivity|].
  exists body. split; [exact Hbody|].
  vm_compute in Hbody. injection Hbody as <-.
  split; [vm_compute; reflexivity|].
  apply (proj1 (proj2 (getTripDetail_answers Sample.snapshot "R" "U"))
           {[ "T" := Sample.trip ]}); vm_compute; reflexivity.
Defined.

(** ** Calendar entries with dates that do not parse *)

(** X6. With no exception for the day, a calendar entry whose start
    date [time.Parse] rejects and whose end date it accepts is measured
    from the zero time: from 21 January of year 1 on the span is at least
    20 days, so the server applies the weekly flag on every date, inside
    the written range or not. When both dates are rejected the span is
    zero and the weekly flag applies only while the date of the clock lies
    between the two strings. *)
Theorem unparsable_start_never_expires (c : Snapshot) (clk : Clock)
    (serviceID : string) (cal : CalendarEntry) :
  List.find (exceptionFor (today clk) serviceID)
    (CalendarDates (extraCache c)) = None ->
  calendarCache c !! serviceID = Some cal ->
  Go.parseDate (Start cal) = None ->
  (forall e, Go.parseDate (End_ cal) = Some e -> 20 <= e ->
     Go.isServiceRunningToday c clk serviceID =
       default false (dayFlag cal (gtfsDayIdx clk))) /\
  (Go.parseDate (End_ cal) = None ->
     Go.isServiceRunningToday c clk serviceID =
       if Str.leb (Start cal) (today clk) && Str.leb (today clk) (End_ cal)
       then default false (dayFlag cal (gtfsDayIdx clk))
       else false).
Proof.
  intros Hfind Hcal Hstart.
  unfold Go.isServiceRunningToday, Go.parsedOrZero.
  rewrite exceptionLoop_find, Hfind, Hcal, Hstart.
  cbn [fmap option_fmap option_map default from_option id].
  split.
  - intros e He H20. rewrite He. cbn [default from_option id].
    rewrite atLeast20Days_span.
    replace (20 <=? e - 0) with true by (symmetry; apply Z.leb_le; lia).
    destruct (Str.leb (Start cal) (today clk) && Str.leb (today clk) (End_ cal));
      [|reflexivity].
    destruct (dayFlag cal (gtfsDayIdx clk)); reflexivity.
  - intros He. rewrite He. cbn [default from_option id].
    rewrite atLeast20Days_span. cbn.
    destruct (Str.leb (Start cal) (today clk) && Str.leb (today clk) (End_ cal));
      [|reflexivity].
    destruct (dayFlag cal (gtfsDayIdx clk)); reflexivity.
Qed.

Lemma unparsable_start_never_expires_witness :
  Go.isServiceRunningToday Sample.misdated Sample.april "S" =
  default false (dayFlag Sample.february (gtfsDayIdx Sample.april)).
Proof.
  refine (proj1 (unparsable_start_never_expires Sample.misdated Sample.april
                   "S" Sample.february _ _ _) 738949 _ _).
  - vm_compute. reflexivity.
  - vm_compute. reflexivity.
  - vm_compute. reflexivity.
  - vm_compute. reflexivity.
  - lia.
Defined.

(* ===================================================================== *)
(** * Further properties of the client *)

(** ** Order of the times *)

Lemma wfClock_split t :
  wfClock t = true ->
  exists h1 h2 m1 m2 s1 s2,
    t = String h1 (String h2 (String Str.colon (String m1 (String m2
          (String Str.colon (String s1 (String s2 EmptyString))))))) /\
    0 <= Str.digit_val h1 <= 9 /\ 0 <= Str.digit_val h2 <= 9 /\
    0 <= Str.digit_val m1 <= 5 /\ 0 <= Str.digit_val m2 <= 9 /\
    0 <= Str.digit_val s1 <= 5 /\ 0 <= Str.digit_val s2 <= 9.
Proof.
  unfold wfClock. intros H. apply andb_true_iff in H as [Hwf H].
  destruct (wfTime_split t Hwf)
    as (h1 & h2 & m1 & m2 & s1 & s2 & -> & H1 & H2 & H3 & H4 & H5 & H6).
  apply andb_true_iff in H as [Hm Hs]. apply Z.ltb_lt in Hm, Hs.
  pose proof (is_digit_val _ H1). pose proof (is_digit_val _ H2).
  pose proof (is_digit_val _ H3). pose proof (is_digit_val _ H4).
  pose proof (is_digit_val _ H5). pose proof (is_digit_val _ H6).
  exists h1, h2, m1, m2, s1, s2. split; [reflexivity|]. lia.
Qed.

Lemma wfClock_wfTime t : wfClock t = true -> wfTime t = true.
Proof. unfold wfClock. intros H. apply andb_true_iff in H. apply H. Qed.

Lemma ascii_compare_digits c1 c2 :
  Ascii.compare c1 c2 = (Str.digit_val c1 ?= Str.digit_val c2).
Proof.
  unfold Ascii.compare, Str.digit_val.
  rewrite <- (N2Z.inj_compare (N_of_ascii c1) (N_of_ascii c2)).
  set (x := Z.of_N (N_of_ascii c1)). set (y := Z.of_N (N_of_ascii c2)).
  destruct (Z.compare_spec x y); symmetry;
    [apply Z.compare_eq_iff|apply Z.compare_lt_iff|apply Z.compare_gt_iff]; lia.
Qed.

(** On times of the clock the order of the strings is the order of the
    seconds. *)
Lemma compare_wfClock a b :
  wfClock a = true -> wfClock b = true ->
  String.compare a b = (secondsOf a ?= secondsOf b).
Proof.
  intros Ha Hb.
  destruct (wfClock_split a Ha)
    as (h1 & h2 & m1 & m2 & s1 & s2 & -> & A1 & A2 & A3 & A4 & A5 & A6).
  destruct (wfClock_split b Hb)
    as (k1 & k2 & n1 & n2 & t1 & t2 & -> & B1 & B2 & B3 & B4 & B5 & B6).
  cbn [String.compare secondsOf].
  rewrite !ascii_compare_digits.
  rewrite (Z.compare_refl (Str.digit_val Str.colon)).
  generalize dependent (Str.digit_val h1). generalize dependent (Str.digit_val h2).
  generalize dependent (Str.digit_val m1). generalize dependent (Str.digit_val m2).
  generalize dependent (Str.digit_val s1). generalize dependent (Str.digit_val s2).
  generalize dependent (Str.digit_val k1). generalize dependent (Str.digit_val k2).
  generalize dependent (Str.digit_val n1). generalize dependent (Str.digit_val n2).
  generalize dependent (Str.digit_val t1). generalize dependent (Str.digit_val t2).
  intros. symmetry.
  repeat match goal with
         | |- context [?x ?= ?y] =>
             lazymatch x with
             | _ + _ => fail
             | _ => destruct (Z.compare_spec x y)
             end
         end;
    first [apply Z.compare_eq_iff|apply Z.compare_lt_iff|apply Z.compare_gt_iff];
    lia.
Qed.

(** X7. On times of the clock, written [HH:MM:SS] with minutes and
    seconds below 60, the order of the strings, by which the panel tells
    the past arrivals from the coming ones, is the order of the seconds
    [timeToSec] gives on the server and on the client; two such times
    with the same seconds are the same string. *)
Theorem clock_order_is_seconds_order (a b : string) :
  wfClock a = true -> wfClock b = true ->
  TS.timeToSec a = Some (Go.timeToSec a) /\
  TS.timeToSec b = Some (Go.timeToSec b) /\
  (Str.leb a b = true <-> Go.timeToSec a <= Go.timeToSec b) /\
  (Str.ltb a b = true <-> Go.timeToSec a < Go.timeToSec b) /\
  (Go.timeToSec a = Go.timeToSec b -> a = b).
Proof.
  intros Ha Hb.
  destruct (timeToSec_wfTime a (wfClock_wfTime a Ha)) as (Ga & Ta & _).
  destruct (timeToSec_wfTime b (wfClock_wfTime b Hb)) as (Gb & Tb & _).
  rewrite Ga, Gb, Ta, Tb.
  pose proof (compare_wfClock a b Ha Hb) as Hc.
  split; [reflexivity|]. split; [reflexivity|].
  unfold Str.leb, Str.ltb, String.leb, String.ltb. rewrite Hc.
  split; [|split].
  - destruct (Z.compare_spec (secondsOf a) (secondsOf b)); split;
      intros; try reflexivity; try discriminate; lia.
  - destruct (Z.compare_spec (secondsOf a) (secondsOf b)); split;
      intros; try reflexivity; try discriminate; lia.
  - intros E. apply String.compare_eq_iff. rewrite Hc.
    apply Z.compare_eq_iff. exact E.
Qed.

Lemma clock_order_is_seconds_order_witness :
  Str.ltb "08:09:59" "08:10:00" = true <->
  Go.timeToSec "08:09:59" < Go.timeToSec "08:10:00".
Proof.
  apply (clock_order_is_seconds_order "08:09:59" "08:10:00");
    vm_compute; reflexivity.
Defined.

(** ** Past and coming arrivals *)

Lemma leb_ltb_trans a b c :
  String.leb a b = true -> String.ltb b c = true -> String.ltb a c = true.
Proof.
  intros Hab Hbc. unfold String.ltb in *.
  destruct (String.compare a c) eqn:Eac; [exfalso|reflexivity|exfalso].
  - apply String.compare_eq_iff in Eac. subst c.
    unfold String.leb in Hab. rewrite String.compare_antisym in Hab.
    destruct (String.compare b a); discriminate.
  - assert (Hca : String.leb c a = true).
    { unfold String.leb. rewrite String.compare_antisym, Eac. reflexivity. }
    pose proof (compare_trans_le c a b Hca Hab) as Hcb.
    unfold String.leb in Hcb. rewrite String.compare_antisym in Hcb.
    destruct (String.compare b c); discriminate.
Qed.

Lemma allArrivals_is_past data clk currentTime targetIds a :
  a ∈ TS.allArrivals data clk currentTime targetIds ->
  TS.is_past a = Str.ltb (TS.time a) currentTime.
Proof.
  unfold TS.allArrivals. rewrite merge_sort_Permutation, list_elem_of_omap.
  intros ([[rid tid] trip] & _ & Ha).
  apply tripArrival_spec in Ha as (_ & st & _ & ->). reflexivity.
Qed.

Lemma allArrivals_sorted data clk currentTime targetIds :
  StronglySorted TS.timeLe (TS.allArrivals data clk currentTime targetIds).
Proof. apply (StronglySorted_merge_sort TS.timeLe). Qed.

Lemma StronglySorted_lookup {A} (R : A -> A -> Prop) (l : list A) :
  StronglySorted R l ->
  forall i j a b, (i < j)%nat -> l !! i = Some a -> l !! j = Some b -> R a b.
Proof.
  induction 1 as [|x l Hs IH Hall]; intros i j a b Hij Ha Hb; [discriminate|].
  destruct j as [|j]; [lia|]. cbn in Hb. destruct i as [|i].
  - cbn in Ha. injection Ha as <-.
    rewrite Forall_forall in Hall. apply Hall.
    apply list_elem_of_lookup. eauto.
  - cbn in Ha. apply (IH i j); [lia|exact Ha|exact Hb].
Qed.

Lemma past_prefix data clk currentTime targetIds i j a b :
  (i <= j)%nat ->
  TS.allArrivals data clk currentTime targetIds !! i = Some a ->
  TS.allArrivals data clk currentTime targetIds !! j = Some b ->
  TS.is_past b = true -> TS.is_past a = true.
Proof.
  intros Hij Ha Hb Hpast.
  destruct (decide (i = j)) as [->|Hne]; [congruence|].
  pose proof (StronglySorted_lookup _ _
                (allArrivals_sorted data clk currentTime targetIds)
                i j a b ltac:(lia) Ha Hb) as Hle.
  rewrite (allArrivals_is_past data clk currentTime targetIds a)
    by (apply list_elem_of_lookup; eauto).
  rewrite (allArrivals_is_past data clk currentTime targetIds b) in Hpast
    by (apply list_elem_of_lookup; eauto).
  exact (leb_ltb_trans _ _ _ Hle Hpast).
Qed.

Lemma markNext_fst l : forall found, map fst (TS.markNext found l) = l.
Proof.
  induction l as [|x l IH]; intros found; [reflexivity|].
  cbn [TS.markNext]. destruct (negb (TS.is_past x) && negb found);
    cbn [map fst]; rewrite IH; reflexivity.
Qed.

Lemma markNext_found l : forall k a,
  TS.markNext true l !! k = Some (a, true) -> False.
Proof.
  induction l as [|x l IH]; intros k a H; [discriminate|].
  cbn [TS.markNext] in H. rewrite andb_false_r in H.
  destruct k as [|k]; [discriminate|]. exact (IH k a H).
Qed.

Lemma markNext_first l : forall k a,
  TS.markNext false l !! k = Some (a, true) <->
  l !! k = Some a /\ TS.is_past a = false /\
  forall i b, (i < k)%nat -> l !! i = Some b -> TS.is_past b = true.
Proof.
  induction l as [|x l IH]; intros k a.
  - split; [discriminate|]. intros [H _]. discriminate.
  - cbn [TS.markNext]. rewrite andb_true_r.
    destruct (TS.is_past x) eqn:Ex; cbn [negb].
    + destruct k as [|k].
      * split; [discriminate|]. intros (H & Hp & _). cbn in H. congruence.
      * cbn [lookup list_lookup]. rewrite (IH k a). split.
        -- intros (H & Hp & Hfirst). split; [exact H|]. split; [exact Hp|].
           intros [|i] b Hi Hb; [cbn in Hb; congruence|].
           apply (Hfirst i); [lia|exact Hb].
        -- intros (H & Hp & Hfirst). split; [exact H|]. split; [exact Hp|].
           intros i b Hi Hb. apply (Hfirst (S i)); [lia|exact Hb].
    + destruct k as [|k].
      * split.
        -- intros [= <-]. split; [reflexivity|]. split; [exact Ex|]. intros; lia.
        -- intros (H & _). cbn in H. injection H as <-. reflexivity.
      * split.
        -- intros H. exfalso. exact (markNext_found l k a H).
        -- intros (_ & _ & Hfirst). specialize (Hfirst 0%nat x ltac:(lia) eq_refl).
           congruence.
Qed.

(** X8. On a timetable whose times are all written [HH:MM:SS], where
    the order of the sort is the order of the strings, the past arrivals,
    those with a time below the current time, form the beginning of the
    arrival list of the panel. The mark of the next arrival goes to at
    most one entry: the first that is not past, behind which none is past
    and before which all are; an entry is marked as soon as one arrival
    is not past. *)
Theorem next_arrival_splits_the_list (data : Snapshot) (clk : Clock)
    (currentTime : string) (targetIds : list string) :
  (forall rid tid trip,
     tripAt (timetablesCache data) rid tid = Some trip ->
     wfTimes (Stops trip) = true) ->
  let arrivals := TS.allArrivals data clk currentTime targetIds in
  let marked := TS.markNext false arrivals in
  map fst marked = arrivals /\
  (forall i j a b,
     (i <= j)%nat -> arrivals !! i = Some a -> arrivals !! j = Some b ->
     TS.is_past b = true -> TS.is_past a = true) /\
  (forall k a,
     marked !! k = Some (a, true) ->
     TS.is_past a = false /\
     (forall i b, (i < k)%nat -> arrivals !! i = Some b -> TS.is_past b = true) /\
     (forall j b, (k <= j)%nat -> arrivals !! j = Some b -> TS.is_past b = false) /\
     (forall k' a', marked !! k' = Some (a', true) -> k' = k)) /\
  ((exists a, a ∈ arrivals /\ TS.is_past a = false) ->
   exists k a, marked !! k = Some (a, true)).
Proof.
  intros _ arrivals marked. subst marked.
  split; [apply markNext_fst|]. split; [|split].
  - intros i j a b. apply past_prefix.
  - intros k a Hk. apply markNext_first in Hk as (Ha & Hp & Hfirst).
    split; [exact Hp|]. split; [exact Hfirst|]. split.
    + intros j b Hj Hb. destruct (TS.is_past b) eqn:Eb; [|reflexivity].
      pose proof (past_prefix data clk currentTime targetIds k j a b Hj Ha Hb Eb).
      congruence.
    + intros k' a' Hk'. apply markNext_first in Hk' as (Ha' & Hp' & Hfirst').
      destruct (Nat.lt_trichotomy k' k) as [Hlt|[Heq|Hgt]]; [|exact Heq|].
      * specialize (Hfirst k' a' Hlt Ha'). congruence.
      * specialize (Hfirst' k a Hgt Ha). congruence.
  - intros (a & Hin & Hp).
    apply list_elem_of_lookup in Hin as [j Hj].
    destruct (list_find (fun b => TS.is_past b = false) arrivals)
      as [[k b]|] eqn:Ef.
    + apply list_find_Some in Ef as (Hb & Hpb & Hfirst).
      exists k, b. apply markNext_first. split; [exact Hb|]. split; [exact Hpb|].
      intros i c Hi Hc. destruct (TS.is_past c) eqn:Ec; [reflexivity|].
      exfalso. exact (Hfirst i c Hc Hi Ec).
    + apply list_find_None in Ef. rewrite Forall_forall in Ef.
      exfalso. apply (Ef a); [|exact Hp].
      apply list_elem_of_lookup. eauto.
Qed.

Lemma next_arrival_splits_the_list_witness :
  exists k a,
    TS.markNext false
      (TS.allArrivals Sample.snapshot Sample.clock "08:05:00" ["B"]) !! k =
    Some (a, true).
Proof.
  apply (next_arrival_splits_the_list Sample.snapshot Sample.clock
           "08:05:00" ["B"]).
  - intros rid tid trip H. unfold tripAt in H.
    destruct (timetablesCache Sample.snapshot !! rid) as [trips|] eqn:Er;
      [|discriminate].
    exact (proj1 (wfSnapshot_sample rid trips tid trip Er H)).
  - eexists. split; [vm_compute; left|reflexivity].
Defined.

(** ** Loading answers of the server into the client *)

Lemma allArrivals_elem data clk currentTime targetIds a :
  a ∈ TS.allArrivals data clk currentTime targetIds <->
  exists rid tid trip st,
    tripAt (timetablesCache data) rid tid = Some trip /\
    TS.isServiceRunningToday (ServiceID trip) (calendarCache data)
      (extraCache data) clk = true /\
    firstMatch targetIds (Stops trip) st /\
    a = TS.arrival data currentTime rid tid trip st.
Proof.
  unfold TS.allArrivals. rewrite merge_sort_Permutation, list_elem_of_omap.
  split.
  - intros ([[rid tid] trip] & Hin & Ha).
    apply elem_of_allTrips in Hin.
    apply tripArrival_spec in Ha as (Hrun & st & Hst & ->).
    exists rid, tid, trip, st. auto.
  - intros (rid & tid & trip & st & Hin & Hrun & Hst & ->).
    exists (rid, tid, trip). split; [apply elem_of_allTrips; exact Hin|].
    apply tripArrival_spec. split; [exact Hrun|]. exists st. auto.
Qed.

Lemma allArrivals_NoDup data clk currentTime targetIds :
  NoDup (TS.allArrivals data clk currentTime targetIds).
Proof.
  apply (NoDup_fmap_1 tripKey).
  unfold TS.allArrivals. rewrite merge_sort_Permutation.
  apply (NoDup_omap_keys tripKey); [|apply NoDup_allTrips_keys].
  intros [rid tid] trip a Ha.
  apply tripArrival_spec in Ha as (_ & st & _ & ->). reflexivity.
Qed.

Lemma tripAt_union (m1 m2 : gmap string (gmap string TripInfo)) r t :
  tripAt (m1 ∪ m2) r t =
  match m1 !! r with
  | Some trips => trips !! t
  | None => tripAt m2 r t
  end.
Proof.
  unfold tripAt. rewrite lookup_union.
  destruct (m1 !! r) as [trips|]; destruct (m2 !! r); reflexivity.
Qed.

(** X9. Loading the timetable of a stop replaces, for every route of
    the answer, the whole table of that route: the trips of the answer
    are there afterwards, and a trip of such a route that the client knew
    before and the answer does not list is gone. Routes the answer does
    not mention, the stops, the shapes, the calendar and the routes stay
    as they were. *)
Theorem mergeStopTimetable_replaces_routes (prev : Snapshot)
    (answer : Go.StopTimetableResponse.t) :
  let next := TS.mergeStopTimetable prev answer in
  (forall r trips,
     Go.StopTimetableResponse.Timetables answer !! r = Some trips ->
     timetablesCache next !! r = Some trips) /\
  (forall r,
     Go.StopTimetableResponse.Timetables answer !! r = None ->
     timetablesCache next !! r = timetablesCache prev !! r) /\
  (forall r t trip,
     tripAt (timetablesCache prev) r t = Some trip ->
     is_Some (Go.StopTimetableResponse.Timetables answer !! r) ->
     tripAt (Go.StopTimetableResponse.Timetables answer) r t = None ->
     tripAt (timetablesCache next) r t = None) /\
  stopsCache next = stopsCache prev /\ shapesCache next = shapesCache prev /\
  calendarCache next = calendarCache prev /\ extraCache next = extraCache prev /\
  routesCache next = routesCache prev.
Proof.
  intros next. subst next. cbn [TS.mergeStopTimetable timetablesCache].
  split; [|split; [|split]].
  - intros r trips H. rewrite lookup_union, H.
    destruct (timetablesCache prev !! r); reflexivity.
  - intros r H. rewrite lookup_union, H.
    destruct (timetablesCache prev !! r); reflexivity.
  - intros r t trip _ [trips Hr] Hnone. rewrite tripAt_union, Hr.
    unfold tripAt in Hnone. rewrite Hr in Hnone. exact Hnone.
  - repeat split; reflexivity.
Qed.

(** X10. A client whose calendar data and whose record of the stop are
    the server's, and whose trips all come from the server's timetable,
    loads the timetable of a stop of the stop table. Its arrival list for
    that stop alone then holds the same arrivals, each once, as the list
    computed over the server's whole timetable. *)
Theorem arrivals_after_loading_stop (server prev : Snapshot) (stopID : string)
    (stop : StopInfo) (clk : Clock) (currentTime : string) :
  stopsCache server !! stopID = Some stop ->
  stopsCache prev !! stopID = Some stop ->
  calendarCache prev = calendarCache server ->
  extraCache prev = extraCache server ->
  (forall r t trip,
     tripAt (timetablesCache prev) r t = Some trip ->
     tripAt (timetablesCache server) r t = Some trip) ->
  exists answer,
    Go.getStopTimetable server stopID = Go.StatusOK answer /\
    let next := TS.mergeStopTimetable prev answer in
    NoDup (TS.allArrivals next clk currentTime [stopID]) /\
    TS.allArrivals next clk currentTime [stopID] ≡ₚ
      TS.allArrivals server clk currentTime [stopID].
Proof.
  intros Hserver Hprev Hcal Hextra Hsub.
  unfold Go.getStopTimetable. rewrite Hserver. eexists. split; [reflexivity|].
  cbv zeta. split; [apply allArrivals_NoDup|].
  apply NoDup_Permutation; try apply allArrivals_NoDup.
  intros a. rewrite !allArrivals_elem.
  cbn [TS.mergeStopTimetable timetablesCache calendarCache extraCache
         Go.StopTimetableResponse.Timetables].
  rewrite Hcal, Hextra.
  assert (Hstop : forall trip st,
            firstMatch [stopID] (Stops trip) st ->
            StopID st = stopID /\ exists ts, ts ∈ Stops trip /\ StopID ts = stopID).
  { intros trip st (i & Hi & Hin & _). apply list_elem_of_singleton in Hin.
    split; [exact Hin|]. exists st. split; [|exact Hin].
    apply list_elem_of_lookup. eauto. }
  assert (Harr : forall rid tid trip st,
            StopID st = stopID ->
            TS.arrival
              {| stopsCache := stopsCache prev;
                 timetablesCache :=
                   Go.filterTimetables server stopID ∪ timetablesCache prev;
                 shapesCache := shapesCache prev;
                 calendarCache := calendarCache prev;
                 extraCache := extraCache prev;
                 routesCache := routesCache prev |} currentTime rid tid trip st =
            TS.arrival server currentTime rid tid trip st).
  { intros rid tid trip st E. unfold TS.arrival. cbn [stopsCache].
    rewrite E, Hprev, Hserver. reflexivity. }
  split.
  - intros (rid & tid & trip & st & Hin & Hrun & Hst & ->).
    destruct (Hstop trip st Hst) as [E Hcalls].
    exists rid, tid, trip, st. split; [|split; [exact Hrun|split; [exact Hst|]]].
    + rewrite tripAt_union in Hin.
      destruct (Go.filterTimetables server stopID !! rid) as [trips|] eqn:Er.
      * assert (Hf : tripAt (Go.filterTimetables server stopID) rid tid = Some trip)
          by (unfold tripAt; rewrite Er; exact Hin).
        apply filterTimetables_spec in Hf. apply Hf.
      * apply Hsub. exact Hin.
    + apply Harr. exact E.
  - intros (rid & tid & trip & st & Hin & Hrun & Hst & ->).
    destruct (Hstop trip st Hst) as [E Hcalls].
    exists rid, tid, trip, st. split; [|split; [exact Hrun|split; [exact Hst|]]].
    + assert (Hf : tripAt (Go.filterTimetables server stopID) rid tid = Some trip)
        by (apply filterTimetables_spec; split; assumption).
      rewrite tripAt_union. unfold tripAt in Hf.
      destruct (Go.filterTimetables server stopID !! rid); [exact Hf|discriminate].
    + symmetry. apply Harr. exact E.
Qed.

Lemma arrivals_after_loading_stop_witness :
  exists answer,
    Go.getStopTimetable Sample.snapshot "A" = Go.StatusOK answer /\
    TS.allArrivals (TS.mergeStopTimetable Sample.unmapped answer)
      Sample.clock "08:05:00" ["A"] ≡ₚ
    TS.allArrivals Sample.snapshot Sample.clock "08:05:00" ["A"].
Proof.
  destruct (arrivals_after_loading_stop Sample.snapshot Sample.unmapped "A"
              Sample.stopA Sample.clock "08:05:00")
    as (answer & Hanswer & _ & Hperm).
  - vm_compute. reflexivity.
  - vm_compute. reflexivity.
  - reflexivity.
  - reflexivity.
  - intros r t trip H. exact H.
  - exists answer. split; [exact Hanswer|exact Hperm].
Defined.

(** X11. Loading the detail of a trip adds that one trip under its
    route and leaves every other trip, also those of the same route, as
    it was. The stops of the answer go over the client's stops of the same
    id and the others stay. A shape in the answer is stored under the
    pattern key of the trip's stops; an answer without a shape leaves the
    shapes alone. *)
Theorem mergeTripDetail_adds_one_trip (prev : Snapshot)
    (detail : Go.TripDetailResponse.t) :
  let next := TS.mergeTripDetail prev detail in
  let key := patternKey (Stops (Go.TripDetailResponse.Trip detail)) in
  tripAt (timetablesCache next) (Go.TripDetailResponse.RouteID detail)
    (Go.TripDetailResponse.TripID detail) =
    Some (Go.TripDetailResponse.Trip detail) /\
  (forall r t,
     (r, t) <> (Go.TripDetailResponse.RouteID detail,
                Go.TripDetailResponse.TripID detail) ->
     tripAt (timetablesCache next) r t = tripAt (timetablesCache prev) r t) /\
  (forall id,
     stopsCache next !! id =
     match Go.TripDetailResponse.Stops detail !! id with
     | Some stop => Some stop
     | None => stopsCache prev !! id
     end) /\
  (forall shape,
     Go.TripDetailResponse.Shape detail = Some shape ->
     shapesCache next !! key = Some shape /\
     forall k, k <> key -> shapesCache next !! k = shapesCache prev !! k) /\
  (Go.TripDetailResponse.Shape detail = None ->
   shapesCache next = shapesCache prev).
Proof.
  intros next key. subst next key.
  cbn [TS.mergeTripDetail timetablesCache stopsCache shapesCache].
  split; [|split; [|split; [|split]]].
  - unfold tripAt. rewrite lookup_insert_eq. cbn. apply lookup_insert_eq.
  - intros r t Hne. unfold tripAt.
    destruct (decide (Go.TripDetailResponse.RouteID detail = r)) as [<-|Hr].
    + rewrite lookup_insert_eq. cbn.
      rewrite lookup_insert_ne by congruence.
      destruct (timetablesCache prev !! Go.TripDetailResponse.RouteID detail);
        [reflexivity|apply lookup_empty].
    + rewrite lookup_insert_ne by exact Hr. reflexivity.
  - intros id. rewrite lookup_union.
    destruct (Go.TripDetailResponse.Stops detail !! id);
      destruct (stopsCache prev !! id); reflexivity.
  - intros shape ->. split; [apply lookup_insert_eq|].
    intros k Hk. apply lookup_insert_ne. congruence.
  - intros ->. reflexivity.
Qed.

(** X12. When the client loads the detail of a trip of the server's
    timetable whose times and shape are well formed, it holds the trip
    afterwards, and at every second of the day its own interpolation over
    what it loaded gives the position the server computes for that trip,
    or none where the server has none. This holds also for a trip without
    a stored shape, for which the server sends an empty one. *)
Theorem position_after_loading_trip (server prev : Snapshot)
    (routeID tripID : string) (trip : TripInfo) (now : Z) :
  tripAt (timetablesCache server) routeID tripID = Some trip ->
  wfTrip server trip ->
  exists detail,
    Go.getTripDetail server routeID tripID = Go.StatusOK detail /\
    let next := TS.mergeTripDetail prev detail in
    tripAt (timetablesCache next) routeID tripID = Some trip /\
    Go.calculateBusPosition server trip now (patternKey (Stops trip)) =
      Go.Returns (TS.position (TS.calculateBusPos trip now (shapesCache next))).
Proof.
  intros Hin Hwf. unfold Go.getTripDetail. unfold tripAt in Hin.
  destruct (timetablesCache server !! routeID) as [trips|]; [|discriminate].
  cbn in Hin. rewrite Hin. eexists. split; [reflexivity|].
  cbv zeta.
  cbn [TS.mergeTripDetail timetablesCache shapesCache
         Go.TripDetailResponse.Trip Go.TripDetailResponse.RouteID
         Go.TripDetailResponse.TripID Go.TripDetailResponse.Shape].
  split.
  - unfold tripAt. rewrite lookup_insert_eq. cbn. apply lookup_insert_eq.
  - destruct (calculateBusPosition_reference server trip now Hwf) as [Hgo Hts].
    rewrite Hgo. f_equal. rewrite <- Hts.
    unfold TS.calculateBusPos. rewrite lookup_insert_eq.
    destruct (shapesCache server !! patternKey (Stops trip)) as [shape|];
      [reflexivity|].
    reflexivity.
Qed.

Lemma position_after_loading_trip_witness :
  exists detail,
    Go.getTripDetail Sample.snapshot "R" "T" = Go.StatusOK detail /\
    Go.calculateBusPosition Sample.snapshot Sample.trip 28815
      (patternKey (Stops Sample.trip)) =
    Go.Returns
      (TS.position
         (TS.calculateBusPos Sample.trip 28815
            (shapesCache (TS.mergeTripDetail Sample.unmapped detail)))).
Proof.
  destruct (position_after_loading_trip Sample.snapshot Sample.unmapped
              "R" "T" Sample.trip 28815)
    as (detail & Hdetail & _ & Hpos).
  - vm_compute. reflexivity.
  - exact wfTrip_sample.
  - exists detail. split; [exact Hdetail|exact Hpos].
Defined.

(** ** The search history *)

Lemma filter_differs_ids {foreign : Type} x (h : list string) :
  List.filter (History.differs (foreign := foreign) x) (History.Id <$> h) =
  History.Id <$> List.filter (fun s => negb (String.eqb s x)) h.
Proof.
  induction h as [|s h IH]; [reflexivity|].
  cbn. destruct (String.eqb s x); cbn; rewrite IH; reflexivity.
Qed.

Lemma setItem_ids {foreign : Type} (rewritten : foreign -> foreign) h :
  History.setItem rewritten (History.Id <$> h) = History.Array (History.Id <$> h).
Proof.
  unfold History.setItem. f_equal.
  induction h as [|s h IH]; [reflexivity|]. cbn. f_equal. exact IH.
Qed.

Lemma filter_absent x (h : list string) :
  x ∉ h -> List.filter (fun s => negb (String.eqb s x)) h = h.
Proof.
  induction h as [|s h IH]; intros Hx; [reflexivity|].
  apply not_elem_of_cons in Hx as [Hne Hx]. cbn.
  destruct (String.eqb_spec s x) as [E|_]; [congruence|].
  cbn. f_equal. apply IH, Hx.
Qed.

Lemma filter_reverse {A} (f : A -> bool) l :
  List.filter f (reverse l) = reverse (List.filter f l).
Proof.
  induction l as [|a l IH]; [reflexivity|].
  rewrite reverse_cons, List.filter_app, IH. cbn [List.filter].
  destruct (f a); [rewrite reverse_cons; reflexivity|apply app_nil_r].
Qed.

Lemma take_filter_take x (L : list string) :
  NoDup L -> forall n,
  take n (List.filter (fun s => negb (String.eqb s x)) (take (S n) L)) =
  take n (List.filter (fun s => negb (String.eqb s x)) L).
Proof.
  induction 1 as [|a L Ha HL IH]; intros n; [reflexivity|].
  destruct n as [|n].
  - rewrite !take_0. reflexivity.
  - change (take (S (S n)) (a :: L)) with (a :: take (S n) L).
    cbn [List.filter]. destruct (String.eqb_spec a x) as [->|Hne]; cbn [negb].
    + rewrite !filter_absent; [apply take_idemp|exact Ha|].
      intros Hin. apply Ha. eapply elem_of_sublist; [exact Hin|apply sublist_take].
    + cbn [take]. f_equal. apply IH.
Qed.

Lemma remove_dups_snoc (l : list string) x :
  remove_dups (l ++ [x]) =
  List.filter (fun s => negb (String.eqb s x)) (remove_dups l) ++ [x].
Proof.
  induction l as [|a l IH]; [reflexivity|].
  cbn [app remove_dups]. rewrite IH.
  repeat case_decide; cbn [List.filter];
    destruct (String.eqb_spec a x) as [->|Hne]; cbn [negb app];
    try reflexivity; exfalso;
    repeat match goal with
           | H : context [_ ∈ _ ++ _] |- _ => rewrite elem_of_app in H
           | H : context [_ ∈ [_]] |- _ => rewrite list_elem_of_singleton in H
           end; tauto.
Qed.

Lemma remove_dups_NoDup (l : list string) : NoDup l -> remove_dups l = l.
Proof.
  induction 1 as [|a l Ha Hl IH]; [reflexivity|].
  cbn [remove_dups]. case_decide; [tauto|]. f_equal. exact IH.
Qed.

Lemma sublist_List_filter_fmap {A B} (f : A -> bool) (g : A -> B) l :
  g <$> List.filter f l `sublist_of` g <$> l.
Proof.
  induction l as [|a l IH]; [constructor|].
  cbn. destruct (f a); cbn; [apply sublist_skip|apply sublist_cons]; exact IH.
Qed.

Lemma elem_of_rewritten_filter {foreign : Type} (rewritten : foreign -> foreign)
    x s (l : list (History.entry foreign)) :
  History.Id s ∈ (fun e => match e with
                           | History.Id s => History.Id s
                           | History.Foreign v => History.Foreign (rewritten v)
                           end) <$> List.filter (History.differs x) l <->
  s <> x /\ History.Id s ∈ l.
Proof.
  induction l as [|e l IH].
  - cbn. split; [intros H; inversion H|intros [_ H]; inversion H].
  - cbn [List.filter]. destruct e as [s'|v]; cbn [History.differs].
    + destruct (String.eqb_spec s' x) as [->|Hne]; cbn [negb].
      * rewrite IH, elem_of_cons. split; [tauto|].
        intros [Hs [E|H]]; [congruence|tauto].
      * rewrite fmap_cons, !elem_of_cons, IH. split.
        -- intros [E|[H1 H2]]; [injection E as ->; tauto|tauto].
        -- intros [Hs [E|H]]; [left; exact E|right; tauto].
    + rewrite fmap_cons, !elem_of_cons, IH. split.
      * intros [E|[H1 H2]]; [discriminate|tauto].
      * intros [Hs [E|H]]; [discriminate|tauto].
Qed.

Lemma idsOf_sublist {foreign : Type} (l1 l2 : list (History.entry foreign)) :
  l1 `sublist_of` l2 -> idsOf l1 `sublist_of` idsOf l2.
Proof.
  induction 1 as [|[s|v] l1 l2 _ IH|[s|v] l1 l2 _ IH]; cbn;
    [constructor|apply sublist_skip, IH|exact IH|apply sublist_cons, IH|exact IH].
Qed.

Lemma idsOf_rewritten {foreign : Type} (rewritten : foreign -> foreign)
    (l : list (History.entry foreign)) :
  idsOf ((fun e => match e with
                   | History.Id s => History.Id s
                   | History.Foreign v => History.Foreign (rewritten v)
                   end) <$> l) = idsOf l.
Proof.
  induction l as [|[s|v] l IH]; cbn; [reflexivity|f_equal; exact IH|exact IH].
Qed.

(** X13. Saving a stop to the search history throws a TypeError when
    the stored text is JSON of something that is not an array. In every
    other case, a missing or unreadable item counting as the empty
    history, it stores an array that starts with the stop, holds the stop
    nowhere else, has at most five entries, and whose other entries are
    entries of the old history, other than the stop, in their old order. *)
Theorem saveSearchHistory_puts_first {foreign : Type}
    (rewritten : foreign -> foreign) (stopId : string)
    (st : History.item foreign) :
  match History.getSearchHistory st with
  | History.Other =>
      st = History.NotArray /\
      History.saveSearchHistory rewritten stopId st = History.TypeError
  | History.Arr old =>
      exists rest,
        History.saveSearchHistory rewritten stopId st =
          History.Done (History.Array (History.Id stopId :: rest)) /\
        (length rest <= 4)%nat /\
        (History.Id stopId ∉ rest) /\
        (forall s, History.Id s ∈ rest -> s <> stopId /\ History.Id s ∈ old) /\
        idsOf rest `sublist_of` idsOf old /\
        ((length old <= 4)%nat ->
         forall s, s <> stopId -> History.Id s ∈ old -> History.Id s ∈ rest)
  end.
Proof.
  unfold History.saveSearchHistory.
  destruct (History.getSearchHistory st) as [old|] eqn:E.
  - set (rw := fun e : History.entry foreign =>
                 match e with
                 | History.Id s => History.Id s
                 | History.Foreign v => History.Foreign (rewritten v)
                 end).
    exists (rw <$> take 4 (List.filter (History.differs stopId) old)).
    assert (Hsub : forall s,
               History.Id s ∈ rw <$> take 4 (List.filter (History.differs stopId) old) ->
               s <> stopId /\ History.Id s ∈ old).
    { intros s Hs.
      apply (elem_of_rewritten_filter rewritten stopId s old).
      fold rw. eapply elem_of_sublist; [exact Hs|].
      apply fmap_sublist, sublist_take. }
    split; [reflexivity|]. split; [|split; [|split; [|split]]].
    + rewrite length_fmap, length_take. lia.
    + intros H. apply Hsub in H. tauto.
    + exact Hsub.
    + subst rw. rewrite idsOf_rewritten. apply idsOf_sublist.
      etransitivity; [apply sublist_take|apply sublist_List_filter].
    + intros Hlen s Hs Hin. rewrite take_ge.
      * apply (elem_of_rewritten_filter rewritten stopId s old). tauto.
      * pose proof (List.filter_length_le (History.differs stopId) old). lia.
  - split; [|reflexivity]. destruct st; try discriminate. reflexivity.
Qed.

(** X14. When the stored history is a list of at most five different
    stop ids, saving further stops one after the other never fails, and
    leaves the five most recently used different stops, the most recent
    first: take the stored ids from last to first, then the saved ones in
    their order, keep of each id its last occurrence only, and read the
    last five backwards. *)
Theorem history_is_five_most_recent {foreign : Type}
    (rewritten : foreign -> foreign) (st : History.item foreign)
    (stored ids : list string) :
  History.getSearchHistory st = History.Arr (History.Id <$> stored) ->
  NoDup stored -> (length stored <= 5)%nat ->
  exists st',
    savedInTurn rewritten ids st = History.Done st' /\
    History.getSearchHistory st' =
      History.Arr
        (History.Id <$> take 5 (reverse (remove_dups (reverse stored ++ ids)))).
Proof.
  intros Hst Hnd Hlen. induction ids as [|x ids IH] using rev_ind.
  - exists st. split; [reflexivity|].
    rewrite app_nil_r, remove_dups_NoDup by (rewrite reverse_Permutation; exact Hnd).
    rewrite reverse_involutive, take_ge by lia. exact Hst.
  - destruct IH as (st1 & Hrun & Hget).
    unfold savedInTurn in *. rewrite foldl_app, Hrun. cbn [foldl].
    unfold History.saveSearchHistory. rewrite Hget.
    rewrite filter_differs_ids.
    change (History.Id x :: (History.Id <$> ?l))
      with (History.Id (foreign := foreign) <$> x :: l).
    rewrite <- fmap_take, setItem_ids. eexists. split; [reflexivity|].
    cbn [History.getSearchHistory]. do 2 f_equal.
    rewrite app_assoc, remove_dups_snoc, reverse_snoc.
    change (take 5 (x :: ?l)) with (x :: take 4 l). f_equal.
    rewrite <- filter_reverse. apply take_filter_take.
    rewrite reverse_Permutation. apply NoDup_remove_dups.
Qed.

Lemma history_is_five_most_recent_witness :
  exists st',
    savedInTurn (fun v : Empty_set => v) ["1"; "2"; "3"; "1"; "4"; "5"; "6"; "4"]
      History.Absent = History.Done st' /\
    History.getSearchHistory st' =
      History.Arr (History.Id <$> ["4"; "6"; "5"; "1"; "3"]).
Proof.
  apply (history_is_five_most_recent (fun v : Empty_set => v) History.Absent []
           ["1"; "2"; "3"; "1"; "4"; "5"; "6"; "4"]).
  - reflexivity.
  - constructor.
  - simpl. lia.
Defined.

(** X15. Removing a stop from the search history throws a TypeError
    exactly when the stored text is JSON of something that is not an
    array. Otherwise the stop is not in the stored array afterwards, every
    other stop id is in it exactly if it was before, and the ids left keep
    their order. Removing a stop right after saving it gives back the
    history of before when that was a list of at most four ids without
    the stop; of a list of five, the last is lost. *)
Theorem removeFromSearchHistory_drops_the_stop {foreign : Type}
    (rewritten : foreign -> foreign) (stopId : string)
    (st : History.item foreign) :
  match History.getSearchHistory st with
  | History.Other =>
      st = History.NotArray /\
      History.removeFromSearchHistory rewritten stopId st = History.TypeError
  | History.Arr old =>
      exists kept,
        History.removeFromSearchHistory rewritten stopId st =
          History.Done (History.Array kept) /\
        (forall s, History.Id s ∈ kept <-> s <> stopId /\ History.Id s ∈ old) /\
        idsOf kept `sublist_of` idsOf old /\
        (forall stored st',
           old = History.Id <$> stored -> stopId ∉ stored ->
           History.saveSearchHistory rewritten stopId st = History.Done st' ->
           History.removeFromSearchHistory rewritten stopId st' =
             History.Done (History.Array (History.Id <$> take 4 stored)))
  end.
Proof.
  unfold History.removeFromSearchHistory, History.saveSearchHistory.
  destruct (History.getSearchHistory st) as [old|] eqn:E.
  - eexists. split; [reflexivity|]. split; [|split].
    + intros s. apply elem_of_rewritten_filter.
    + rewrite idsOf_rewritten. apply idsOf_sublist, sublist_List_filter.
    + intros stored st' -> Hnot Hsave. cbv zeta in Hsave. injection Hsave as <-.
      rewrite filter_differs_ids, filter_absent by exact Hnot.
      rewrite <- fmap_take.
      change (History.Id stopId :: (History.Id <$> take 4 stored))
        with (History.Id (foreign := foreign) <$> stopId :: take 4 stored).
      rewrite setItem_ids. cbn [History.getSearchHistory].
      rewrite filter_differs_ids, setItem_ids. do 3 f_equal.
      cbn [List.filter]. rewrite String.eqb_refl. cbn [negb].
      apply filter_absent. intros Hin. apply Hnot.
      eapply elem_of_sublist; [exact Hin|apply sublist_take].
  - split; [|reflexivity]. destruct st; try discriminate. reflexivity.
Qed.

(** ** The search box *)

Lemma within_spec lo hi c :
  Search.within lo hi c = true <-> (lo <= c <= hi)%N.
Proof.
  unfold Search.within. rewrite andb_true_iff, !N.leb_le. reflexivity.
Qed.

Lemma within_false lo hi c :
  Search.within lo hi c = false <-> ~ (lo <= c <= hi)%N.
Proof.
  rewrite <- within_spec. destruct (Search.within lo hi c).
  - split; [discriminate|]. intros H. exfalso. apply H. reflexivity.
  - split; [intros _ H; discriminate|reflexivity].
Qed.

Lemma isKanji_unit c :
  Search.isKanji [c] = true <->
  ((0x4E00 <= c <= 0x9FAF) \/ (0x3400 <= c <= 0x4DBF))%N.
Proof.
  unfold Search.isKanji. cbn [existsb].
  rewrite orb_false_r, orb_true_iff, !within_spec. reflexivity.
Qed.

Lemma isKana_unit c :
  Search.isKana [c] = true <->
  ((0x3040 <= c <= 0x309F) \/ (0x30A0 <= c <= 0x30FF))%N.
Proof.
  unfold Search.isKana. cbn [existsb].
  rewrite orb_false_r, orb_true_iff, !within_spec. reflexivity.
Qed.

Lemma kana_not_kanji c : Search.isKana [c] = true -> Search.isKanji [c] = false.
Proof.
  intros H. apply isKana_unit in H. apply not_true_iff_false. intros H2.
  apply isKanji_unit in H2. lia.
Qed.

Lemma other_unit_fixed c :
  Search.isKana [c] = false -> Search.katakanaToHiragana [c] = [c].
Proof.
  intros H. unfold Search.katakanaToHiragana. cbn [map].
  destruct (Search.within 0x30A1 0x30F6 c) eqn:E; [|reflexivity].
  apply within_spec in E. apply not_true_iff_false in H. exfalso. apply H.
  apply isKana_unit. lia.
Qed.

Lemma startsWith_nil s : Search.startsWith s [] = true.
Proof. destruct s; reflexivity. Qed.

Lemma codePoints_units q :
  Forall (fun c => Search.within 0xD800 0xDBFF c = false) q ->
  Search.codePoints q = map (fun c => [c]) q.
Proof.
  induction 1 as [|h rest Hh Hrest IH]; [reflexivity|].
  cbn [Search.codePoints map]. rewrite <- IH.
  destruct rest as [|l rest']; [reflexivity|].
  rewrite Hh. reflexivity.
Qed.

Lemma indexFrom_unit c s : forall i,
  match Search.indexFrom [c] s i with
  | Some k =>
      exists pre rest,
        s = pre ++ c :: rest /\ (c ∉ pre) /\ k = (i + length pre)%nat
  | None => c ∉ s
  end.
Proof.
  induction s as [|a s IH]; intros i.
  - cbn. apply not_elem_of_nil.
  - cbn [Search.indexFrom Search.startsWith]. rewrite startsWith_nil, andb_true_r.
    destruct (N.eqb_spec c a) as [<-|Hne].
    + exists [], s. split; [reflexivity|]. split; [apply not_elem_of_nil|].
      cbn. lia.
    + specialize (IH (S i)). destruct (Search.indexFrom [c] s (S i)) as [k|].
      * destruct IH as (pre & rest & -> & Hpre & ->).
        exists (a :: pre), rest. split; [reflexivity|].
        split; [|cbn; lia]. apply not_elem_of_cons. tauto.
      * apply not_elem_of_cons. tauto.
Qed.

Lemma indexOf_unit s c position :
  match Search.indexOf s [c] position with
  | Some k =>
      exists pre, drop position s = pre ++ c :: drop (S k) s /\ c ∉ pre
  | None => c ∉ drop position s
  end.
Proof.
  unfold Search.indexOf.
  pose proof (indexFrom_unit c (drop position s)
                (Nat.min position (length s))) as H.
  destruct (Search.indexFrom _ _ _) as [k|]; [|exact H].
  destruct H as (pre & rest & E & Hpre & ->).
  exists pre. split; [|exact Hpre]. rewrite E. do 2 f_equal.
  destruct (le_lt_dec position (length s)) as [Hle|Hlt].
  - rewrite Nat.min_l by exact Hle.
    replace (S (position + length pre))
      with (position + length (pre ++ [c]))%nat
      by (rewrite length_app; cbn; lia).
    rewrite <- drop_drop, E, (cons_middle c pre rest), app_assoc, drop_app_length.
    reflexivity.
  - rewrite drop_ge in E by lia. destruct pre; discriminate.
Qed.

Lemma sublist_leftmost {A} (c : A) q pre rest :
  c ∉ pre -> c :: q `sublist_of` pre ++ c :: rest <-> q `sublist_of` rest.
Proof.
  intros Hpre. split.
  - induction pre as [|a pre IH]; cbn [app]; intros H.
    + apply sublist_cons_r in H as [H|(l' & E & H)].
      * etransitivity; [apply sublist_cons; reflexivity|exact H].
      * injection E as <-. exact H.
    + apply not_elem_of_cons in Hpre as [Hne Hpre].
      apply sublist_cons_r in H as [H|(l' & E & H)].
      * apply IH; assumption.
      * injection E as E _. congruence.
  - intros H. apply sublist_inserts_l, sublist_skip, H.
Qed.

Lemma sublist_head_elem {A} (c : A) q l : c :: q `sublist_of` l -> c ∈ l.
Proof.
  intros H. eapply elem_of_sublist; [|exact H]. apply elem_of_cons. left.
  reflexivity.
Qed.

Lemma matchFrom_name_track name yomi q : forall namePos yomiPos,
  Forall (fun c => Search.isKana [c] = false) q ->
  q `sublist_of` drop namePos name ->
  Search.matchFrom name yomi namePos yomiPos (map (fun c => [c]) q) = true.
Proof.
  induction q as [|c q IH]; intros namePos yomiPos Hq Hsub; [reflexivity|].
  apply Forall_cons in Hq as [Hc Hq]. cbn [map Search.matchFrom].
  pose proof (indexOf_unit name c namePos) as Hidx.
  destruct (Search.indexOf name [c] namePos) as [k|];
    [|exfalso; apply Hidx; eapply sublist_head_elem; exact Hsub].
  destruct Hidx as (pre & E & Hpre). rewrite E in Hsub.
  apply sublist_leftmost in Hsub; [|exact Hpre].
  rewrite Hc. destruct (Search.isKanji [c]); [apply IH; assumption|].
  destruct (Search.indexOf yomi [c] yomiPos); apply IH; assumption.
Qed.

Lemma matchFrom_yomi_track name yomi q : forall namePos yomiPos,
  Forall (fun c => Search.isKanji [c] = false) q ->
  Search.katakanaToHiragana q `sublist_of` drop yomiPos yomi ->
  Search.matchFrom name yomi namePos yomiPos (map (fun c => [c]) q) = true.
Proof.
  induction q as [|c q IH]; intros namePos yomiPos Hq Hsub; [reflexivity|].
  apply Forall_cons in Hq as [Hc Hq]. cbn [map Search.matchFrom].
  rewrite Hc.
  change (Search.katakanaToHiragana (c :: q))
    with (Search.katakanaToHiragana [c] ++ Search.katakanaToHiragana q) in Hsub.
  destruct (Search.isKana [c]) eqn:Ek.
  - change (Search.katakanaToHiragana [c])
      with [if Search.within 0x30A1 0x30F6 c then (c - 0x60)%N else c] in *.
    set (h := if Search.within 0x30A1 0x30F6 c then (c - 0x60)%N else c) in *.
    cbn [app] in Hsub.
    pose proof (indexOf_unit yomi h yomiPos) as Hidx.
    destruct (Search.indexOf yomi [h] yomiPos) as [k|];
      [|exfalso; apply Hidx; eapply sublist_head_elem; exact Hsub].
    destruct Hidx as (pre & E & Hpre). rewrite E in Hsub.
    apply sublist_leftmost in Hsub; [|exact Hpre].
    apply IH; assumption.
  - rewrite (other_unit_fixed c Ek) in Hsub. cbn [app] in Hsub.
    pose proof (indexOf_unit yomi c yomiPos) as Hidx.
    destruct (Search.indexOf yomi [c] yomiPos) as [k|];
      [|exfalso; apply Hidx; eapply sublist_head_elem; exact Hsub].
    destruct Hidx as (pre & E & Hpre). rewrite E in Hsub.
    apply sublist_leftmost in Hsub; [|exact Hpre].
    destruct (Search.indexOf name [c] namePos); apply IH; assumption.
Qed.

Lemma matchFrom_kanji name yomi q : forall namePos yomiPos,
  Forall (fun c => Search.isKanji [c] = true) q ->
  Search.matchFrom name yomi namePos yomiPos (map (fun c => [c]) q) = true ->
  q `sublist_of` drop namePos name.
Proof.
  induction q as [|c q IH]; intros namePos yomiPos Hq Hm; [apply sublist_nil_l|].
  apply Forall_cons in Hq as [Hc Hq]. cbn [map Search.matchFrom] in Hm.
  rewrite Hc in Hm.
  pose proof (indexOf_unit name c namePos) as Hidx.
  destruct (Search.indexOf name [c] namePos) as [k|]; [|discriminate].
  destruct Hidx as (pre & E & Hpre). rewrite E.
  apply sublist_leftmost; [exact Hpre|]. eapply IH; eassumption.
Qed.

Lemma matchFrom_kana name yomi q : forall namePos yomiPos,
  Forall (fun c => Search.isKana [c] = true) q ->
  Search.matchFrom name yomi namePos yomiPos (map (fun c => [c]) q) = true ->
  Search.katakanaToHiragana q `sublist_of` drop yomiPos yomi.
Proof.
  induction q as [|c q IH]; intros namePos yomiPos Hq Hm; [apply sublist_nil_l|].
  apply Forall_cons in Hq as [Hc Hq]. cbn [map Search.matchFrom] in Hm.
  rewrite (kana_not_kanji c Hc), Hc in Hm.
  change (Search.katakanaToHiragana [c])
    with [if Search.within 0x30A1 0x30F6 c then (c - 0x60)%N else c] in Hm.
  change (Search.katakanaToHiragana (c :: q))
    with ((if Search.within 0x30A1 0x30F6 c then (c - 0x60)%N else c)
            :: Search.katakanaToHiragana q).
  set (h := if Search.within 0x30A1 0x30F6 c then (c - 0x60)%N else c) in *.
  pose proof (indexOf_unit yomi h yomiPos) as Hidx.
  destruct (Search.indexOf yomi [h] yomiPos) as [k|]; [|discriminate].
  destruct Hidx as (pre & E & Hpre). rewrite E.
  apply sublist_leftmost; [exact Hpre|]. eapply IH; eassumption.
Qed.

Lemma kanji_units_plain q :
  Forall (fun c => Search.isKanji [c] = true) q ->
  Forall (fun c => Search.within 0xD800 0xDBFF c = false) q.
Proof.
  intros Hq. eapply Forall_impl; [exact Hq|]. intros c H.
  apply isKanji_unit in H. apply within_false. lia.
Qed.

Lemma kana_units_plain q :
  Forall (fun c => Search.isKana [c] = true) q ->
  Forall (fun c => Search.within 0xD800 0xDBFF c = false) q.
Proof.
  intros Hq. eapply Forall_impl; [exact Hq|]. intros c H.
  apply isKana_unit in H. apply within_false. lia.
Qed.

(** X16. Turning katakana into hiragana keeps the length of the text,
    leaves no code unit from U+30A1 to U+30F6 in it, changes nothing in a
    text without such a code unit, and so does nothing when applied a
    second time. It works code unit by code unit: the result of a
    concatenation is the concatenation of the results. *)
Theorem katakanaToHiragana_normalises (str : Search.text) :
  length (Search.katakanaToHiragana str) = length str /\
  Forall (fun c => Search.within 0x30A1 0x30F6 c = false)
    (Search.katakanaToHiragana str) /\
  (Forall (fun c => Search.within 0x30A1 0x30F6 c = false) str ->
   Search.katakanaToHiragana str = str) /\
  Search.katakanaToHiragana (Search.katakanaToHiragana str) =
    Search.katakanaToHiragana str /\
  (forall more,
     Search.katakanaToHiragana (str ++ more) =
     Search.katakanaToHiragana str ++ Search.katakanaToHiragana more).
Proof.
  assert (Hclean : forall s,
             Forall (fun c => Search.within 0x30A1 0x30F6 c = false)
               (Search.katakanaToHiragana s)).
  { intros s. unfold Search.katakanaToHiragana.
    induction s as [|c s IH]; constructor; [|exact IH].
    destruct (Search.within 0x30A1 0x30F6 c) eqn:E; [|exact E].
    apply within_spec in E. apply within_false. lia. }
  assert (Hfix : forall s,
             Forall (fun c => Search.within 0x30A1 0x30F6 c = false) s ->
             Search.katakanaToHiragana s = s).
  { intros s. unfold Search.katakanaToHiragana.
    induction 1 as [|c s Hc Hs IH]; [reflexivity|].
    cbn [map]. rewrite Hc, IH. reflexivity. }
  split; [apply length_map|]. split; [apply Hclean|]. split; [apply Hfix|].
  split; [apply Hfix, Hclean|]. intros more. apply map_app.
Qed.

(** X17. For a query made of kanji only, the match of the search box
    succeeds exactly when the characters of the query occur in the name
    in their order, with any characters between them; the reading plays
    no part. *)
Theorem flexibleMatch_kanji_query (name yomi query : Search.text) :
  Forall (fun c => Search.isKanji [c] = true) query ->
  Search.flexibleMatch name yomi query = true <-> query `sublist_of` name.
Proof.
  intros Hq. unfold Search.flexibleMatch.
  rewrite (codePoints_units query (kanji_units_plain query Hq)). split.
  - intros H. apply (matchFrom_kanji name yomi query 0 0 Hq H).
  - intros H. apply matchFrom_name_track; [|exact H].
    eapply Forall_impl; [exact Hq|]. intros c Hc.
    destruct (Search.isKana [c]) eqn:E; [|reflexivity].
    apply kana_not_kanji in E. congruence.
Qed.

Lemma flexibleMatch_kanji_query_witness :
  Search.flexibleMatch [0x4ED9; 0x53F0; 0x99C5]%N [0x305B; 0x3093]%N
    [0x4ED9; 0x99C5]%N = true <->
  [0x4ED9; 0x99C5]%N `sublist_of` [0x4ED9; 0x53F0; 0x99C5]%N.
Proof.
  apply (flexibleMatch_kanji_query [0x4ED9; 0x53F0; 0x99C5]%N [0x305B; 0x3093]%N
           [0x4ED9; 0x99C5]%N).
  repeat constructor.
Defined.

(** X18. For a query made of hiragana and katakana only, the match of
    the search box succeeds exactly when the characters of the query, its
    katakana turned into hiragana, occur in the reading in their order,
    with any characters between them. The reading is taken as it is: a
    katakana character in it is matched by no query of this kind. *)
Theorem flexibleMatch_kana_query (name yomi query : Search.text) :
  Forall (fun c => Search.isKana [c] = true) query ->
  (Search.flexibleMatch name yomi query = true <->
   Search.katakanaToHiragana query `sublist_of` yomi) /\
  (forall c, Search.within 0x30A1 0x30F6 c = true ->
     Search.flexibleMatch name [c] query = true -> query = []).
Proof.
  intros Hq. unfold Search.flexibleMatch.
  rewrite (codePoints_units query (kana_units_plain query Hq)).
  assert (Hiff : forall yomi,
             Search.matchFrom name yomi 0 0 (map (fun c => [c]) query) = true <->
             Search.katakanaToHiragana query `sublist_of` yomi).
  { intros y. split.
    - intros H. apply (matchFrom_kana name y query 0 0 Hq H).
    - intros H. apply matchFrom_yomi_track; [|exact H].
      eapply Forall_impl; [exact Hq|]. intros c. apply kana_not_kanji. }
  split; [apply Hiff|].
  intros c Hc H. apply Hiff in H.
  destruct query as [|q query]; [reflexivity|]. exfalso.
  apply sublist_head_elem in H. apply list_elem_of_singleton in H.
  apply within_spec in Hc. revert H.
  destruct (Search.within 0x30A1 0x30F6 q) eqn:E.
  - apply within_spec in E. lia.
  - intros ->. apply within_false in E. lia.
Qed.

Lemma flexibleMatch_kana_query_witness :
  Search.flexibleMatch [0x4ED9; 0x53F0]%N [0x305B; 0x3093; 0x3060; 0x3044]%N
    [0x30BB; 0x3060]%N = true <->
  Search.katakanaToHiragana [0x30BB; 0x3060]%N
    `sublist_of` [0x305B; 0x3093; 0x3060; 0x3044]%N.
Proof.
  apply (flexibleMatch_kana_query [0x4ED9; 0x53F0]%N
           [0x305B; 0x3093; 0x3060; 0x3044]%N [0x30BB; 0x3060]%N).
  repeat constructor.
Defined.

(** X19. A query without surrogate code units matches whenever it has
    no kana and its characters occur in the name in their order, and
    whenever it has no kanji and its characters, katakana turned into
    hiragana, occur in the reading in their order. The empty query
    matches every stop. *)
Theorem flexibleMatch_one_track (name yomi query : Search.text) :
  Forall (fun c => Search.within 0xD800 0xDBFF c = false) query ->
  (Forall (fun c => Search.isKana [c] = false) query ->
   query `sublist_of` name -> Search.flexibleMatch name yomi query = true) /\
  (Forall (fun c => Search.isKanji [c] = false) query ->
   Search.katakanaToHiragana query `sublist_of` yomi ->
   Search.flexibleMatch name yomi query = true) /\
  Search.flexibleMatch name yomi [] = true.
Proof.
  intros Hq. unfold Search.flexibleMatch. rewrite (codePoints_units query Hq).
  split; [|split; [|reflexivity]].
  - intros Hk Hsub. apply matchFrom_name_track; assumption.
  - intros Hk Hsub. apply matchFrom_yomi_track; assumption.
Qed.

Lemma flexibleMatch_one_track_witness :
  Search.flexibleMatch [0x4ED9; 0x31; 0x53F0; 0x32]%N [0x305B]%N
    [0x4ED9; 0x32]%N = true.
Proof.
  apply (flexibleMatch_one_track [0x4ED9; 0x31; 0x53F0; 0x32]%N [0x305B]%N
           [0x4ED9; 0x32]%N); repeat constructor.
Defined.

(** ** The data preparation script *)

Ltac cmp_cases :=
  repeat match goal with
         | H : context [Z.compare ?a ?b] |- _ =>
             destruct (Z.compare_spec a b); try subst
         | |- context [Z.compare ?a ?b] =>
             destruct (Z.compare_spec a b); try subst
         | H : context [Pos.compare_cont Eq ?a ?b] |- _ =>
             change (Pos.compare_cont Eq a b) with (Pos.compare a b) in *;
             destruct (Pos.compare_spec a b); try subst
         | |- context [Pos.compare_cont Eq ?a ?b] =>
             change (Pos.compare_cont Eq a b) with (Pos.compare a b) in *;
             destruct (Pos.compare_spec a b); try subst
         end;
  cbn in *; try discriminate; try reflexivity; try lia.

Lemma SFcompare_lt_trans a b c :
  SFcompare a b = Some Lt -> SFcompare b c = Some Lt -> SFcompare a c = Some Lt.
Proof.
  destruct a as [[|]|[|]| |[|] ma ea], b as [[|]|[|]| |[|] mb eb],
           c as [[|]|[|]| |[|] mc ec];
    cbn; intros Hab Hbc; try discriminate; try reflexivity; cmp_cases.
Qed.

Lemma SFcompare_eq_lt_trans a b c :
  SFcompare a b = Some Eq -> SFcompare b c = Some Lt -> SFcompare a c = Some Lt.
Proof.
  destruct a as [[|]|[|]| |[|] ma ea], b as [[|]|[|]| |[|] mb eb],
           c as [[|]|[|]| |[|] mc ec];
    cbn; intros Hab Hbc; try discriminate; try reflexivity; cmp_cases.
Qed.

Lemma SFcompare_lt_gt a b : SFcompare a b = Some Lt -> SFcompare b a = Some Gt.
Proof.
  destruct a as [[|]|[|]| |[|] ma ea], b as [[|]|[|]| |[|] mb eb];
    cbn; intros Hab; try discriminate; try reflexivity; cmp_cases.
Qed.

Lemma SFltb_lt a b : SFltb a b = true <-> SFcompare a b = Some Lt.
Proof.
  unfold SFltb. destruct (SFcompare a b) as [[| |]|]; split; congruence.
Qed.

Lemma SFltb_trans a b c :
  SFltb a b = true -> SFltb b c = true -> SFltb a c = true.
Proof. rewrite !SFltb_lt. apply SFcompare_lt_trans. Qed.

Lemma SFleb_ltb_trans a b c :
  SFleb a b = true -> SFltb b c = true -> SFltb a c = true.
Proof.
  rewrite !SFltb_lt. unfold SFleb.
  destruct (SFcompare a b) as [[| |]|] eqn:E; try discriminate; intros _.
  - apply SFcompare_eq_lt_trans. exact E.
  - apply SFcompare_lt_trans. exact E.
Qed.

Lemma SFltb_not_leb a b : SFltb a b = true -> SFleb b a = false.
Proof.
  rewrite SFltb_lt. intros H. unfold SFleb.
  rewrite (SFcompare_lt_gt a b H). reflexivity.
Qed.

Lemma SFltb_leb a b : SFltb a b = true -> SFleb a b = true.
Proof. rewrite SFltb_lt. unfold SFleb. intros ->. reflexivity. Qed.

Lemma SFltb_not_gtb a b : SFltb a b = true -> SFltb b a = false.
Proof.
  intros H. destruct (SFltb b a) eqn:E; [|reflexivity].
  apply SFltb_leb in E. apply SFltb_not_leb in H. congruence.
Qed.

Lemma SFltb_irrefl a : SFltb a a = false.
Proof.
  destruct (SFltb a a) eqn:E; [|reflexivity].
  pose proof (SFltb_not_gtb a a E). congruence.
Qed.

Section NearestFacts.

Variable square : F64.float -> F64.float.

Local Abbreviation d stop p := (Prep.distance square p stop).

Lemma scan_spec stop : forall rest i closestDist closestIdx,
  (Prep.scan square stop rest i closestDist closestIdx = closestIdx /\
   forall p, p ∈ rest -> SFltb (d stop p) closestDist = false) \/
  (exists j pk,
     rest !! j = Some pk /\
     Prep.scan square stop rest i closestDist closestIdx = (i + j)%nat /\
     SFltb (d stop pk) closestDist = true /\
     (forall p, p ∈ rest -> SFltb (d stop p) (d stop pk) = false) /\
     (forall j' p, (j' < j)%nat -> rest !! j' = Some p ->
        SFleb (d stop p) (d stop pk) = false)).
Proof.
  induction rest as [|p rest IH]; intros i cd ci.
  - left. split; [reflexivity|]. intros p Hp. inversion Hp.
  - cbn [Prep.scan]. destruct (SFltb (d stop p) cd) eqn:E.
    + right. destruct (IH (S i) (d stop p) i) as [[-> Hall]|(j & pk & Hj & -> & Hlt & Hall & Hfirst)].
      * exists 0%nat, p. split; [reflexivity|]. split; [lia|]. split; [exact E|].
        split; [|intros j' p' Hlt; lia].
        intros p' Hp'. apply elem_of_cons in Hp' as [->|Hp'];
          [apply SFltb_irrefl|apply Hall, Hp'].
      * exists (S j), pk. split; [exact Hj|]. split; [lia|].
        split; [eapply SFltb_trans; eassumption|]. split.
        -- intros p' Hp'. apply elem_of_cons in Hp' as [->|Hp'];
             [apply SFltb_not_gtb, Hlt|apply Hall, Hp'].
        -- intros [|j'] p' Hj' Hp'.
           ++ injection Hp' as <-. apply SFltb_not_leb, Hlt.
           ++ apply (Hfirst j'); [lia|exact Hp'].
    + destruct (IH (S i) cd ci) as [[-> Hall]|(j & pk & Hj & -> & Hlt & Hall & Hfirst)].
      * left. split; [reflexivity|].
        intros p' Hp'. apply elem_of_cons in Hp' as [->|Hp'];
          [exact E|apply Hall, Hp'].
      * right. exists (S j), pk. split; [exact Hj|]. split; [lia|].
        split; [exact Hlt|]. split.
        -- intros p' Hp'. apply elem_of_cons in Hp' as [->|Hp']; [|apply Hall, Hp'].
           destruct (SFltb (d stop p) (d stop pk)) eqn:E2; [|reflexivity].
           rewrite (SFltb_trans _ _ _ E2 Hlt) in E. discriminate.
        -- intros [|j'] p' Hj' Hp'.
           ++ injection Hp' as <-.
              destruct (SFleb (d stop p) (d stop pk)) eqn:E2; [|reflexivity].
              rewrite (SFleb_ltb_trans _ _ _ E2 Hlt) in E. discriminate.
           ++ apply (Hfirst j'); [lia|exact Hp'].
Qed.

Lemma closest_spec fullCoordinates stopIndices stop :
  let start := default 0%nat (last stopIndices) in
  let k := Prep.closest square fullCoordinates stopIndices stop in
  (k = 0%nat /\
   forall j p, (start <= j)%nat -> fullCoordinates !! j = Some p ->
     SFltb (d stop p) Prep.Infinity = false) \/
  (exists pk,
     fullCoordinates !! k = Some pk /\ (start <= k)%nat /\
     SFltb (d stop pk) Prep.Infinity = true /\
     (forall j p, (start <= j)%nat -> fullCoordinates !! j = Some p ->
        SFltb (d stop p) (d stop pk) = false) /\
     (forall j p, (start <= j < k)%nat -> fullCoordinates !! j = Some p ->
        SFleb (d stop p) (d stop pk) = false)).
Proof.
  intros start k. subst k. unfold Prep.closest. fold start.
  assert (Hdrop : forall j p, (start <= j)%nat -> fullCoordinates !! j = Some p ->
                    p ∈ drop start fullCoordinates).
  { intros j p Hj Hp. apply list_elem_of_lookup. exists (j - start)%nat.
    rewrite lookup_drop. replace (start + (j - start))%nat with j by lia.
    exact Hp. }
  destruct (scan_spec stop (drop start fullCoordinates) start Prep.Infinity 0%nat)
    as [[-> Hall]|(j & pk & Hj & -> & Hlt & Hall & Hfirst)].
  - left. split; [reflexivity|]. intros j p Hj Hp. eapply Hall, Hdrop; eassumption.
  - right. exists pk. rewrite lookup_drop in Hj. split; [exact Hj|].
    split; [lia|]. split; [exact Hlt|]. split.
    + intros j' p Hj' Hp. eapply Hall, Hdrop; eassumption.
    + intros j' p Hj' Hp. apply (Hfirst (j' - start)%nat); [lia|].
      rewrite lookup_drop. replace (start + (j' - start))%nat with j' by lia.
      exact Hp.
Qed.

Lemma assign_snoc fullCoordinates stopCoords stop :
  Prep.assignStopIndices square fullCoordinates (stopCoords ++ [stop]) =
  Prep.assignStopIndices square fullCoordinates stopCoords ++
    [Prep.closest square fullCoordinates
       (Prep.assignStopIndices square fullCoordinates stopCoords) stop].
Proof. unfold Prep.assignStopIndices. rewrite foldl_app. reflexivity. Qed.

Lemma assign_length fullCoordinates stopCoords :
  length (Prep.assignStopIndices square fullCoordinates stopCoords) =
  length stopCoords.
Proof.
  induction stopCoords as [|stop l IH] using rev_ind; [reflexivity|].
  rewrite assign_snoc, !length_app, IH. reflexivity.
Qed.

Lemma assign_lookup fullCoordinates stopCoords n stop :
  stopCoords !! n = Some stop ->
  Prep.assignStopIndices square fullCoordinates stopCoords !! n =
  Some (Prep.closest square fullCoordinates
          (take n (Prep.assignStopIndices square fullCoordinates stopCoords))
          stop).
Proof.
  induction stopCoords as [|x l IH] using rev_ind; intros Hn; [discriminate|].
  rewrite assign_snoc.
  pose proof (assign_length fullCoordinates l) as Hlen.
  destruct (decide (n < length l)%nat) as [Hlt|Hge].
  - rewrite lookup_app_l in Hn by exact Hlt.
    rewrite lookup_app_l by lia. rewrite take_app_le by lia. apply IH, Hn.
  - assert (n = length l) as ->.
    { apply lookup_lt_Some in Hn. rewrite length_app in Hn. cbn in Hn. lia. }
    rewrite list_lookup_middle in Hn by reflexivity. injection Hn as ->.
    rewrite list_lookup_middle by (symmetry; exact Hlen).
    rewrite take_app_le, take_ge by lia. reflexivity.
Qed.

Lemma last_take_S {A} (l : list A) m :
  (m < length l)%nat -> last (take (S m) l) = l !! m.
Proof.
  intros H. rewrite last_lookup, length_take, Nat.min_l by lia.
  cbn [pred]. apply lookup_take_lt. lia.
Qed.

End NearestFacts.

Lemma nondecreasing_snoc l x :
  nondecreasing l = true -> (forall a, last l = Some a -> a <= x) ->
  nondecreasing (l ++ [x]) = true.
Proof.
  induction l as [|a l IH]; intros Hl Hx; [reflexivity|].
  destruct l as [|b l].
  - cbn. rewrite andb_true_r. apply Z.leb_le, Hx. reflexivity.
  - cbn [app nondecreasing] in *. apply andb_true_iff in Hl as [Hab Hl].
    rewrite Hab. cbn [andb]. apply IH; [exact Hl|]. exact Hx.
Qed.

(** X20. The data preparation gives every stop of a pattern one index.
    It is the index of a coordinate of the line at or after the index of
    the stop before (the first coordinate for the first stop) that is
    nearest to the stop: no coordinate from there on is nearer, and none
    before it is as near. When no coordinate from there on has a distance
    below infinity, the index is 0, also after a stop with a greater
    index. *)
Theorem assignStopIndices_nearest (square : F64.float -> F64.float)
    (fullCoordinates : list coord) (stopCoords : list StopInfo) :
  let stopIndices := Prep.assignStopIndices square fullCoordinates stopCoords in
  length stopIndices = length stopCoords /\
  forall n stop,
    stopCoords !! n = Some stop ->
    let start :=
      match n with
      | O => 0%nat
      | S m => default 0%nat (stopIndices !! m)
      end in
    exists k,
      stopIndices !! n = Some k /\
      ((k = 0%nat /\
        forall j p, (start <= j)%nat -> fullCoordinates !! j = Some p ->
          SFltb (Prep.distance square p stop) Prep.Infinity = false) \/
       (exists pk,
          fullCoordinates !! k = Some pk /\ (start <= k)%nat /\
          SFltb (Prep.distance square pk stop) Prep.Infinity = true /\
          (forall j p, (start <= j)%nat -> fullCoordinates !! j = Some p ->
             SFltb (Prep.distance square p stop)
               (Prep.distance square pk stop) = false) /\
          (forall j p, (start <= j < k)%nat -> fullCoordinates !! j = Some p ->
             SFleb (Prep.distance square p stop)
               (Prep.distance square pk stop) = false))).
Proof.
  intros stopIndices. split; [apply assign_length|].
  intros n stop Hn start. eexists. split; [apply assign_lookup, Hn|].
  pose proof (closest_spec square fullCoordinates (take n stopIndices) stop) as H.
  cbv zeta in H.
  assert (Hstart : default 0%nat (last (take n stopIndices)) = start).
  { subst start. destruct n as [|m]; [rewrite take_0; reflexivity|].
    rewrite last_take_S; [reflexivity|].
    apply lookup_lt_Some in Hn. subst stopIndices. rewrite assign_length. lia. }
  rewrite Hstart in H. exact H.
Qed.

(** X21. For a trip all of whose stops are in the stop table, the
    shape the data preparation writes is well formed for the trip, one
    index per stop, in non-decreasing order and within the line, when
    every coordinate of the line has a distance below infinity to every
    stop and the line has at most 2^53 coordinates. With a stop that is
    not in the table the shape has fewer indices than the trip has
    stops. *)
Theorem generatedShape_well_formed (square : F64.float -> F64.float)
    (stopsJson : gmap string StopInfo) (stops : list TripStop)
    (fullCoordinates : list coord) :
  let stopCoords := Prep.knownStops stopsJson (StopID <$> stops) in
  let shape := Prep.generatedShape square fullCoordinates stopCoords in
  (length stopCoords = length stops ->
   forallb (fun stop =>
              forallb (fun p => SFltb (Prep.distance square p stop) Prep.Infinity)
                fullCoordinates) stopCoords = true ->
   Z.of_nat (length fullCoordinates) <= 2 ^ 53 ->
   wfShape stops shape = true /\
   Forall (fun i => fullCoordinates = [] \/
                    0 <= i < Z.of_nat (length fullCoordinates))
     (StopIndices shape)) /\
  ((exists ts, ts ∈ stops /\ stopsJson !! StopID ts = None) ->
   (length (StopIndices shape) < length stops)%nat /\
   wfShape stops shape = false).
Proof.
  intros stopCoords shape. subst shape. split.
  - intros Hlen Hd Hsize. unfold wfShape, Prep.generatedShape.
    cbn [StopIndices stop_indices items]. rewrite length_map, assign_length, Hlen, Nat.eqb_refl.
    cbn [andb]. clear Hlen. revert Hd. generalize stopCoords. clear stopCoords.
    intros stopCoords Hd.
    assert (Hinv :
      nondecreasing
        (map Z.of_nat (Prep.assignStopIndices square fullCoordinates stopCoords))
        = true /\
      Forall (fun k => (k < Nat.max 1 (length fullCoordinates))%nat)
        (Prep.assignStopIndices square fullCoordinates stopCoords)).
    { induction stopCoords as [|stop l IH] using rev_ind;
        [split; [reflexivity|constructor]|].
      rewrite forallb_app in Hd. apply andb_true_iff in Hd as [Hl Hstop].
      cbn [forallb] in Hstop. rewrite andb_true_r in Hstop.
      destruct (IH Hl) as [Hsorted Hrange]. rewrite assign_snoc.
      set (r := Prep.assignStopIndices square fullCoordinates l) in *.
      pose proof (closest_spec square fullCoordinates r stop) as Hc.
      cbv zeta in Hc.
      set (k := Prep.closest square fullCoordinates r stop) in *.
      assert (Hstart : (default 0 (last r) < Nat.max 1 (length fullCoordinates))%nat).
      { destruct (last r) as [a|] eqn:El; [|cbn; lia].
        cbn. rewrite Forall_forall in Hrange. apply Hrange.
        rewrite last_lookup in El. apply list_elem_of_lookup. eauto. }
      assert (Hk : (default 0 (last r) <= k)%nat /\
                   (k < Nat.max 1 (length fullCoordinates))%nat).
      { destruct Hc as [[-> Hnone]|(pk & Hpk & Hle & _)].
        - split; [|lia].
          destruct (fullCoordinates !! default 0%nat (last r)) as [p|] eqn:Ep.
          + specialize (Hnone _ p (Nat.le_refl _) Ep).
            rewrite forallb_forall in Hstop.
            rewrite Hstop in Hnone; [discriminate|].
            apply list_elem_of_In, list_elem_of_lookup. eauto.
          + apply lookup_ge_None in Ep. lia.
        - split; [exact Hle|]. apply lookup_lt_Some in Hpk. lia. }
      split.
      - rewrite map_app. cbn [map]. apply nondecreasing_snoc; [exact Hsorted|].
        intros a Ha. change (map Z.of_nat r) with (Z.of_nat <$> r) in Ha.
        rewrite fmap_last in Ha. destruct (last r) as [b|]; [|discriminate].
        cbn in Ha, Hk. injection Ha as <-. lia.
      - apply Forall_app. split; [exact Hrange|]. constructor; [tauto|constructor]. }
    destruct Hinv as [Hsorted Hrange]. rewrite Hsorted. cbn [andb].
    split.
    + apply forallb_forall. intros i Hi. apply in_map_iff in Hi as (k & <- & Hk).
      rewrite Forall_forall in Hrange. apply list_elem_of_In, Hrange in Hk.
      apply andb_true_iff. split; [apply Z.leb_le; lia|apply Z.ltb_lt]. lia.
    + apply Forall_forall. intros i Hi. apply list_elem_of_In in Hi.
      apply in_map_iff in Hi as (k & <- & Hk).
      rewrite Forall_forall in Hrange. apply list_elem_of_In, Hrange in Hk.
      destruct fullCoordinates; [left; reflexivity|right]. cbn in *. lia.
  - intros (ts & Hts & Hnone).
    assert (Hlt : (length stopCoords < length stops)%nat).
    { subst stopCoords. unfold Prep.knownStops. clear -Hts Hnone.
      induction stops as [|t l IH]; [inversion Hts|].
      assert (Hle : forall l', (length (omap (fun id => stopsJson !! id)
                                          (StopID <$> l')) <= length l')%nat).
      { induction l' as [|t' l' IH']; [reflexivity|]. cbn.
        destruct (stopsJson !! StopID t'); cbn; lia. }
      cbn. apply elem_of_cons in Hts as [->|Hts].
      - rewrite Hnone. specialize (Hle l). lia.
      - specialize (IH Hts). destruct (stopsJson !! StopID t); cbn; lia. }
    unfold wfShape, Prep.generatedShape. cbn [StopIndices stop_indices items].
    rewrite length_map, assign_length. split; [exact Hlt|]. fold stopCoords.
    apply Nat.lt_neq, Nat.eqb_neq in Hlt. rewrite Hlt. reflexivity.
Qed.

Lemma generatedShape_well_formed_witness :
  wfShape Sample.stops
    (Prep.generatedShape (fun x => F64.mul x x) (Coordinates Sample.shape)
       (Prep.knownStops (stopsCache Sample.snapshot) (StopID <$> Sample.stops)))
  = true.
Proof.
  apply (generatedShape_well_formed (fun x => F64.mul x x)
           (stopsCache Sample.snapshot) Sample.stops (Coordinates Sample.shape)).
  - vm_compute. reflexivity.
  - vm_compute. reflexivity.
  - vm_compute. discriminate.
Defined.

Lemma nondecreasing_intro l :
  (forall i a b, l !! i = Some a -> l !! S i = Some b -> a <= b) ->
  nondecreasing l = true.
Proof.
  induction l as [|a l IH]; intros H; [reflexivity|].
  destruct l as [|b l]; [reflexivity|].
  cbn [nondecreasing]. apply andb_true_iff. split.
  - apply Z.leb_le. apply (H 0%nat); reflexivity.
  - apply IH. intros i x y Hx Hy. apply (H (S i)); assumption.
Qed.

Lemma shiftFrom_lookup endIndex diff stop_indices i :
  Prep.shiftFrom endIndex diff stop_indices !! i =
  (fun x => if (endIndex <=? i)%nat then x + diff else x) <$> stop_indices !! i.
Proof. unfold Prep.shiftFrom. apply list_lookup_imap. Qed.

Lemma slice_head {A} (a : list A) s :
  0 <= s <= Z.of_nat (length a) -> Prep.slice a 0 s = take (Z.to_nat s) a.
Proof.
  intros H. unfold Prep.slice, Prep.relative.
  destruct (Z.ltb_spec s 0); [lia|]. cbn [Z.ltb Z.compare].
  rewrite (Z.min_l 0) by lia. rewrite (Z.min_l s) by lia.
  rewrite Z.sub_0_r. reflexivity.
Qed.

Lemma sliceFrom_tail {A} (a : list A) k :
  0 <= k <= Z.of_nat (length a) -> Prep.sliceFrom a k = drop (Z.to_nat k) a.
Proof.
  intros H. unfold Prep.sliceFrom, Prep.slice, Prep.relative.
  destruct (Z.ltb_spec k 0); [lia|].
  destruct (Z.ltb_spec (Z.of_nat (length a)) 0); [lia|].
  rewrite (Z.min_l k) by lia. rewrite Z.min_id.
  apply take_ge. rewrite length_drop. lia.
Qed.

Lemma applyOverride_splice stopIds current segKey newCoords
    startId endId more startIndex endIndex s e :
  Str.split Str.pipe segKey = startId :: endId :: more ->
  Prep.indexOf stopIds startId = Some startIndex ->
  Prep.indexOf stopIds endId = Some endIndex ->
  (startIndex < endIndex)%nat ->
  StopIndices current !! startIndex = Some s ->
  StopIndices current !! endIndex = Some e ->
  0 <= s <= e -> e < Z.of_nat (length (Coordinates current)) ->
  Prep.applyOverride stopIds current segKey newCoords =
  {| coordinates :=
       elements
         (take (Z.to_nat s) (Coordinates current) ++ newCoords ++
          drop (S (Z.to_nat e)) (Coordinates current));
     stop_indices :=
       elements
         (Prep.shiftFrom endIndex (Z.of_nat (length newCoords) - (e - s + 1))
            (StopIndices current)) |}.
Proof.
  intros Hsplit Hs He Hlt His Hie Hse Hlen. unfold Prep.applyOverride.
  rewrite Hsplit. cbn [nth lookup list_lookup mbind option_bind].
  rewrite Hs, He. apply Nat.ltb_lt in Hlt. rewrite Hlt, His, Hie.
  rewrite slice_head, sliceFrom_tail by lia.
  replace (Z.to_nat (e + 1)) with (S (Z.to_nat e)) by lia. reflexivity.
Qed.

(** X22. An override for two stops of the pattern, the first before the
    second, whose indices [s <= e] lie within the line, replaces the
    coordinates from [s] to [e] by the new ones and leaves those before
    and after as they are. The indices of the stops before the second
    stop stay, the second stop points at the last new coordinate, and
    every stop from the second on is moved by the change of length, so
    that a stop beyond [e] points at the coordinate it pointed at. *)
Theorem applyOverride_replaces_segment (stopIds : list string)
    (current : ShapeData) (segKey : string) (newCoords : list coord)
    (startId endId : string) (more : list string)
    (startIndex endIndex : nat) (s e : Z) :
  Str.split Str.pipe segKey = startId :: endId :: more ->
  Prep.indexOf stopIds startId = Some startIndex ->
  Prep.indexOf stopIds endId = Some endIndex ->
  (startIndex < endIndex)%nat ->
  StopIndices current !! startIndex = Some s ->
  StopIndices current !! endIndex = Some e ->
  0 <= s <= e -> e < Z.of_nat (length (Coordinates current)) ->
  let next := Prep.applyOverride stopIds current segKey newCoords in
  let diff := Z.of_nat (length newCoords) - (e - s + 1) in
  Z.of_nat (length (Coordinates next)) =
    Z.of_nat (length (Coordinates current)) + diff /\
  (forall j, 0 <= j < s ->
     Coordinates next !! Z.to_nat j = Coordinates current !! Z.to_nat j) /\
  (forall j, 0 <= j < Z.of_nat (length newCoords) ->
     Coordinates next !! Z.to_nat (s + j) = newCoords !! Z.to_nat j) /\
  (forall x, e < x ->
     Coordinates next !! Z.to_nat (x + diff) =
     Coordinates current !! Z.to_nat x) /\
  (forall i, (i < endIndex)%nat ->
     StopIndices next !! i = StopIndices current !! i) /\
  (forall i, (endIndex <= i)%nat ->
     StopIndices next !! i = (fun x => x + diff) <$> StopIndices current !! i) /\
  StopIndices next !! endIndex = Some (s + Z.of_nat (length newCoords) - 1).
Proof.
  intros Hsplit Hs He Hlt His Hie Hse Hlen next diff. subst next.
  rewrite (applyOverride_splice _ _ _ _ _ _ _ _ _ _ _
             Hsplit Hs He Hlt His Hie Hse Hlen).
  cbn [Coordinates StopIndices coordinates stop_indices items]. fold diff.
  set (coords := Coordinates current) in *.
  assert (Htake : length (take (Z.to_nat s) coords) = Z.to_nat s)
    by (rewrite length_take; lia).
  split; [|split; [|split; [|split; [|split; [|split]]]]].
  - rewrite !length_app, Htake, length_drop. subst diff. lia.
  - intros j Hj. rewrite lookup_app_l by lia. apply lookup_take_lt. lia.
  - intros j Hj. rewrite lookup_app_r by lia. rewrite Htake.
    replace (Z.to_nat (s + j) - Z.to_nat s)%nat with (Z.to_nat j) by lia.
    apply lookup_app_l. lia.
  - intros x Hx. rewrite lookup_app_r by (subst diff; lia). rewrite Htake.
    rewrite lookup_app_r by (subst diff; lia). rewrite lookup_drop.
    f_equal. subst diff. lia.
  - intros i Hi. rewrite shiftFrom_lookup.
    apply Nat.leb_gt in Hi. rewrite Hi.
    destruct (StopIndices current !! i); reflexivity.
  - intros i Hi. rewrite shiftFrom_lookup.
    apply Nat.leb_le in Hi. rewrite Hi. reflexivity.
  - rewrite shiftFrom_lookup, Hie, Nat.leb_refl. cbn. f_equal. subst diff. lia.
Qed.

Lemma applyOverride_replaces_segment_witness :
  StopIndices
    (Prep.applyOverride ["A"; "B"] Sample.shape "A|B"
       [Sample.pt 1 1; Sample.pt 2 2]) !! 1%nat = Some (0 + 2 - 1).
Proof.
  apply (applyOverride_replaces_segment ["A"; "B"] Sample.shape "A|B"
           [Sample.pt 1 1; Sample.pt 2 2] "A" "B" [] 0 1 0 10).
  - reflexivity.
  - reflexivity.
  - reflexivity.
  - lia.
  - reflexivity.
  - reflexivity.
  - lia.
  - simpl. lia.
Defined.

(** X23. An override between two stops that follow each other in the
    pattern, with at least one new coordinate, keeps a shape well formed:
    when the indices were in non-decreasing order and within the line,
    they are so afterwards. An override that does not name two stops of
    the pattern in their order changes nothing. *)
Theorem applyOverride_keeps_order (stopIds : list string)
    (current : ShapeData) (segKey : string) (newCoords : list coord)
    (startId endId : string) (more : list string) (startIndex : nat) :
  Str.split Str.pipe segKey = startId :: endId :: more ->
  (Prep.indexOf stopIds startId = Some startIndex ->
   Prep.indexOf stopIds endId = Some (S startIndex) ->
   (S startIndex < length (StopIndices current))%nat ->
   newCoords <> [] ->
   nondecreasing (StopIndices current) = true ->
   Forall (fun x => 0 <= x < Z.of_nat (length (Coordinates current)))
     (StopIndices current) ->
   let next := Prep.applyOverride stopIds current segKey newCoords in
   nondecreasing (StopIndices next) = true /\
   Forall (fun x => 0 <= x < Z.of_nat (length (Coordinates next)))
     (StopIndices next) /\
   length (StopIndices next) = length (StopIndices current)) /\
  ((forall i j, Prep.indexOf stopIds startId = Some i ->
      Prep.indexOf stopIds endId = Some j -> (j <= i)%nat) ->
   Prep.applyOverride stopIds current segKey newCoords = current).
Proof.
  intros Hsplit. split.
  - intros Hs He Hin Hnew Hsorted Hrange next.
    destruct (lookup_lt_is_Some_2 (StopIndices current) startIndex) as [s His];
      [lia|].
    destruct (lookup_lt_is_Some_2 (StopIndices current) (S startIndex))
      as [e Hie]; [lia|].
    pose proof (nondecreasing_lookup _ Hsorted) as Hmono.
    rewrite Forall_forall in Hrange.
    assert (Hat : forall i x, StopIndices current !! i = Some x ->
                    0 <= x < Z.of_nat (length (Coordinates current))).
    { intros i x Hx. apply Hrange, list_elem_of_lookup. eauto. }
    pose proof (Hat _ _ His) as Hsr. pose proof (Hat _ _ Hie) as Her.
    pose proof (Hmono _ _ _ _ (Nat.le_succ_diag_r _) His Hie) as Hse.
    assert (Hn : (0 < length newCoords)%nat)
      by (destruct newCoords; [congruence|cbn; lia]).
    subst next.
    rewrite (applyOverride_splice _ _ _ _ _ _ _ _ _ _ _
               Hsplit Hs He (Nat.lt_succ_diag_r _) His Hie
               (conj (proj1 Hsr) Hse) (proj2 Her)).
    cbn [Coordinates StopIndices coordinates stop_indices items].
    set (diff := Z.of_nat (length newCoords) - (e - s + 1)).
    assert (Hlen : Z.of_nat (length (take (Z.to_nat s) (Coordinates current) ++
                       newCoords ++ drop (S (Z.to_nat e)) (Coordinates current))) =
                   Z.of_nat (length (Coordinates current)) + diff).
    { rewrite !length_app, length_take, length_drop. subst diff. lia. }
    split; [|split].
    + apply nondecreasing_intro. intros i a b. rewrite !shiftFrom_lookup.
      destruct (Nat.leb_spec (S startIndex) i) as [Hi|Hi];
        destruct (Nat.leb_spec (S startIndex) (S i)) as [Hi'|Hi'];
        destruct (StopIndices current !! i) as [x|] eqn:Ex; try discriminate;
        destruct (StopIndices current !! S i) as [y|] eqn:Ey; try discriminate;
        cbn [fmap option_fmap option_map]; intros Ha Hb;
        injection Ha as <-; injection Hb as <-;
        pose proof (Hmono _ _ _ _ (Nat.le_succ_diag_r _) Ex Ey) as Hxy;
        try lia.
      assert (i = startIndex) by lia. subst i.
      rewrite His in Ex. rewrite Hie in Ey.
      injection Ex as <-. injection Ey as <-. subst diff. lia.
    + apply Forall_forall. intros z Hz.
      apply list_elem_of_lookup in Hz as [i Hz]. rewrite shiftFrom_lookup in Hz.
      rewrite Hlen.
      destruct (Nat.leb_spec (S startIndex) i) as [Hi|Hi];
        destruct (StopIndices current !! i) as [x|] eqn:Ex; try discriminate;
        cbn [fmap option_fmap option_map] in Hz; injection Hz as <-;
        pose proof (Hat _ _ Ex) as Hx.
      * pose proof (Hmono _ _ _ _ Hi Hie Ex). subst diff. lia.
      * assert (Hle : (i <= startIndex)%nat) by lia.
        pose proof (Hmono _ _ _ _ Hle Ex His). subst diff. lia.
    + unfold Prep.shiftFrom. apply length_imap.
  - intros Hno. unfold Prep.applyOverride. rewrite Hsplit.
    cbn [nth lookup list_lookup mbind option_bind].
    destruct (Prep.indexOf stopIds startId) as [i|]; [|reflexivity].
    destruct (Prep.indexOf stopIds endId) as [j|]; [|reflexivity].
    specialize (Hno i j eq_refl eq_refl).
    apply Nat.ltb_ge in Hno. rewrite Hno. reflexivity.
Qed.

Lemma applyOverride_keeps_order_witness :
  nondecreasing
    (StopIndices
       (Prep.applyOverride ["A"; "B"] Sample.shape "A|B"
          [Sample.pt 1 1; Sample.pt 2 2])) = true.
Proof.
  apply (applyOverride_keeps_order ["A"; "B"] Sample.shape "A|B"
           [Sample.pt 1 1; Sample.pt 2 2] "A" "B" [] 0).
  - reflexivity.
  - reflexivity.
  - reflexivity.
  - simpl. lia.
  - discriminate.
  - reflexivity.
  - vm_compute. repeat constructor; discriminate.
Defined.
